(* ===== verification/_CoqProject ===== *)
-Q . S2P
Prelude.v
GoLib.v
Settings.v
Operation.v
Block.v
Pow.v
Blockchain.v
ChainTheory.v
Ledger.v
LedgerTheory.v
AddBlock.v
QueryTheory.v
Rebuild.v
RFSLedger.v
Worker.v
Resolver.v
Manager.v
Rfslib.v
Server.v
Client.v
Peers.v
Batch.v
Dial.v
Listener.v
Threads.v
Miner.v
MinerTheory.v
Deadlock.v
Rounds.v
Startup.v
Examples.v
Scenarios.v
MinerScenarios.v
DeadlockScenarios.v
