(* ===== verification/Prelude.v ===== *)
(** * rfs-miner: a verification library

    rfs-miner is a record file system on a block chain. Clients create files
    and append fixed-size records; miners collect these operations into blocks,
    pay for them with coins they mined, and spread blocks and operations in a
    peer-to-peer network. A record is readable once enough blocks follow it on
    the longest chain.

    ** The program and its model

    - [settings], [bclib/operation.go], [bclib/block.go], [bclib/pow.go] are
      values and functions on them: [Settings], [Operation], [Block], [Pow].
      [GoLib] has what they use of the Go library: bytes, 64-bit integers, an
      executable MD5, the contracts of [sort.Slice] and of the gob codec.
    - [bclib/blockchain.go] keeps a tree of blocks linked by pointers and
      indexed by hash. [Blockchain] models it over an explicit store of nodes
      (a pointer is an index, an assignment an update of the store), with one
      definition per method; [AddBlock] has [AddBlock] and [validateBlock].
    - [bclib/blockchain_rfs.go] validates operations and answers queries on
      files by walking from a block to the genesis block: [Ledger]. Its
      interface [RFSLedger] is the class of the same name in [RFSLedger], with
      the class [LedgerLaws] for what an implementation promises.
    - [mining/worker.go] mines one block with or without operations: [Worker].
    - [p2p/blockchain_manager.go] is the thread that owns the chain: [Manager],
      one handler per case of its [select] loop ([on_sync], [on_flooded],
      [on_downloaded], [on_add]) and the relation [mstep] for the loop together
      with the other threads. [p2p/chain_resolver.go] is [Resolver].
    - [p2p/rpc.go] serves the clients, [rfslib] is their side of the
      connection: [Server], [Rfslib] with its interface [RFS] as a class, and
      [Client] for the two connected.
    - [p2p/p2p_rpc.go] and [p2p/peer.go] are the peer-to-peer side: [Peers]
      ([managePeers], flooding, [Peer.run]), [Batch] ([buildPendingOperations]
      and [startMining]), [Dial] ([DialPeer], [startMinerRPC]), [Listener] (the
      accept loops).
    - The [MinerServer] of [p2p/p2p_rpc.go] ties all of this together: a dozen
      kinds of threads that meet on channels without buffer and share a lock.
      [Threads] has its state: what the threads share and where each of them
      is. [Miner] has the steps: a relation per thread that uses the handlers
      of the components, and [step], one thread alone or two that meet.
      [Startup] has [NewMinerServer], with the thread of [main] dialing the
      peers while the others run, [shutdown] and [miner.go].

    A Go function that cannot fail is a Rocq function; one that can loop, crash
    or block is a computation [go] (below). Threads communicate by channels: a
    buffered channel that the modelled thread reads itself is a queue of its
    state, any other send is an output of the step. Methods that hold a lock are
    one step. The component files show each handler by itself; in [Miner] the
    same handlers are cut where a thread can be interrupted (at channels, at
    calls of the manager and of other miners, at the lock [clientRPC.mux]),
    their outputs are sent one by one, and a send waits for its receiver. Where a
    component is shown by itself, what it needs of other threads is an argument
    ([Others] for [checkConfirmedOperations], [Meets] and the loss of the
    connection for the calls of a client). Go's maps are stdpp's [gmap]; since a
    loop over a map has no fixed order, every such loop takes the order as an argument ([RangeOrder]) and the
    theorems hold for all orders. What lies outside the program (the gob codec,
    the JSON decoder, the network, the clock, the choice of a [select]) is an
    argument; where a theorem needs more than its presence, it names the
    contract ([GobLaws], [SortSlice], [LedgerLaws]).

    ** What is proved

    - Ledger safety ([AddBlock], with the loops analysed in [LedgerTheory]):
      [ValidateOperations] accepts exactly the admissible batches, for every
      order; [AddBlock] accepts exactly the valid blocks and then appends to one
      branch; so in every chain built by it no balance is negative, no
      operation occurs twice and every block has its proof of work.
    - The tree ([ChainTheory], [QueryTheory], [Rebuild]): the well-formedness
      invariant [wf]; the depth-first search finds exactly the deepest nodes;
      the queries answer for the confirmed part of the longest branch; files
      are append-only; a confirmed append is readable; a chain survives
      encoding, decoding and rebuilding.
    - Interface and clients ([RFSLedger], [Manager], [Worker], [Server],
      [Batch]): the chain and the manager implement the ledger interface; over
      any implementation the worker mines blocks that the chain takes, the
      server answers exactly the confirmed operations or blocks, an appended
      record can be read back, batches are bounded and admitted.
    - The network ([Manager], [Peers], [Dial], [Resolver]): the manager keeps
      its chain safe under every interleaving; a miner that is behind catches up
      after a download; flooding an operation reaches every connected miner and
      ends; a dialed miner takes over a copy of the chain. [Listener]: the
      accept loop serves connections in order, once, and leaks threads.
    - The running miner ([MinerTheory]): in every interleaving of its threads
      the manager only does what [mstep] allows, so the chain is safe
      ([miner_refines_manager]); every reachable state is well formed
      ([miner_state_ok]); a client that is told of a success is told the truth
      ([replies_sound]). [Rounds]: an added block can make its full round
      through the threads ([block_round]). [Startup]: in every interleaving the
      program waits only after it has met every configured peer ([main_run]),
      and its threads can all be shut down ([shutdown_completes]). [Client]: an
      application reads back what it appended; exactly which errors it sees.
    - Deadlocks ([Deadlock]): three pairs of threads can come to wait for each
      other, from where no continuation of the run leads out; each is reached
      from the start of a miner in [DeadlockScenarios].
    - Faults of the code, as theorems about it: on a fork the worker mines
      blocks that its chain rejects; [GenOpBlockTimeout] zero crashes the miner;
      cyclic predecessors keep the resolver busy for ever; refusing a client's operation keeps a lock;
      a second answer to a download crashes the manager; an unlinkable chain
      blocks [DialPeer]; a repeated address makes dialing endless; a block with
      nonce 0 is dropped.

    [Examples] and [Scenarios] mine a small chain and apply the theorems to it;
    [MinerScenarios] and [DeadlockScenarios] run a whole miner from its start.

    ** Fuel

    Loops whose end is not structural take fuel and return [NoFuel] without
    it. [getLastNodes], [backtrack] and [check_loop] get the number of nodes in
    the store, which the tree invariant shows to be enough ([getLastNodes_wf],
    [backtrack_wf]); [find_loop] gets the number of waiting blocks plus one,
    enough whenever the loop ends at all ([find_loop_enough], [ends_in_bound]); [run_loop]
    gets its fuel from the caller ([Run_terminates] says how much is enough);
    [drain] is shown to end within the stated fuel. [read_loop] and
    [dial_rounds] wait for other parties and may not end.

    The steps of [Miner] need no fuel: a loop is a sequence of steps, and the
    fuel of a nonce search is chosen with the step that ends it.

    ** What is not modelled

    Log messages and the tickers that only log, [logging] (a third-party
    logger), and data that no code uses: [bclib/transaction.go], the struct
    [Miner] of [miner.go], [NewPeerRequest], [NewFloodBlockReq],
    [MakeFloodBlockReq] and [PendingBlock] of [p2p_rpc.go].

    The steps of [Miner] have more behaviour than the program in four places.
    A panic ends the process; in [Miner] it ends only the thread ([MDead],
    [BDead]). A waiting writer keeps new readers from a Go lock; here a reader may
    always join readers. A client's call may read any file at any time, and a
    peer may be dialed at any time. The theorems over all runs hold for the
    program all the more. The start is followed from the moment both ports are
    open; before, a client's call is refused and changes nothing.

    Balances and counters of blocks are unbounded integers; Go's [int] would wrap
    only after about 2^55 mined blocks. Hashes, nonces, file positions and the
    settings keep their width.

    Chain safety is stated for runs in which no chain was taken over from a
    peer ([own_steps], [mstep]), since the code does not validate those. *)
From stdpp Require Export base tactics option list gmap strings.
From Stdlib Require Export ZArith Lia.

(** ** Automation *)

(** [miner]: lemmas that resolve routine side conditions; [go_run]: equations
    that run Go computations. *)
Create HintDb miner discriminated.
Create Rewrite HintDb go_run.

(** ** Computations

    A Go function that can loop, crash or block is a [go A]: it returns a
    value, panics (nil dereference, index out of range), has not finished within
    the fuel given to its loop, or waits for ever on a channel or a lock that
    only it could free. *)
Inductive go (A : Type) : Type :=
| Ret (a : A)
| Panic
| NoFuel
| Stuck.
Arguments Ret {A} a.
Arguments Panic {A}.
Arguments NoFuel {A}.
Arguments Stuck {A}.

#[export] Instance go_ret : MRet go := fun A a => Ret a.
#[export] Instance go_bind : MBind go := fun A B f c =>
  match c with
  | Ret a => f a
  | Panic => Panic
  | NoFuel => NoFuel
  | Stuck => Stuck
  end.

(** Dereferencing: a failed lookup panics. *)
Definition deref {A} (o : option A) : go A :=
  match o with Some a => Ret a | None => Panic end.

Lemma go_bind_Ret_inv {A B} (c : go A) (f : A -> go B) b :
  c ≫= f = Ret b <-> exists a, c = Ret a /\ f a = Ret b.
Proof.
  destruct c; simpl; split; try (intros H; by (exists a || discriminate H));
    intros (x & Hx & Hf); by inversion Hx; subst.
Qed.

Lemma go_bind_of_Ret {A B} (a : A) (f : A -> go B) : Ret a ≫= f = f a.
Proof. reflexivity. Qed.

Lemma go_bind_assoc {A B C} (c : go A) (f : A -> go B) (g : B -> go C) :
  (c ≫= f) ≫= g = c ≫= (fun a => f a ≫= g).
Proof. by destruct c. Qed.

Lemma deref_Some {A} (o : option A) a : deref o = Ret a <-> o = Some a.
Proof. destruct o; simpl; split; congruence. Qed.
#[export] Hint Rewrite @go_bind_of_Ret : go_run.

(** [go_inv H]: splits a successful run [H : c1; c2; ... = Ret r] into the
    runs of its parts. *)
Ltac go_inv H :=
  repeat match type of H with
  | _ ≫= _ = Ret _ =>
      let a := fresh "r" in let H1 := fresh H in
      apply go_bind_Ret_inv in H as (a & H1 & H); cbv beta in H
  end.

(** Functions that return a value or a Go [error]; the error carries its
    message. *)
Inductive result (A : Type) : Type :=
| Ok (a : A)
| Err (e : string).
Arguments Ok {A} a.
Arguments Err {A} e.

Definition is_ok {A} (r : result A) : bool :=
  match r with Ok _ => true | Err _ => false end.

(** ** Iteration over Go maps

    The order in which [for k, v := range m] visits a map is unspecified, so a
    loop takes the order as an argument: any enumeration of the entries. *)
Record RangeOrder : Type := {
  range : forall {V : Type}, gmap string V -> list (string * V);
  range_perm : forall (V : Type) (m : gmap string V), range m ≡ₚ map_to_list m
}.

(** Two concrete orders, for evaluation. *)
Definition range_fwd : RangeOrder :=
  {| range := fun V m => map_to_list m; range_perm := fun V m => Permutation_refl _ |}.
Definition range_bwd : RangeOrder :=
  {| range := fun V m => reverse (map_to_list m);
     range_perm := fun V m => reverse_Permutation _ |}.

Section range.
Context {V : Type} (rg : RangeOrder) (m : gmap string V).

Lemma elem_of_range k v : (k, v) ∈ range rg m <-> m !! k = Some v.
Proof. rewrite (range_perm rg). apply elem_of_map_to_list. Qed.

Lemma NoDup_range : NoDup (range rg m).
Proof. rewrite (range_perm rg). apply NoDup_map_to_list. Qed.

Lemma NoDup_range_keys : NoDup (range rg m).*1.
Proof. rewrite (range_perm rg). apply NoDup_fst_map_to_list. Qed.

Lemma length_range : length (range rg m) = size m.
Proof. rewrite (range_perm rg). apply length_map_to_list. Qed.

Lemma list_to_map_range : list_to_map (range rg m) = m.
Proof.
  rewrite (list_to_map_proper _ (map_to_list m)); [apply list_to_map_to_list | |].
  - apply NoDup_range_keys.
  - apply range_perm.
Qed.
End range.

(** ** Sums *)
Definition sumZ (l : list Z) : Z := foldr Z.add 0%Z l.

Lemma sumZ_app l1 l2 : sumZ (l1 ++ l2) = (sumZ l1 + sumZ l2)%Z.
Proof. induction l1; simpl; lia. Qed.

#[export] Instance sumZ_perm : Proper ((≡ₚ) ==> (=)) sumZ.
Proof. induction 1; simpl; lia. Qed.

Lemma sumZ_nonneg l : Forall (fun z => (0 <= z)%Z) l -> (0 <= sumZ l)%Z.
Proof. induction 1; simpl; lia. Qed.

(** ** Lists *)

(** Invariant rule for [for _, x := range l] loops. *)
Lemma fold_left_inv {A B} (P : list B -> A -> Prop) (f : A -> B -> A) l a :
  P [] a ->
  (forall done x rest a, l = done ++ x :: rest -> P done a -> P (done ++ [x]) (f a x)) ->
  P l (fold_left f l a).
Proof.
  intros H0 Hstep. cut (forall done rest a, l = done ++ rest -> P done a ->
    P l (fold_left f rest a)); [intros H; by apply (H [])|].
  intros done rest; revert done. induction rest as [|x rest IH]; intros done b -> HP; simpl.
  - by rewrite app_nil_r.
  - apply (IH (done ++ [x])); [by rewrite <- app_assoc|]. by eapply Hstep.
Qed.

Lemma NoDup_fmap_inj_on {A B} (f : A -> B) (l : list A) x y :
  NoDup (f <$> l) -> x ∈ l -> y ∈ l -> f x = f y -> x = y.
Proof.
  induction l as [|a l IH]; [set_solver|]. rewrite fmap_cons, NoDup_cons.
  intros [Ha Hl] Hx Hy Heq. apply elem_of_cons in Hx, Hy.
  destruct Hx as [->|Hx], Hy as [->|Hy]; auto; exfalso; apply Ha.
  - rewrite Heq. by apply list_elem_of_fmap_2.
  - rewrite <- Heq. by apply list_elem_of_fmap_2.
Qed.

(** A list without repetitions of indices below [n] has at most [n] elements. *)
Lemma NoDup_bounded_length (l : list nat) n :
  NoDup l -> Forall (fun i => i < n) l -> length l <= n.
Proof.
  intros Hnd Hb. cut (length l <= length (seq 0 n)); [by rewrite length_seq|].
  apply submseteq_length, NoDup_submseteq; [done|].
  intros i Hi. rewrite Forall_forall in Hb. apply elem_of_seq.
  specialize (Hb i Hi). lia.
Qed.

(** ** Slices reversed in place *)

(** [l[i], l[j] = l[j], l[i]], for indices in range. *)
Definition swap {A} (i j : nat) (l : list A) : list A :=
  match l !! i, l !! j with
  | Some x, Some y => <[i := y]> (<[j := x]> l)
  | _, _ => l
  end.

(** [for i, j := 0, len(l)-1; i < j; i, j = i+1, j-1 { swap }]. *)
Fixpoint reverse_ij {A} (fuel i j : nat) (l : list A) : list A :=
  match fuel with
  | O => l
  | S fuel => if decide (i < j) then reverse_ij fuel (S i) (pred j) (swap i j l) else l
  end.
Definition reverse_two_pointers {A} (l : list A) : list A :=
  reverse_ij (length l) 0 (pred (length l)) l.

(** [for i := 0; i < len(l)/2; i++ { j := len(l) - i - 1; swap }]. *)
Definition reverse_half {A} (l : list A) : list A :=
  fold_left (fun l' i => swap i (length l - i - 1) l') (seq 0 (length l / 2)) l.

Section reverse.
Context {A : Type} (l0 : list A).
Let n := length l0.

(** The slice after [k] swaps: the first and last [k] elements are mirrored. *)
Definition mirrored (k : nat) (l : list A) : Prop :=
  length l = n /\
  forall x, x < n -> l !! x = if decide (x < k \/ n - k <= x) then l0 !! (n - 1 - x) else l0 !! x.

Lemma mirrored_swap k l :
  S (2 * k) < n + 1 -> mirrored k l -> mirrored (S k) (swap k (n - k - 1) l).
Proof using Type.
  intros Hk [Hlen Hl]. unfold swap.
  destruct (lookup_lt_is_Some_2 l k) as [x Hx]; [lia|].
  destruct (lookup_lt_is_Some_2 l (n - k - 1)) as [y Hy]; [lia|]. rewrite Hx, Hy.
  split; [by rewrite !length_insert|]. intros i Hi.
  rewrite Hl, decide_False in Hx by lia. rewrite Hl, decide_False in Hy by lia.
  destruct (decide (i = k)) as [->|]; [|destruct (decide (i = n - k - 1)) as [->|]].
  - rewrite list_lookup_insert_eq by (rewrite length_insert; lia).
    rewrite decide_True by lia. rewrite <- Hy. f_equal. lia.
  - rewrite list_lookup_insert_ne, list_lookup_insert_eq by lia.
    rewrite decide_True by lia. rewrite <- Hx. f_equal. lia.
  - rewrite !list_lookup_insert_ne, Hl by lia.
    destruct (decide (i < k \/ n - k <= i)); [rewrite decide_True by lia|rewrite decide_False by lia];
      done.
Qed.

Lemma mirrored_done k l : n <= S (2 * k) -> mirrored k l -> l = reverse l0.
Proof using Type.
  intros Hk [Hlen Hl]. apply list_eq. intros i. destruct (decide (i < n)) as [Hi|Hi].
  - rewrite Hl, reverse_lookup by done. fold n. case_decide; f_equal; lia.
  - rewrite !lookup_ge_None_2; [done|rewrite length_reverse; lia|lia].
Qed.

Lemma mirrored_0 : mirrored 0 l0.
Proof using Type. split; [done|]. intros x Hx. rewrite decide_False by lia. done. Qed.
End reverse.

Lemma reverse_two_pointers_eq {A} (l : list A) : reverse_two_pointers l = reverse l.
Proof.
  unfold reverse_two_pointers.
  cut (forall fuel k l', length l <= k + S fuel -> mirrored l k l' ->
    reverse_ij fuel k (pred (length l) - k) l' = reverse l).
  { intros H. rewrite <- (Nat.sub_0_r (pred (length l))).
    apply H; [lia|apply mirrored_0]. }
  induction fuel as [|fuel IH]; intros k l' Hf Hm; simpl.
  - eapply mirrored_done; [|done]. lia.
  - case_decide as Hlt; [|eapply mirrored_done; [|done]; lia].
    replace (pred (pred (length l) - k)) with (pred (length l) - S k) by lia.
    apply IH; [lia|]. replace (pred (length l) - k) with (length l - k - 1) by lia.
    apply mirrored_swap; [lia|done].
Qed.

Lemma reverse_half_eq {A} (l : list A) : reverse_half l = reverse l.
Proof.
  apply (mirrored_done l (length l / 2)).
  { pose proof (Nat.div_mod_eq (length l) 2). pose proof (Nat.mod_upper_bound (length l) 2). lia. }
  unfold reverse_half. rewrite <- (length_seq (length l / 2) 0) at 1.
  apply (fold_left_inv (fun done l' => mirrored l (length done) l')); [apply mirrored_0|].
  intros done i rest l' Hseq Hm. rewrite length_app, Nat.add_comm. cbn [length Nat.add].
  assert (i = length done) as ->.
  { apply (f_equal (fun s => s !! length done)) in Hseq.
    rewrite list_lookup_middle in Hseq by done.
    apply lookup_seq in Hseq. lia. }
  apply mirrored_swap; [|done].
  apply (f_equal length) in Hseq. rewrite length_seq, length_app in Hseq. cbn [length] in Hseq.
  pose proof (Nat.div_mod_eq (length l) 2). lia.
Qed.
