(* ===== verification/GoLib.v ===== *)
(** What the miner uses of the Go standard library: byte strings, fixed-width
    and arbitrary-precision integers ([encoding/binary], [math/big]),
    [crypto/md5], and [sort.Slice].

    A Go [string] and a Go [[]byte] are both a Rocq [string], a sequence of
    8-bit characters; the conversions between the two copy the bytes, and no
    code of the miner writes into a byte slice after building it. A [nil] and
    an empty slice are the same sequence. *)
From S2P Require Import Prelude.
From Stdlib Require Import Ascii.
From stdpp Require Import sorting.
Local Open Scope Z_scope.

(** ** Bytes *)

Definition Z_of_byte (c : ascii) : Z := Z.of_N (N_of_ascii c).
Definition byte_of_Z (z : Z) : ascii := ascii_of_N (Z.to_N (z mod 256)).

Fixpoint bytes_of_string (s : string) : list Z :=
  match s with
  | EmptyString => []
  | String c s' => Z_of_byte c :: bytes_of_string s'
  end.

Fixpoint string_of_bytes (l : list Z) : string :=
  match l with
  | [] => EmptyString
  | z :: l' => String (byte_of_Z z) (string_of_bytes l')
  end.

Definition is_byte (z : Z) : Prop := 0 <= z < 256.

Lemma Z_of_byte_range c : is_byte (Z_of_byte c).
Proof.
  unfold is_byte, Z_of_byte. pose proof (N_ascii_bounded c). lia.
Qed.

Lemma Z_of_byte_of_Z z : is_byte z -> Z_of_byte (byte_of_Z z) = z.
Proof.
  unfold is_byte, Z_of_byte, byte_of_Z. intros H. rewrite Z.mod_small by lia.
  rewrite N_ascii_embedding; lia.
Qed.

Lemma byte_of_Z_of_byte c : byte_of_Z (Z_of_byte c) = c.
Proof.
  unfold byte_of_Z. rewrite Z.mod_small by apply Z_of_byte_range.
  unfold Z_of_byte. rewrite N2Z.id. apply ascii_N_embedding.
Qed.

Lemma bytes_of_string_range s : Forall is_byte (bytes_of_string s).
Proof. induction s; simpl; constructor; auto using Z_of_byte_range. Qed.

Lemma bytes_of_string_of_bytes l :
  Forall is_byte l -> bytes_of_string (string_of_bytes l) = l.
Proof. induction 1; simpl; f_equal; auto using Z_of_byte_of_Z. Qed.

Lemma string_of_bytes_of_string s : string_of_bytes (bytes_of_string s) = s.
Proof. induction s; simpl; f_equal; auto using byte_of_Z_of_byte. Qed.

Lemma length_bytes_of_string s : length (bytes_of_string s) = String.length s.
Proof. induction s; simpl; congruence. Qed.

Lemma length_string_of_bytes l : String.length (string_of_bytes l) = length l.
Proof. induction l; simpl; congruence. Qed.

Lemma bytes_of_string_app s t :
  bytes_of_string (s +:+ t) = bytes_of_string s ++ bytes_of_string t.
Proof.
  induction s as [|c s IH]; [done|].
  change (String c s +:+ t) with (String c (s +:+ t)). simpl. by rewrite IH.
Qed.

(** [len(s)] as a Go [int]. *)
Definition str_len (s : string) : Z := Z.of_nat (String.length s).

(** ** Integers as bytes *)

(** Big-endian: [binary.Write(_, binary.BigEndian, _)] and [big.Int.SetBytes]. *)
Fixpoint be_bytes (n : nat) (z : Z) : list Z :=
  match n with
  | O => []
  | S k => Z.shiftr z (8 * Z.of_nat k) mod 256 :: be_bytes k z
  end.

(** The value of a list of digits, most significant first. *)
Definition digits_val (base : Z) (l : list Z) : Z :=
  fold_left (fun acc d => acc * base + d) l 0.

Definition be_val (l : list Z) : Z := digits_val 256 l.

Section digits.
Context (base : Z) (Hbase : 1 < base).

Lemma digits_val_acc l a :
  fold_left (fun acc d => acc * base + d) l a
  = a * base ^ Z.of_nat (length l) + digits_val base l.
Proof using Type.
  unfold digits_val. revert a; induction l as [|b l IH]; intros a.
  - simpl. lia.
  - cbn [fold_left length]. rewrite (IH (a * base + b)), (IH (0 * base + b)).
    rewrite Nat2Z.inj_succ, Z.pow_succ_r by lia. ring.
Qed.

Lemma digits_val_cons b l :
  digits_val base (b :: l) = b * base ^ Z.of_nat (length l) + digits_val base l.
Proof using Type. unfold digits_val at 1. cbn [fold_left]. rewrite digits_val_acc. f_equal; lia. Qed.

Lemma digits_val_app l1 l2 :
  digits_val base (l1 ++ l2)
  = digits_val base l1 * base ^ Z.of_nat (length l2) + digits_val base l2.
Proof using Type. unfold digits_val at 1. by rewrite fold_left_app, digits_val_acc. Qed.

Lemma digits_val_range l :
  Forall (fun d => 0 <= d < base) l -> 0 <= digits_val base l < base ^ Z.of_nat (length l).
Proof using Hbase.
  induction 1 as [|b l Hb _ IH]; [done|].
  rewrite digits_val_cons. cbn [length]. rewrite Nat2Z.inj_succ, Z.pow_succ_r by lia. nia.
Qed.

Lemma digits_val_0 l :
  Forall (fun d => 0 <= d < base) l -> digits_val base l = 0 <-> Forall (fun d => d = 0) l.
Proof using Hbase.
  induction 1 as [|b l Hb Hl IH]; [done|].
  rewrite digits_val_cons, Forall_cons, <- IH.
  pose proof (digits_val_range l Hl). pose proof (Z.pow_pos_nonneg base (Z.of_nat (length l))).
  split; nia.
Qed.

(** The low [n] digits are zero exactly when [base ^ n] divides the value. *)
Lemma digits_val_mod l (n : nat) :
  Forall (fun d => 0 <= d < base) l ->
  digits_val base l mod base ^ Z.of_nat n = 0 <->
  Forall (fun d => d = 0) (drop (length l - n) l).
Proof using Hbase.
  intros Hl. rewrite <- (take_drop (length l - n) l) in Hl at 1.
  apply Forall_app in Hl as [_ Hlow]. rewrite <- digits_val_0 by done.
  rewrite <- (take_drop (length l - n) l) at 1. rewrite digits_val_app, length_drop.
  pose proof (digits_val_range _ Hlow) as Hr. rewrite length_drop in Hr.
  destruct (decide (n <= length l)%nat).
  - replace (length l - (length l - n))%nat with n in * by lia.
    rewrite Z.add_comm, Z.mod_add by (apply Z.pow_nonzero; lia).
    by rewrite Z.mod_small.
  - replace (length l - n)%nat with 0%nat in * by lia.
    rewrite take_0, drop_0, Nat.sub_0_r in *.
    assert (base ^ Z.of_nat (length l) <= base ^ Z.of_nat n) by (apply Z.pow_le_mono_r; lia).
    change (digits_val base []) with 0. rewrite Z.mul_0_l, Z.add_0_l.
    rewrite Z.mod_small; [done|lia].
Qed.
End digits.

Lemma length_be_bytes n z : length (be_bytes n z) = n.
Proof. induction n; simpl; congruence. Qed.

Lemma be_bytes_range n z : Forall is_byte (be_bytes n z).
Proof.
  induction n; simpl; constructor; [|done]. unfold is_byte.
  pose proof (Z.mod_pos_bound (Z.shiftr z (8 * Z.of_nat n)) 256). lia.
Qed.

Lemma be_val_be_bytes n z : be_val (be_bytes n z) = z mod 256 ^ Z.of_nat n.
Proof.
  induction n as [|n IH]; [by rewrite Z.mod_1_r|]. cbn [be_bytes].
  unfold be_val in *. rewrite digits_val_cons, length_be_bytes, IH, Z.shiftr_div_pow2 by lia.
  replace (2 ^ (8 * Z.of_nat n)) with (256 ^ Z.of_nat n)
    by (rewrite Z.pow_mul_r by lia; done).
  rewrite Nat2Z.inj_succ, Z.pow_succ_r by lia.
  rewrite (Z.mul_comm 256), Z.rem_mul_r by lia. ring.
Qed.

Lemma be_val_range l : Forall is_byte l -> 0 <= be_val l < 256 ^ Z.of_nat (length l).
Proof. intros. by apply digits_val_range. Qed.

(** The hexadecimal digits of a byte string. *)
Definition nibbles (s : string) : list Z :=
  b ← bytes_of_string s; [b / 16; b mod 16].

Lemma nibbles_range s : Forall (fun d => 0 <= d < 16) (nibbles s).
Proof.
  unfold nibbles. pose proof (bytes_of_string_range s) as H.
  induction H as [|b l Hb _ IH]; [constructor|]. unfold is_byte in Hb.
  cbn. repeat constructor; [apply Z.div_pos|apply Z.div_lt_upper_bound
    |apply Z.mod_pos_bound|apply Z.mod_pos_bound|]; (done || lia).
Qed.

Lemma length_nibbles s : length (nibbles s) = (2 * String.length s)%nat.
Proof.
  unfold nibbles. rewrite <- length_bytes_of_string.
  induction (bytes_of_string s); [done|]. cbn -[Nat.mul] in *. lia.
Qed.

Lemma nibbles_val s : digits_val 16 (nibbles s) = be_val (bytes_of_string s).
Proof.
  unfold nibbles, be_val. induction (bytes_of_string s) as [|b l IH]; [done|].
  cbn [mbind list_bind app]. rewrite !digits_val_cons, IH. cbn [length].
  assert (Hlen : forall l' : list Z, length (b ← l'; [b / 16; b mod 16]) = (2 * length l')%nat).
  { induction l'; [done|]. cbn -[Nat.mul] in *. lia. }
  rewrite Hlen. replace (Z.of_nat (S (2 * length l))) with (2 * Z.of_nat (length l) + 1) by lia.
  replace (Z.of_nat (2 * length l)) with (2 * Z.of_nat (length l)) by lia.
  rewrite Z.pow_add_r, Z.pow_mul_r by lia. change (16 ^ 2) with 256.
  pose proof (Z.div_mod b 16). nia.
Qed.

(** Two's complement: the bit pattern of an [int64], and back. *)
Definition uint64 (z : Z) : Z := z mod 2 ^ 64.
Definition int64 (z : Z) : Z :=
  let u := uint64 z in if u <? 2 ^ 63 then u else u - 2 ^ 64.
Definition is_int64 (z : Z) : Prop := - 2 ^ 63 <= z < 2 ^ 63.
Definition is_uint8 (z : Z) : Prop := 0 <= z < 256.
Definition uint16 (z : Z) : Z := z mod 2 ^ 16.
Definition MaxInt64 : Z := 2 ^ 63 - 1.
Definition MaxUint16 : Z := 2 ^ 16 - 1.

Lemma int64_uint64 z : is_int64 z -> int64 (uint64 z) = z.
Proof.
  unfold int64, uint64, is_int64. intros H. rewrite Z.mod_mod by lia.
  destruct (decide (0 <= z)).
  - rewrite Z.mod_small by lia. destruct (Z.ltb_spec z (2 ^ 63)); lia.
  - rewrite <- (Z_mod_plus_full z 1 (2 ^ 64)), Z.mod_small by lia.
    destruct (Z.ltb_spec (z + 1 * 2 ^ 64) (2 ^ 63)); lia.
Qed.

(** ** [crypto/md5] (RFC 1321) *)
Module MD5.
Definition w32 : Z := 2 ^ 32.
Definition add32 (x y : Z) : Z := (x + y) mod w32.
Definition not32 (x : Z) : Z := (w32 - 1) - x mod w32.
Definition rotl32 (x c : Z) : Z :=
  Z.lor (Z.shiftl x c mod w32) (Z.shiftr (x mod w32) (32 - c)).

Definition shifts : list Z :=
  concat (map (fun r => concat (replicate 4 r))
    [[7; 12; 17; 22]; [5; 9; 14; 20]; [4; 11; 16; 23]; [6; 10; 15; 21]]).

Definition table : list Z :=
  [0xd76aa478; 0xe8c7b756; 0x242070db; 0xc1bdceee; 0xf57c0faf; 0x4787c62a; 0xa8304613; 0xfd469501;
   0x698098d8; 0x8b44f7af; 0xffff5bb1; 0x895cd7be; 0x6b901122; 0xfd987193; 0xa679438e; 0x49b40821;
   0xf61e2562; 0xc040b340; 0x265e5a51; 0xe9b6c7aa; 0xd62f105d; 0x02441453; 0xd8a1e681; 0xe7d3fbc8;
   0x21e1cde6; 0xc33707d6; 0xf4d50d87; 0x455a14ed; 0xa9e3e905; 0xfcefa3f8; 0x676f02d9; 0x8d2a4c8a;
   0xfffa3942; 0x8771f681; 0x6d9d6122; 0xfde5380c; 0xa4beea44; 0x4bdecfa9; 0xf6bb4b60; 0xbebfbc70;
   0x289b7ec6; 0xeaa127fa; 0xd4ef3085; 0x04881d05; 0xd9d4d039; 0xe6db99e5; 0x1fa27cf8; 0xc4ac5665;
   0xf4292244; 0x432aff97; 0xab9423a7; 0xfc93a039; 0x655b59c3; 0x8f0ccc92; 0xffeff47d; 0x85845dd1;
   0x6fa87e4f; 0xfe2ce6e0; 0xa3014314; 0x4e0811a1; 0xf7537e82; 0xbd3af235; 0x2ad7d2bb; 0xeb86d391].

Record digest := Digest { dA : Z; dB : Z; dC : Z; dD : Z }.
Definition init : digest := Digest 0x67452301 0xefcdab89 0x98badcfe 0x10325476.

Definition mix (i : nat) (b c d : Z) : Z * nat :=
  if (i <? 16)%nat then (Z.lor (Z.land b c) (Z.land (not32 b) d), i)
  else if (i <? 32)%nat then (Z.lor (Z.land d b) (Z.land (not32 d) c), (5 * i + 1) mod 16)%nat
  else if (i <? 48)%nat then (Z.lxor (Z.lxor b c) d, (3 * i + 5) mod 16)%nat
  else (Z.lxor c (Z.lor b (not32 d)), (7 * i) mod 16)%nat.

Definition round (ws : list Z) (s : digest) (i : nat) : digest :=
  let '(f, g) := mix i (dB s) (dC s) (dD s) in
  let f' := add32 (add32 (add32 f (dA s)) (nth i table 0)) (nth g ws 0) in
  Digest (dD s) (add32 (dB s) (rotl32 f' (nth i shifts 0))) (dB s) (dC s).

Fixpoint le_val (l : list Z) : Z :=
  match l with [] => 0 | b :: l' => b + 256 * le_val l' end.
Fixpoint le_bytes (n : nat) (z : Z) : list Z :=
  match n with O => [] | S k => z mod 256 :: le_bytes k (z / 256) end.

Fixpoint words (n : nat) (l : list Z) : list Z :=
  match n with O => [] | S k => le_val (firstn 4 l) :: words k (skipn 4 l) end.

Definition block (s : digest) (chunk : list Z) : digest :=
  let ws := words 16 chunk in
  let s' := fold_left (round ws) (seq 0 64) s in
  Digest (add32 (dA s) (dA s')) (add32 (dB s) (dB s'))
         (add32 (dC s) (dC s')) (add32 (dD s) (dD s')).

Fixpoint blocks (n : nat) (l : list Z) (s : digest) : digest :=
  match n with O => s | S k => blocks k (skipn 64 l) (block s (firstn 64 l)) end.

Definition pad (l : list Z) : list Z :=
  let n := length l in
  l ++ [128] ++ replicate (63 - (n + 8) mod 64)%nat 0 ++ le_bytes 8 (8 * Z.of_nat n).

Definition sum_bytes (l : list Z) : list Z :=
  let p := pad l in
  let s := blocks (length p / 64)%nat p init in
  le_bytes 4 (dA s) ++ le_bytes 4 (dB s) ++ le_bytes 4 (dC s) ++ le_bytes 4 (dD s).

Definition Sum (data : string) : string :=
  string_of_bytes (sum_bytes (bytes_of_string data)).
End MD5.

(** Go's [md5.Sum]: the 16-byte digest of a byte string. *)
Definition md5_Sum (data : string) : string := MD5.Sum data.

Lemma md5_le_bytes_length n z : length (MD5.le_bytes n z) = n.
Proof. revert z; induction n; intros z; simpl; [done|]. by rewrite IHn. Qed.

Lemma md5_length data : String.length (md5_Sum data) = 16%nat.
Proof.
  unfold md5_Sum, MD5.Sum, MD5.sum_bytes.
  rewrite length_string_of_bytes, !length_app, !md5_le_bytes_length. done.
Qed.

(** The test suite of RFC 1321. *)
Definition hex_digit (d : Z) : string :=
  String (byte_of_Z (if d <? 10 then 48 + d else 87 + d)) EmptyString.
Definition hex (s : string) : string :=
  foldr (fun b acc => hex_digit (b / 16) +:+ hex_digit (b mod 16) +:+ acc) EmptyString
    (bytes_of_string s).

Example md5_rfc_1 : hex (md5_Sum EmptyString) = "d41d8cd98f00b204e9800998ecf8427e"%string.
Proof. vm_compute. reflexivity. Qed.
Example md5_rfc_3 : hex (md5_Sum "abc") = "900150983cd24fb0d6963f7d28e17f72"%string.
Proof. vm_compute. reflexivity. Qed.
Example md5_rfc_7 :
  hex (md5_Sum (String.concat EmptyString (replicate 8 "1234567890"%string)))
  = "57edf4a22be3c955ac49da2e2107b67a"%string.
Proof. vm_compute. reflexivity. Qed.

(** Proofs never unfold the digest; evaluation does. *)
#[global] Opaque md5_Sum.

(** ** [math/big] *)

(** [SetBytes], [Rsh], [Lsh]: unsigned big-endian bytes, shifts of a
    non-negative integer. *)
Definition big_SetBytes (b : string) : Z := be_val (bytes_of_string b).
Definition big_Rsh (x n : Z) : Z := Z.shiftr x n.
Definition big_Lsh (x n : Z) : Z := Z.shiftl x n.

Lemma big_SetBytes_range b :
  0 <= big_SetBytes b < 256 ^ Z.of_nat (String.length b).
Proof.
  unfold big_SetBytes. rewrite <- length_bytes_of_string.
  apply be_val_range, bytes_of_string_range.
Qed.

(** Shifting right and left again by [n] keeps a number exactly when its [n]
    low bits are zero. *)
Lemma big_shift_back x n :
  0 <= n -> x = big_Lsh (big_Rsh x n) n <-> x mod 2 ^ n = 0.
Proof.
  intros Hn. unfold big_Lsh, big_Rsh.
  rewrite Z.shiftl_mul_pow2, Z.shiftr_div_pow2 by lia.
  pose proof (Z.div_mod x (2 ^ n)). split; intros; nia.
Qed.

(** ** [sort.Slice]

    The result is a sorted permutation; the sort is not stable, so nothing is
    known about the order of equal elements. *)
Record SortSlice : Type := {
  sort_slice : forall {A : Type}, (A -> A -> bool) -> list A -> list A;
  sort_slice_perm : forall (A : Type) (less : A -> A -> bool) l,
    sort_slice less l ≡ₚ l;
  sort_slice_sorted : forall (A : Type) (less : A -> A -> bool) (key : A -> Z) l,
    (forall a b, less a b = (key a <? key b)) ->
    StronglySorted (fun a b => key a <= key b) (sort_slice less l)
}.

(** One sort with this contract: insertion sort. *)
Section insertion.
Context {A : Type} (less : A -> A -> bool).

Fixpoint insert_sorted (x : A) (l : list A) : list A :=
  match l with
  | [] => [x]
  | y :: l' => if less y x then y :: insert_sorted x l' else x :: l
  end.

Definition insertion_sort (l : list A) : list A := foldr insert_sorted [] l.

Lemma insert_sorted_perm x l : insert_sorted x l ≡ₚ x :: l.
Proof.
  induction l as [|y l IH]; simpl; [done|]. destruct (less y x); [|done].
  rewrite IH. constructor.
Qed.

Lemma insertion_sort_perm l : insertion_sort l ≡ₚ l.
Proof. induction l; simpl; [done|]. rewrite insert_sorted_perm. by f_equiv. Qed.

Lemma insert_sorted_sorted (key : A -> Z) x l :
  (forall a b, less a b = (key a <? key b)) ->
  StronglySorted (fun a b => key a <= key b) l ->
  StronglySorted (fun a b => key a <= key b) (insert_sorted x l).
Proof.
  intros Hless. induction 1 as [|y l Hl IH Hy]; simpl; [by repeat constructor|].
  rewrite Hless. destruct (Z.ltb_spec (key y) (key x)).
  - constructor; [done|]. rewrite (insert_sorted_perm x l). constructor; [lia|done].
  - constructor; [by constructor|]. constructor; [lia|].
    eapply Forall_impl; [done|]. simpl. lia.
Qed.

Lemma insertion_sort_sorted (key : A -> Z) l :
  (forall a b, less a b = (key a <? key b)) ->
  StronglySorted (fun a b => key a <= key b) (insertion_sort l).
Proof.
  intros Hless. induction l; simpl; [constructor|]. by apply insert_sorted_sorted.
Qed.
End insertion.

Definition sort_insertion : SortSlice :=
  {| sort_slice := @insertion_sort;
     sort_slice_perm := @insertion_sort_perm;
     sort_slice_sorted := @insertion_sort_sorted |}.

(** ** [encoding/gob]

    A codec for one type: [gob_Encode a] is what [Encode(a)] leaves in the
    buffer and its error, [gob_Decode b] what [Decode(&v)] leaves in a zero [v]
    and its error. *)
Class Gob (A : Type) : Type := {
  gob_Encode : A -> string * option string;
  gob_Decode : string -> A * option string
}.

(** What the package documents for values without channels or functions:
    encoding succeeds and decoding gives the value back (a nil and an empty
    slice are one value here). *)
Class GobLaws (A : Type) `{Gob A} : Prop := {
  gob_Encode_ok : forall a, (gob_Encode a).2 = None;
  gob_Decode_Encode : forall a, gob_Decode (gob_Encode a).1 = (a, None)
}.

(** A codec with these laws, for any countable type: the code of the value
    written in binary. *)
Fixpoint pos_digits (p : positive) : string :=
  match p with
  | xH => EmptyString
  | xO q => String "0" (pos_digits q)
  | xI q => String "1" (pos_digits q)
  end.

Fixpoint digits_pos (s : string) : positive :=
  match s with
  | EmptyString => xH
  | String c s' => if Ascii.eqb c "1" then xI (digits_pos s') else xO (digits_pos s')
  end.

Lemma digits_pos_digits p : digits_pos (pos_digits p) = p.
Proof. induction p; simpl; congruence. Qed.

Definition gob_countable `{Countable A} (zero : A) : Gob A :=
  {| gob_Encode := fun a => (pos_digits (encode a), None);
     gob_Decode := fun s =>
       match decode (digits_pos s) with
       | Some a => (a, None)
       | None => (zero, Some "gob: bad data"%string)
       end |}.

Lemma gob_countable_laws `{Countable A} (zero : A) :
  @GobLaws A (gob_countable zero).
Proof.
  split; [done|]. intros a. simpl. by rewrite digits_pos_digits, decode_encode.
Qed.
