(* ===== verification/Settings.v ===== *)
(** Package [settings]: the configuration record and how it is loaded. *)
From S2P Require Import Prelude GoLib.
Local Open Scope Z_scope.

(** The [uint8] fields hold their value; [settings_ok] is their range. *)
Record Settings : Type := {
  MinedCoinsPerOpBlock : Z;
  MinedCoinsPerNoOpBlock : Z;
  NumCoinsPerFileCreate : Z;
  GenOpBlockTimeout : Z;
  GenesisBlockHash : string;
  PowPerOpBlock : Z;
  PowPerNoOpBlock : Z;
  ConfirmsPerFileCreate : Z;
  ConfirmsPerFileAppend : Z;
  cfg_MinerID : string;
  PeerMinersAddrs : list string;
  IncomingMinersAddr : string;
  OutgoingMinersIP : string;
  IncomingClientsAddr : string
}.

Record settings_ok (s : Settings) : Prop := {
  ok_MinedCoinsPerOpBlock : is_uint8 (MinedCoinsPerOpBlock s);
  ok_MinedCoinsPerNoOpBlock : is_uint8 (MinedCoinsPerNoOpBlock s);
  ok_NumCoinsPerFileCreate : is_uint8 (NumCoinsPerFileCreate s);
  ok_GenOpBlockTimeout : is_uint8 (GenOpBlockTimeout s);
  ok_PowPerOpBlock : is_uint8 (PowPerOpBlock s);
  ok_PowPerNoOpBlock : is_uint8 (PowPerNoOpBlock s);
  ok_ConfirmsPerFileCreate : is_uint8 (ConfirmsPerFileCreate s);
  ok_ConfirmsPerFileAppend : is_uint8 (ConfirmsPerFileAppend s)
}.

(** The zero value of the struct. *)
Definition zero_Settings : Settings :=
  {| MinedCoinsPerOpBlock := 0; MinedCoinsPerNoOpBlock := 0;
     NumCoinsPerFileCreate := 0; GenOpBlockTimeout := 0;
     GenesisBlockHash := EmptyString; PowPerOpBlock := 0; PowPerNoOpBlock := 0;
     ConfirmsPerFileCreate := 0; ConfirmsPerFileAppend := 0;
     cfg_MinerID := EmptyString; PeerMinersAddrs := [];
     IncomingMinersAddr := EmptyString; OutgoingMinersIP := EmptyString;
     IncomingClientsAddr := EmptyString |}.

(** [LoadSettings] on the result of reading the file; an error is the message
    with which [log.Fatal] ends the process. [json_Unmarshal data v] is what
    [json.Unmarshal] leaves in a variable holding [v], and its error, which the
    code drops. *)
Definition LoadSettings
    (json_Unmarshal : string -> Settings -> Settings * option string)
    (file : result string) : result Settings :=
  match file with
  | Err e => Err e
  | Ok data => let '(settings, _) := json_Unmarshal data zero_Settings in Ok settings
  end.

(** The settings of the repository's file [config]. *)
Definition config_example : Settings :=
  {| MinedCoinsPerOpBlock := 8; MinedCoinsPerNoOpBlock := 4;
     NumCoinsPerFileCreate := 4; GenOpBlockTimeout := 5;
     GenesisBlockHash := "83218ac34c1834c26781fe4bde918ee4";
     PowPerOpBlock := 4; PowPerNoOpBlock := 8;
     ConfirmsPerFileCreate := 2; ConfirmsPerFileAppend := 4;
     cfg_MinerID := "Mijnwerker";
     PeerMinersAddrs := ["127.0.0.1:5050"; "127.0.0.1:6060"; "127.0.0.1:7070"]%string;
     IncomingMinersAddr := "127.0.0.1:8080"; OutgoingMinersIP := "127.0.0.1";
     IncomingClientsAddr := "127.0.0.1:9090" |}.

Lemma config_example_ok : settings_ok config_example.
Proof. split; unfold is_uint8; simpl; lia. Qed.
