(* ===== verification/Operation.v ===== *)
(** [bclib/operation.go]: file operations, their identifiers, and the filter a
    miner applies to a batch of operations. *)
From S2P Require Import Prelude GoLib.
From stdpp Require Import sorting.
Local Open Scope Z_scope.

(** The constants of [type OpType int]; a decoded message may carry any other
    [int], here [OtherOp]. *)
Inductive OpType : Type :=
| Create
| Append
| Delete
| OtherOp (n : Z).

#[export] Instance OpType_eq_dec : EqDecision OpType.
Proof. solve_decision. Defined.

Record Operation : Type := mkOperation {
  Op : OpType;
  Data : string;
  Filename : string;
  op_MinerID : string;
  OperationID : string;
  op_Timestamp : Z
}.

#[export] Instance Operation_eq_dec : EqDecision Operation.
Proof. solve_decision. Defined.

(** ** Encoding *)

Section marshal.
Context `{Gob Operation} `{Gob (list Operation)}.

Definition MarshallOperation (op : Operation) : string * option string := gob_Encode op.

Definition DecodeOperationError (e : string) : string :=
  "Decoding Operation - [" +:+ e +:+ "]".

Definition UnmarshallOperation (b : string) : Operation * option string :=
  let '(msg, err) := gob_Decode b in
  match err with
  | Some e => (msg, Some (DecodeOperationError e))
  | None => (msg, None)
  end.

Definition MarshallOperations (ops : list Operation) : string * option string := gob_Encode ops.

(** [now] is [time.Now().UnixNano()]. *)
Definition NewOperation (t : OpType) (mID fname data : string) (now : Z) : Operation :=
  let op := mkOperation t data fname mID EmptyString now in
  let '(b, _) := MarshallOperation op in
  let hash := md5_Sum b in
  mkOperation t data fname mID hash now.
End marshal.

(** ** Filtering a batch *)

(** The loop's state: the two sets of names seen and the operations kept. *)
Record filter_state : Type := {
  createFnames : gset string;
  opIDs : gset string;
  validOps : list Operation
}.

Definition filter_step (s : filter_state) (op : Operation) : filter_state :=
  if decide (Op op = Create) then
    if decide (Filename op ∈ createFnames s) then s
    else {| createFnames := {[Filename op]} ∪ createFnames s;
            opIDs := opIDs s; validOps := validOps s ++ [op] |}
  else if decide (OperationID op ∈ opIDs s) then s
  else {| createFnames := createFnames s;
          opIDs := {[OperationID op]} ∪ opIDs s; validOps := validOps s ++ [op] |}.

(** Returns the argument as the in-place sort leaves it, and the result. *)
Definition FilterInvalidOperations (srt : SortSlice) (ops : list Operation)
    : list Operation * list Operation :=
  let ops := sort_slice srt (fun a b => op_Timestamp a <? op_Timestamp b) ops in
  (ops, validOps (fold_left filter_step ops
    {| createFnames := ∅; opIDs := ∅; validOps := [] |})).

Definition ListOpsFromMap (rg : RangeOrder) (ops : gmap string Operation) : list Operation :=
  fold_left (fun result kv => result ++ [kv.2]) (range rg ops) [].

(** ** Properties *)

(** What the filter keeps apart: creations by file name, everything else by
    operation identifier. *)
Definition op_key (op : Operation) : string + string :=
  if decide (Op op = Create) then inl (Filename op) else inr (OperationID op).

Definition keys_seen (s : filter_state) (k : string + string) : Prop :=
  match k with inl f => f ∈ createFnames s | inr i => i ∈ opIDs s end.

#[export] Instance keys_seen_dec s k : Decision (keys_seen s k).
Proof. destruct k; simpl; apply _. Defined.

Lemma filter_step_seen s op : keys_seen s (op_key op) -> filter_step s op = s.
Proof. unfold op_key, filter_step. intros. repeat case_decide; simpl in *; done. Qed.

Lemma filter_step_fresh s op :
  ~ keys_seen s (op_key op) ->
  validOps (filter_step s op) = validOps s ++ [op] /\
  forall k, keys_seen (filter_step s op) k <-> k = op_key op \/ keys_seen s k.
Proof.
  unfold op_key, filter_step.
  intros Hn. repeat case_decide; simpl in *; try done; (split; [done|]);
    intros [f|i]; simpl; set_solver.
Qed.

(** Invariant of the filter loop over the operations [done] so far. *)
Record filter_inv (done : list Operation) (s : filter_state) : Prop := {
  fi_sub : sublist (validOps s) done;
  fi_nodup : NoDup (op_key <$> validOps s);
  fi_seen : forall k, keys_seen s k <-> k ∈ op_key <$> validOps s;
  fi_cover : forall op, op ∈ done -> exists op', op' ∈ validOps s /\
    op_key op' = op_key op /\ op_Timestamp op' <= op_Timestamp op
}.

Lemma filter_inv_step done op s :
  Forall (fun o => op_Timestamp o <= op_Timestamp op) done ->
  filter_inv done s -> filter_inv (done ++ [op]) (filter_step s op).
Proof.
  intros Hle [Hsub Hnd Hseen Hcov]. rewrite Forall_forall in Hle.
  destruct (decide (keys_seen s (op_key op))) as [Hk|Hk].
  - rewrite filter_step_seen by done. split; [|done..|].
    + by apply sublist_inserts_r.
    + intros o [Ho| ->%list_elem_of_singleton]%elem_of_app; [by apply Hcov|].
      apply Hseen, list_elem_of_fmap in Hk as (o & Heq & Ho).
      exists o. eauto using elem_of_sublist, eq_sym.
  - destruct (filter_step_fresh s op Hk) as [Hv Hs]. rewrite Hseen in Hk.
    split; rewrite ?Hv, ?fmap_app.
    + by apply sublist_app.
    + apply NoDup_app. split_and!; [done| |apply NoDup_singleton]. set_solver.
    + intros k. rewrite Hs, Hseen, elem_of_app. set_solver.
    + intros o [Ho| ->%list_elem_of_singleton]%elem_of_app.
      * destruct (Hcov o Ho) as (o' & ? & ?). exists o'. set_solver.
      * exists op. split_and!; [set_solver|done|lia].
Qed.

Section filter.
Context (srt : SortSlice) (ops : list Operation).
Let sorted := (FilterInvalidOperations srt ops).1.
Let valid := (FilterInvalidOperations srt ops).2.

Lemma filter_sorted : StronglySorted (fun a b => op_Timestamp a <= op_Timestamp b) sorted.
Proof. apply (sort_slice_sorted srt). done. Qed.

Lemma filter_perm : sorted ≡ₚ ops.
Proof. apply (sort_slice_perm srt). Qed.

Lemma filter_invariant :
  filter_inv sorted (fold_left filter_step sorted
    {| createFnames := ∅; opIDs := ∅; validOps := [] |}).
Proof.
  apply (fold_left_inv filter_inv).
  - split; simpl; [done|constructor| |set_solver].
    intros [f|i]; simpl; set_solver.
  - intros done op rest s Hl. apply filter_inv_step.
    pose proof filter_sorted as Hs. rewrite Hl in Hs.
    apply StronglySorted_app in Hs as (Hs & _ & _).
    apply Forall_forall. intros o Ho. apply (Hs o op); set_solver.
Qed.
End filter.

Lemma FilterInvalidOperations_props (srt : SortSlice) (ops : list Operation) :
  let '(sorted, valid) := FilterInvalidOperations srt ops in
  sorted ≡ₚ ops /\
  StronglySorted (fun a b => op_Timestamp a <= op_Timestamp b) sorted /\
  sublist valid sorted /\
  NoDup (op_key <$> valid) /\
  (forall op, op ∈ ops -> exists op', op' ∈ valid /\
     op_key op' = op_key op /\ op_Timestamp op' <= op_Timestamp op).
Proof.
  destruct (FilterInvalidOperations srt ops) as [sorted valid] eqn:E.
  pose proof (filter_perm srt ops) as Hp. pose proof (filter_sorted srt ops) as Hs.
  destruct (filter_invariant srt ops) as [Hsub Hnd _ Hcov].
  apply pair_eq in E as [E1 E2]. cbn in Hp, Hs, Hsub, Hnd, Hcov.
  rewrite E1 in *. rewrite E2 in *. split_and!; try done.
  intros op Hop. apply Hcov. by rewrite Hp.
Qed.

(** C36: Filtering a batch sorts it by timestamp and keeps a sub-sequence of it in
    which no two creations name the same file and no two other operations share
    an identifier; every operation of the batch is kept or has a kept
    counterpart that is no younger. *)
Theorem FilterInvalidOperations_spec (srt : SortSlice) (ops : list Operation) :
  let '(sorted, valid) := FilterInvalidOperations srt ops in
  sorted ≡ₚ ops /\
  StronglySorted (fun a b => op_Timestamp a <= op_Timestamp b) sorted /\
  sublist valid sorted /\
  NoDup (op_key <$> valid) /\
  (forall op, op ∈ ops -> exists op', op' ∈ valid /\
     op_key op' = op_key op /\ op_Timestamp op' <= op_Timestamp op).
Proof. apply FilterInvalidOperations_props. Qed.

(** Listing the values of a map of operations gives each value once, whatever
    the iteration order. *)
Lemma ListOpsFromMap_perm rg ops : ListOpsFromMap rg ops ≡ₚ (map_to_list ops).*2.
Proof.
  unfold ListOpsFromMap. rewrite <- (range_perm rg).
  apply (fold_left_inv (fun done r => r ≡ₚ done.*2)); [done|].
  intros done kv rest r _ Hr. by rewrite Hr, fmap_app.
Qed.
