(* ===== verification/Block.v ===== *)
(** [bclib/block.go]: blocks, the genesis block, and their wire encoding.
    [NewBlock], which mines, is in [Pow]. *)
From S2P Require Import Prelude GoLib Operation.
Local Open Scope Z_scope.

Record Header : Type := mkHeader {
  Timestamp : Z;
  Operations : list Operation;
  PreviousHash : string
}.

(** [Block] embeds [Header], so its fields are those of the header too. *)
Record Block : Type := mkBlock {
  header :> Header;
  MinerID : string;
  Hash : string;
  Nonce : Z
}.

#[export] Instance Block_eq_dec : EqDecision Block.
Proof.
  assert (EqDecision Header) by solve_decision. solve_decision.
Defined.

(** The zero value [Block{}]. *)
Definition zero_Block : Block := mkBlock (mkHeader 0 [] EmptyString) EmptyString EmptyString 0.

(** [now] is [time.Now().Unix()]. *)
Definition NewGenesisBlock (genBlockHash : string) (now : Z) : Block :=
  mkBlock (mkHeader now [] EmptyString) EmptyString genBlockHash 0.

Section marshal.
Context `{Gob Block} `{Gob (list Block)}.

Definition DecodeBlockError (e : string) : string :=
  "Decoding Block - [" +:+ e +:+ "]".

Definition MarshallBlock (op : Block) : string * option string := gob_Encode op.

(** The code replaces a nil operation list by an empty one; they are the same
    list here. *)
Definition UnmarshallBlock (b : string) : Block * option string :=
  let '(msg, err) := gob_Decode b in
  match err with
  | Some e => (zero_Block, Some (DecodeBlockError e))
  | None => (msg, None)
  end.

Definition MarshallBlocks (blocks : list Block) : string * option string := gob_Encode blocks.

Definition UnmarshallBlocks (data : string) : list Block * option string := gob_Decode data.

End marshal.

(** Codecs for evaluation: every type on the wire is countable. *)
#[export] Instance OpType_countable : Countable OpType.
Proof.
  refine (inj_countable'
    (fun t => match t with Create => inl 0 | Append => inl 1 | Delete => inl 2 | OtherOp n => inr n end)
    (fun x => match x with inl 0 => Create | inl 1 => Append | inl 2 => Delete
                         | inl _ => Create | inr n => OtherOp n end) _).
  by intros [].
Defined.

#[export] Instance Operation_countable : Countable Operation.
Proof.
  refine (inj_countable'
    (fun o => (Op o, Data o, Filename o, op_MinerID o, OperationID o, op_Timestamp o))
    (fun '(t, d, f, m, i, ts) => mkOperation t d f m i ts) _).
  by intros [].
Defined.

#[export] Instance Block_countable : Countable Block.
Proof.
  refine (inj_countable'
    (fun b : Block => (Timestamp b, Operations b, PreviousHash b, MinerID b, Hash b, Nonce b))
    (fun '(ts, ops, ph, m, h, n) => mkBlock (mkHeader ts ops ph) m h n) _).
  by intros [[] ? ? ?].
Defined.

Definition zero_Operation : Operation :=
  mkOperation Create EmptyString EmptyString EmptyString EmptyString 0.
Definition gob_Operation : Gob Operation := gob_countable zero_Operation.
Definition gob_Operations : Gob (list Operation) := gob_countable [].
Definition gob_Block : Gob Block := gob_countable zero_Block.
Definition gob_Blocks : Gob (list Block) := gob_countable [].
