(* ===== verification/Pow.v ===== *)
(** [bclib/pow.go] and [NewBlock]: proof of work. *)
From S2P Require Import Prelude GoLib Operation Block.
Local Open Scope Z_scope.

Definition maxNonce : Z := MaxInt64.

Record ProofOfWork : Type := mkPow {
  pow_block : Block;
  difficulty : Z
}.

(** [uint(difficulty * 4)]: both the product and the conversion wrap at 64 bits. *)
Definition NewProofOfWork (b : Block) (d : Z) : ProofOfWork :=
  mkPow b (uint64 (d * 4)).

(** Writing an [int64] into a buffer cannot fail. *)
Definition IntToHex (num : Z) : string := string_of_bytes (be_bytes 8 (uint64 num)).

Section pow.
Context `{Gob (list Operation)}.

Definition prepareData (pow : ProofOfWork) (nonce : Z) : string :=
  let operations :=
    if (0 <? length (Operations (pow_block pow)))%nat
    then (MarshallOperations (Operations (pow_block pow))).1 else EmptyString in
  PreviousHash (pow_block pow) +:+
  operations +:+
  MinerID (pow_block pow) +:+
  IntToHex (Timestamp (pow_block pow)) +:+
  IntToHex (int64 (difficulty pow)) +:+
  IntToHex (int64 nonce).

(** The test both [Run] and [Validate] make on a digest. *)
Definition hash_ok (pow : ProofOfWork) (hash : string) : bool :=
  let hashInt := big_SetBytes hash in
  let rshHashInt := big_Rsh (big_SetBytes hash) (difficulty pow) in
  let rshHashInt := big_Lsh rshHashInt (difficulty pow) in
  hashInt =? rshHashInt.

(** The loop of [Run]. [stop nonce] tells whether the stop channel is closed
    when the iteration for [nonce] polls it; a nil channel never is. *)
Fixpoint run_loop (fuel : nat) (pow : ProofOfWork) (stop : Z -> bool)
    (nonce : Z) (hash : string) : go (Z * string) :=
  match fuel with
  | O => NoFuel
  | S fuel =>
      if nonce <? maxNonce then
        if stop nonce then Ret (-1, EmptyString)
        else
          let hash := md5_Sum (prepareData pow nonce) in
          if hash_ok pow hash then Ret (nonce, hash)
          else run_loop fuel pow stop (nonce + 1) hash
      else Ret (nonce, hash)
  end.

(** [var hash [16]byte] starts as zeros. *)
Definition zero_hash : string := string_of_bytes (replicate 16 0).

Definition Run (fuel : nat) (pow : ProofOfWork) (stop : Z -> bool) : go (Z * string) :=
  run_loop fuel pow stop 0 zero_hash.

Definition Validate (pow : ProofOfWork) : bool :=
  hash_ok pow (md5_Sum (prepareData pow (Nonce (pow_block pow)))).

(** [now] is [time.Now().Unix()]. *)
Definition NewBlock (fuel : nat) (ops : list Operation) (prevHash mID : string)
    (d : Z) (stop : Z -> bool) (now : Z) : go Block :=
  let block := mkBlock (mkHeader now ops prevHash) mID EmptyString 0 in
  let pow := NewProofOfWork block d in
  '(nonce, hash) ← Run fuel pow stop;
  Ret (mkBlock (mkHeader now ops prevHash) mID hash nonce).

(** ** Properties *)

(** The proof of work of a block: its data at a nonce. It does not depend on
    the block's own [Hash] and [Nonce] fields. *)
Lemma prepareData_ext b1 b2 d nonce :
  header b1 = header b2 -> MinerID b1 = MinerID b2 ->
  prepareData (NewProofOfWork b1 d) nonce = prepareData (NewProofOfWork b2 d) nonce.
Proof. unfold prepareData. simpl. by intros -> ->. Qed.

Lemma difficulty_small b d : 0 <= d < 2 ^ 62 -> difficulty (NewProofOfWork b d) = 4 * d.
Proof. intros. simpl. unfold uint64. rewrite Z.mod_small; lia. Qed.

Lemma hash_ok_mod pow hash :
  0 <= difficulty pow ->
  hash_ok pow hash = true <-> big_SetBytes hash mod 2 ^ difficulty pow = 0.
Proof. intros. unfold hash_ok. rewrite Z.eqb_eq. by apply big_shift_back. Qed.

Lemma hash_ok_nibbles b d hash :
  0 <= d < 2 ^ 62 ->
  hash_ok (NewProofOfWork b d) hash = true <->
  Forall (fun x => x = 0) (drop (length (nibbles hash) - Z.to_nat d) (nibbles hash)).
Proof.
  intros Hd. rewrite hash_ok_mod, difficulty_small by (rewrite ?difficulty_small; lia).
  unfold big_SetBytes. rewrite <- nibbles_val.
  rewrite <- (digits_val_mod 16) by (done || apply nibbles_range).
  rewrite Z2Nat.id, Z.pow_mul_r by lia. done.
Qed.

(** One iteration at a time: [run_loop] stops at the first nonce that is
    stopped, accepted or [maxNonce]. *)
Definition run_continues (pow : ProofOfWork) (stop : Z -> bool) (nonce : Z) : Prop :=
  nonce < maxNonce /\ stop nonce = false /\
  hash_ok pow (md5_Sum (prepareData pow nonce)) = false.

Lemma run_loop_skip pow stop n : forall k fuel nonce hash,
  n = nonce + Z.of_nat k ->
  (forall i, nonce <= i < n -> run_continues pow stop i) ->
  exists hash', run_loop (k + fuel) pow stop nonce hash = run_loop fuel pow stop n hash'.
Proof.
  induction k as [|k IH]; intros fuel nonce hash -> Hc.
  - rewrite Z.add_0_r. by exists hash.
  - destruct (Hc nonce) as (H1 & H2 & H3); [lia|]. cbn [run_loop Nat.add].
    rewrite (proj2 (Z.ltb_lt _ _) H1), H2, H3.
    eapply IH; [lia|]. intros i Hi. apply Hc. lia.
Qed.

Lemma run_loop_result pow stop : forall fuel nonce hash n h,
  nonce <= maxNonce -> run_loop fuel pow stop nonce hash = Ret (n, h) ->
  exists m, nonce <= m <= maxNonce /\
    (forall i, nonce <= i < m -> run_continues pow stop i) /\
    ((m < maxNonce /\ stop m = true /\ n = -1 /\ h = EmptyString) \/
     (m < maxNonce /\ n = m /\ h = md5_Sum (prepareData pow m) /\ hash_ok pow h = true) \/
     (n = maxNonce /\ m = maxNonce)).
Proof.
  induction fuel as [|fuel IH]; intros nonce hash n h Hle Hrun; [done|].
  cbn [run_loop] in Hrun. destruct (Z.ltb_spec nonce maxNonce) as [Hlt|Hge].
  - destruct (stop nonce) eqn:Hs.
    + injection Hrun as <- <-. exists nonce. split; [lia|]. split; [intros; lia|]. by left.
    + destruct (hash_ok pow (md5_Sum (prepareData pow nonce))) eqn:Hh.
      * injection Hrun as <- <-. exists nonce. split; [lia|]. split; [intros; lia|]. right; left. done.
      * apply IH in Hrun as (m & Hm & Hc & Hres); [|lia].
        exists m. split; [lia|]. split; [|done]. intros i Hi.
        destruct (decide (i = nonce)) as [->|]; [done|]. apply Hc. lia.
  - injection Hrun as <- <-. exists nonce. split; [lia|]. split; [intros; lia|]. right; right; lia.
Qed.

(** Enough fuel for the nonce that ends the search gives a result. *)
Lemma run_loop_total pow stop m fuel nonce hash :
  nonce <= m <= maxNonce ->
  (m = maxNonce \/ stop m = true \/ hash_ok pow (md5_Sum (prepareData pow m)) = true) ->
  (Z.to_nat (m - nonce) < fuel)%nat ->
  exists n h, run_loop fuel pow stop nonce hash = Ret (n, h).
Proof.
  revert nonce hash. induction fuel as [|fuel IH]; intros nonce hash Hle Hend Hf; [lia|].
  cbn [run_loop]. destruct (Z.ltb_spec nonce maxNonce); [|by eexists _, _].
  destruct (stop nonce) eqn:Hs; [by eexists _, _|].
  destruct (hash_ok pow (md5_Sum (prepareData pow nonce))) eqn:Hh; [by eexists _, _|].
  destruct (decide (nonce = m)) as [->|]; [destruct Hend as [?|[?|?]]; (lia || congruence)|].
  apply IH; [lia|done|lia].
Qed.

(** Raw outcome of [NewBlock], by the nonce at which its search ended. *)
Lemma NewBlock_inv fuel ops prevHash mID d stop now b :
  NewBlock fuel ops prevHash mID d stop now = Ret b ->
  exists n h, b = mkBlock (mkHeader now ops prevHash) mID h n /\
    Run fuel (NewProofOfWork (mkBlock (mkHeader now ops prevHash) mID EmptyString 0) d) stop
    = Ret (n, h).
Proof. unfold NewBlock. intros Hb. go_inv Hb. destruct r as [n h]. naive_solver. Qed.

Lemma NewBlock_outcome fuel ops prevHash mID d stop now b :
  NewBlock fuel ops prevHash mID d stop now = Ret b ->
  header b = mkHeader now ops prevHash /\ MinerID b = mID /\
  ((Nonce b = -1 /\ Hash b = EmptyString /\ exists m, 0 <= m < maxNonce /\ stop m = true) \/
   (0 <= Nonce b < maxNonce /\
    Hash b = md5_Sum (prepareData (NewProofOfWork b d) (Nonce b)) /\
    Validate (NewProofOfWork b d) = true /\
    forall k, 0 <= k < Nonce b ->
      hash_ok (NewProofOfWork b d) (md5_Sum (prepareData (NewProofOfWork b d) k)) = false) \/
   Nonce b = maxNonce).
Proof.
  intros Hb. apply NewBlock_inv in Hb as (n & h & -> & Hrun). simpl.
  split; [done|]. split; [done|].
  apply run_loop_result in Hrun as (m & Hm & Hc & Hres); [|done].
  destruct Hres as [(? & ? & -> & ->)|[(? & -> & -> & Hok)|[-> _]]].
  - left. split_and!; [done..|]. exists m. split; [lia|done].
  - right; left. split_and!; [lia|lia| |exact Hok|].
    + by f_equal.
    + intros k Hk. exact (proj2 (proj2 (Hc k Hk))).
  - by right; right.
Qed.

(** ** Theorems *)

(** Proof of work is trailing hexadecimal zeros: [Validate] at difficulty [d]
    accepts a block exactly when the last [d] hexadecimal digits of the MD5
    digest of its data are zero. *)
Theorem Validate_trailing_zeros (b : Block) (d : Z) (Hd : 0 <= d < 2 ^ 62) :
  let digits := nibbles (md5_Sum (prepareData (NewProofOfWork b d) (Nonce b))) in
  Validate (NewProofOfWork b d) = true <->
  Forall (fun x => x = 0) (drop (32 - Z.to_nat d) digits).
Proof.
  unfold Validate. cbv zeta. rewrite hash_ok_nibbles, length_nibbles, md5_length by done.
  done.
Qed.

(** C35: Mining is sound: a block that [NewBlock] returns has the requested header
    and miner; it is either the cancelled block (nonce -1, empty hash), or its
    hash is the digest of its data, it passes [Validate] at the same
    difficulty and its nonce is the least that does, or the search reached
    [maxNonce]. *)
Theorem NewBlock_spec fuel ops prevHash mID d stop now b
    (Hb : NewBlock fuel ops prevHash mID d stop now = Ret b) :
  header b = mkHeader now ops prevHash /\ MinerID b = mID /\
  ((Nonce b = -1 /\ Hash b = EmptyString /\ exists m, 0 <= m < maxNonce /\ stop m = true) \/
   (0 <= Nonce b < maxNonce /\
    Hash b = md5_Sum (prepareData (NewProofOfWork b d) (Nonce b)) /\
    Validate (NewProofOfWork b d) = true /\
    forall k, 0 <= k < Nonce b ->
      hash_ok (NewProofOfWork b d) (md5_Sum (prepareData (NewProofOfWork b d) k)) = false) \/
   Nonce b = maxNonce).
Proof. by eapply NewBlock_outcome. Qed.

(** C37: Mining terminates: as soon as some nonce [m] is acceptable, or the stop
    channel is closed at it, or it is [maxNonce], more than [m] iterations
    are enough for [Run] to return. *)
Theorem Run_terminates fuel pow stop m
    (Hm : 0 <= m <= maxNonce)
    (Hend : m = maxNonce \/ stop m = true \/
            hash_ok pow (md5_Sum (prepareData pow m)) = true)
    (Hfuel : (Z.to_nat m < fuel)%nat) :
  exists n h, Run fuel pow stop = Ret (n, h).
Proof. apply (run_loop_total pow stop m); [lia|done|by rewrite Z.sub_0_r]. Qed.

(** Distinct nonces hash distinct data: nonces are encoded without loss. *)
Lemma IntToHex_val n : be_val (bytes_of_string (IntToHex n)) = uint64 n.
Proof.
  unfold IntToHex. rewrite bytes_of_string_of_bytes by apply be_bytes_range.
  rewrite be_val_be_bytes. change (256 ^ Z.of_nat 8) with (2 ^ 64).
  unfold uint64. rewrite Z.mod_mod; lia.
Qed.
End pow.

(** Integers are encoded in 8 bytes, big-endian two's complement: reading the
    bytes back gives the [int64]. *)
Theorem IntToHex_roundtrip (n : Z) (Hn : is_int64 n) :
  String.length (IntToHex n) = 8%nat /\ int64 (be_val (bytes_of_string (IntToHex n))) = n.
Proof.
  split; [by unfold IntToHex; rewrite length_string_of_bytes, length_be_bytes|].
  rewrite IntToHex_val. by apply int64_uint64.
Qed.

Lemma IntToHex_roundtrip_witness :
  is_int64 (-2) /\ int64 (be_val (bytes_of_string (IntToHex (-2)))) = -2.
Proof.
  assert (is_int64 (-2)) as Hn by (unfold is_int64; lia).
  split; [done|]. apply (IntToHex_roundtrip (-2) Hn).
Defined.

Section witnesses.
#[local] Existing Instance gob_Operations.

(** A block on a hash of four characters, at a difficulty of one digit. *)
Definition mined_example : Block :=
  mkBlock (mkHeader 7 [] "root") "minerA"
    (md5_Sum (prepareData (NewProofOfWork
       (mkBlock (mkHeader 7 [] "root") "minerA" EmptyString 0) 1) 12)) 12.

Lemma Validate_trailing_zeros_witness :
  Validate (NewProofOfWork mined_example 1) = true /\
  Forall (fun x => x = 0) (drop 31 (nibbles
    (md5_Sum (prepareData (NewProofOfWork mined_example 1) (Nonce mined_example))))).
Proof.
  assert (0 <= 1 < 2 ^ 62) as Hd by lia.
  assert (Validate (NewProofOfWork mined_example 1) = true) as Hv by (vm_compute; reflexivity).
  split; [exact Hv|]. apply (Validate_trailing_zeros mined_example 1 Hd). exact Hv.
Defined.

Lemma NewBlock_spec_witness :
  NewBlock 100 [] "root" "minerA" 1 (fun _ => false) 7 = Ret mined_example /\
  MinerID mined_example = "minerA"%string.
Proof.
  assert (NewBlock 100 [] "root" "minerA" 1 (fun _ => false) 7 = Ret mined_example) as Hb
    by (vm_compute; reflexivity).
  split; [exact Hb|]. apply (NewBlock_spec 100 [] "root" "minerA" 1 (fun _ => false) 7 _ Hb).
Defined.

Lemma Run_terminates_witness :
  exists n h, Run 13 (NewProofOfWork mined_example 1) (fun _ => false) = Ret (n, h).
Proof.
  apply (Run_terminates 13 _ _ 12).
  - unfold maxNonce, MaxInt64. lia.
  - right; right. vm_compute. reflexivity.
  - vm_compute. lia.
Defined.
End witnesses.
