(* ===== verification/Blockchain.v ===== *)
(** [bclib/blockchain.go]: the tree of blocks, kept as nodes linked by parent
    and child pointers and indexed by block hash. [AddBlock] and
    [validateBlock], which need the ledger rules, are in [AddBlock].

    Nodes live in a store shared by all block chains of a process: pointers are
    indices into a list of nodes, allocation appends a node, and assigning a
    field of a node updates the list, so that two chains holding the same node
    ([MergeBlocks]) see each other's writes. The block behind a node is never
    written after the node is built and is kept by value. *)
From S2P Require Import Prelude GoLib Settings Operation Block.

(** ** State *)

Abbreviation loc := nat.

Record Node : Type := mkNode {
  block : Block;
  parent : option loc;
  children : list loc
}.
Abbreviation heap := (list Node).

Record Blockchain : Type := mkBlockchain {
  genesis : loc;
  lastNode : loc;
  bc_m : gmap string loc;
  bc_config : Settings
}.

Definition alloc (h : heap) (n : Node) : heap * loc := (h ++ [n], length h).

Definition newNode (b : Block) (p : option loc) : Node := mkNode b p [].

Definition set_parent (p : option loc) (n : Node) : Node := mkNode (block n) p (children n).
Definition set_children (cs : list loc) (n : Node) : Node := mkNode (block n) (parent n) cs.

Definition NewBlockchain (h : heap) (config : Settings) (now : Z) : heap * Blockchain :=
  let g := NewGenesisBlock (GenesisBlockHash config) now in
  let '(h, node) := alloc h (newNode g None) in
  (h, mkBlockchain node node {[ Hash g := node ]} config).

Definition SetConfig (bc : Blockchain) (config : Settings) : Blockchain :=
  mkBlockchain (genesis bc) (lastNode bc) (bc_m bc) config.

Definition set_lastNode (bc : Blockchain) (l : loc) : Blockchain :=
  mkBlockchain (genesis bc) l (bc_m bc) (bc_config bc).

(** ** The longest chains *)

(** State of the depth-first search: the two stacks (top first), the depth
    reached, the first node found at it, and all nodes found at it. *)
Record dfs : Type := mkDfs {
  dStack : list nat;
  nStack : list loc;
  maxDepth : nat;
  deepest : loc;
  lastNodes : list loc
}.

(** The body of the loop, on the popped [depth] and [node]. *)
Definition dfs_visit (nd : Node) (depth : nat) (node : loc) (ds : list nat)
    (ns : list loc) (s : dfs) : dfs :=
  let ds' := fold_left (fun st _ => S depth :: st) (children nd) ds in
  let ns' := fold_left (fun st c => c :: st) (children nd) ns in
  if decide (maxDepth s < depth) then mkDfs ds' ns' depth node [node]
  else if decide (depth = maxDepth s) then
    mkDfs ds' ns' (maxDepth s) (deepest s) (lastNodes s ++ [node])
  else mkDfs ds' ns' (maxDepth s) (deepest s) (lastNodes s).

Fixpoint dfs_loop (fuel : nat) (h : heap) (s : dfs) : go dfs :=
  match nStack s, dStack s with
  | node :: ns, depth :: ds =>
      match fuel with
      | O => NoFuel
      | S fuel =>
          nd ← deref (h !! node);
          dfs_loop fuel h (dfs_visit nd depth node ds ns s)
      end
  | _, _ => Ret s
  end.

Definition dfs_start (g : loc) : dfs := mkDfs [0] [g] 0 g [g].

(** Also stores the deepest node in [lastNode]. *)
Definition getLastNodes_fuel (fuel : nat) (h : heap) (bc : Blockchain) : go (Blockchain * list loc) :=
  s ← dfs_loop fuel h (dfs_start (genesis bc));
  Ret (set_lastNode bc (deepest s), lastNodes s).

(** In a tree every node is visited once, so the number of nodes in the store
    is enough fuel. *)
Definition getLastNodes (h : heap) (bc : Blockchain) : go (Blockchain * list loc) :=
  getLastNodes_fuel (length h) h bc.

Definition GetLastBlocks (h : heap) (bc : Blockchain) : go (Blockchain * list Block) :=
  '(bc, ls) ← getLastNodes h bc;
  blocks ← mapM (fun l => nd ← deref (h !! l); Ret (block nd)) ls;
  Ret (bc, blocks).

Definition GetLastHash (h : heap) (bc : Blockchain) : go (Blockchain * string) :=
  '(bc, ls) ← getLastNodes h bc;
  l ← deref (ls !! 0);
  nd ← deref (h !! l);
  Ret (bc, Hash (block nd)).

(** ** Listing and rebuilding *)

Definition GetBlocks (rg : RangeOrder) (h : heap) (bc : Blockchain) : go (list Block) :=
  mapM (fun kl => nd ← deref (h !! kl.2); Ret (block nd)) (range rg (bc_m bc)).

Definition Marshall `{Gob (list Block)} (rg : RangeOrder) (h : heap) (bc : Blockchain)
    : go (string * option string) :=
  blocks ← GetBlocks rg h bc; Ret (MarshallBlocks blocks).

(** First loop of [UnmarshallBlockchain] and [MergeBlocks]: one node per block;
    a later block replaces an earlier one with the same hash. *)
Definition alloc_nodes (h : heap) (blocks : list Block) : heap * gmap string loc :=
  fold_left (fun '(h, nodeMap) b =>
    let '(h, l) := alloc h (newNode b None) in (h, <[Hash b := l]> nodeMap)) blocks (h, ∅).

(** Second loop: link every node to its parent, and find the genesis node. *)
Fixpoint link_nodes (nodeMap : gmap string loc) (keys : list string) (h : heap)
    (genesisNode : option loc) : go (heap * result (option loc)) :=
  match keys with
  | [] => Ret (h, Ok genesisNode)
  | key :: keys =>
      node ← deref (nodeMap !! key);
      nd ← deref (h !! node);
      if decide (PreviousHash (block nd) = EmptyString)
      then link_nodes nodeMap keys h (Some node)
      else match nodeMap !! PreviousHash (block nd) with
      | None => Ret (h, Err "no parent for a node")
      | Some parentNode =>
          let h := <[node := set_parent (Some parentNode) nd]> h in
          pn ← deref (h !! parentNode);
          let h := <[parentNode := set_children (children pn ++ [node]) pn]> h in
          link_nodes nodeMap keys h genesisNode
      end
  end.

(** The end of both functions: a chain over the linked nodes. *)
Definition finish_chain (fuel : nat) (cfg : Settings) (nodeMap : gmap string loc)
    (r : heap * result (option loc)) : go (heap * result Blockchain) :=
  match r with
  | (h, Err e) => Ret (h, Err e)
  | (h, Ok None) => Ret (h, Err "no genesis block found")
  | (h, Ok (Some g)) =>
      '(bc, _) ← getLastNodes_fuel fuel h (mkBlockchain g g nodeMap cfg);
      Ret (h, Ok bc)
  end.

(** The configuration of the result is the zero value; callers set it. *)
Definition UnmarshallBlockchain (rg : RangeOrder) (h : heap) (blocks : list Block)
    : go (heap * result Blockchain) :=
  let '(h, nodeMap) := alloc_nodes h blocks in
  r ← link_nodes nodeMap (range rg nodeMap).*1 h None;
  finish_chain (length h) zero_Settings nodeMap r.

(** [rg1] enumerates the receiver's nodes, [rg2] the merged map. A merged store
    need not be a tree, so the search of the result takes its own fuel. *)
Definition MergeBlocks (rg1 rg2 : RangeOrder) (fuel : nat) (h : heap) (bc : Blockchain)
    (blocks : list Block) : go (heap * result Blockchain) :=
  let '(h, nodeMap) := alloc_nodes h blocks in
  let nodeMap := fold_left (fun nm kl => <[kl.1 := kl.2]> nm) (range rg1 (bc_m bc)) nodeMap in
  r ← link_nodes nodeMap (range rg2 nodeMap).*1 h None;
  finish_chain fuel (bc_config bc) nodeMap r.

(** ** Walking towards the genesis block *)

(** [for node != nil { body; node = node.parent }]. *)
Fixpoint backtrack {S : Type} (fuel : nat) (h : heap) (body : Node -> S -> S)
    (node : option loc) (s : S) : go S :=
  match node with
  | None => Ret s
  | Some l =>
      match fuel with
      | O => NoFuel
      | Datatypes.S fuel =>
          nd ← deref (h !! l);
          backtrack fuel h body (parent nd) (body nd s)
      end
  end.

Fixpoint confirm_loop (opConfirmThresh : nat) (h : heap) (node : loc) : go (option loc) :=
  match opConfirmThresh with
  | O => Ret (Some node)
  | S k =>
      nd ← deref (h !! node);
      match parent nd with
      | None => Ret None
      | Some p => confirm_loop k h p
      end
  end.

(** [None]: the Go function returns [nil, false]. *)
Definition getLastConfirmedNode (h : heap) (bc : Blockchain) (numConfirmedBlocks : Z)
    : go (Blockchain * option loc) :=
  '(bc, ls) ← getLastNodes h bc;
  match ls with
  | [] => Ret (bc, None)
  | node :: _ =>
      r ← confirm_loop (Z.to_nat numConfirmedBlocks) h node;
      Ret (bc, r)
  end.

Definition GetSize (bc : Blockchain) : nat := size (bc_m bc).

Definition HasBlock (bc : Blockchain) (hash : string) : bool :=
  bool_decide (is_Some (bc_m bc !! hash)).

Definition GetBlock (h : heap) (bc : Blockchain) (hash : string) : go (Block * bool) :=
  match bc_m bc !! hash with
  | Some l => nd ← deref (h !! l); Ret (block nd, true)
  | None => Ret (zero_Block, false)
  end.

Fixpoint prev_loop (n : nat) (h : heap) (node : option loc) (result : list Block)
    : go (list Block) :=
  match n, node with
  | S n, Some l =>
      nd ← deref (h !! l);
      prev_loop n h (parent nd) (result ++ [block nd])
  | _, _ => Ret result
  end.

(** [make] with a negative capacity panics. *)
Definition GetPreviousBlocks (h : heap) (bc : Blockchain) (hash : string) (numBlocks : Z)
    : go (list Block) :=
  match bc_m bc !! hash with
  | None => Ret []
  | Some l =>
      if decide (numBlocks < 0)%Z then Panic
      else
        nd ← deref (h !! l);
        prev_loop (Z.to_nat numBlocks) h (Some l) [block nd]
  end.
