(* ===== verification/ChainTheory.v ===== *)
(** Well-formed block trees: what the pointer structure of [Blockchain] means,
    and the correctness of its traversals. *)
From S2P Require Import Prelude GoLib Settings Operation Block Blockchain.

(** ** Paths to the root *)

(** [path h l ls]: following parent pointers from [l] visits [ls] and ends at a
    node without parent. *)
Inductive path (h : heap) : loc -> list loc -> Prop :=
| path_root l n : h !! l = Some n -> parent n = None -> path h l [l]
| path_step l n p ls :
    h !! l = Some n -> parent n = Some p -> path h p ls -> path h l (l :: ls).
#[export] Hint Constructors path : miner.

Lemma path_det h l ls1 ls2 : path h l ls1 -> path h l ls2 -> ls1 = ls2.
Proof.
  intros H; revert ls2. induction H; inversion 1; simplify_eq; [done|]. f_equal. auto.
Qed.

Lemma path_inv h l ls :
  path h l ls -> exists n ls', h !! l = Some n /\ ls = l :: ls' /\
    match parent n with None => ls' = [] | Some p => path h p ls' end.
Proof.
  destruct 1 as [l n Hn Hp|l n p ls Hn Hp H]; [exists n, []|exists n, ls]; by rewrite Hp.
Qed.

Lemma path_suffix h l ls x : path h l ls -> x ∈ ls -> exists xs, path h x xs /\ xs `suffix_of` ls.
Proof.
  induction 1 as [l n Hn Hp|l n p ls Hn Hp Hpath IH]; intros Hx.
  - apply list_elem_of_singleton in Hx as ->. eauto with miner.
  - apply elem_of_cons in Hx as [->|Hx]; [eauto with miner|].
    destruct (IH Hx) as (xs & ? & ?). exists xs. eauto using suffix_cons_r.
Qed.

Lemma path_NoDup h l ls : path h l ls -> NoDup ls.
Proof.
  induction 1 as [l n Hn Hp|l n p ls Hn Hp Hpath IH]; [apply NoDup_singleton|].
  apply NoDup_cons; split; [|done]. intros Hin.
  destruct (path_suffix _ _ _ _ Hpath Hin) as (xs & Hxs & Hsuf).
  assert (xs = l :: ls) as -> by eauto using path_det with miner.
  apply suffix_length in Hsuf. simpl in Hsuf. lia.
Qed.

Lemma path_lookup h l ls x : path h l ls -> x ∈ ls -> is_Some (h !! x).
Proof.
  induction 1; intros Hx; set_unfold in Hx; naive_solver.
Qed.

Lemma path_length h l ls : path h l ls -> length ls <= length h.
Proof.
  intros Hp. apply NoDup_bounded_length; [by eapply path_NoDup|].
  apply Forall_forall. intros x Hx. by eapply lookup_lt_is_Some, path_lookup.
Qed.

(** Writes that keep parent pointers keep paths. *)
Lemma path_mono h h' l ls :
  (forall x n, h !! x = Some n -> exists n', h' !! x = Some n' /\ parent n' = parent n) ->
  path h l ls -> path h' l ls.
Proof.
  intros Hh. induction 1 as [l n Hn Hp|l n p ls Hn Hp _ IH];
    destruct (Hh _ _ Hn) as (n' & ? & ?); econstructor; eauto; congruence.
Qed.

(** The path as a function, for statements and evaluation. *)
Fixpoint ancestors_fuel (fuel : nat) (h : heap) (l : loc) : list loc :=
  match fuel with
  | O => []
  | S fuel =>
      match h !! l with
      | None => []
      | Some n => l :: match parent n with None => [] | Some p => ancestors_fuel fuel h p end
      end
  end.
Definition ancestors (h : heap) (l : loc) : list loc := ancestors_fuel (length h) h l.

Lemma ancestors_fuel_path h l ls fuel :
  path h l ls -> length ls <= fuel -> ancestors_fuel fuel h l = ls.
Proof.
  intros H; revert fuel. induction H as [l n Hn Hp|l n p ls Hn Hp _ IH];
    intros [|fuel] Hf; simpl in *; try lia; rewrite Hn, Hp; [done|].
  f_equal. apply IH. lia.
Qed.

Lemma ancestors_path h l ls : path h l ls -> ancestors h l = ls.
Proof. intros. apply ancestors_fuel_path; [done|]. by eapply path_length. Qed.

(** The nodes of a list of pointers, and the blocks on the branch that ends at
    a node, newest first. *)
Definition nodes_at (h : heap) (ls : list loc) : list Node := omap (fun l => h !! l) ls.
Definition branch (h : heap) (l : loc) : list Block := block <$> nodes_at h (ancestors h l).
Definition depth (h : heap) (l : loc) : nat := pred (length (ancestors h l)).

Lemma nodes_at_cons h l ls n : h !! l = Some n -> nodes_at h (l :: ls) = n :: nodes_at h ls.
Proof. intros Hn. unfold nodes_at. simpl. by rewrite Hn. Qed.

Lemma length_nodes_at h l ls : path h l ls -> length (nodes_at h ls) = length ls.
Proof.
  induction 1; [by erewrite nodes_at_cons|]. erewrite nodes_at_cons by done. simpl. by f_equal.
Qed.

(** A branch is a block followed by the branch of its parent. *)
Lemma branch_unfold h l ls n :
  path h l ls -> h !! l = Some n ->
  branch h l = block n :: match parent n with None => [] | Some p => branch h p end.
Proof.
  intros Hp Hn. unfold branch. rewrite (ancestors_path _ _ _ Hp).
  apply path_inv in Hp as (n' & ls' & Hn' & -> & Hrest). simplify_eq.
  rewrite (nodes_at_cons _ _ _ _ Hn'), fmap_cons. f_equal.
  destruct (parent n'); [by rewrite (ancestors_path _ _ _ Hrest)|by subst].
Qed.

Lemma depth_child h c cn p ls :
  path h p ls -> h !! c = Some cn -> parent cn = Some p -> depth h c = S (depth h p).
Proof.
  intros Hp Hc Hpar. unfold depth. rewrite (ancestors_path _ _ _ Hp).
  rewrite (ancestors_path h c (c :: ls)) by eauto with miner.
  apply path_inv in Hp as (? & ? & _ & -> & _). done.
Qed.

(** The backtracking loop runs its body over the branch, newest block first. *)
Lemma backtrack_path {S} fuel h (body : Node -> S -> S) l ls s :
  path h l ls -> length ls <= fuel ->
  backtrack fuel h body (Some l) s = Ret (fold_left (fun s n => body n s) (nodes_at h ls) s).
Proof.
  intros H; revert fuel s. induction H as [l n Hn Hp|l n p ls Hn Hp _ IH];
    intros [|fuel] s Hf; simpl in Hf; try lia; cbn [backtrack]; rewrite Hn;
    rewrite (nodes_at_cons _ _ _ _ Hn); simpl; rewrite Hp.
  - by destruct fuel.
  - apply IH. lia.
Qed.

(** Walking back [k] steps is an index into the path. *)
Lemma confirm_loop_path k h l ls :
  path h l ls -> confirm_loop k h l = Ret (ls !! k).
Proof.
  revert l ls; induction k as [|k IH]; intros l ls Hp;
    apply path_inv in Hp as (n & ls' & Hn & -> & Hrest); simpl; [done|].
  rewrite Hn. simpl. destruct (parent n); [by apply IH|by subst].
Qed.

Lemma prev_loop_path k h l ls acc :
  path h l ls -> prev_loop k h (Some l) acc = Ret (acc ++ (block <$> take k (nodes_at h ls))).
Proof.
  intros H; revert k acc. induction H as [l n Hn Hp|l n p ls Hn Hp _ IH]; intros [|k] acc;
    rewrite (nodes_at_cons _ _ _ _ Hn); cbn [prev_loop take fmap list_fmap];
    rewrite ?app_nil_r; try done; rewrite Hn; simpl; rewrite Hp.
  - by destruct k; simpl; rewrite ?take_nil.
  - rewrite IH. by rewrite <- app_assoc.
Qed.

(** ** Well-formed chains *)

Record wf (h : heap) (bc : Blockchain) : Prop := {
  (** the index maps a hash to a live node holding the block with that hash; *)
  wf_node : forall k l, bc_m bc !! k = Some l ->
    exists n, h !! l = Some n /\ Hash (block n) = k;
  (** the genesis node is indexed and has no parent; *)
  wf_genesis : exists n, h !! genesis bc = Some n /\ parent n = None /\
    bc_m bc !! Hash (block n) = Some (genesis bc);
  (** the parent of any other node is the indexed node of its previous hash; *)
  wf_parent : forall k l n, bc_m bc !! k = Some l -> h !! l = Some n ->
    l <> genesis bc ->
    exists p, parent n = Some p /\ bc_m bc !! PreviousHash (block n) = Some p;
  (** parent pointers lead to a root; *)
  wf_path : forall k l, bc_m bc !! k = Some l -> exists ls, path h l ls;
  (** children are exactly the indexed nodes with that parent, each once; *)
  wf_children : forall k l n c, bc_m bc !! k = Some l -> h !! l = Some n ->
    c ∈ children n <->
    exists kc cn, bc_m bc !! kc = Some c /\ h !! c = Some cn /\ parent cn = Some l;
  wf_children_NoDup : forall k l n, bc_m bc !! k = Some l -> h !! l = Some n ->
    NoDup (children n);
  (** the cached last node is indexed. *)
  wf_last : exists k, bc_m bc !! k = Some (lastNode bc)
}.

Definition in_chain (bc : Blockchain) (l : loc) : Prop := exists k, bc_m bc !! k = Some l.

Section wf.
Context {h : heap} {bc : Blockchain} (W : wf h bc).

Lemma wf_lookup l : in_chain bc l -> exists n, h !! l = Some n /\ bc_m bc !! Hash (block n) = Some l.
Proof using W. intros [k Hk]. destruct (wf_node _ _ W k l Hk) as (n & ? & <-). eauto. Qed.

Lemma wf_key_inj k1 k2 l : bc_m bc !! k1 = Some l -> bc_m bc !! k2 = Some l -> k1 = k2.
Proof using W.
  intros H1 H2. destruct (wf_node _ _ W _ _ H1) as (? & ? & ?).
  destruct (wf_node _ _ W _ _ H2) as (? & ? & ?). congruence.
Qed.

Lemma wf_ancestors l : in_chain bc l -> path h l (ancestors h l).
Proof using W.
  intros [k Hk]. destruct (wf_path _ _ W k l Hk) as [ls Hls].
  by rewrite (ancestors_path _ _ _ Hls).
Qed.

Lemma in_chain_genesis : in_chain bc (genesis bc).
Proof using W. destruct (wf_genesis _ _ W) as (n & _ & _ & ?). by eexists. Qed.

Lemma in_chain_lastNode : in_chain bc (lastNode bc).
Proof using W. exact (wf_last _ _ W). Qed.

Lemma in_chain_parent l n p : in_chain bc l -> h !! l = Some n -> parent n = Some p -> in_chain bc p.
Proof using W.
  intros [k Hk] Hn Hp. destruct (decide (l = genesis bc)) as [->|Hg].
  - destruct (wf_genesis _ _ W) as (? & ? & ? & ?). simplify_eq.
  - destruct (wf_parent _ _ W _ _ _ Hk Hn Hg) as (? & ? & ?). simplify_eq. by eexists.
Qed.

Lemma in_chain_root l n : in_chain bc l -> h !! l = Some n -> parent n = None -> l = genesis bc.
Proof using W.
  intros [k Hk] Hn Hp. destruct (decide (l = genesis bc)) as [->|Hg]; [done|].
  destruct (wf_parent _ _ W _ _ _ Hk Hn Hg) as (? & ? & ?). congruence.
Qed.

(** Induction on the tree, from the genesis node towards the leaves. *)
Lemma chain_ind (P : loc -> Prop) :
  P (genesis bc) ->
  (forall p pn c cn, in_chain bc p -> h !! p = Some pn -> in_chain bc c ->
     h !! c = Some cn -> parent cn = Some p -> c ∈ children pn -> P p -> P c) ->
  forall l, in_chain bc l -> P l.
Proof using W.
  intros Hg Hstep l Hl. pose proof (wf_ancestors l Hl) as Hp. revert Hl.
  induction Hp as [l n Hn Hp|l n p ls Hn Hp Hpath IH]; intros Hl.
  - by rewrite (in_chain_root l n).
  - pose proof (in_chain_parent _ _ _ Hl Hn Hp) as Hpc.
    destruct (wf_lookup p Hpc) as (pn & Hpn & Hk), Hl as [kl Hkl].
    eapply (Hstep p pn l n); eauto; [by eexists|].
    apply (wf_children _ _ W _ _ _ _ Hk Hpn). eauto.
Qed.

(** Every branch ends with the genesis node. *)
Lemma ancestors_last l : in_chain bc l -> last (ancestors h l) = Some (genesis bc).
Proof using W.
  revert l. apply chain_ind.
  - destruct (wf_genesis _ _ W) as (n & ? & ? & ?).
    by rewrite (ancestors_path h (genesis bc) [genesis bc]) by eauto with miner.
  - intros p pn c cn Hp Hpn Hc Hcn Hpar _ IH. pose proof (wf_ancestors p Hp) as Hpath.
    rewrite (ancestors_path h c (c :: ancestors h p)) by eauto with miner.
    by rewrite last_cons, IH.
Qed.

Lemma branch_cons l n :
  in_chain bc l -> h !! l = Some n ->
  branch h l = block n :: match parent n with None => [] | Some p => branch h p end.
Proof using W. intros. eapply branch_unfold; eauto using wf_ancestors. Qed.

Lemma backtrack_wf {S} (body : Node -> S -> S) l s :
  in_chain bc l ->
  backtrack (length h) h body (Some l) s
  = Ret (fold_left (fun s n => body n s) (nodes_at h (ancestors h l)) s).
Proof using W. intros Hl. eapply backtrack_path; [|eapply path_length]; by apply wf_ancestors. Qed.
End wf.

(** ** The depth-first search *)

Lemma fold_left_push {A} (l st : list A) : fold_left (fun st c => c :: st) l st = reverse l ++ st.
Proof.
  revert st. induction l as [|x l IH]; intros st; simpl; [done|].
  by rewrite IH, reverse_cons, <- app_assoc.
Qed.

Lemma fold_left_push_const {A B} (l : list A) (x : B) st :
  fold_left (fun st _ => x :: st) l st = replicate (length l) x ++ st.
Proof.
  revert st. induction l as [|y l IH]; intros st; simpl; [done|].
  rewrite IH. change (x :: replicate (length l) x ++ st) with (replicate (S (length l)) x ++ st).
  by rewrite replicate_S_end, <- app_assoc.
Qed.

Lemma filter_none {A} (P : A -> Prop) `{forall x, Decision (P x)} (l : list A) :
  (forall x, x ∈ l -> ~ P x) -> filter P l = [].
Proof.
  induction l as [|x l IH]; intros Hn; [done|].
  rewrite filter_cons_False by (apply Hn; set_solver). apply IH. set_solver.
Qed.

(** What the search collects: the visited nodes at the depth reached, after a
    first copy of the genesis node that is dropped once the depth is positive. *)
Definition deepest_of (h : heap) (bc : Blockchain) (V : list loc) (d : nat) : list loc :=
  (if decide (d = 0) then [genesis bc] else []) ++ filter (fun l => depth h l = d) V.

(** Invariant of the search after visiting [V], in this order. *)
Record dfs_inv (h : heap) (bc : Blockchain) (V : list loc) (s : dfs) : Prop := {
  di_depths : dStack s = depth h <$> nStack s;
  di_nodup : NoDup (V ++ nStack s);
  di_chain : forall l, l ∈ V ++ nStack s -> in_chain bc l;
  di_closed : forall v n c, v ∈ V -> h !! v = Some n -> c ∈ children n -> c ∈ V ++ nStack s;
  di_parent : forall x n p, x ∈ V ++ nStack s -> h !! x = Some n -> parent n = Some p -> p ∈ V;
  di_genesis : genesis bc ∈ V ++ nStack s;
  di_max : forall v, v ∈ V -> depth h v <= maxDepth s;
  di_last : lastNodes s = deepest_of h bc V (maxDepth s);
  di_deepest : head (lastNodes s) = Some (deepest s)
}.

Section dfs.
Context {h : heap} {bc : Blockchain} (W : wf h bc).

Lemma depth_genesis : depth h (genesis bc) = 0.
Proof using W.
  destruct (wf_genesis _ _ W) as (n & ? & ? & ?). unfold depth.
  by rewrite (ancestors_path h (genesis bc) [genesis bc]) by eauto with miner.
Qed.

Lemma dfs_inv_start : dfs_inv h bc [] (dfs_start (genesis bc)).
Proof using W.
  split; simpl; try set_solver.
  - by rewrite depth_genesis.
  - apply NoDup_singleton.
  - intros l ->%list_elem_of_singleton. exact (in_chain_genesis W).
  - intros x n p ->%list_elem_of_singleton Hn Hp.
    destruct (wf_genesis _ _ W) as (? & ? & ? & _). congruence.
Qed.

Lemma dfs_visit_last V s nd l ds ns :
  (forall v, v ∈ V -> depth h v <= maxDepth s) ->
  lastNodes s = deepest_of h bc V (maxDepth s) ->
  lastNodes (dfs_visit nd (depth h l) l ds ns s)
  = deepest_of h bc (V ++ [l]) (maxDepth (dfs_visit nd (depth h l) l ds ns s)).
Proof using Type.
  intros Hmax Hlast. unfold dfs_visit, deepest_of in *.
  destruct (decide (maxDepth s < depth h l)) as [Hlt|Hge];
    [|destruct (decide (depth h l = maxDepth s)) as [Heq|Hne]];
    simpl; rewrite filter_app.
  - rewrite decide_False by lia. rewrite filter_none, filter_cons_True; [done|done|].
    intros v Hv. specialize (Hmax v Hv). lia.
  - by rewrite filter_cons_True, filter_nil, app_assoc, Hlast.
  - by rewrite filter_cons_False, filter_nil, app_nil_r.
Qed.

Lemma dfs_inv_visit V s l ns nd :
  nStack s = l :: ns -> h !! l = Some nd -> dfs_inv h bc V s ->
  dfs_inv h bc (V ++ [l]) (dfs_visit nd (depth h l) l (depth h <$> ns) ns s).
Proof using W.
  intros Hst Hnd [Hd Hnodup Hch Hcl Hpar Hg Hmax Hlast Hdeep]. rewrite Hst in *.
  assert (in_chain bc l) as Hl by set_solver. destruct (wf_lookup W l Hl) as (nd' & ? & Hk).
  assert (nd' = nd) as -> by congruence.
  assert (forall c, c ∈ children nd -> exists cn, in_chain bc c /\ h !! c = Some cn /\ parent cn = Some l) as Hcs.
  { intros c Hc. apply (wf_children _ _ W _ _ _ _ Hk Hnd) in Hc as (kc & cn & ? & ? & ?).
    exists cn. split; [by exists kc|done]. }
  assert (forall c, c ∈ children nd -> c ∉ V ++ l :: ns) as Hfresh.
  { intros c Hc Hin. destruct (Hcs c Hc) as (cn & _ & Hcn & Hcp).
    pose proof (Hpar c cn l Hin Hcn Hcp). apply NoDup_app in Hnodup. set_solver. }
  assert (nStack (dfs_visit nd (depth h l) l (depth h <$> ns) ns s) = reverse (children nd) ++ ns
    /\ dStack (dfs_visit nd (depth h l) l (depth h <$> ns) ns s)
       = replicate (length (children nd)) (S (depth h l)) ++ (depth h <$> ns)) as [Hns Hds].
  { unfold dfs_visit. rewrite fold_left_push, fold_left_push_const. by repeat case_decide. }
  split; rewrite ?Hns, ?Hds.
  - rewrite fmap_app. f_equal. rewrite <- length_reverse.
    assert (forall cs, (forall c, c ∈ cs -> depth h c = S (depth h l)) ->
      replicate (length cs) (S (depth h l)) = depth h <$> cs) as Hrep.
    { induction cs as [|c cs IH]; intros Hc; simpl; [done|]. f_equal; set_solver. }
    apply Hrep. intros c Hc. rewrite elem_of_reverse in Hc.
    destruct (Hcs c Hc) as (cn & ? & ? & ?). eapply depth_child; eauto using wf_ancestors.
  - rewrite <- app_assoc. simpl.
    assert (V ++ l :: reverse (children nd) ++ ns ≡ₚ children nd ++ (V ++ l :: ns)) as ->.
    { rewrite reverse_Permutation. solve_Permutation. }
    apply NoDup_app. split_and!; [by eapply wf_children_NoDup|done|done].
  - set_solver.
  - intros v n c Hv Hn Hc. apply elem_of_app in Hv as [Hv| ->%list_elem_of_singleton]; set_solver.
  - intros x n p Hx Hn Hp.
    assert (x ∈ children nd \/ x ∈ V ++ l :: ns) as [Hx'|Hx'] by set_solver.
    + destruct (Hcs x Hx') as (? & ? & ? & ?). simplify_eq. set_solver.
    + pose proof (Hpar x n p Hx' Hn Hp). set_solver.
  - set_solver.
  - unfold dfs_visit. intros v Hv.
    apply elem_of_app in Hv as [Hv| ->%list_elem_of_singleton];
      [specialize (Hmax v Hv)|]; repeat case_decide; simpl; lia.
  - by apply dfs_visit_last.
  - unfold dfs_visit. repeat case_decide; simpl; try done.
    rewrite head_app, Hdeep. done.
Qed.

Lemma dfs_loop_inv fuel : forall V s,
  dfs_inv h bc V s -> length h <= fuel + length V ->
  exists V' s', dfs_loop fuel h s = Ret s' /\ dfs_inv h bc V' s' /\ nStack s' = [].
Proof using W.
  induction fuel as [|fuel IH]; intros V s I Hf; destruct (nStack s) as [|l ns] eqn:Hst.
  1,3: exists V, s; cbn [dfs_loop]; rewrite Hst; auto.
  all: assert (in_chain bc l) as Hl by (apply (di_chain _ _ _ _ I); rewrite Hst; set_solver).
  all: destruct (wf_lookup W l Hl) as (nd & Hnd & _).
  - exfalso. pose proof (di_nodup _ _ _ _ I) as Hnd'.
    apply NoDup_bounded_length with (n := length h) in Hnd'.
    { rewrite length_app, Hst in Hnd'. simpl in Hnd'. lia. }
    apply Forall_forall. intros x Hx. apply (di_chain _ _ _ _ I) in Hx.
    destruct (wf_lookup W x Hx) as (? & ? & _). by eapply lookup_lt_Some.
  - cbn [dfs_loop]. rewrite Hst, (di_depths _ _ _ _ I), Hst. simpl. rewrite Hnd. simpl.
    apply (IH (V ++ [l])); [by apply dfs_inv_visit|]. rewrite length_app. simpl. lia.
Qed.

(** When the stack is empty the whole tree has been visited. *)
Lemma dfs_done_all V s :
  dfs_inv h bc V s -> nStack s = [] -> forall l, l ∈ V <-> in_chain bc l.
Proof using W.
  intros I Hst. assert (forall x, x ∈ V ++ nStack s <-> x ∈ V) as HV
    by (rewrite Hst, app_nil_r; done).
  intros l. split; [intros; apply (di_chain _ _ _ _ I); by apply HV|].
  revert l. apply (chain_ind W).
  - apply HV, (di_genesis _ _ _ _ I).
  - intros p pn c cn Hp Hpn Hc Hcn Hpar Hin IH. apply HV. eapply (di_closed _ _ _ _ I); eauto.
Qed.

(** A node is deepest when no node of the chain is further from the root. *)
Definition is_deepest (l : loc) : Prop :=
  in_chain bc l /\ forall l', in_chain bc l' -> depth h l' <= depth h l.

Lemma depth_0_genesis l : in_chain bc l -> depth h l = 0 -> l = genesis bc.
Proof using W.
  intros Hl Hd. destruct (wf_lookup W l Hl) as (n & Hn & _).
  destruct (parent n) as [p|] eqn:Hp; [|by eapply in_chain_root].
  pose proof (in_chain_parent W _ _ _ Hl Hn Hp).
  rewrite (depth_child h l n p (ancestors h p)) in Hd; eauto using wf_ancestors. lia.
Qed.

Lemma getLastNodes_wf :
  exists l0 ls, getLastNodes h bc = Ret (set_lastNode bc l0, l0 :: ls) /\
    (forall l, l ∈ l0 :: ls <-> is_deepest l) /\
    (if decide (depth h l0 = 0) then l0 :: ls = [genesis bc; genesis bc]
     else NoDup (l0 :: ls)).
Proof using W.
  destruct (dfs_loop_inv (length h) [] _ dfs_inv_start) as (V & s & Hrun & I & Hst); [simpl; lia|].
  pose proof (dfs_done_all _ _ I Hst) as HV.
  destruct I as [_ Hnd _ _ _ _ Hmax Hlast Hhd]. rewrite Hst, app_nil_r in Hnd.
  assert (forall l, l ∈ lastNodes s -> in_chain bc l /\ depth h l = maxDepth s) as Hin.
  { intros l. rewrite Hlast. unfold deepest_of. rewrite elem_of_app, list_elem_of_filter, HV.
    intros [Hl|?]; [|tauto]. case_decide; [|set_solver].
    apply list_elem_of_singleton in Hl as ->.
    split; [exact (in_chain_genesis W)|]. rewrite depth_genesis. lia. }
  destruct (lastNodes s) as [|l0 ls] eqn:Hls; [done|]. simpl in Hhd. simplify_eq.
  destruct (Hin (deepest s)) as [Hl0 Hd0]; [set_solver|].
  exists (deepest s), ls. unfold getLastNodes, getLastNodes_fuel. rewrite Hrun. simpl.
  rewrite Hls. split; [done|]. rewrite Hd0. split.
  - intros l. split.
    + intros Hl. destruct (Hin l Hl) as [Hc Hd]. split; [done|]. intros l' Hl'.
      rewrite Hd. apply Hmax. by apply HV.
    + intros [Hc Hd]. rewrite Hlast. unfold deepest_of. apply elem_of_app. right.
      apply list_elem_of_filter. split; [|by apply HV].
      specialize (Hd _ Hl0). specialize (Hmax l (proj2 (HV l) Hc)). lia.
  - rewrite Hlast. unfold deepest_of. case_decide as Hz; [|by apply NoDup_filter].
    simpl. f_equal.
    assert (filter (fun l => depth h l = maxDepth s) V ≡ₚ [genesis bc]) as Hp.
    { apply NoDup_Permutation; [by apply NoDup_filter|apply NoDup_singleton|].
      intros l. rewrite list_elem_of_filter, HV, list_elem_of_singleton, Hz. split.
      - intros [??]. by apply depth_0_genesis.
      - intros ->. split; [apply depth_genesis|exact (in_chain_genesis W)]. }
    by apply Permutation_singleton_r in Hp.
Qed.
End dfs.

#[export] Hint Resolve wf_ancestors in_chain_genesis in_chain_lastNode : miner.

Lemma wf_set_lastNode h bc l : wf h bc -> in_chain bc l -> wf h (set_lastNode bc l).
Proof. intros [] Hl. by split. Qed.
