(* ===== verification/Ledger.v ===== *)
(** [bclib/blockchain_rfs.go]: the record file system read off a block chain:
    validation of operations against the coins mined and spent on a branch, and
    the queries on files. *)
From S2P Require Import Prelude GoLib Settings Operation Block Blockchain.
Local Open Scope Z_scope.

Record FileOps : Type := mkFileOps {
  Fname : string;
  file_Operations : list Operation;
  Deleted : bool
}.

(** The zero value [FileOps{}]. *)
Definition zero_FileOps : FileOps := mkFileOps EmptyString [] false.

(** ** ValidateOperations *)

(** The price of an operation. *)
Definition cost (cfg : Settings) (op : Operation) : Z :=
  if decide (Op op = Create) then NumCoinsPerFileCreate cfg else 1.

Record vstate : Type := mkV {
  minersBalance : gmap string Z;
  opIds : gmap string Operation;
  files : gmap string Operation
}.

(** First loop: register the operations to validate. *)
Definition register (s : vstate) (op : Operation) : vstate :=
  {| files := if decide (Op op = Create) then <[Filename op := op]> (files s) else files s;
     minersBalance := <[op_MinerID op := 0]> (minersBalance s);
     opIds := <[OperationID op := op]> (opIds s) |}.

(** Credit for a block on the branch. *)
Definition credit (cfg : Settings) (b : Block) (mb : gmap string Z) : gmap string Z :=
  match mb !! MinerID b with
  | Some balance =>
      if (0 <? length (Operations b))%nat
      then <[MinerID b := balance + MinedCoinsPerOpBlock cfg]> mb
      else <[MinerID b := balance + MinedCoinsPerNoOpBlock cfg]> mb
  | None => mb
  end.

(** An operation found on the branch. *)
Definition chain_op (cfg : Settings) (s : vstate) (op : Operation) : vstate :=
  let s :=
    match minersBalance s !! op_MinerID op with
    | Some balance =>
        let ids :=
          if decide (Op op = Create) then
            match files s !! Filename op with
            | Some conflictingOp => delete (OperationID conflictingOp) (opIds s)
            | None => opIds s
            end
          else opIds s in
        mkV (<[op_MinerID op := balance - cost cfg op]> (minersBalance s)) ids (files s)
    | None => s
    end in
  match opIds s !! OperationID op with
  | Some _ => mkV (minersBalance s) (delete (OperationID op) (opIds s)) (files s)
  | None => s
  end.

(** Body of the backtracking loop. *)
Definition chain_block (cfg : Settings) (nd : Node) (s : vstate) : vstate :=
  let s := mkV (credit cfg (block nd) (minersBalance s)) (opIds s) (files s) in
  fold_left (chain_op cfg) (Operations (block nd)) s.

(** Third loop: spend the balances on the remaining operations, in iteration
    order; [None] is the early return for a miner without balance. *)
Fixpoint spend (cfg : Settings) (ops : list (string * Operation)) (mb : gmap string Z)
    (conflictOpIds : list string) : option (gmap string Z * list string) :=
  match ops with
  | [] => Some (mb, conflictOpIds)
  | (_, op) :: ops =>
      match mb !! op_MinerID op with
      | None => None
      | Some minerBalance =>
          if decide (minerBalance - cost cfg op < 0) then
            spend cfg ops (<[op_MinerID op := minerBalance]> mb)
              (conflictOpIds ++ [OperationID op])
          else
            spend cfg ops (<[op_MinerID op := minerBalance - cost cfg op]> mb) conflictOpIds
      end
  end.

(** [rg1] and [rg2] are the orders of the two loops over [opIds]. *)
Definition ValidateOperations (rg1 rg2 : RangeOrder) (h : heap) (bc : Blockchain)
    (operations : list Operation) (previousHash : string) : go (list Operation * bool) :=
  match operations with
  | [] => Ret ([], true)
  | _ =>
      let s := fold_left register operations (mkV ∅ ∅ ∅) in
      match bc_m bc !! previousHash with
      | None => Ret ([], false)
      | Some node =>
          s ← backtrack (length h) h (chain_block (bc_config bc)) (Some node) s;
          match spend (bc_config bc) (range rg1 (opIds s)) (minersBalance s) [] with
          | None => Ret ([], false)
          | Some (_, conflictOpIds) =>
              let ids := fold_left (fun ids id => delete id ids) conflictOpIds (opIds s) in
              let validOps := (range rg2 ids).*2 in
              Ret (validOps, bool_decide (length operations = length validOps))
          end
      end
  end.

(** ** File queries *)

(** [map[string]struct{}] as a map to [unit], so that its iteration order is a
    [RangeOrder]. *)
Definition ListFiles (rg : RangeOrder) (h : heap) (bc : Blockchain) : go (Blockchain * list string) :=
  '(bc, node) ← getLastConfirmedNode h bc (ConfirmsPerFileCreate (bc_config bc));
  match node with
  | None => Ret (bc, [])
  | Some node =>
      filenames ← backtrack (length h) h
        (fun nd filenames => fold_left (fun fs op => <[Filename op := tt]> fs)
           (Operations (block nd)) filenames)
        (Some node) (∅ : gmap string unit);
      Ret (bc, (range rg filenames).*1)
  end.

(** One operation in the inner loop of [NumRecs]: the count and whether the file
    was seen. *)
Definition numrecs_op (fname : string) (r : Z * bool) (op : Operation) : Z * bool :=
  let '(numRecs, seenFilename) := r in
  if decide (Filename op = fname) then
    (if decide (Op op = Append) then numRecs + 1 else numRecs, true)
  else (numRecs, seenFilename).

Definition NumRecs (h : heap) (bc : Blockchain) (fname : string) : go (Blockchain * (Z * bool)) :=
  '(bc, node) ← getLastConfirmedNode h bc (ConfirmsPerFileAppend (bc_config bc));
  match node with
  | None => Ret (bc, (-1, false))
  | Some node =>
      r ← backtrack (length h) h
        (fun nd r => fold_left (numrecs_op fname) (Operations (block nd)) r)
        (Some node) (0, false);
      Ret (bc, r)
  end.

(** One operation in the inner loop of [GetFile]: the records so far, whether
    the file was seen, whether it was deleted. *)
Definition file_op (fname : string) (r : list Operation * bool * bool) (op : Operation)
    : list Operation * bool * bool :=
  let '(operations, seenFilename, deleted) := r in
  if decide (Filename op = fname) then
    (if decide (Op op = Append) then operations ++ [op] else operations, true,
     if decide (Op op = Delete) then true else deleted)
  else r.

Definition GetFile (h : heap) (bc : Blockchain) (fname : string) : go (Blockchain * (FileOps * bool)) :=
  '(bc, node) ← getLastConfirmedNode h bc (ConfirmsPerFileAppend (bc_config bc));
  match node with
  | None => Ret (bc, (zero_FileOps, false))
  | Some node =>
      '(operations, seenFilename, deleted) ← backtrack (length h) h
        (fun nd r => fold_left (file_op fname) (Operations (block nd)) r)
        (Some node) ([], false, false);
      Ret (bc, (mkFileOps fname (reverse_two_pointers operations) deleted, seenFilename))
  end.

(** ** CheckOpConfirmed *)

Record confirmation : Type := mkConf { confirmed : bool; exists_ : bool; otherMiner : bool }.

(** The inner loop over the operations of a block at distance [i] from the end
    of the chain; [inl] when it returns from the function. *)
Fixpoint check_ops (op : Operation) (numConfBlocks i : Z) (ops : list Operation) (other : bool)
    : confirmation + bool :=
  match ops with
  | [] => inr other
  | blockOp :: ops =>
      let other :=
        if decide (Op op = Create /\ Filename op = Filename blockOp /\
                   op_MinerID op <> op_MinerID blockOp) then true else other in
      if decide (OperationID blockOp = OperationID op) then
        inl (mkConf (bool_decide (numConfBlocks < i)) true other)
      else check_ops op numConfBlocks i ops other
  end.

Fixpoint check_loop (fuel : nat) (h : heap) (op : Operation) (numConfBlocks : Z)
    (node : option loc) (i : Z) (other : bool) : go confirmation :=
  match node with
  | None => Ret (mkConf false false other)
  | Some l =>
      match fuel with
      | O => NoFuel
      | S fuel =>
          nd ← deref (h !! l);
          match check_ops op numConfBlocks i (Operations (block nd)) other with
          | inl r => Ret r
          | inr other => check_loop fuel h op numConfBlocks (parent nd) (i + 1) other
          end
      end
  end.

Definition CheckOpConfirmed (h : heap) (bc : Blockchain) (op : Operation)
    : go (Blockchain * confirmation) :=
  '(bc, ls) ← getLastNodes h bc;
  node ← deref (ls !! 0%nat);
  let numConfBlocks :=
    if decide (Op op = Append) then ConfirmsPerFileAppend (bc_config bc)
    else ConfirmsPerFileCreate (bc_config bc) in
  r ← check_loop (length h) h op numConfBlocks (Some node) 0 false;
  Ret (bc, r).
