(* ===== verification/LedgerTheory.v ===== *)
(** The rules of the ledger, and what [ValidateOperations] checks of them. *)
From S2P Require Import Prelude GoLib Settings Operation Block Blockchain ChainTheory Ledger.
Local Open Scope Z_scope.

(** ** Accounts on a branch *)

Definition chain_ops (bs : list Block) : list Operation := bs ≫= (fun b : Block => Operations b).

Definition reward (cfg : Settings) (b : Block) : Z :=
  if (0 <? length (Operations b))%nat then MinedCoinsPerOpBlock cfg
  else MinedCoinsPerNoOpBlock cfg.

Definition mined (cfg : Settings) (x : string) (bs : list Block) : Z :=
  sumZ (reward cfg <$> filter (fun b => MinerID b = x) bs).

Definition spent (cfg : Settings) (x : string) (ops : list Operation) : Z :=
  sumZ (cost cfg <$> filter (fun op => op_MinerID op = x) ops).

(** The coins of miner [x] on a branch. *)
Definition balance (cfg : Settings) (x : string) (bs : list Block) : Z :=
  mined cfg x bs - spent cfg x (chain_ops bs).

(** What it takes for [ops] to follow the branch [bs]: fresh and distinct
    identifiers; no creation of a file that a miner of the batch has created;
    enough coins for all operations of each miner. *)
Record admissible (cfg : Settings) (bs : list Block) (ops : list Operation) : Prop := {
  adm_distinct : NoDup (OperationID <$> ops);
  adm_fresh : forall op c, op ∈ ops -> c ∈ chain_ops bs -> OperationID c <> OperationID op;
  adm_create : forall op c, op ∈ ops -> Op op = Create -> c ∈ chain_ops bs -> Op c = Create ->
    Filename c = Filename op -> op_MinerID c ∉ op_MinerID <$> ops;
  adm_coins : forall op, op ∈ ops ->
    spent cfg (op_MinerID op) ops <= balance cfg (op_MinerID op) bs
}.

(** No two operations of a batch create the same file. *)
Definition creates_apart (ops : list Operation) : Prop :=
  forall o o', o ∈ ops -> o' ∈ ops -> Op o = Create -> Op o' = Create ->
    Filename o = Filename o' -> o = o'.

Lemma chain_ops_app bs1 bs2 : chain_ops (bs1 ++ bs2) = chain_ops bs1 ++ chain_ops bs2.
Proof. apply bind_app. Qed.

Lemma spent_app cfg x ops1 ops2 : spent cfg x (ops1 ++ ops2) = spent cfg x ops1 + spent cfg x ops2.
Proof. unfold spent. by rewrite filter_app, fmap_app, sumZ_app. Qed.

Lemma spent_singleton cfg x op :
  spent cfg x [op] = if decide (op_MinerID op = x) then cost cfg op else 0.
Proof.
  unfold spent. rewrite filter_cons, filter_nil. case_decide; simpl; lia.
Qed.

#[export] Instance spent_perm cfg x : Proper ((≡ₚ) ==> (=)) (spent cfg x).
Proof. intros l1 l2 Hp. unfold spent. by rewrite Hp. Qed.

Lemma spent_nonneg cfg x ops : 0 <= NumCoinsPerFileCreate cfg -> 0 <= spent cfg x ops.
Proof.
  intros Hc. unfold spent. apply sumZ_nonneg, Forall_fmap, Forall_forall.
  intros op _. simpl. unfold cost. case_decide; lia.
Qed.

Lemma mined_app cfg x bs1 bs2 : mined cfg x (bs1 ++ bs2) = mined cfg x bs1 + mined cfg x bs2.
Proof. unfold mined. by rewrite filter_app, fmap_app, sumZ_app. Qed.

Lemma balance_app cfg x bs1 bs2 : balance cfg x (bs1 ++ bs2) = balance cfg x bs1 + balance cfg x bs2.
Proof. unfold balance. rewrite chain_ops_app, mined_app, spent_app. lia. Qed.

Lemma balance_block cfg x b :
  balance cfg x [b]
  = (if decide (MinerID b = x) then reward cfg b else 0) - spent cfg x (Operations b).
Proof.
  unfold balance, mined, chain_ops. rewrite filter_cons, filter_nil. simpl.
  rewrite app_nil_r. case_decide; simpl; lia.
Qed.

Lemma balance_cons cfg x b bs :
  balance cfg x (b :: bs)
  = (if decide (MinerID b = x) then reward cfg b else 0) - spent cfg x (Operations b)
    + balance cfg x bs.
Proof. change (b :: bs) with ([b] ++ bs). by rewrite balance_app, balance_block. Qed.

(** ** The registration loop *)

Record registered (ops : list Operation) (s : vstate) : Prop := {
  reg_miners : forall x, minersBalance s !! x = if decide (x ∈ op_MinerID <$> ops) then Some 0 else None;
  reg_ids : forall i o, opIds s !! i = Some o -> o ∈ ops /\ OperationID o = i;
  reg_ids_dom : forall o, o ∈ ops -> is_Some (opIds s !! OperationID o);
  reg_size : (size (opIds s) <= length ops)%nat;
  reg_dup : ~ NoDup (OperationID <$> ops) -> (size (opIds s) < length ops)%nat;
  reg_files : forall f o, files s !! f = Some o -> o ∈ ops /\ Op o = Create /\ Filename o = f;
  reg_files_dom : forall o, o ∈ ops -> Op o = Create -> is_Some (files s !! Filename o)
}.

Lemma register_registered ops op s :
  registered ops s -> registered (ops ++ [op]) (register s op).
Proof.
  intros [Hm Hi Hid Hsz Hdup Hf Hfd]. unfold register. split; simpl.
  - intros x. rewrite fmap_app, lookup_insert, Hm. repeat case_decide; set_solver.
  - intros i o. rewrite lookup_insert. case_decide; [|naive_solver set_solver].
    intros [= <-]. set_solver.
  - intros o Ho. rewrite lookup_insert. case_decide; [done|]. apply Hid. set_solver.
  - rewrite length_app, Nat.add_comm. simpl.
    destruct (opIds s !! OperationID op) eqn:E.
    + rewrite map_size_insert_Some by eauto. lia.
    + rewrite map_size_insert_None by done. lia.
  - rewrite length_app, Nat.add_comm, fmap_app. simpl. intros Hnd.
    destruct (opIds s !! OperationID op) eqn:E.
    + rewrite map_size_insert_Some by eauto. lia.
    + rewrite map_size_insert_None by done. apply -> Nat.succ_lt_mono. apply Hdup.
      intros Hn. apply Hnd. apply NoDup_app. split_and!; [done| |apply NoDup_singleton].
      intros i Hin ->%list_elem_of_singleton. apply list_elem_of_fmap in Hin as (o & Heq & Ho).
      apply Hid in Ho. rewrite <- Heq, E in Ho. by apply is_Some_None in Ho.
  - intros f o. case_decide; [|naive_solver set_solver]. rewrite lookup_insert.
    case_decide; [|naive_solver set_solver]. intros [= <-]. set_solver.
  - intros o Ho Hc. apply elem_of_app in Ho as [Ho| ->%list_elem_of_singleton].
    + specialize (Hfd o Ho Hc). case_decide; [|done]. rewrite lookup_insert. by case_decide.
    + rewrite decide_True by done. by rewrite lookup_insert_eq.
Qed.

Lemma registered_all ops : registered ops (fold_left register ops (mkV ∅ ∅ ∅)).
Proof.
  apply (fold_left_inv registered).
  - split; simpl; try set_solver; try done.
    intros Hn. destruct Hn. constructor.
  - intros done op rest s _. apply register_registered.
Qed.

(** ** The backtracking loop *)

(** Operation [c] of the branch removes identifier [i]. *)
Definition removes (fs : gmap string Operation) (miners : gset string) (c : Operation) (i : string)
    : Prop :=
  i = OperationID c \/
  (Op c = Create /\ op_MinerID c ∈ miners /\
   exists o, fs !! Filename c = Some o /\ OperationID o = i).

(** From [s] to [s'] by walking over [bs]. *)
Record walked (cfg : Settings) (s : vstate) (bs : list Block) (s' : vstate) : Prop := {
  wk_files : files s' = files s;
  wk_balance : forall x, minersBalance s' !! x
    = (fun b => b + balance cfg x bs) <$> minersBalance s !! x;
  wk_ids : forall i o, opIds s' !! i = Some o <->
    opIds s !! i = Some o /\
    forall c, c ∈ chain_ops bs -> ~ removes (files s) (dom (minersBalance s)) c i
}.

Lemma chain_op_files cfg s c : files (chain_op cfg s c) = files s.
Proof. unfold chain_op. repeat case_match; done. Qed.

Lemma chain_op_balance cfg s c x :
  minersBalance (chain_op cfg s c) !! x = (fun b => b - spent cfg x [c]) <$> minersBalance s !! x.
Proof.
  rewrite spent_singleton.
  assert (minersBalance (chain_op cfg s c) = match minersBalance s !! op_MinerID c with
    | Some b => <[op_MinerID c := b - cost cfg c]> (minersBalance s)
    | None => minersBalance s end) as ->.
  { unfold chain_op. destruct (minersBalance s !! op_MinerID c); simpl; by case_match. }
  destruct (minersBalance s !! op_MinerID c) as [b|] eqn:E.
  - rewrite lookup_insert. case_decide as Hx; [subst; by rewrite E|].
    destruct (minersBalance s !! x); simpl; [f_equal; lia|done].
  - case_decide as Hx; [subst; by rewrite E|].
    destruct (minersBalance s !! x); simpl; [f_equal; lia|done].
Qed.

Lemma chain_op_ids cfg s c i o :
  opIds (chain_op cfg s c) !! i = Some o <->
  opIds s !! i = Some o /\ ~ removes (files s) (dom (minersBalance s)) c i.
Proof.
  assert (forall ids mb fs, opIds (match ids !! OperationID c with
      | Some _ => mkV mb (delete (OperationID c) ids) fs | None => mkV mb ids fs end)
    = delete (OperationID c) ids) as Hdel.
  { intros ids mb fs. case_match eqn:E; [done|]. simpl. by rewrite delete_id. }
  unfold removes. rewrite elem_of_dom. unfold chain_op.
  destruct (minersBalance s !! op_MinerID c) eqn:E; cbn [opIds]; [|destruct s as [mb0 ids0 fs0]; cbn [opIds files] in *];
    rewrite Hdel; rewrite lookup_delete_Some.
  2: { split; intros [? ?]; (split; [done || naive_solver|]); naive_solver. }
  case_decide as Hc; [|naive_solver].
  destruct (files s !! Filename c) as [co|]; [|naive_solver].
  rewrite lookup_delete_Some. naive_solver.
Qed.

Lemma chain_ops_fold cfg ops s :
  let s' := fold_left (chain_op cfg) ops s in
  files s' = files s /\
  (forall x, minersBalance s' !! x = (fun b => b - spent cfg x ops) <$> minersBalance s !! x) /\
  (forall i o, opIds s' !! i = Some o <-> opIds s !! i = Some o /\
     forall c, c ∈ ops -> ~ removes (files s) (dom (minersBalance s)) c i).
Proof.
  cbv zeta. apply (fold_left_inv (fun done s' => files s' = files s /\
    (forall x, minersBalance s' !! x = (fun b => b - spent cfg x done) <$> minersBalance s !! x) /\
    (forall i o, opIds s' !! i = Some o <-> opIds s !! i = Some o /\
     forall c, c ∈ done -> ~ removes (files s) (dom (minersBalance s)) c i))).
  - split_and!; [done| |set_solver]. intros x. unfold spent. simpl.
    destruct (minersBalance s !! x); simpl; [f_equal; lia|done].
  - intros done c rest s' _ (Hf & Hb & Hi). split_and!.
    + by rewrite chain_op_files.
    + intros x. rewrite chain_op_balance, Hb, spent_app, <- option_fmap_compose.
      destruct (minersBalance s !! x); simpl; [f_equal; lia|done].
    + assert (dom (minersBalance s') = dom (minersBalance s)) as Hdom.
      { apply set_eq. intros x. by rewrite !elem_of_dom, Hb, fmap_is_Some. }
      intros i o. rewrite chain_op_ids, Hi, Hf, Hdom. set_solver.
Qed.

Lemma credit_lookup cfg b mb x :
  credit cfg b mb !! x
  = (fun v => v + (if decide (MinerID b = x) then reward cfg b else 0)) <$> mb !! x.
Proof.
  assert (credit cfg b mb = match mb !! MinerID b with
    | Some v => <[MinerID b := v + reward cfg b]> mb | None => mb end) as ->.
  { unfold credit, reward. by repeat case_match. }
  destruct (mb !! MinerID b) eqn:E; [rewrite lookup_insert|]; case_decide as Hx;
    [subst; by rewrite E| |subst; by rewrite E|];
    destruct (mb !! x); simpl; [f_equal; lia|done|f_equal; lia|done].
Qed.

Lemma walked_nil cfg s : walked cfg s [] s.
Proof.
  split; [done| |set_solver]. intros x. unfold balance, mined, spent. simpl.
  destruct (minersBalance s !! x); simpl; [f_equal; lia|done].
Qed.

Lemma walked_dom cfg s bs s' : walked cfg s bs s' -> dom (minersBalance s') = dom (minersBalance s).
Proof.
  intros [_ Hb _]. apply set_eq. intros x. by rewrite !elem_of_dom, Hb, fmap_is_Some.
Qed.

Lemma walked_step cfg s bs s' nd :
  walked cfg s bs s' -> walked cfg s (bs ++ [block nd]) (chain_block cfg nd s').
Proof.
  intros Hw. pose proof (walked_dom _ _ _ _ Hw) as Hdom. destruct Hw as [Hf Hb Hi].
  unfold chain_block.
  destruct (chain_ops_fold cfg (Operations (block nd))
    (mkV (credit cfg (block nd) (minersBalance s')) (opIds s') (files s'))) as (Hf' & Hb' & Hi').
  cbn [files minersBalance opIds] in *. split.
  - congruence.
  - intros x. rewrite Hb', credit_lookup, Hb, <- !option_fmap_compose, balance_app, balance_block.
    destruct (minersBalance s !! x); simpl; [f_equal; lia|done].
  - assert (dom (credit cfg (block nd) (minersBalance s')) = dom (minersBalance s)) as Hdom'.
    { rewrite <- Hdom. apply set_eq. intros x. by rewrite !elem_of_dom, credit_lookup, fmap_is_Some. }
    intros i o. rewrite Hi', Hi, Hf, Hdom', chain_ops_app.
    unfold chain_ops at 2. simpl. rewrite app_nil_r. setoid_rewrite elem_of_app. naive_solver.
Qed.

Lemma walked_fold cfg s nds :
  walked cfg s (block <$> nds) (fold_left (fun s n => chain_block cfg n s) nds s).
Proof.
  apply (fold_left_inv (fun done s' => walked cfg s (block <$> done) s')); [apply walked_nil|].
  intros done nd rest s' _ Hw. rewrite fmap_app. by apply walked_step.
Qed.

(** ** The spending loop *)

Lemma spent_cons cfg x op ops :
  spent cfg x (op :: ops) = (if decide (op_MinerID op = x) then cost cfg op else 0) + spent cfg x ops.
Proof. change (op :: ops) with ([op] ++ ops). by rewrite spent_app, spent_singleton. Qed.

Lemma spent_none cfg x ops : (forall o, o ∈ ops -> op_MinerID o <> x) -> spent cfg x ops = 0.
Proof.
  intros Hn. unfold spent. by rewrite filter_none by (intros o Ho; apply Hn, Ho).
Qed.

Lemma cost_nonneg cfg op : 0 <= NumCoinsPerFileCreate cfg -> 0 <= cost cfg op.
Proof. unfold cost. case_decide; lia. Qed.

(** The loop splits the operations into those it pays for and those it rejects:
    what is accepted is covered by the balances, and an operation is rejected
    only if its miner cannot pay for all its operations. *)
Record spending (cfg : Settings) (ops : list Operation) (mb mb' : gmap string Z)
    (acc rej : list Operation) : Prop := {
  sp_split : ops ≡ₚ acc ++ rej;
  sp_balance : forall x, mb' !! x = (fun b => b - spent cfg x acc) <$> mb !! x;
  sp_paid : forall o, o ∈ acc -> exists b, mb' !! op_MinerID o = Some b /\ 0 <= b;
  sp_rejected : forall o, o ∈ rej ->
    exists b, mb !! op_MinerID o = Some b /\ b < spent cfg (op_MinerID o) ops
}.

Lemma spending_reject cfg op ops mb mb' acc rej b :
  0 <= NumCoinsPerFileCreate cfg -> mb !! op_MinerID op = Some b -> b < cost cfg op ->
  spending cfg ops mb mb' acc rej -> spending cfg (op :: ops) mb mb' acc (op :: rej).
Proof.
  intros Hc Hb Hlt [Hs Hbal Hp Hr]. split; [|done|done|].
  - rewrite Hs. solve_Permutation.
  - intros o [->|Ho]%elem_of_cons.
    + exists b. split; [done|]. rewrite spent_cons, decide_True by done.
      pose proof (spent_nonneg cfg (op_MinerID op) ops Hc). lia.
    + destruct (Hr o Ho) as (b' & Hb' & Hlt'). exists b'. split; [done|].
      rewrite spent_cons. pose proof (cost_nonneg cfg op Hc). case_decide; lia.
Qed.

Lemma spending_accept cfg op ops mb mb' acc rej b :
  mb !! op_MinerID op = Some b -> 0 <= b - cost cfg op ->
  spending cfg ops (<[op_MinerID op := b - cost cfg op]> mb) mb' acc rej ->
  spending cfg (op :: ops) mb mb' (op :: acc) rej.
Proof.
  intros Hb Hge [Hs Hbal Hp Hr]. split.
  - by rewrite Hs.
  - intros x. rewrite Hbal, lookup_insert, spent_cons. case_decide; [subst; rewrite Hb; simpl; f_equal; lia|].
    destruct (mb !! x); simpl; [f_equal; lia|done].
  - intros o [->|Ho]%elem_of_cons; [|by apply Hp].
    destruct (decide (Exists (fun o => op_MinerID o = op_MinerID op) acc)) as [He|He].
    + apply Exists_exists in He as (o & Ho & <-). by apply Hp.
    + rewrite Hbal, lookup_insert_eq, (spent_none _ _ acc).
      * eexists; split; [reflexivity|lia].
      * intros o Ho Heq. apply He, Exists_exists. eauto.
  - intros o Ho. destruct (Hr o Ho) as (b' & Hb' & Hlt). rewrite lookup_insert in Hb'.
    rewrite spent_cons. case_decide as Heq; simplify_eq.
    + rewrite <- Heq. eexists; split; [done|]. rewrite Heq in *. lia.
    + exists b'. split; [done|]. lia.
Qed.

Lemma spend_spending cfg l : forall mb conf,
  0 <= NumCoinsPerFileCreate cfg ->
  (forall o, o ∈ l.*2 -> is_Some (mb !! op_MinerID o)) ->
  exists mb' acc rej, spend cfg l mb conf = Some (mb', conf ++ (OperationID <$> rej)) /\
    spending cfg l.*2 mb mb' acc rej.
Proof.
  induction l as [|[k op] l IH]; intros mb conf Hc Hm; simpl.
  - exists mb, [], []. rewrite app_nil_r. split; [done|].
    split; [done| |set_solver|set_solver]. intros x. unfold spent. simpl.
    destruct (mb !! x); simpl; [f_equal; lia|done].
  - destruct (Hm op) as [b Hb]; [set_solver|]. rewrite Hb. case_decide as Hlt.
    + rewrite insert_id by done.
      destruct (IH mb (conf ++ [OperationID op]) Hc) as (mb' & acc & rej & Hrun & Hsp); [set_solver|].
      exists mb', acc, (op :: rej). rewrite Hrun, <- app_assoc. split; [done|].
      eapply spending_reject; eauto. lia.
    + destruct (IH (<[op_MinerID op := b - cost cfg op]> mb) conf Hc) as (mb' & acc & rej & Hrun & Hsp).
      { intros o Ho. rewrite lookup_insert. case_decide; [done|]. apply Hm. set_solver. }
      exists mb', (op :: acc), rej. split; [done|]. eapply spending_accept; eauto. lia.
Qed.

(** ** The whole function *)

Lemma fold_delete_lookup {V} (conf : list string) (ids : gmap string V) i o :
  fold_left (fun ids id => delete id ids) conf ids !! i = Some o <->
  ids !! i = Some o /\ i ∉ conf.
Proof.
  revert ids. induction conf as [|k conf IH]; intros ids; simpl; [set_solver|].
  rewrite IH, lookup_delete_Some. set_solver.
Qed.

(** A map keyed by operation identifiers. *)
Definition keyed (ids : gmap string Operation) : Prop :=
  forall i o, ids !! i = Some o -> OperationID o = i.

Lemma keyed_values rg ids :
  keyed ids ->
  NoDup (OperationID <$> (range rg ids).*2) /\
  forall o, o ∈ (range rg ids).*2 <-> ids !! OperationID o = Some o.
Proof.
  intros Hk. assert (OperationID <$> (range rg ids).*2 = (range rg ids).*1) as Heq.
  { rewrite <- list_fmap_compose. apply list_fmap_ext. intros n [i o] Hn. simpl.
    apply Hk, (elem_of_range rg). exact (list_elem_of_lookup_2 _ _ _ Hn). }
  split; [rewrite Heq; apply NoDup_range_keys|].
  intros o. rewrite list_elem_of_fmap. split.
  - intros ([i o'] & -> & Hin). apply elem_of_range in Hin. simpl. by rewrite (Hk _ _ Hin).
  - intros Hin. exists (OperationID o, o). split; [done|]. by apply elem_of_range.
Qed.

Lemma NoDup_ids ops : NoDup (OperationID <$> ops) -> NoDup ops.
Proof. apply NoDup_fmap_1. Qed.

(** Distinct identifiers: the registered map lists the operations. *)
Lemma registered_distinct rg ops s :
  registered ops s -> NoDup (OperationID <$> ops) -> (range rg (opIds s)).*2 ≡ₚ ops.
Proof.
  intros R Hnd. assert (keyed (opIds s)) as Hk by (intros i o Hi; apply (reg_ids _ _ R _ _ Hi)).
  destruct (keyed_values rg (opIds s) Hk) as [Hnd' Hin].
  apply NoDup_Permutation; [by apply NoDup_ids|by apply NoDup_ids|].
  intros o. rewrite Hin. split; [intros Ho; apply (reg_ids _ _ R _ _ Ho)|].
  intros Ho. destruct (reg_ids_dom _ _ R o Ho) as [o' Ho'].
  pose proof (reg_ids _ _ R _ _ Ho') as [Hin' Heq].
  rewrite Ho'. f_equal. by apply (NoDup_fmap_inj_on OperationID ops).
Qed.

Section validate.
Context {h : heap} {bc : Blockchain} (W : wf h bc).
Context (rg1 rg2 : RangeOrder) (ops : list Operation) (prev : string) (l : loc).
Context (Hprev : bc_m bc !! prev = Some l) (Hops : ops <> []).
Context (Hcost : 0 <= NumCoinsPerFileCreate (bc_config bc)).
#[local] Abbreviation cfg := (bc_config bc).

(** The run of [ValidateOperations], with its loops described. *)
Record vrun (valid : list Operation) : Type := {
  vr_s0 : vstate; vr_s : vstate; vr_mb : gmap string Z;
  vr_acc : list Operation; vr_rej : list Operation;
  vr_reg : registered ops vr_s0;
  vr_walk : walked cfg vr_s0 (branch h l) vr_s;
  vr_spend : spending cfg (range rg1 (opIds vr_s)).*2 (minersBalance vr_s) vr_mb vr_acc vr_rej;
  vr_valid : valid ≡ₚ vr_acc
}.

Lemma walked_keyed s0 bs s : registered ops s0 -> walked cfg s0 bs s -> keyed (opIds s).
Proof using Type.
  intros R Hw i o Hi. apply (wk_ids _ _ _ _ Hw) in Hi as [Hi _]. apply (reg_ids _ _ R _ _ Hi).
Qed.

Lemma walked_balance s0 bs s o :
  registered ops s0 -> walked cfg s0 bs s -> o ∈ ops ->
  minersBalance s !! op_MinerID o = Some (balance cfg (op_MinerID o) bs).
Proof using Type.
  intros R Hw Ho. rewrite (wk_balance _ _ _ _ Hw), (reg_miners _ _ R).
  by rewrite decide_True by (by apply list_elem_of_fmap_2).
Qed.

Lemma ValidateOperations_run :
  exists valid, ValidateOperations rg1 rg2 h bc ops prev
      = Ret (valid, bool_decide (length ops = length valid)) /\ inhabited (vrun valid).
Proof using W Hprev Hops Hcost.
  pose proof (registered_all ops) as R. set (s0 := fold_left register ops (mkV ∅ ∅ ∅)) in *.
  assert (in_chain bc l) as Hl by (by exists prev).
  pose proof (walked_fold cfg s0 (nodes_at h (ancestors h l))) as Hw.
  set (s := fold_left _ (nodes_at h (ancestors h l)) s0) in *.
  pose proof (walked_keyed s0 _ s R Hw) as Hk.
  destruct (keyed_values rg1 (opIds s) Hk) as [Hnd Hin].
  destruct (spend_spending cfg (range rg1 (opIds s)) (minersBalance s) [] Hcost)
    as (mb & acc & rej & Hrun & Hsp).
  { intros o Ho. apply Hin, (wk_ids _ _ _ _ Hw) in Ho as [Ho _].
    apply (reg_ids _ _ R) in Ho as [Ho _]. by rewrite (walked_balance s0 _ s o R Hw Ho). }
  eexists. split.
  - unfold ValidateOperations. destruct ops as [|op ops']; [done|]. fold s0. rewrite Hprev.
    rewrite (backtrack_wf W) by done. simpl. fold s. rewrite Hrun. simpl. reflexivity.
  - constructor. refine {| vr_s0 := s0; vr_s := s; vr_mb := mb; vr_acc := acc; vr_rej := rej |}; try done.
    assert (keyed (fold_left (fun ids id => delete id ids) (OperationID <$> rej) (opIds s))) as Hk'.
    { intros i o Hi. apply fold_delete_lookup in Hi as [Hi _]. by apply Hk. }
    destruct (keyed_values rg2 _ Hk') as [Hnd' Hin'].
    rewrite (sp_split _ _ _ _ _ _ Hsp), fmap_app in Hnd. apply NoDup_app in Hnd as (Ha & Hd & _).
    apply NoDup_Permutation; [by apply NoDup_ids|by apply NoDup_ids|].
    intros o. rewrite Hin', fold_delete_lookup, <- Hin, (sp_split _ _ _ _ _ _ Hsp), elem_of_app.
    split.
    + intros [[?|Hr] Hn]; [done|]. exfalso. apply Hn. by apply list_elem_of_fmap_2.
    + intros Ho. split; [by left|]. apply Hd. by apply list_elem_of_fmap_2.
Qed.

(** Facts shared by both directions: the accepted operations, the survivors of
    the walk and the registered operations. *)
Lemma vrun_ops valid (r : vrun valid) o : o ∈ (range rg1 (opIds (vr_s _ r))).*2 -> o ∈ ops.
Proof using Type.
  destruct r as [s0 s mb acc rej R Hw Hsp Hv]. cbn.
  intros Ho. apply (keyed_values rg1 _ (walked_keyed _ _ _ R Hw)) in Ho.
  apply (wk_ids _ _ _ _ Hw) in Ho as [Ho _]. apply (reg_ids _ _ R _ _ Ho).
Qed.

Lemma vrun_valid_in valid (r : vrun valid) o :
  o ∈ valid -> o ∈ (range rg1 (opIds (vr_s _ r))).*2.
Proof using Type.
  destruct r as [s0 s mb acc rej R Hw Hsp Hv]. cbn.
  rewrite Hv, (sp_split _ _ _ _ _ _ Hsp). intros Ho. apply elem_of_app. by left.
Qed.

Lemma vrun_not_removed valid (r : vrun valid) o c :
  o ∈ (range rg1 (opIds (vr_s _ r))).*2 -> c ∈ chain_ops (branch h l) ->
  ~ removes (files (vr_s0 _ r)) (dom (minersBalance (vr_s0 _ r))) c (OperationID o).
Proof using Type.
  destruct r as [s0 s mb acc rej R Hw Hsp Hv]. cbn. intros Ho Hc.
  apply (keyed_values rg1 _ (walked_keyed _ _ _ R Hw)), (wk_ids _ _ _ _ Hw) in Ho as [_ Ho]. auto.
Qed.

Lemma vrun_distinct valid (r : vrun valid) : NoDup (OperationID <$> valid).
Proof using Type.
  destruct r as [s0 s mb acc rej R Hw Hsp Hv].
  destruct (keyed_values rg1 _ (walked_keyed _ _ _ R Hw)) as [Hnd _].
  rewrite (sp_split _ _ _ _ _ _ Hsp), fmap_app in Hnd. rewrite Hv. by apply NoDup_app in Hnd as [? _].
Qed.

(** What is returned is paid for. *)
Lemma vrun_coins valid (r : vrun valid) o :
  o ∈ valid -> spent cfg (op_MinerID o) valid <= balance cfg (op_MinerID o) (branch h l).
Proof using Type.
  intros Ho. pose proof (vrun_ops _ r _ (vrun_valid_in _ r _ Ho)) as Hin.
  destruct r as [s0 s mb acc rej R Hw Hsp Hv]. rewrite Hv in Ho |- *.
  destruct (sp_paid _ _ _ _ _ _ Hsp o Ho) as (b & Hb & Hge).
  rewrite (sp_balance _ _ _ _ _ _ Hsp), (walked_balance s0 _ s o R Hw Hin) in Hb.
  simpl in Hb. simplify_eq. lia.
Qed.

Lemma vrun_fresh valid (r : vrun valid) o c :
  o ∈ valid -> c ∈ chain_ops (branch h l) -> OperationID c <> OperationID o.
Proof using Type.
  intros Ho Hc Heq. apply (vrun_not_removed _ r o c); [by apply vrun_valid_in|done|]. by left.
Qed.

(** Everything accepted: nothing was dropped on the way. *)
Lemma vrun_full valid (r : vrun valid) :
  length ops = length valid ->
  NoDup (OperationID <$> ops) /\ valid ≡ₚ ops /\
  forall o, o ∈ ops -> o ∈ (range rg1 (opIds (vr_s _ r))).*2.
Proof using Type.
  intros Hlen. pose proof (vrun_valid_in _ r) as Hsub.
  destruct r as [s0 s mb acc rej R Hw Hsp Hv]. cbn in *.
  assert (opIds s ⊆ opIds s0) as Hss.
  { apply map_subseteq_spec. intros i o Hi. by apply (wk_ids _ _ _ _ Hw) in Hi as [? _]. }
  assert (length valid <= size (opIds s))%nat as H1.
  { rewrite <- (length_range rg1), <- (length_fmap snd), (sp_split _ _ _ _ _ _ Hsp), Hv, length_app. lia. }
  pose proof (map_subseteq_size _ _ Hss) as H2. pose proof (reg_size _ _ R) as H3.
  assert (NoDup (OperationID <$> ops)) as Hnd.
  { destruct (decide (NoDup (OperationID <$> ops))) as [|Hn]; [done|].
    apply (reg_dup _ _ R) in Hn. lia. }
  assert (opIds s = opIds s0) as Heq by (apply map_subseteq_size_eq; [done|lia]).
  assert ((range rg1 (opIds s)).*2 ≡ₚ ops) as Hp by (rewrite Heq; by apply registered_distinct).
  split_and!; [done| |intros o Ho; by rewrite Hp].
  assert (rej = []) as ->.
  { apply length_zero_iff_nil.
    pose proof (sp_split _ _ _ _ _ _ Hsp) as Hs. rewrite Hp in Hs.
    apply Permutation_length in Hs. rewrite length_app in Hs. apply Permutation_length in Hv. lia. }
  rewrite Hv, <- Hp, (sp_split _ _ _ _ _ _ Hsp), app_nil_r. done.
Qed.

Lemma vrun_admissible valid (r : vrun valid) :
  length ops = length valid -> admissible cfg (branch h l) ops.
Proof using Type.
  intros Hlen. destruct (vrun_full _ r Hlen) as (Hnd & Hp & Hall).
  split; [done|..].
  - intros o c Ho Hc. apply (vrun_fresh _ r); [by rewrite Hp|done].
  - intros o c Ho Hcr Hc Hcc Hf Hm. pose proof (vr_reg _ r) as R.
    destruct (reg_files_dom _ _ R o Ho Hcr) as [o' Ho']. rewrite <- Hf in Ho'.
    destruct (reg_files _ _ R _ _ Ho') as (Hin & _ & _).
    apply (vrun_not_removed _ r o' c); [by apply Hall|done|]. right.
    split_and!; [done| |by exists o']. apply elem_of_dom. by rewrite (reg_miners _ _ R), decide_True.
  - intros o Ho. rewrite <- Hp in Ho |- * at 1. by apply (vrun_coins _ r).
Qed.

(** Of a batch without competing creations, what is returned is admissible. *)
Lemma vrun_valid_admissible valid (r : vrun valid) :
  creates_apart ops -> admissible cfg (branch h l) valid.
Proof using Type.
  intros Hap. assert (forall o, o ∈ valid -> o ∈ ops) as Hsub
    by (intros o Ho; by apply (vrun_ops _ r), vrun_valid_in).
  split; [apply (vrun_distinct _ r)|intros o c; apply (vrun_fresh _ r)| |intros o; apply (vrun_coins _ r)].
  intros o c Ho Hcr Hc Hcc Hf (v & Hv & Hvin)%list_elem_of_fmap. pose proof (vr_reg _ r) as R.
  destruct (reg_files_dom _ _ R o (Hsub _ Ho) Hcr) as [o' Ho'].
  destruct (reg_files _ _ R _ _ Ho') as (Hin & Hcr' & Hf').
  assert (o' = o) as -> by (apply Hap; auto).
  apply (vrun_not_removed _ r o c); [by apply vrun_valid_in|done|]. right.
  split_and!; [done| |exists o; by rewrite Hf]. apply elem_of_dom. rewrite (reg_miners _ _ R), decide_True; [done|].
  rewrite Hv. apply list_elem_of_fmap_2. auto.
Qed.

Lemma admissible_not_removed s0 o c :
  registered ops s0 -> admissible cfg (branch h l) ops -> o ∈ ops ->
  c ∈ chain_ops (branch h l) -> ~ removes (files s0) (dom (minersBalance s0)) c (OperationID o).
Proof using Type.
  intros R [Hnd Hfr Hcr _] Ho Hc [Heq|(Hcc & Hm & o' & Ho' & Heq)].
  - by apply (Hfr o c).
  - destruct (reg_files _ _ R _ _ Ho') as (Hin & Hop & Hf).
    apply (Hcr o' c); [done..|].
    apply elem_of_dom in Hm. rewrite (reg_miners _ _ R) in Hm. case_decide; [done|]. by destruct Hm.
Qed.

Lemma vrun_complete valid (r : vrun valid) :
  admissible cfg (branch h l) ops -> length ops = length valid.
Proof using Type.
  intros A. destruct r as [s0 s mb acc rej R Hw Hsp Hv].
  assert (opIds s = opIds s0) as Heq.
  { apply map_eq. intros i. apply option_eq. intros o. rewrite (wk_ids _ _ _ _ Hw). split; [tauto|].
    intros Hi. split; [done|]. destruct (reg_ids _ _ R _ _ Hi) as [Ho <-]. intros c Hc.
    by apply admissible_not_removed. }
  assert ((range rg1 (opIds s)).*2 ≡ₚ ops) as Hp
    by (rewrite Heq; apply registered_distinct; [done|apply A]).
  rewrite <- Hp, (sp_split _ _ _ _ _ _ Hsp), Hv, length_app.
  destruct rej as [|o rej]; [simpl; lia|exfalso].
  destruct (sp_rejected _ _ _ _ _ _ Hsp o) as (b & Hb & Hlt); [by left|].
  assert (o ∈ ops) as Ho
    by (rewrite <- Hp, (sp_split _ _ _ _ _ _ Hsp); apply elem_of_app; right; by left).
  rewrite (walked_balance s0 _ s o R Hw Ho) in Hb. rewrite Hp in Hlt.
  pose proof (adm_coins _ _ _ A o Ho). simplify_eq. lia.
Qed.
End validate.
