(* ===== verification/AddBlock.v ===== *)
(** [validateBlock] and [AddBlock] of [bclib/blockchain.go], and the invariants
    of a chain built by them. *)
From S2P Require Import Prelude GoLib Settings Operation Block Pow Blockchain ChainTheory Ledger LedgerTheory.
Local Open Scope Z_scope.

Section add.
Context `{Gob (list Operation)}.

(** The Go [error], or [None] for [nil]. [rg1], [rg2]: iteration orders inside
    [ValidateOperations]. *)
Definition validateBlock (rg1 rg2 : RangeOrder) (h : heap) (bc : Blockchain) (blk : Block)
    : go (option string) :=
  let difficulty :=
    if (0 <? length (Operations blk))%nat then PowPerOpBlock (bc_config bc)
    else PowPerNoOpBlock (bc_config bc) in
  let pow := NewProofOfWork blk difficulty in
  if negb (Validate pow) then Ret (Some "pow failed"%string)
  else
    '(_, ok) ← ValidateOperations rg1 rg2 h bc (Operations blk) (PreviousHash blk);
    if negb ok then Ret (Some "operation validation failed"%string) else Ret None.

Definition AddBlock (rg1 rg2 : RangeOrder) (h : heap) (bc : Blockchain) (blk : Block)
    : go (heap * Blockchain * option string) :=
  match bc_m bc !! Hash blk with
  | Some _ => Ret (h, bc, Some "block already exists"%string)
  | None =>
      err ← validateBlock rg1 rg2 h bc blk;
      match err with
      | Some e => Ret (h, bc, Some e)
      | None =>
          match bc_m bc !! PreviousHash blk with
          | None => Ret (h, bc, Some "missing previous block"%string)
          | Some prevNode =>
              let '(h, node) := alloc h (newNode blk (Some prevNode)) in
              pn ← deref (h !! prevNode);
              let h := <[prevNode := set_children (children pn ++ [node]) pn]> h in
              Ret (h, mkBlockchain (genesis bc) (lastNode bc)
                        (<[Hash blk := node]> (bc_m bc)) (bc_config bc), None)
          end
      end
  end.

(** ** The store after an addition *)

(** The store and index once [blk] is linked under [p], whose node is [pn]. *)
Definition linked_heap (h : heap) (blk : Block) (p : loc) (pn : Node) : heap :=
  <[p := set_children (children pn ++ [length h]) pn]> (h ++ [newNode blk (Some p)]).
Definition linked_chain (h : heap) (bc : Blockchain) (blk : Block) : Blockchain :=
  mkBlockchain (genesis bc) (lastNode bc) (<[Hash blk := length h]> (bc_m bc)) (bc_config bc).
End add.

(** Growing a store: old nodes keep their block and parent. *)
Definition heap_ext (h h' : heap) : Prop :=
  forall x n, h !! x = Some n ->
    exists n', h' !! x = Some n' /\ parent n' = parent n /\ block n' = block n.

#[export] Instance heap_ext_po : PreOrder heap_ext.
Proof.
  split; [intros h x n Hn; eauto|].
  intros h1 h2 h3 H1 H2 x n Hn. destruct (H1 x n Hn) as (n2 & Hn2 & ? & ?).
  destruct (H2 x n2 Hn2) as (n3 & ? & ? & ?). exists n3. split_and!; congruence.
Qed.

Lemma heap_ext_path h h' l ls : heap_ext h h' -> path h l ls -> path h' l ls.
Proof.
  intros He. apply path_mono. intros x n Hn. destruct (He x n Hn) as (n' & ? & ? & _). eauto.
Qed.

Lemma heap_ext_nodes h h' l ls :
  heap_ext h h' -> path h l ls -> block <$> nodes_at h' ls = block <$> nodes_at h ls.
Proof.
  intros He. induction 1 as [l n Hn Hp|l n p ls Hn Hp _ IH];
    destruct (He l n Hn) as (n' & Hn' & _ & Hb);
    rewrite (nodes_at_cons _ _ _ _ Hn), (nodes_at_cons _ _ _ _ Hn'), !fmap_cons, Hb; [done|by rewrite IH].
Qed.

Lemma heap_ext_branch h h' l ls : heap_ext h h' -> path h l ls -> branch h' l = branch h l.
Proof.
  intros He Hp. unfold branch. rewrite (ancestors_path _ _ _ Hp).
  rewrite (ancestors_path _ _ _ (heap_ext_path _ _ _ _ He Hp)). by eapply heap_ext_nodes.
Qed.

Section linked.
Context {h : heap} {bc : Blockchain} (W : wf h bc).
Context (blk : Block) (p : loc) (pn : Node).
Context (Hp : bc_m bc !! PreviousHash blk = Some p) (Hpn : h !! p = Some pn).
Context (Hnew : bc_m bc !! Hash blk = None).
#[local] Abbreviation h' := (linked_heap h blk p pn).
#[local] Abbreviation bc' := (linked_chain h bc blk).

Lemma linked_new : h' !! length h = Some (newNode blk (Some p)).
Proof using Hpn.
  unfold linked_heap. apply lookup_lt_Some in Hpn as Hlt.
  rewrite list_lookup_insert_ne by lia. by rewrite list_lookup_middle.
Qed.

Lemma linked_old x n : h !! x = Some n ->
  h' !! x = Some (if decide (x = p) then set_children (children pn ++ [length h]) pn else n).
Proof using Hpn.
  intros Hn. apply lookup_lt_Some in Hn as Hlt. unfold linked_heap. case_decide as Hx.
  - subst. apply list_lookup_insert_eq. rewrite length_app. lia.
  - rewrite list_lookup_insert_ne by done. by rewrite lookup_app_l.
Qed.

Lemma linked_ext : heap_ext h h'.
Proof using Hpn.
  intros x n Hn. eexists; split; [exact (linked_old x n Hn)|].
  case_decide; [|done]. simplify_eq. done.
Qed.

Lemma linked_path_new : path h' (length h) (length h :: ancestors h p).
Proof using W Hp Hpn.
  eapply path_step; [apply linked_new|done|].
  eapply heap_ext_path; [apply linked_ext|]. apply (wf_ancestors W). by exists (PreviousHash blk).
Qed.

Lemma linked_branch_new : branch h' (length h) = blk :: branch h p.
Proof using W Hp Hpn.
  rewrite (branch_unfold _ _ _ _ linked_path_new linked_new). simpl. f_equal.
  eapply heap_ext_branch; [apply linked_ext|]. apply (wf_ancestors W). by exists (PreviousHash blk).
Qed.

Lemma linked_branch_old x : in_chain bc x -> branch h' x = branch h x.
Proof using W Hpn.
  intros Hx. eapply heap_ext_branch; [apply linked_ext|]. by apply (wf_ancestors W).
Qed.

Lemma linked_in_chain x : in_chain bc' x <-> x = length h \/ in_chain bc x.
Proof using Hnew.
  unfold in_chain. simpl. split.
  - intros [k Hk]. rewrite lookup_insert in Hk. case_decide; naive_solver.
  - intros [->|[k Hk]]; [exists (Hash blk); apply lookup_insert_eq|].
    exists k. rewrite lookup_insert_ne; [done|]. intros <-. congruence.
Qed.

(** An indexed node of the old chain is not the new one. *)
Lemma linked_lt x : in_chain bc x -> x <> length h.
Proof using W.
  intros Hx. destruct (wf_lookup W x Hx) as (n & Hn & _). apply lookup_lt_Some in Hn. lia.
Qed.

Lemma linked_children x n c :
  in_chain bc x -> h !! x = Some n ->
  (exists kc cn, bc_m bc' !! kc = Some c /\ h' !! c = Some cn /\ parent cn = Some x) <->
  (exists kc cn, bc_m bc !! kc = Some c /\ h !! c = Some cn /\ parent cn = Some x) \/
  (x = p /\ c = length h).
Proof using W Hp Hpn Hnew.
  intros Hx Hn. split.
  - intros (kc & cn & Hkc & Hcn & Hpar).
    assert (in_chain bc' c) as [->|Hc]%linked_in_chain by (by exists kc).
    + rewrite linked_new in Hcn. simplify_eq. simpl in Hpar. right. naive_solver.
    + left. destruct (wf_lookup W c Hc) as (cn0 & Hcn0 & Hk0).
      exists (Hash (block cn0)), cn0. split_and!; [done..|].
      rewrite (linked_old c cn0 Hcn0) in Hcn. case_decide; simplify_eq; done.
  - intros [(kc & cn & Hkc & Hcn & Hpar)|[-> ->]].
    + destruct (linked_ext c cn Hcn) as (cn' & ? & ? & _). exists kc, cn'. split_and!; [|done|congruence].
      simpl. rewrite lookup_insert_ne; [done|]. intros <-. congruence.
    + exists (Hash blk), (newNode blk (Some p)). split_and!; [apply lookup_insert_eq|apply linked_new|done].
Qed.

(** Nothing points to the new node yet. *)
Lemma linked_no_child kc c cn :
  bc_m bc' !! kc = Some c -> h' !! c = Some cn -> parent cn <> Some (length h).
Proof using W Hp Hpn Hnew.
  intros Hkc Hcn Hpar. assert (in_chain bc' c) as [->|Hc]%linked_in_chain by (by exists kc).
  - rewrite linked_new in Hcn. simplify_eq. apply lookup_lt_Some in Hpn. simpl in Hpar.
    simplify_eq. lia.
  - destruct (wf_lookup W c Hc) as (cn0 & Hcn0 & _).
    destruct (linked_ext c cn0 Hcn0) as (cn' & ? & Hpe & _). simplify_eq.
    eapply (linked_lt (length h)); [|done]. eapply (in_chain_parent W); eauto. congruence.
Qed.

Lemma linked_wf : wf h' bc'.
Proof using W Hp Hpn Hnew.
  assert (forall k l, bc_m bc' !! k = Some l -> (k = Hash blk /\ l = length h) \/ bc_m bc !! k = Some l) as Hm.
  { intros k l. simpl. rewrite lookup_insert. case_decide; naive_solver. }
  destruct (wf_genesis _ _ W) as (g & Hg & Hgp & Hgm).
  split.
  - intros k l [[-> ->]|Hk]%Hm; [eexists; split; [apply linked_new|done]|].
    destruct (wf_node _ _ W _ _ Hk) as (n & Hn & <-).
    destruct (linked_ext _ _ Hn) as (n' & ? & _ & ?). exists n'. split; congruence.
  - destruct (linked_ext _ _ Hg) as (g' & Hg' & ? & Hb). exists g'. simpl.
    split_and!; [done|congruence|]. rewrite Hb, lookup_insert_ne; [done|]. intros Heq. congruence.
  - intros k l n [[-> ->]|Hk]%Hm Hn Hne.
    + rewrite linked_new in Hn. simplify_eq. exists p. split; [done|]. simpl.
      rewrite lookup_insert_ne; [done|]. intros Heq. congruence.
    + destruct (wf_node _ _ W _ _ Hk) as (n0 & Hn0 & _).
      destruct (linked_ext _ _ Hn0) as (n' & Hn' & Hpar & Hb). simplify_eq.
      destruct (wf_parent _ _ W _ _ _ Hk Hn0 Hne) as (q & ? & Hq). exists q. split; [congruence|].
      simpl. rewrite Hb, lookup_insert_ne; [done|]. intros Heq. congruence.
  - intros k l [[-> ->]|Hk]%Hm; [eexists; apply linked_path_new|].
    exists (ancestors h l). eapply heap_ext_path; [apply linked_ext|].
    apply (wf_ancestors W). by exists k.
  - intros k l n c [[-> ->]|Hk]%Hm Hn.
    + rewrite linked_new in Hn. simplify_eq. simpl. split; [set_solver|].
      intros (kc & cn & Hkc & Hcn & Hpar). by destruct (linked_no_child kc c cn).
    + destruct (wf_node _ _ W _ _ Hk) as (n0 & Hn0 & _).
      rewrite (linked_children l n0) by (done || by exists k).
      rewrite <- (wf_children _ _ W k l n0 c Hk Hn0).
      rewrite (linked_old l n0 Hn0) in Hn. case_decide; simplify_eq; simpl; set_solver.
  - intros k l n [[-> ->]|Hk]%Hm Hn.
    + rewrite linked_new in Hn. simplify_eq. constructor.
    + destruct (wf_node _ _ W _ _ Hk) as (n0 & Hn0 & _).
      pose proof (wf_children_NoDup _ _ W _ _ _ Hk Hn0) as Hnd.
      pose proof (fun c => proj1 (wf_children _ _ W _ _ _ c Hk Hn0)) as Hold.
      rewrite (linked_old l n0 Hn0) in Hn. case_decide; simplify_eq; [|done]. simpl.
      apply NoDup_app. split_and!; [done| |apply NoDup_singleton].
      intros c Hc ->%list_elem_of_singleton.
      apply Hold in Hc as (kc & ? & Hkc & _).
      eapply (linked_lt (length h)); [by exists kc|done].
  - destruct (wf_last _ _ W) as [k Hk]. exists k. simpl.
    rewrite lookup_insert_ne; [done|]. intros <-. congruence.
Qed.
End linked.

(** ** What AddBlock accepts *)

Section accept.
Context `{Gob (list Operation)}.

Definition difficulty_of (cfg : Settings) (blk : Block) : Z :=
  if (0 <? length (Operations blk))%nat then PowPerOpBlock cfg else PowPerNoOpBlock cfg.

(** A block that may extend the branch [bs]. *)
Definition block_valid (cfg : Settings) (bs : list Block) (blk : Block) : Prop :=
  Validate (NewProofOfWork blk (difficulty_of cfg blk)) = true /\
  admissible cfg bs (Operations blk).

Lemma admissible_nil cfg bs : admissible cfg bs [].
Proof. split; try set_solver. constructor. Qed.

Lemma ValidateOperations_iff h bc rg1 rg2 ops prev l :
  wf h bc -> 0 <= NumCoinsPerFileCreate (bc_config bc) -> bc_m bc !! prev = Some l ->
  exists valid ok, ValidateOperations rg1 rg2 h bc ops prev = Ret (valid, ok) /\
    (ok = true <-> admissible (bc_config bc) (branch h l) ops) /\
    (ok = true -> valid ≡ₚ ops) /\
    (forall o, o ∈ valid -> o ∈ ops) /\
    NoDup (OperationID <$> valid) /\
    (forall o c, o ∈ valid -> c ∈ chain_ops (branch h l) -> OperationID c <> OperationID o) /\
    (forall o, o ∈ valid -> spent (bc_config bc) (op_MinerID o) valid
                            <= balance (bc_config bc) (op_MinerID o) (branch h l)) /\
    (creates_apart ops -> admissible (bc_config bc) (branch h l) valid).
Proof.
  intros W Hc Hl. destruct (decide (ops = [])) as [->|Hne].
  { exists [], true. split; [done|]. split; [split; [intros _; apply admissible_nil|done]|].
    split_and!; try set_solver; [constructor|intros _; apply admissible_nil]. }
  destruct (ValidateOperations_run W rg1 rg2 ops prev l Hl Hne Hc) as (valid & Hrun & [r]).
  exists valid, (bool_decide (length ops = length valid)). split; [done|].
  rewrite bool_decide_eq_true. split_and!.
  - split; [apply (vrun_admissible _ _ _ _ r)|apply (vrun_complete _ _ _ _ r)].
  - intros Hlen. apply (vrun_full _ _ _ _ r Hlen).
  - intros o Ho. by apply (vrun_ops _ _ _ _ r), (vrun_valid_in _ _ _ _ r).
  - apply (vrun_distinct _ _ _ _ r).
  - intros o c. apply (vrun_fresh _ _ _ _ r).
  - intros o. apply (vrun_coins _ _ _ _ r).
  - apply (vrun_valid_admissible _ _ _ _ r).
Qed.

Lemma ValidateOperations_unknown h bc rg1 rg2 ops prev :
  bc_m bc !! prev = None ->
  ValidateOperations rg1 rg2 h bc ops prev = Ret ([], bool_decide (ops = [])).
Proof. intros Hl. unfold ValidateOperations. destruct ops; [done|]. by rewrite Hl. Qed.

(** AddBlock always returns; it changes nothing on an error, and it succeeds
    exactly on a new, valid block whose parent is known. *)
Lemma AddBlock_outcome h bc rg1 rg2 blk :
  wf h bc -> 0 <= NumCoinsPerFileCreate (bc_config bc) ->
  exists h' bc' err, AddBlock rg1 rg2 h bc blk = Ret (h', bc', err) /\
    match err with
    | Some _ => h' = h /\ bc' = bc /\
        ~ (bc_m bc !! Hash blk = None /\ exists p, bc_m bc !! PreviousHash blk = Some p /\
           block_valid (bc_config bc) (branch h p) blk)
    | None => exists p pn, bc_m bc !! Hash blk = None /\
        bc_m bc !! PreviousHash blk = Some p /\ h !! p = Some pn /\
        block_valid (bc_config bc) (branch h p) blk /\
        h' = linked_heap h blk p pn /\ bc' = linked_chain h bc blk
    end.
Proof.
  intros W Hc. unfold AddBlock, validateBlock, block_valid. fold (difficulty_of (bc_config bc) blk).
  destruct (bc_m bc !! Hash blk) eqn:Hnew; [do 3 eexists; split; [done|]; naive_solver|].
  destruct (Validate _) eqn:Hv; simpl; [|do 3 eexists; split; [done|]; naive_solver].
  destruct (bc_m bc !! PreviousHash blk) as [p|] eqn:Hp.
  - destruct (ValidateOperations_iff h bc rg1 rg2 (Operations blk) _ p W Hc Hp)
      as (valid & ok & -> & Hok & _). simpl.
    destruct ok; simpl; [|do 3 eexists; split; [done|]; naive_solver].
    destruct (wf_node _ _ W _ _ Hp) as (pn & Hpn & _).
    rewrite lookup_app_l by (by eapply lookup_lt_Some). rewrite Hpn. simpl.
    do 3 eexists; split; [done|]. exists p, pn. naive_solver.
  - rewrite ValidateOperations_unknown by done. simpl.
    case_bool_decide; simpl; do 3 eexists; (split; [done|]); naive_solver.
Qed.
End accept.

(** ** Invariants of the chain *)

Section invariants.
Context `{Gob (list Operation)}.

(** Every block but the genesis block is valid on the branch it extends. *)
Record chain_inv (h : heap) (bc : Blockchain) : Prop := {
  ci_wf : wf h bc;
  ci_genesis : exists g, h !! genesis bc = Some g /\ Operations (block g) = [];
  ci_valid : forall l n p, in_chain bc l -> h !! l = Some n -> parent n = Some p ->
    block_valid (bc_config bc) (branch h p) (block n)
}.

Lemma reward_nonneg cfg b : settings_ok cfg -> 0 <= reward cfg b.
Proof. intros [H1 H2]. unfold reward, is_uint8 in *. case_match; lia. Qed.

Lemma cost_ok cfg : settings_ok cfg -> 0 <= NumCoinsPerFileCreate cfg.
Proof. intros [_ _ H1]. unfold is_uint8 in *. lia. Qed.

Lemma admissible_spent cfg bs ops x :
  admissible cfg bs ops -> spent cfg x ops <= balance cfg x bs \/ spent cfg x ops = 0.
Proof.
  intros A. destruct (decide (Exists (fun o => op_MinerID o = x) ops)) as [He|He].
  - left. apply Exists_exists in He as (o & Ho & <-). by apply A.
  - right. apply spent_none. intros o Ho Heq. apply He, Exists_exists. eauto.
Qed.

(** Solvency: no miner ever has a negative balance, on any branch. *)
Lemma chain_inv_solvent h bc :
  chain_inv h bc -> settings_ok (bc_config bc) ->
  forall l, in_chain bc l -> forall x, 0 <= balance (bc_config bc) x (branch h l).
Proof.
  intros [W (g & Hg & Hops) Hv] Hs. apply (chain_ind W (fun l => forall x, _)).
  - intros x. rewrite (branch_cons W _ _ (in_chain_genesis W) Hg).
    destruct (wf_genesis _ _ W) as (g' & ? & Hgp & _). simplify_eq. rewrite Hgp.
    rewrite balance_block, Hops. pose proof (reward_nonneg _ (block g) Hs).
    unfold spent. simpl. case_decide; lia.
  - intros p pn c cn Hp Hpn Hc Hcn Hpar _ IH x. rewrite (branch_cons W _ _ Hc Hcn), Hpar, balance_cons.
    destruct (Hv c cn p Hc Hcn Hpar) as [_ A]. specialize (IH x).
    pose proof (reward_nonneg _ (block cn) Hs).
    destruct (admissible_spent _ _ _ x A); case_decide; lia.
Qed.

(** No operation occurs twice on a branch. *)
Lemma chain_inv_unique h bc :
  chain_inv h bc -> forall l, in_chain bc l -> NoDup (OperationID <$> chain_ops (branch h l)).
Proof.
  intros [W (g & Hg & Hops) Hv]. apply (chain_ind W).
  - rewrite (branch_cons W _ _ (in_chain_genesis W) Hg).
    destruct (wf_genesis _ _ W) as (g' & ? & Hgp & _). simplify_eq. rewrite Hgp.
    unfold chain_ops. simpl. rewrite Hops. constructor.
  - intros p pn c cn Hp Hpn Hc Hcn Hpar _ IH. rewrite (branch_cons W _ _ Hc Hcn), Hpar.
    destruct (Hv c cn p Hc Hcn Hpar) as [_ [Hd Hf _ _]].
    change (block cn :: branch h p) with ([block cn] ++ branch h p).
    rewrite chain_ops_app, fmap_app. unfold chain_ops at 1. simpl. rewrite app_nil_r.
    apply NoDup_app. split_and!; [done| |done].
    intros i (o & -> & Ho)%list_elem_of_fmap (c' & Heq & Hc')%list_elem_of_fmap.
    by apply (Hf o c').
Qed.

(** Every block of a branch is valid on the rest of it. *)
Lemma chain_inv_blocks h bc :
  chain_inv h bc -> forall l, in_chain bc l -> forall b bs,
  b :: bs `suffix_of` branch h l -> bs <> [] -> block_valid (bc_config bc) bs b.
Proof.
  intros I. pose proof (ci_wf _ _ I) as W.
  apply (chain_ind W (fun l => forall b bs, b :: bs `suffix_of` branch h l -> bs <> [] ->
    block_valid (bc_config bc) bs b)).
  - intros b bs Hsuf Hne. destruct (wf_genesis _ _ W) as (g & Hg & Hgp & _).
    rewrite (branch_cons W _ _ (in_chain_genesis W) Hg), Hgp in Hsuf.
    apply suffix_length in Hsuf. destruct bs; [done|]. simpl in Hsuf. lia.
  - intros p pn c cn Hp Hpn Hc Hcn Hpar _ IH b bs Hsuf Hne.
    rewrite (branch_cons W _ _ Hc Hcn), Hpar in Hsuf.
    apply suffix_cons_inv in Hsuf as [[= -> ->]|Hsuf]; [|by apply IH].
    by apply (ci_valid _ _ I c).
Qed.

Lemma chain_inv_new h config now :
  let '(h', bc) := NewBlockchain h config now in chain_inv h' bc.
Proof.
  simpl. assert ((h ++ [newNode (NewGenesisBlock (GenesisBlockHash config) now) None]) !! length h
    = Some (newNode (NewGenesisBlock (GenesisBlockHash config) now) None)) as Hg
    by (by rewrite list_lookup_middle).
  assert (forall k l, ({[GenesisBlockHash config := length h]} : gmap string loc) !! k = Some l ->
    k = GenesisBlockHash config /\ l = length h) as Hm.
  { intros k l Hk. by apply lookup_singleton_Some in Hk as [-> ->]. }
  split; [split|..]; simpl.
  - intros k l [-> ->]%Hm. eauto.
  - eexists. split_and!; [done|done|]. apply lookup_singleton_eq.
  - intros k l n [-> ->]%Hm _ Hne. done.
  - intros k l [-> ->]%Hm. exists [length h]. by eapply path_root.
  - intros k l n c [-> ->]%Hm Hn. simplify_eq. simpl. split; [set_solver|].
    intros (kc & cn & [-> ->]%Hm & Hcn & Hpar). by simplify_eq.
  - intros k l n [-> ->]%Hm Hn. simplify_eq. constructor.
  - eexists. apply lookup_singleton_eq.
  - eauto.
  - intros l n p [k [-> ->]%Hm] Hn Hpar. by simplify_eq.
Qed.

Lemma chain_inv_linked h bc blk p pn :
  chain_inv h bc -> bc_m bc !! Hash blk = None -> bc_m bc !! PreviousHash blk = Some p ->
  h !! p = Some pn -> block_valid (bc_config bc) (branch h p) blk ->
  chain_inv (linked_heap h blk p pn) (linked_chain h bc blk).
Proof.
  intros [W (g & Hg & Hops) Hv] Hnew Hp Hpn Hb. split; [by apply linked_wf|..].
  - destruct (linked_ext blk p pn Hpn _ _ Hg) as (g' & ? & _ & Heq). exists g'. split; [done|].
    by rewrite Heq.
  - intros l n q [->|Hl]%linked_in_chain Hn Hpar; [| |done].
    + rewrite linked_new in Hn by done. simplify_eq. simpl in *. simplify_eq.
      rewrite (linked_branch_old W) by (done || by exists (PreviousHash blk)). done.
    + destruct (wf_lookup W l Hl) as (n0 & Hn0 & _).
      destruct (linked_ext blk p pn Hpn _ _ Hn0) as (n' & ? & Hpe & Hbe). simplify_eq.
      rewrite Hpe in Hpar. rewrite Hbe.
      rewrite (linked_branch_old W) by (done || by eapply (in_chain_parent W)).
      by eapply Hv.
Qed.

Lemma chain_inv_AddBlock rg1 rg2 h bc blk h' bc' err :
  chain_inv h bc -> settings_ok (bc_config bc) ->
  AddBlock rg1 rg2 h bc blk = Ret (h', bc', err) ->
  chain_inv h' bc' /\ bc_config bc' = bc_config bc.
Proof.
  intros I Hs Hadd. pose proof (ci_wf _ _ I) as W.
  destruct (AddBlock_outcome h bc rg1 rg2 blk W (cost_ok _ Hs)) as (h1 & bc1 & err1 & Hadd1 & Hout).
  rewrite Hadd in Hadd1. simplify_eq. destruct err1.
  - by destruct Hout as (-> & -> & _).
  - destruct Hout as (p & pn & ? & ? & ? & ? & -> & ->). split; [|done]. by apply chain_inv_linked.
Qed.

Lemma chain_inv_set_lastNode h bc l :
  chain_inv h bc -> in_chain bc l -> chain_inv h (set_lastNode bc l).
Proof. intros [W Hg Hv] Hl. split; [by apply wf_set_lastNode|done|done]. Qed.

Lemma chain_inv_getLastNodes h bc :
  chain_inv h bc ->
  exists bc' ls, getLastNodes h bc = Ret (bc', ls) /\ chain_inv h bc'.
Proof.
  intros I. destruct (getLastNodes_wf (ci_wf _ _ I)) as (l0 & ls & Hrun & Hd & _).
  exists (set_lastNode bc l0), (l0 :: ls). split; [done|]. apply chain_inv_set_lastNode; [done|].
  apply (Hd l0). by left.
Qed.

(** What a miner can rely on in a chain: it is well formed, and on every branch
    no miner has a negative balance, no operation identifier occurs twice, and
    every block after the genesis block has its proof of work and only
    admissible operations. *)
Definition ledger_safe (cfg : Settings) (h : heap) (bc : Blockchain) : Prop :=
  wf h bc /\
  forall l, in_chain bc l ->
    (forall x, 0 <= balance cfg x (branch h l)) /\
    NoDup (OperationID <$> chain_ops (branch h l)) /\
    (forall b bs, b :: bs `suffix_of` branch h l -> bs <> [] -> block_valid cfg bs b).

Lemma chain_inv_safe h bc :
  chain_inv h bc -> settings_ok (bc_config bc) -> ledger_safe (bc_config bc) h bc.
Proof.
  intros I Hcfg. split; [by apply ci_wf|]. intros l Hl. split_and!.
  - exact (chain_inv_solvent h bc I Hcfg l Hl).
  - exact (chain_inv_unique h bc I l Hl).
  - exact (chain_inv_blocks h bc I l Hl).
Qed.

(** The chains of a miner that starts from its configuration and never
    synchronizes: every block was offered to [AddBlock]; the queries that call
    [getLastNodes] update [lastNode]. *)
Inductive reachable (cfg : Settings) : heap -> Blockchain -> Prop :=
| reach_new h now h' bc :
    NewBlockchain h cfg now = (h', bc) -> reachable cfg h' bc
| reach_add h bc rg1 rg2 blk h' bc' err :
    reachable cfg h bc -> AddBlock rg1 rg2 h bc blk = Ret (h', bc', err) ->
    reachable cfg h' bc'
| reach_last h bc bc' ls :
    reachable cfg h bc -> getLastNodes h bc = Ret (bc', ls) -> reachable cfg h bc'.

Lemma reachable_inv cfg h bc :
  settings_ok cfg -> reachable cfg h bc -> chain_inv h bc /\ bc_config bc = cfg.
Proof.
  intros Hs. induction 1 as [h now h' bc Hnew|h bc rg1 rg2 blk h' bc' err _ [I Hc] Hadd
    |h bc bc' ls _ [I Hc] Hls].
  - pose proof (chain_inv_new h cfg now) as I. rewrite Hnew in I. split; [done|].
    unfold NewBlockchain in Hnew. simpl in Hnew. by simplify_eq.
  - subst cfg. destruct (chain_inv_AddBlock _ _ _ _ _ _ _ _ I Hs Hadd). done.
  - destruct (getLastNodes_wf (ci_wf _ _ I)) as (l0 & ls' & Hrun & Hd & _).
    rewrite Hls in Hrun. simplify_eq. split; [|done].
    apply chain_inv_set_lastNode; [done|]. apply (Hd l0). by left.
Qed.
End invariants.

(** ** Theorems *)

Section theorems.
Context `{Gob (list Operation)}.

(** C1: Ledger safety: whatever blocks are offered to [AddBlock] after
    [NewBlockchain], in whatever order, on every branch of the tree no miner
    has a negative balance, no operation identifier occurs twice, and every
    block after the genesis block has its proof of work and only admissible
    operations. *)
Theorem reachable_ledger_safe cfg h bc
    (Hcfg : settings_ok cfg) (Hreach : reachable cfg h bc) :
  ledger_safe cfg h bc.
Proof.
  destruct (reachable_inv _ _ _ Hcfg Hreach) as [I <-]. by apply chain_inv_safe.
Qed.

(** C5: Block acceptance: on a well-formed chain [AddBlock] always returns; it
    returns no error exactly when the hash is new, the previous block is
    known, the proof of work holds and the operations are admissible on the
    branch of the previous block; then it extends that branch by the block,
    leaves every other branch as it was and keeps the chain well formed; on an
    error it changes nothing. *)
Theorem AddBlock_spec rg1 rg2 h bc blk
    (W : wf h bc) (Hcfg : settings_ok (bc_config bc)) :
  exists h' bc' err, AddBlock rg1 rg2 h bc blk = Ret (h', bc', err) /\
    (err = None <->
       bc_m bc !! Hash blk = None /\
       exists p, bc_m bc !! PreviousHash blk = Some p /\
         Validate (NewProofOfWork blk (difficulty_of (bc_config bc) blk)) = true /\
         admissible (bc_config bc) (branch h p) (Operations blk)) /\
    (err <> None -> h' = h /\ bc' = bc) /\
    (err = None -> wf h' bc' /\ bc_config bc' = bc_config bc /\
       bc_m bc' = <[Hash blk := length h]> (bc_m bc) /\
       (forall p, bc_m bc !! PreviousHash blk = Some p ->
          branch h' (length h) = blk :: branch h p) /\
       (forall l, in_chain bc l -> branch h' l = branch h l)).
Proof.
  destruct (AddBlock_outcome h bc rg1 rg2 blk W (cost_ok _ Hcfg)) as (h' & bc' & err & Hadd & Hout).
  exists h', bc', err. split; [done|]. destruct err as [e|].
  - destruct Hout as (-> & -> & Hn). split_and!; [|done|done].
    split; [done|]. intros (? & p & ? & ?). exfalso. apply Hn. unfold block_valid. eauto.
  - destruct Hout as (p & pn & Hnew & Hp & Hpn & Hv & -> & ->).
    split_and!; [|done|].
    + split; [intros _|done]. split; [done|]. by exists p.
    + intros _. split; [by apply linked_wf|]. split_and!; [done|done|..].
      * intros q Hq. simplify_eq. by apply (linked_branch_new W).
      * intros l Hl. by apply (linked_branch_old W).
Qed.

(** C4: Validation of operations, for every iteration order of Go's maps: on a known
    previous block the function returns [true] exactly when the operations are
    admissible there (and then returns all of them); in any case what it
    returns are operations of the batch, with distinct identifiers that do not
    occur on the branch, and every miner can pay for its share; if no two
    operations of the batch create the same file, it is admissible. *)
Theorem ValidateOperations_spec rg1 rg2 h bc ops prev l
    (W : wf h bc) (Hcfg : settings_ok (bc_config bc)) (Hl : bc_m bc !! prev = Some l) :
  exists valid ok, ValidateOperations rg1 rg2 h bc ops prev = Ret (valid, ok) /\
    (ok = true <-> admissible (bc_config bc) (branch h l) ops) /\
    (ok = true -> valid ≡ₚ ops) /\
    (forall o, o ∈ valid -> o ∈ ops) /\
    NoDup (OperationID <$> valid) /\
    (forall o c, o ∈ valid -> c ∈ chain_ops (branch h l) -> OperationID c <> OperationID o) /\
    (forall o, o ∈ valid -> spent (bc_config bc) (op_MinerID o) valid
                            <= balance (bc_config bc) (op_MinerID o) (branch h l)) /\
    (creates_apart ops -> admissible (bc_config bc) (branch h l) valid).
Proof. apply ValidateOperations_iff; auto using cost_ok. Qed.
End theorems.
