(* ===== verification/QueryTheory.v ===== *)
(** What the file queries of the ledger return, in terms of the longest
    branch. *)
From S2P Require Import Prelude GoLib Settings Operation Block Blockchain ChainTheory Ledger LedgerTheory.
Local Open Scope Z_scope.

(** The branch the queries read: that of the first deepest node, newest block
    first. *)
Definition longest (h : heap) (bc : Blockchain) : list Block :=
  match getLastNodes h bc with
  | Ret (_, l :: _) => branch h l
  | _ => []
  end.

(** Its part with at least [k] blocks on top; [None] when it is shorter. *)
Definition confirmed_part (k : Z) (bs : list Block) : option (list Block) :=
  if decide (Z.to_nat k < length bs)%nat then Some (drop (Z.to_nat k) bs) else None.

Lemma length_branch h l ls : path h l ls -> length (branch h l) = length ls.
Proof.
  intros Hp. unfold branch. rewrite (ancestors_path _ _ _ Hp), length_fmap. by eapply length_nodes_at.
Qed.

(** Going back [k] nodes drops [k] blocks of the branch. *)
Lemma branch_drop h l ls k x :
  path h l ls -> ls !! k = Some x -> branch h x = drop k (branch h l) /\ exists xs, path h x xs.
Proof.
  intros Hp. revert k. induction Hp as [l n Hn Hpar|l n p ls Hn Hpar Hp IH]; intros [|k] Hk; simpl in Hk;
    simplify_eq; try done; [eauto with miner..|].
  rewrite (branch_unfold h l (l :: ls) n) by eauto with miner. rewrite Hpar. by apply IH.
Qed.

Section queries.
Context {h : heap} {bc : Blockchain} (W : wf h bc).

Lemma longest_wf :
  exists l0 ls, getLastNodes h bc = Ret (set_lastNode bc l0, l0 :: ls) /\
    @is_deepest h bc l0 /\ longest h bc = branch h l0.
Proof using W.
  destruct (getLastNodes_wf W) as (l0 & ls & Hrun & Hd & _). exists l0, ls.
  unfold longest. rewrite Hrun. split_and!; [done| |done]. apply Hd. by left.
Qed.

(** The walk over the confirmed part, with any loop body that looks at blocks. *)
Lemma confirmed_walk {S} k (body : Block -> S -> S) (s : S) :
  exists l0, in_chain bc l0 /\ exists r,
    getLastConfirmedNode h bc k = Ret (set_lastNode bc l0, r) /\
    match r with
    | None => confirmed_part k (longest h bc) = None
    | Some x => exists bs, confirmed_part k (longest h bc) = Some bs /\
        backtrack (length h) h (fun nd => body (block nd)) (Some x) s
        = Ret (fold_left (fun s b => body b s) bs s)
    end.
Proof using W.
  destruct longest_wf as (l0 & ls & Hrun & [Hl0 _] & Hlong). exists l0. split; [done|].
  pose proof (wf_ancestors W l0 Hl0) as Hp.
  exists (ancestors h l0 !! Z.to_nat k). unfold getLastConfirmedNode. rewrite Hrun. simpl.
  rewrite (confirm_loop_path _ _ _ _ Hp). split; [done|].
  unfold confirmed_part. rewrite Hlong, (length_branch _ _ _ Hp).
  destruct (ancestors h l0 !! Z.to_nat k) as [x|] eqn:Hx.
  - apply lookup_lt_Some in Hx as Hlt. rewrite decide_True by done. eexists; split; [done|].
    destruct (branch_drop _ _ _ _ _ Hp Hx) as [Hb [xs Hxs]].
    rewrite (backtrack_path _ _ _ _ _ _ Hxs) by (by eapply path_length). f_equal.
    rewrite <- Hb. unfold branch. rewrite (ancestors_path _ _ _ Hxs).
    generalize s. induction (nodes_at h xs); intros s'; simpl; auto.
  - apply lookup_ge_None in Hx. rewrite decide_False by lia. done.
Qed.
End queries.

(** ** The loops over operations *)

Lemma fold_blocks {S} (f : S -> Operation -> S) bs s :
  fold_left (fun s (b : Block) => fold_left f (Operations b) s) bs s = fold_left f (chain_ops bs) s.
Proof.
  revert s. induction bs as [|b bs IH]; intros s; simpl; [done|].
  change (chain_ops (b :: bs)) with (Operations b ++ chain_ops bs).
  by rewrite fold_left_app, IH.
Qed.

Definition is_append_to (fname : string) (op : Operation) : Prop :=
  Filename op = fname /\ Op op = Append.

#[export] Instance is_append_to_dec fname op : Decision (is_append_to fname op).
Proof. unfold is_append_to. apply _. Defined.

(** The records of a file: the appends to it, newest block first. *)
Definition appends (fname : string) (ops : list Operation) : list Operation :=
  filter (fun op => is_append_to fname op) ops.

Definition mentions (fname : string) (ops : list Operation) : bool :=
  bool_decide (Exists (fun op => Filename op = fname) ops).

Definition deletes (fname : string) (ops : list Operation) : bool :=
  bool_decide (Exists (fun op => Filename op = fname /\ Op op = Delete) ops).

Lemma appends_app fname ops1 ops2 : appends fname (ops1 ++ ops2) = appends fname ops1 ++ appends fname ops2.
Proof. apply filter_app. Qed.

Lemma appends_snoc fname ops op :
  appends fname (ops ++ [op])
  = appends fname ops ++ if decide (is_append_to fname op) then [op] else [].
Proof. rewrite appends_app. f_equal. Qed.

Lemma bool_decide_Exists_snoc (P : Operation -> Prop) `{forall o, Decision (P o)} ops op :
  bool_decide (Exists P (ops ++ [op])) = bool_decide (Exists P ops) || bool_decide (P op).
Proof.
  rewrite <- bool_decide_or. apply bool_decide_ext. rewrite Exists_app, Exists_cons, Exists_nil. tauto.
Qed.

Lemma file_op_fold fname ops :
  fold_left (file_op fname) ops ([], false, false)
  = (appends fname ops, mentions fname ops, deletes fname ops).
Proof.
  apply (fold_left_inv (fun done r => r = (appends fname done, mentions fname done, deletes fname done)));
    [done|].
  intros done op rest r _ ->. unfold file_op, mentions, deletes.
  rewrite appends_snoc, !bool_decide_Exists_snoc. unfold is_append_to.
  destruct (decide (Filename op = fname)) as [Hf|Hf].
  - rewrite (bool_decide_eq_true_2 _ Hf), orb_true_r. f_equal; [f_equal|].
    + repeat case_decide; rewrite ?app_nil_r; naive_solver.
    + destruct (decide (Op op = Delete)).
      * by rewrite (bool_decide_eq_true_2 (_ /\ _)), orb_true_r by done.
      * by rewrite (bool_decide_eq_false_2 (_ /\ _)), orb_false_r by naive_solver.
  - rewrite (bool_decide_eq_false_2 (_ = fname)), (bool_decide_eq_false_2 (_ /\ _)) by naive_solver.
    rewrite decide_False by naive_solver. by rewrite app_nil_r, !orb_false_r.
Qed.

Lemma numrecs_fold fname ops :
  fold_left (numrecs_op fname) ops (0, false)
  = (Z.of_nat (length (appends fname ops)), mentions fname ops).
Proof.
  apply (fold_left_inv (fun done r => r = (Z.of_nat (length (appends fname done)), mentions fname done)));
    [done|].
  intros done op rest r _ ->. unfold numrecs_op, mentions.
  rewrite appends_snoc, bool_decide_Exists_snoc, length_app. unfold is_append_to.
  destruct (decide (Filename op = fname)) as [Hf|Hf].
  - rewrite (bool_decide_eq_true_2 _ Hf), orb_true_r.
    repeat case_decide; simpl; f_equal; (lia || naive_solver).
  - rewrite (bool_decide_eq_false_2 (_ = fname)), orb_false_r by done.
    rewrite decide_False by naive_solver. simpl. f_equal. lia.
Qed.

Lemma filenames_fold ops f :
  is_Some (fold_left (fun fs op => <[Filename op := tt]> fs) ops (∅ : gmap string unit) !! f)
  <-> f ∈ Filename <$> ops.
Proof.
  revert f. apply (fold_left_inv (fun done (fs : gmap string unit) =>
    forall f, is_Some (fs !! f) <-> f ∈ Filename <$> done)).
  - intros f. rewrite lookup_empty. split; [by intros []|set_solver].
  - intros done op rest fs _ IH f. rewrite fmap_app, elem_of_app, <- IH, lookup_insert.
    case_decide; [subst; simpl; set_solver|]. simpl. set_solver.
Qed.

(** ** The queries *)

Section results.
Context {h : heap} {bc : Blockchain} (W : wf h bc).
#[local] Abbreviation cfg := (bc_config bc).

Lemma GetFile_eq fname :
  exists l0, in_chain bc l0 /\
    GetFile h bc fname = Ret (set_lastNode bc l0,
      match confirmed_part (ConfirmsPerFileAppend cfg) (longest h bc) with
      | None => (zero_FileOps, false)
      | Some bs => (mkFileOps fname (reverse (appends fname (chain_ops bs)))
                      (deletes fname (chain_ops bs)),
                    mentions fname (chain_ops bs))
      end).
Proof using W.
  destruct (confirmed_walk W (ConfirmsPerFileAppend cfg)
    (fun b r => fold_left (file_op fname) (Operations b) r) ([], false, false))
    as (l0 & Hl0 & r & Hrun & Hr).
  exists l0. split; [done|]. unfold GetFile. rewrite Hrun. simpl. destruct r as [x|].
  - destruct Hr as (bs & -> & Hbt). cbv beta in Hbt. rewrite Hbt. simpl.
    rewrite (fold_blocks (file_op fname)), file_op_fold. by rewrite reverse_two_pointers_eq.
  - by rewrite Hr.
Qed.

Lemma NumRecs_eq fname :
  exists l0, in_chain bc l0 /\
    NumRecs h bc fname = Ret (set_lastNode bc l0,
      match confirmed_part (ConfirmsPerFileAppend cfg) (longest h bc) with
      | None => (-1, false)
      | Some bs => (Z.of_nat (length (appends fname (chain_ops bs))), mentions fname (chain_ops bs))
      end).
Proof using W.
  destruct (confirmed_walk W (ConfirmsPerFileAppend cfg)
    (fun b r => fold_left (numrecs_op fname) (Operations b) r) (0, false))
    as (l0 & Hl0 & r & Hrun & Hr).
  exists l0. split; [done|]. unfold NumRecs. rewrite Hrun. simpl. destruct r as [x|].
  - destruct Hr as (bs & -> & Hbt). cbv beta in Hbt.
    rewrite Hbt. simpl. by rewrite (fold_blocks (numrecs_op fname)), numrecs_fold.
  - by rewrite Hr.
Qed.

Lemma ListFiles_eq rg :
  exists l0 res, in_chain bc l0 /\ ListFiles rg h bc = Ret (set_lastNode bc l0, res) /\
    NoDup res /\
    forall f, f ∈ res <-> exists bs op,
      confirmed_part (ConfirmsPerFileCreate cfg) (longest h bc) = Some bs /\
      op ∈ chain_ops bs /\ Filename op = f.
Proof using W.
  destruct (confirmed_walk W (ConfirmsPerFileCreate cfg)
    (fun b fs => fold_left (fun fs op => <[Filename op := tt]> fs) (Operations b) fs)
    (∅ : gmap string unit)) as (l0 & Hl0 & r & Hrun & Hr).
  unfold ListFiles. rewrite Hrun. simpl. destruct r as [x|].
  - destruct Hr as (bs & Hbs & Hbt). cbv beta in Hbt. rewrite Hbt. simpl.
    rewrite (fold_blocks (fun fs op => <[Filename op := tt]> fs)).
    eexists l0, _. split_and!; [done|done|apply NoDup_range_keys|].
    intros f. rewrite list_elem_of_fmap. split.
    + intros ([f' []] & -> & Hin). apply elem_of_range in Hin.
      assert (f' ∈ Filename <$> chain_ops bs) as Hf by (apply filenames_fold; eauto).
      apply list_elem_of_fmap in Hf as (op & -> & ?). eauto.
    + intros (bs' & op & Hbs' & Hop & <-). simplify_eq.
      destruct (proj2 (filenames_fold (chain_ops bs) (Filename op))) as [[] Hin];
        [by apply list_elem_of_fmap_2|].
      exists (Filename op, tt). split; [done|]. by apply elem_of_range.
  - eexists l0, []. split_and!; [done|done|constructor|]. rewrite Hr. set_solver.
Qed.

Lemma GetPreviousBlocks_eq hash k :
  0 <= k ->
  GetPreviousBlocks h bc hash k = Ret
    match bc_m bc !! hash with
    | None => []
    | Some l => take 1 (branch h l) ++ take (Z.to_nat k) (branch h l)
    end.
Proof using W.
  intros Hk. unfold GetPreviousBlocks. destruct (bc_m bc !! hash) as [l|] eqn:Hl; [|done].
  rewrite decide_False by lia. assert (in_chain bc l) as Hc by (by exists hash).
  destruct (wf_lookup W l Hc) as (n & Hn & _). rewrite Hn. simpl.
  pose proof (wf_ancestors W l Hc) as Hp. rewrite (prev_loop_path _ _ _ _ _ Hp).
  rewrite fmap_take. fold (branch h l). f_equal. f_equal.
  by rewrite (branch_cons W l n Hc Hn).
Qed.

(** The confirmed part of a longer chain ends with that of the shorter one. *)
Lemma confirmed_part_suffix k bs bs' c :
  bs `suffix_of` bs' -> confirmed_part k bs = Some c ->
  exists c', confirmed_part k bs' = Some c' /\ c `suffix_of` c'.
Proof using Type.
  intros [new ->] Hc. unfold confirmed_part in *. case_decide as Hlt; [|done]. simplify_eq.
  rewrite length_app. rewrite decide_True by lia. eexists; split; [done|].
  destruct (decide (Z.to_nat k <= length new)%nat).
  - rewrite drop_app_le by done. exists (drop (Z.to_nat k) new ++ take (Z.to_nat k) bs).
    by rewrite <- app_assoc, take_drop.
  - rewrite drop_app_ge by lia. 
    exists (drop (Z.to_nat k - length new) (take (Z.to_nat k) bs)).
    rewrite <- (take_drop (Z.to_nat k) bs) at 1. rewrite drop_app_le; [done|].
    rewrite length_take. lia.
Qed.
End results.

(** ** Confirmation of operations *)

Fixpoint check_blocks (op : Operation) (num i : Z) (bs : list Block) (other : bool) : confirmation :=
  match bs with
  | [] => mkConf false false other
  | b :: bs =>
      match check_ops op num i (Operations b) other with
      | inl r => r
      | inr other => check_blocks op num (i + 1) bs other
      end
  end.

Lemma check_loop_path fuel h op num l ls i other :
  path h l ls -> (length ls <= fuel)%nat ->
  check_loop fuel h op num (Some l) i other = Ret (check_blocks op num i (block <$> nodes_at h ls) other).
Proof.
  intros Hp. revert fuel i other. induction Hp as [l n Hn Hp|l n p ls Hn Hp _ IH];
    intros [|fuel] i other Hf; simpl in Hf; try lia;
    rewrite (nodes_at_cons _ _ _ _ Hn), fmap_cons; cbn [check_loop check_blocks]; rewrite Hn; simpl; destruct (check_ops _ _ _ _ _);
    try done; rewrite Hp; [by destruct fuel|]. apply IH. lia.
Qed.

(** Another miner's operation on the file that [op] creates. *)
Definition other_miner (op c : Operation) : Prop :=
  Op op = Create /\ Filename op = Filename c /\ op_MinerID op <> op_MinerID c.

Lemma check_ops_found op num i ops other :
  match check_ops op num i ops other with
  | inl r => OperationID op ∈ OperationID <$> ops /\
      exists_ r = true /\ confirmed r = bool_decide (num < i) /\
      (otherMiner r = true -> other = true \/ exists c, c ∈ ops /\ other_miner op c)
  | inr o => (OperationID op ∉ OperationID <$> ops) /\
      (o = true -> other = true \/ exists c, c ∈ ops /\ other_miner op c)
  end.
Proof.
  revert other. induction ops as [|c ops IH]; intros other; simpl; [set_solver|].
  set (o1 := if decide _ then true else other).
  assert (o1 = true -> other = true \/ other_miner op c) as Ho1.
  { unfold o1, other_miner. clear. case_decide; tauto. }
  clearbody o1. destruct (decide (OperationID c = OperationID op)) as [Hid|Hid].
  - simpl. split_and!; [rewrite Hid; by left|done|done|]. intros Ho. apply Ho1 in Ho as [?|?]; [by left|].
    right. exists c. split; [by left|done].
  - specialize (IH o1). destruct (check_ops op num i ops o1) as [r|o].
    + destruct IH as (Hin & He & Hc & Hot). split_and!; [by right|done|done|].
      intros Ho. apply Hot in Ho as [Ho|(c' & ? & ?)]; [|right; exists c'; split; [by right|done]].
      apply Ho1 in Ho as [?|?]; [by left|]. right. exists c. split; [by left|done].
    + destruct IH as (Hin & Hot). split; [by intros [Heq|?]%elem_of_cons|].
      intros Ho. apply Hot in Ho as [Ho|(c' & ? & ?)]; [|right; exists c'; split; [by right|done]].
      apply Ho1 in Ho as [?|?]; [by left|]. right. exists c. split; [by left|done].
Qed.

(** The operation exists if it is on the branch, and is confirmed if it is not
    among the newest [num + 1] blocks (counting from distance [i]). *)
Lemma check_blocks_spec op num bs : forall i other,
  let r := check_blocks op num i bs other in
  (exists_ r = true <-> OperationID op ∈ OperationID <$> chain_ops bs) /\
  (confirmed r = true <-> OperationID op ∈ OperationID <$> chain_ops bs /\
     OperationID op ∉ OperationID <$> chain_ops (take (Z.to_nat (num + 1 - i)) bs)) /\
  (otherMiner r = true -> other = true \/ exists c, c ∈ chain_ops bs /\ other_miner op c).
Proof.
  induction bs as [|b bs IH]; intros i other; cbn [check_blocks]; cbv zeta.
  - simpl. set_solver.
  - change (chain_ops (b :: bs)) with (Operations b ++ chain_ops bs). rewrite fmap_app.
    pose proof (check_ops_found op num i (Operations b) other) as Hb.
    destruct (check_ops op num i (Operations b) other) as [r|o].
    + destruct Hb as (Hin & -> & -> & Hot). rewrite bool_decide_eq_true. split_and!.
      * set_solver.
      * split.
        -- intros Hlt. split; [set_solver|]. replace (Z.to_nat (num + 1 - i)) with 0%nat by lia. set_solver.
        -- intros [_ Hn]. destruct (decide (num < i)); [done|]. exfalso. apply Hn.
           destruct (Z.to_nat (num + 1 - i)) eqn:E; [lia|]. simpl.
           change (chain_ops (b :: ?x)) with (Operations b ++ chain_ops x).
           rewrite fmap_app. set_solver.
      * intros Ho. apply Hot in Ho as [?|(c & ? & ?)]; [by left|]. right. exists c. set_solver.
    + destruct Hb as (Hin & Hot). destruct (IH (i + 1) o) as (He & Hc & Hoth). split_and!.
      * rewrite He. set_solver.
      * rewrite Hc. destruct (decide (num < i)).
        -- replace (Z.to_nat (num + 1 - (i + 1))) with 0%nat by lia.
           replace (Z.to_nat (num + 1 - i)) with 0%nat by lia. set_solver.
        -- replace (Z.to_nat (num + 1 - i)) with (S (Z.to_nat (num + 1 - (i + 1)))) by lia. simpl.
           change (chain_ops (b :: ?x)) with (Operations b ++ chain_ops x).
           rewrite fmap_app. set_solver.
      * intros Ho. apply Hoth in Ho as [Ho|(c & ? & ?)]; [|right; exists c; set_solver].
        apply Hot in Ho as [?|(c & ? & ?)]; [by left|]. right. exists c. set_solver.
Qed.

Definition confirms_of (cfg : Settings) (op : Operation) : Z :=
  if decide (Op op = Append) then ConfirmsPerFileAppend cfg else ConfirmsPerFileCreate cfg.

Lemma CheckOpConfirmed_eq h bc op :
  wf h bc ->
  exists l0, in_chain bc l0 /\
    CheckOpConfirmed h bc op = Ret (set_lastNode bc l0,
      check_blocks op (confirms_of (bc_config bc) op) 0 (longest h bc) false).
Proof.
  intros W. destruct (longest_wf W) as (l0 & ls & Hrun & [Hl0 _] & Hlong). exists l0. split; [done|].
  pose proof (wf_ancestors W l0 Hl0) as Hp. unfold CheckOpConfirmed. rewrite Hrun. simpl.
  rewrite (check_loop_path _ _ _ _ _ _ _ _ Hp) by (by eapply path_length). simpl.
  by rewrite Hlong.
Qed.

(** A confirmed operation is in the confirmed part of the branch. *)
Lemma confirmed_in_part k bs op :
  0 <= k -> (forall c, c ∈ chain_ops bs -> OperationID c = OperationID op -> c = op) ->
  confirmed (check_blocks op k 0 bs false) = true ->
  exists c, confirmed_part k bs = Some c /\ op ∈ chain_ops c.
Proof.
  intros Hk Hid Hconf. apply check_blocks_spec in Hconf as [Hin Hnew]. rewrite Z.sub_0_r in Hnew.
  rewrite <- (take_drop (Z.to_nat (k + 1)) bs), chain_ops_app, fmap_app, elem_of_app in Hin.
  destruct Hin as [Hin|Hin]; [done|]. apply list_elem_of_fmap in Hin as (c & Hc & Hin).
  assert (op ∈ chain_ops (drop (Z.to_nat (k + 1)) bs)) as Hop.
  { replace op with c; [done|]. apply Hid; [|done].
    rewrite <- (take_drop (Z.to_nat (k + 1)) bs), chain_ops_app. set_solver. }
  assert (op ∈ chain_ops (drop (Z.to_nat k) bs)) as Hop'.
  { replace (Z.to_nat (k + 1)) with (Z.to_nat k + 1)%nat in Hop by lia. rewrite <- drop_drop in Hop.
    rewrite <- (take_drop 1 (drop (Z.to_nat k) bs)), chain_ops_app. set_solver. }
  exists (drop (Z.to_nat k) bs). split; [|done]. unfold confirmed_part. rewrite decide_True; [done|].
  destruct (decide (Z.to_nat k < length bs)%nat); [done|].
  rewrite drop_ge in Hop' by lia. by apply not_elem_of_nil in Hop'.
Qed.

Lemma mentions_of op ops : op ∈ ops -> mentions (Filename op) ops = true.
Proof. intros Hop. apply bool_decide_eq_true_2, Exists_exists. eauto. Qed.

Lemma elem_of_appends op ops : op ∈ ops -> Op op = Append -> op ∈ appends (Filename op) ops.
Proof. intros Hop Happ. by apply list_elem_of_filter. Qed.

(** ** Theorems *)

(** C12: The longest chains: on a well-formed chain the depth-first search
    terminates and returns exactly the nodes of maximal depth, each once (the
    genesis node alone is returned twice); [lastNode] becomes the first of
    them. *)
Theorem getLastNodes_spec h bc (W : wf h bc) :
  exists l0 ls, getLastNodes h bc = Ret (set_lastNode bc l0, l0 :: ls) /\
    (forall l, l ∈ l0 :: ls <->
       in_chain bc l /\ forall l', in_chain bc l' -> (depth h l' <= depth h l)%nat) /\
    (if decide (depth h l0 = 0%nat) then l0 :: ls = [genesis bc; genesis bc]
     else NoDup (l0 :: ls)).
Proof. exact (getLastNodes_wf W). Qed.

(** C25: Reading a file: [GetFile] returns the appends to the file in the blocks of
    the longest branch that have [ConfirmsPerFileAppend] blocks on top, in
    reverse order of the walk from the newest block to the genesis block; the
    flags tell whether an operation, or a deletion, names the file. *)
Theorem GetFile_spec h bc fname (W : wf h bc) :
  exists bc', GetFile h bc fname = Ret (bc',
    match confirmed_part (ConfirmsPerFileAppend (bc_config bc)) (longest h bc) with
    | None => (zero_FileOps, false)
    | Some bs => (mkFileOps fname (reverse (appends fname (chain_ops bs)))
                    (deletes fname (chain_ops bs)),
                  mentions fname (chain_ops bs))
    end).
Proof. destruct (GetFile_eq W fname) as (l0 & _ & ->). by eexists. Qed.

(** C32: Counting and reading agree: [NumRecs] is the number of records that
    [GetFile] returns, with the same existence flag, or -1 when no block is
    confirmed. *)
Theorem NumRecs_GetFile h bc fname (W : wf h bc) :
  exists bc1 bc2 n file ok,
    NumRecs h bc fname = Ret (bc1, (n, ok)) /\ GetFile h bc fname = Ret (bc2, (file, ok)) /\
    ((n = -1 /\ ok = false /\ file_Operations file = [] /\
      (length (longest h bc) <= Z.to_nat (ConfirmsPerFileAppend (bc_config bc)))%nat) \/
     n = Z.of_nat (length (file_Operations file))).
Proof.
  destruct (NumRecs_eq W fname) as (l1 & _ & ->), (GetFile_eq W fname) as (l2 & _ & ->).
  unfold confirmed_part. case_decide as Hlt.
  - do 5 eexists. split_and!; [done|done|]. right. simpl. by rewrite length_reverse.
  - do 5 eexists. split_and!; [done|done|]. left. simpl. split_and!; [done..|lia].
Qed.

(** C26: Files are append-only: when the longest branch grows by new blocks on top
    (under the same configuration), the records of a file before are a prefix
    of its records after, so a record keeps its position and content, and a
    file that exists keeps existing. *)
Theorem GetFile_append_only h bc h' bc' fname bc1 f
    (W : wf h bc) (W' : wf h' bc') (Hcfg : bc_config bc' = bc_config bc)
    (Hgrow : longest h bc `suffix_of` longest h' bc')
    (Hread : GetFile h bc fname = Ret (bc1, (f, true))) :
  exists bc2 f', GetFile h' bc' fname = Ret (bc2, (f', true)) /\
    file_Operations f `prefix_of` file_Operations f'.
Proof.
  destruct (GetFile_eq W fname) as (l1 & _ & Hf), (GetFile_eq W' fname) as (l2 & _ & ->).
  rewrite Hread in Hf. rewrite Hcfg. clear Hread.
  destruct (confirmed_part _ (longest h bc)) as [bs|] eqn:Hbs; [|done]. injection Hf as -> -> Hm.
  destruct (confirmed_part_suffix _ _ _ _ Hgrow Hbs) as (bs' & -> & [new ->]).
  rewrite chain_ops_app, appends_app. do 2 eexists. split; [do 2 f_equal|].
  - f_equal. unfold mentions in *. symmetry in Hm. rewrite bool_decide_eq_true in Hm |- *.
    apply Exists_app. by right.
  - simpl. rewrite reverse_app. by exists (reverse (appends fname (chain_ops new))).
Qed.

(** Listing files: for every iteration order, [ListFiles] returns without
    repetition the names of all operations in the blocks of the longest branch
    with [ConfirmsPerFileCreate] blocks on top. *)
Theorem ListFiles_spec rg h bc (W : wf h bc) :
  exists bc' res, ListFiles rg h bc = Ret (bc', res) /\ NoDup res /\
    forall f, f ∈ res <-> exists bs op,
      confirmed_part (ConfirmsPerFileCreate (bc_config bc)) (longest h bc) = Some bs /\
      op ∈ chain_ops bs /\ Filename op = f.
Proof. destruct (ListFiles_eq W rg) as (l0 & res & _ & Hr & ?). by exists (set_lastNode bc l0), res. Qed.

(** C27: Confirmation: an operation exists when its identifier is on the longest
    branch, and is confirmed when, in addition, it is in none of the newest
    [n + 1] blocks, where [n] is the configured number of confirmations;
    [otherMiner] is only set for a creation, by an operation of another miner
    on the same file. *)
Theorem CheckOpConfirmed_spec h bc op (W : wf h bc) :
  exists bc' r, CheckOpConfirmed h bc op = Ret (bc', r) /\
    (exists_ r = true <-> OperationID op ∈ OperationID <$> chain_ops (longest h bc)) /\
    (confirmed r = true <->
       OperationID op ∈ OperationID <$> chain_ops (longest h bc) /\
       OperationID op ∉ OperationID <$> chain_ops
         (take (Z.to_nat (confirms_of (bc_config bc) op + 1)) (longest h bc))) /\
    (otherMiner r = true -> Op op = Create /\ exists c, c ∈ chain_ops (longest h bc) /\
       Filename c = Filename op /\ op_MinerID c <> op_MinerID op).
Proof.
  destruct (CheckOpConfirmed_eq h bc op W) as (l0 & _ & ->). do 2 eexists. split; [done|].
  destruct (check_blocks_spec op (confirms_of (bc_config bc) op) (longest h bc) 0 false)
    as (He & Hc & Ho). rewrite Z.sub_0_r in Hc. split_and!; [done|done|].
  intros Hot. apply Ho in Hot as [?|(c & Hc' & Hcr & Hf & Hm)]; [done|]. split; [done|].
  exists c. split_and!; [done|by rewrite Hf|congruence].
Qed.

(** A confirmed append is readable: once [CheckOpConfirmed] reports an append as
    confirmed, [GetFile] returns it among the records of its file, provided
    its identifier names no other operation on the branch. *)
Theorem confirmed_append_readable h bc op bc1 r
    (W : wf h bc) (Happ : Op op = Append)
    (Hnum : 0 <= ConfirmsPerFileAppend (bc_config bc))
    (Hid : forall c, c ∈ chain_ops (longest h bc) -> OperationID c = OperationID op -> c = op)
    (Hchk : CheckOpConfirmed h bc op = Ret (bc1, r)) (Hconf : confirmed r = true) :
  exists bc2 f, GetFile h bc (Filename op) = Ret (bc2, (f, true)) /\ op ∈ file_Operations f.
Proof.
  destruct (CheckOpConfirmed_eq h bc op W) as (l0 & _ & Hr). rewrite Hchk in Hr. injection Hr as -> ->.
  unfold confirms_of in Hconf. rewrite decide_True in Hconf by done.
  destruct (confirmed_in_part _ _ _ Hnum Hid Hconf) as (c & Hc & Hop).
  destruct (GetFile_eq W (Filename op)) as (l1 & _ & ->). rewrite Hc. do 2 eexists. split.
  - do 3 f_equal. by apply mentions_of.
  - simpl. rewrite elem_of_reverse. by apply elem_of_appends.
Qed.

(** Blocks sent to a peer that lacks a parent: [GetPreviousBlocks] returns the
    named block, and then again the named block followed by its ancestors, in
    all [numBlocks] of them at most; an unknown hash gives nothing. *)
Theorem GetPreviousBlocks_spec h bc hash numBlocks (W : wf h bc) (Hn : 0 <= numBlocks) :
  GetPreviousBlocks h bc hash numBlocks = Ret
    match bc_m bc !! hash with
    | None => []
    | Some l => take 1 (branch h l) ++ take (Z.to_nat numBlocks) (branch h l)
    end.
Proof. by apply (GetPreviousBlocks_eq W). Qed.
