(* ===== verification/Rebuild.v ===== *)
(** Sending a chain to a peer and rebuilding it there: [GetBlocks], [Marshall]
    and [UnmarshallBlockchain]. *)
From S2P Require Import Prelude GoLib Settings Operation Block Blockchain ChainTheory AddBlock QueryTheory.

(** ** The blocks of a chain *)

(** The abstract content of a chain: its blocks by hash. *)
Definition view (h : heap) (bc : Blockchain) : gmap string Block :=
  omap (fun l => block <$> h !! l) (bc_m bc).

Lemma view_lookup h bc k b :
  view h bc !! k = Some b <-> exists l n, bc_m bc !! k = Some l /\ h !! l = Some n /\ block n = b.
Proof.
  unfold view. rewrite lookup_omap_Some. split.
  - intros (l & Hb & Hl). apply fmap_Some in Hb as (n & ? & ->). eauto.
  - intros (l & n & Hl & Hn & <-). exists l. by rewrite Hn.
Qed.

Lemma view_hash h bc k b : wf h bc -> view h bc !! k = Some b -> Hash b = k.
Proof.
  intros W (l & n & Hl & Hn & <-)%view_lookup.
  destruct (wf_node _ _ W _ _ Hl) as (n' & ? & ?). congruence.
Qed.

Lemma mapM_Ret {A B} (f : A -> go B) (g : A -> B) l :
  (forall x, x ∈ l -> f x = Ret (g x)) -> mapM f l = Ret (g <$> l).
Proof.
  induction l as [|x l IH]; intros Hf; simpl; [done|].
  rewrite Hf by set_solver. simpl. rewrite IH by set_solver. done.
Qed.

Lemma GetBlocks_eq rg h bc :
  wf h bc -> exists blocks, GetBlocks rg h bc = Ret blocks /\
    NoDup (Hash <$> blocks) /\ (forall b, b ∈ blocks <-> view h bc !! Hash b = Some b).
Proof.
  intros W. set (g := fun kl : string * loc => default zero_Block (block <$> h !! kl.2)).
  assert (forall k l, (k, l) ∈ range rg (bc_m bc) ->
    exists n, h !! l = Some n /\ g (k, l) = block n /\ Hash (block n) = k /\ bc_m bc !! k = Some l) as Hg.
  { intros k l Hin. apply elem_of_range in Hin. destruct (wf_node _ _ W _ _ Hin) as (n & Hn & Hk).
    exists n. unfold g. simpl. by rewrite Hn. }
  exists (g <$> range rg (bc_m bc)). split_and!.
  - apply mapM_Ret. intros [k l] Hin. destruct (Hg k l Hin) as (n & Hn & -> & _). simpl. by rewrite Hn.
  - assert (Hash <$> (g <$> range rg (bc_m bc)) = (range rg (bc_m bc)).*1) as ->.
    { rewrite <- list_fmap_compose. apply list_fmap_ext. intros i [k l] Hi.
      apply list_elem_of_lookup_2, Hg in Hi as (n & _ & Hgn & Hk & _). simpl. by rewrite Hgn. }
    apply NoDup_range_keys.
  - intros b. rewrite list_elem_of_fmap, view_lookup. split.
    + intros ([k l] & -> & Hin). destruct (Hg k l Hin) as (n & Hn & -> & -> & Hk). eauto.
    + intros (l & n & Hl & Hn & Hb). exists (Hash b, l). split; [unfold g; simpl; by rewrite Hn, <- Hb|].
      by apply elem_of_range.
Qed.

(** ** Allocation *)

Lemma alloc_nodes_eq h blocks :
  NoDup (Hash <$> blocks) ->
  exists N, alloc_nodes h blocks = (h ++ ((fun b => newNode b None) <$> blocks), N) /\
    forall k l, N !! k = Some l <->
      exists i b, blocks !! i = Some b /\ Hash b = k /\ l = length h + i.
Proof.
  intros Hnd. unfold alloc_nodes.
  apply (fold_left_inv (fun done r => exists N : gmap string loc,
    r = (h ++ ((fun b => newNode b None) <$> done), N) /\
    forall k l, N !! k = Some l <-> exists i b, done !! i = Some b /\ Hash b = k /\ l = length h + i)).
  - exists ∅. split; [by rewrite app_nil_r|]. intros k l. rewrite lookup_empty. naive_solver.
  - intros done b rest _ Hbl (N & -> & HN). eexists. split.
    { cbn. rewrite <- app_assoc, fmap_app, length_app, length_fmap. reflexivity. }
    intros k l. rewrite Hbl, fmap_app in Hnd. apply NoDup_app in Hnd as (_ & Hdis & _).
    rewrite lookup_insert. case_decide as Hk.
    + subst k. split.
      * intros [= <-]. exists (length done), b. by rewrite list_lookup_middle.
      * intros (i & b' & Hi & Heq & ->). apply lookup_app_Some in Hi as [Hi|[Hge Hi]].
        -- exfalso. apply (Hdis (Hash b)); [|by left]. rewrite <- Heq.
           by eapply list_elem_of_fmap_2, list_elem_of_lookup_2.
        -- apply list_lookup_singleton_Some in Hi as [? ->]. do 2 f_equal. lia.
    + rewrite HN. split; intros (i & b' & Hi & Heq & ->); exists i, b'; split_and!; try done.
      * by apply lookup_app_l_Some.
      * apply lookup_app_Some in Hi as [Hi|[Hge Hi]]; [done|].
        apply list_lookup_singleton_Some in Hi as [? ->]. congruence.
Qed.

(** ** Linking *)

Section link.
(** [V]: the blocks by hash; [N]: their nodes. *)
Context (V : gmap string Block) (N : gmap string loc).
Context (Hdom : forall k, is_Some (V !! k) <-> is_Some (N !! k)).
Context (Hinj : forall k1 k2 l, N !! k1 = Some l -> N !! k2 = Some l -> k1 = k2).
(** Every previous hash is empty or known. *)
Context (Hclosed : forall k (b : Block), V !! k = Some b -> PreviousHash b <> EmptyString ->
  is_Some (N !! PreviousHash b)).

(** Parent and children of node [k] once the nodes [done] are linked. *)
Definition link_parent (done : list string) (k : string) (b : Block) : option loc :=
  if decide (k ∈ done /\ PreviousHash b <> EmptyString) then N !! PreviousHash b else None.
Definition link_child (k k' : string) : option loc :=
  match (V !! k' : option Block) with
  | Some b => if decide (PreviousHash b = k /\ k <> EmptyString) then N !! k' else None
  | None => None
  end.
Definition link_children (done : list string) (k : string) : list loc := omap (link_child k) done.

Definition link_inv (done : list string) (h : heap) : Prop :=
  forall k b l, V !! k = Some b -> N !! k = Some l ->
    h !! l = Some (mkNode b (link_parent done k b) (link_children done k)).

Lemma link_parent_other done k b k0 : k <> k0 -> link_parent (done ++ [k0]) k b = link_parent done k b.
Proof using Type.
  clear V Hdom Hinj Hclosed. intros Hne. unfold link_parent. assert (k ∈ done ++ [k0] <-> k ∈ done) as Heq by set_solver.
  repeat case_decide; naive_solver.
Qed.

Lemma link_parent_root done k (b : Block) : PreviousHash b = EmptyString -> link_parent done k b = None.
Proof using Type. intros Hr. unfold link_parent. rewrite decide_False; [done|]. by intros [_ ?]. Qed.

Lemma link_children_snoc done k k0 (b0 : Block) l0 :
  V !! k0 = Some b0 -> N !! k0 = Some l0 ->
  link_children (done ++ [k0]) k = link_children done k ++
    if decide (PreviousHash b0 = k /\ k <> EmptyString) then [l0] else [].
Proof using Type.
  intros HV HN. unfold link_children. rewrite omap_app. f_equal. simpl.
  unfold link_child. rewrite HV. simpl. case_decide; [by rewrite HN|done].
Qed.

(** One iteration that links [k0] under its parent. *)
Lemma link_inv_step done h k0 (b0 : Block) l0 lp pn :
  k0 ∉ done -> V !! k0 = Some b0 -> N !! k0 = Some l0 ->
  PreviousHash b0 <> EmptyString -> N !! PreviousHash b0 = Some lp ->
  link_inv done h ->
  let nd := mkNode b0 (link_parent done k0 b0) (link_children done k0) in
  <[l0 := set_parent (Some lp) nd]> h !! lp = Some pn ->
  link_inv (done ++ [k0])
    (<[lp := set_children (children pn ++ [l0]) pn]> (<[l0 := set_parent (Some lp) nd]> h)).
Proof using Hdom Hinj Hclosed.
  intros Hk0 HV0 HN0 Hne HNp I nd Hpn k b l HV HN.
  pose proof (lookup_lt_Some _ _ _ (I _ _ _ HV0 HN0)) as Hlt0.
  assert (<[l0 := set_parent (Some lp) nd]> h !! l
    = Some (mkNode b (link_parent (done ++ [k0]) k b) (link_children done k))) as Hl.
  { destruct (decide (k = k0)) as [->|Hk].
    - simplify_eq. rewrite list_lookup_insert_eq by done. unfold nd, set_parent. simpl. repeat f_equal.
      unfold link_parent. rewrite decide_True by set_solver. done.
    - rewrite list_lookup_insert_ne by (intros ->; apply Hk; eauto).
      rewrite (I k b l) by done. by rewrite link_parent_other. }
  rewrite (link_children_snoc _ _ _ _ _ HV0 HN0).
  destruct (decide (k = PreviousHash b0)) as [->|Hk].
  - assert (l = lp) as -> by congruence. rewrite list_lookup_insert_eq by (by eapply lookup_lt_Some).
    rewrite Hl in Hpn. injection Hpn as <-. by rewrite decide_True.
  - rewrite list_lookup_insert_ne by (intros ->; apply Hk; eauto).
    rewrite Hl, decide_False by naive_solver. by rewrite app_nil_r.
Qed.

Lemma link_inv_root done h k0 (b0 : Block) :
  V !! k0 = Some b0 -> PreviousHash b0 = EmptyString ->
  link_inv done h -> link_inv (done ++ [k0]) h.
Proof using Hdom Hinj Hclosed.
  intros HV0 Hr I k b l HV HN. rewrite (I k b l) by done. do 2 f_equal.
  - destruct (decide (k = k0)) as [->|]; [|by rewrite link_parent_other].
    simplify_eq. by rewrite !link_parent_root.
  - destruct (proj1 (Hdom k0)) as [l0 HN0]; [eauto|].
    rewrite (link_children_snoc _ _ _ _ _ HV0 HN0), decide_False by naive_solver. by rewrite app_nil_r.
Qed.

(** The root found among [todo], the last one if there are several. *)
Definition link_root (todo : list string) (g : option loc) : option loc :=
  fold_left (fun g k => match (V !! k : option Block) with
    | Some b => if decide (PreviousHash b = EmptyString) then N !! k else g
    | None => g end) todo g.

Lemma link_nodes_ok todo : forall done h g,
  NoDup (done ++ todo) -> (forall k, k ∈ todo -> is_Some (V !! k)) -> link_inv done h ->
  exists h', link_nodes N todo h g = Ret (h', Ok (link_root todo g)) /\
    link_inv (done ++ todo) h' /\ length h' = length h.
Proof using Hdom Hinj Hclosed.
  induction todo as [|k0 todo IH]; intros done h g Hnd Hin I.
  - exists h. rewrite app_nil_r. done.
  - destruct (Hin k0) as [b0 HV0]; [set_solver|].
    destruct (proj1 (Hdom k0)) as [l0 HN0]; [eauto|].
    assert (k0 ∉ done) as Hk0 by (apply NoDup_app in Hnd; set_solver).
    assert (done ++ k0 :: todo = (done ++ [k0]) ++ todo) as Happ by (by rewrite <- app_assoc).
    rewrite Happ in *. cbn [link_nodes]. rewrite HN0. simpl. rewrite (I _ _ _ HV0 HN0). simpl.
    unfold link_root. cbn [fold_left]. rewrite HV0. fold (link_root todo).
    case_decide as Hr.
    + rewrite HN0. apply IH; [done|set_solver|by eapply link_inv_root].
    + destruct (Hclosed k0 b0 HV0 Hr) as [lp HNp]. rewrite HNp.
      destruct (proj2 (Hdom (PreviousHash b0))) as [bp HVp]; [eauto|].
      pose proof (lookup_lt_Some _ _ _ (I _ _ _ HVp HNp)) as Hltp.
      destruct (lookup_lt_is_Some_2 (<[l0 := set_parent (Some lp) (mkNode b0
        (link_parent done k0 b0) (link_children done k0))]> h) lp) as [pn Hpn];
        [by rewrite length_insert|].
      rewrite Hpn. simpl.
      destruct (IH (done ++ [k0]) (<[lp := set_children (children pn ++ [l0]) pn]>
        (<[l0 := set_parent (Some lp) (mkNode b0 (link_parent done k0 b0) (link_children done k0))]> h)) g)
        as (h' & Hrun & Hinv & Hlen); [done|set_solver|by eapply link_inv_step|].
      exists h'. split_and!; [done|done|]. by rewrite Hlen, !length_insert.
Qed.
End link.

(** ** The rebuilt chain *)

Lemma NoDup_omap {A B} (f : A -> option B) l :
  NoDup l -> (forall x y z, f x = Some z -> f y = Some z -> x = y) -> NoDup (omap f l).
Proof.
  intros Hnd Hinj. induction Hnd as [|x l Hx Hl IH]; simpl; [constructor|].
  destruct (f x) as [z|] eqn:Hz; [|done]. apply NoDup_cons; split; [|done].
  intros (y & Hy & Hyz)%list_elem_of_omap. apply Hx. by rewrite (Hinj x y z).
Qed.

Section rebuilt.
Context {h : heap} {bc : Blockchain} (W : wf h bc).
Context (g0 : Node) (Hg0 : h !! genesis bc = Some g0).
Context (Hgroot : PreviousHash (block g0) = EmptyString).
Context (Hempty : bc_m bc !! EmptyString = None).

(** The nodes of the rebuilt chain, once linked. *)
Context (N : gmap string loc) (h2 : heap) (keys : list string).
#[local] Abbreviation V := (view h bc).
Context (Hdom : forall k, is_Some (V !! k) <-> is_Some (N !! k)).
Context (Hinj : forall k1 k2 l, N !! k1 = Some l -> N !! k2 = Some l -> k1 = k2).
Context (Hkeys : NoDup keys) (Hall : forall k, k ∈ keys <-> is_Some (V !! k)).
Context (Hlink : link_inv V N keys h2).

Lemma rebuilt_closed k (b : Block) :
  V !! k = Some b -> PreviousHash b <> EmptyString -> is_Some (N !! PreviousHash b).
Proof using W Hg0 Hgroot Hdom.
  intros (l & n & Hl & Hn & <-)%view_lookup Hne. apply Hdom.
  destruct (decide (l = genesis bc)) as [->|Hg]; [simplify_eq; done|].
  destruct (wf_parent _ _ W _ _ _ Hl Hn Hg) as (p & _ & Hp).
  destruct (wf_node _ _ W _ _ Hp) as (pn & Hpn & _). exists (block pn). apply view_lookup. eauto.
Qed.

(** The genesis block is the only one without a previous hash. *)
Lemma rebuilt_root k (b : Block) :
  V !! k = Some b -> PreviousHash b = EmptyString <-> k = Hash (block g0).
Proof using W Hg0 Hgroot Hempty.
  intros (l & n & Hl & Hn & <-)%view_lookup. destruct (wf_node _ _ W _ _ Hl) as (n' & ? & Hk).
  simplify_eq. split.
  - intros Hr. destruct (decide (l = genesis bc)) as [->|Hg]; [by simplify_eq|].
    destruct (wf_parent _ _ W _ _ _ Hl Hn Hg) as (p & _ & Hp). congruence.
  - intros Heq. destruct (wf_genesis _ _ W) as (g & ? & _ & Hgm). simplify_eq.
    rewrite Heq in Hl. assert (l = genesis bc) as -> by congruence. by simplify_eq.
Qed.

Lemma rebuilt_genesis : exists lg, N !! Hash (block g0) = Some lg /\ V !! Hash (block g0) = Some (block g0).
Proof using W Hg0 Hdom.
  destruct (wf_genesis _ _ W) as (g & ? & _ & Hgm). simplify_eq.
  assert (V !! Hash (block g0) = Some (block g0)) as Hv by (apply view_lookup; eauto).
  destruct (proj1 (Hdom (Hash (block g0)))) as [lg Hlg]; eauto.
Qed.

Lemma rebuilt_node k b l :
  V !! k = Some b -> N !! k = Some l ->
  exists n, h2 !! l = Some n /\ block n = b /\
    parent n = (if decide (PreviousHash b = EmptyString) then None else N !! PreviousHash b).
Proof using Hlink Hall.
  intros HV HN. eexists; split; [exact (Hlink _ _ _ HV HN)|]. split; [done|]. simpl.
  unfold link_parent. destruct (decide (PreviousHash b = EmptyString)).
  - rewrite decide_False; [done|]. by intros [_ ?].
  - rewrite decide_True; [done|]. split; [|done]. apply Hall. eauto.
Qed.

(** The branches of the rebuilt chain are those of the original. *)
Lemma rebuilt_branch : forall l, in_chain bc l -> forall k l2,
  bc_m bc !! k = Some l -> N !! k = Some l2 ->
  exists ls, path h2 l2 ls /\ branch h2 l2 = branch h l.
Proof using W Hg0 Hgroot Hempty Hdom Hlink Hall.
  apply (chain_ind W (fun l => forall k l2, bc_m bc !! k = Some l -> N !! k = Some l2 ->
    exists ls, path h2 l2 ls /\ branch h2 l2 = branch h l)).
  - intros k l2 Hk HN. destruct (wf_node _ _ W _ _ Hk) as (n & Hn & Hh). simplify_eq.
    assert (V !! Hash (block g0) = Some (block g0)) as HV by (apply view_lookup; eauto).
    destruct (rebuilt_node _ _ _ HV HN) as (n2 & Hn2 & Hb & Hp). rewrite decide_True in Hp by done.
    assert (path h2 l2 [l2]) as Hpath by eauto with miner. exists [l2]. split; [done|].
    rewrite (branch_unfold _ _ _ _ Hpath Hn2), Hp, Hb.
    rewrite (branch_cons W _ _ (in_chain_genesis W) Hg0).
    destruct (wf_genesis _ _ W) as (g & ? & Hgp & _). simplify_eq. by rewrite Hgp.
  - intros p pn c cn Hp Hpn Hc Hcn Hpar _ IH k l2 Hk HN.
    assert (V !! k = Some (block cn)) as HV by (apply view_lookup; eauto).
    assert (c <> genesis bc) as Hcg.
    { intros ->. destruct (wf_genesis _ _ W) as (? & ? & ? & _). congruence. }
    destruct (wf_parent _ _ W _ _ _ Hk Hcn Hcg) as (p' & ? & Hp'). simplify_eq.
    destruct (rebuilt_node _ _ _ HV HN) as (n2 & Hn2 & Hb & Hp2).
    rewrite decide_False in Hp2 by (intros Heq; rewrite Heq in Hp'; congruence).
    destruct (N !! PreviousHash (block cn)) as [lp2|] eqn:HNp.
    + destruct (IH _ _ Hp' HNp) as (ls & Hls & Hbr).
      assert (path h2 l2 (l2 :: ls)) as Hpath by eauto with miner. exists (l2 :: ls). split; [done|].
      by rewrite (branch_unfold _ _ _ _ Hpath Hn2), Hp2, Hb, Hbr, (branch_cons W _ _ Hc Hcn), Hpar.
    + exfalso. destruct (wf_node _ _ W _ _ Hp') as (pn' & ? & _).
      assert (is_Some (V !! PreviousHash (block cn))) as Hs by (eexists; apply view_lookup; eauto).
      apply Hdom in Hs as [? Hs]. congruence.
Qed.

Lemma rebuilt_children k l2 n2 c :
  N !! k = Some l2 -> h2 !! l2 = Some n2 ->
  c ∈ children n2 <->
  exists kc cn, N !! kc = Some c /\ h2 !! c = Some cn /\ parent cn = Some l2.
Proof using Hdom Hinj Hall Hlink W Hempty.
  intros HN Hn2. destruct (proj2 (Hdom k)) as [b HV]; [eauto|].
  rewrite (Hlink _ _ _ HV HN) in Hn2. simplify_eq. simpl. unfold link_children.
  rewrite list_elem_of_omap. unfold link_child. split.
  - intros (kc & Hkc & Hc). destruct (V !! kc) as [bc0|] eqn:HVc; [|done].
    case_decide as Hd; [|done]. destruct Hd as [Heq Hne].
    destruct (rebuilt_node _ _ _ HVc Hc) as (cn & Hcn & _ & Hpar).
    exists kc, cn. split_and!; [done..|]. rewrite Hpar, decide_False by congruence. by rewrite Heq.
  - intros (kc & cn & HNc & Hcn & Hpar). destruct (proj2 (Hdom kc)) as [bc0 HVc]; [eauto|].
    exists kc. split; [apply Hall; eauto|]. rewrite HVc.
    destruct (rebuilt_node _ _ _ HVc HNc) as (cn' & ? & _ & Hpar'). simplify_eq.
    rewrite Hpar' in Hpar. case_decide as Hr; [done|].
    rewrite decide_True; [done|]. assert (k = PreviousHash bc0) as -> by eauto. done.
Qed.

Lemma rebuilt_wf lg : N !! Hash (block g0) = Some lg -> wf h2 (mkBlockchain lg lg N zero_Settings).
Proof using W Hg0 Hgroot Hempty Hdom Hinj Hkeys Hall Hlink.
  intros Hlg. destruct rebuilt_genesis as (lg' & ? & HVg). simplify_eq.
  destruct (rebuilt_node _ _ _ HVg Hlg) as (ng & Hng & Hbg & Hpg). rewrite decide_True in Hpg by done.
  assert (forall k l, N !! k = Some l -> exists b n, V !! k = Some b /\ Hash b = k /\ h2 !! l = Some n /\
    block n = b /\ parent n = (if decide (PreviousHash b = EmptyString) then None else N !! PreviousHash b)) as HN.
  { intros k l Hk. destruct (proj2 (Hdom k)) as [b HV]; [eauto|].
    destruct (rebuilt_node _ _ _ HV Hk) as (n & ? & ? & ?). exists b, n. split_and!; try done.
    by eapply view_hash. }
  split; simpl.
  - intros k l Hk. destruct (HN k l Hk) as (b & n & _ & ? & ? & <- & _). eauto.
  - exists ng. rewrite Hbg. done.
  - intros k l n Hk Hn Hne. destruct (HN k l Hk) as (b & n' & HV & Hh & ? & Hb & Hp). assert (n' = n) as -> by congruence. subst b.
    destruct (decide (PreviousHash (block n) = EmptyString)) as [Hr|Hr].
    + apply (rebuilt_root _ _ HV) in Hr. congruence.
    + destruct (rebuilt_closed _ _ HV Hr) as [p Hp']. exists p. split; [congruence|done].
  - intros k l Hk. destruct (HN k l Hk) as (b & n & (l0 & n0 & Hl0 & _)%view_lookup & _).
    destruct (rebuilt_branch l0 ltac:(by exists k) k l Hl0 Hk) as (ls & ? & _). eauto.
  - intros k l n c Hk Hn. by apply rebuilt_children with k.
  - intros k l n Hk Hn. destruct (proj2 (Hdom k)) as [b HV]; [eauto|].
    rewrite (Hlink _ _ _ HV Hk) in Hn. simplify_eq. simpl. apply NoDup_omap; [done|].
    intros k1 k2 z. unfold link_child. do 2 (case_match; [|done]; case_decide; [|done]). apply Hinj.
  - eauto.
Qed.
End rebuilt.

(** The root that linking finds when only [kg] has no previous hash. *)
Lemma link_root_unique V N keys kg g :
  (forall k (b : Block), V !! k = Some b -> PreviousHash b = EmptyString <-> k = kg) ->
  is_Some (V !! kg) -> kg ∈ keys -> link_root V N keys g = N !! kg.
Proof.
  intros Hr [bg Hbg]. unfold link_root.
  apply (fold_left_inv (fun done g' => kg ∈ done -> g' = N !! kg)); [set_solver|].
  intros done k rest g' _ IH Hin. destruct (V !! k) as [b|] eqn:HV.
  - destruct (decide (PreviousHash b = EmptyString)) as [He|He].
    + by apply (Hr _ _ HV) in He as ->.
    + apply IH. rewrite (Hr _ _ HV) in He. set_solver.
  - apply IH. assert (k <> kg) by congruence. set_solver.
Qed.

(** A chain and its copy: the same hashes, with the same branch under each. *)
Definition same_chain (h : heap) (bc : Blockchain) (h2 : heap) (bc2 : Blockchain) : Prop :=
  forall k, match bc_m bc !! k, bc_m bc2 !! k with
  | Some l, Some l2 => branch h2 l2 = branch h l
  | None, None => True
  | _, _ => False
  end.

Lemma Unmarshall_copy rg rg' h bc h1 g0 :
  wf h bc -> h !! genesis bc = Some g0 -> PreviousHash (block g0) = EmptyString ->
  bc_m bc !! EmptyString = None ->
  exists blocks h2 bc2, GetBlocks rg h bc = Ret blocks /\
    UnmarshallBlockchain rg' h1 blocks = Ret (h2, Ok bc2) /\
    wf h2 bc2 /\ same_chain h bc h2 bc2.
Proof.
  intros W Hg0 Hgr Hemp. destruct (GetBlocks_eq rg h bc W) as (blocks & Hget & Hnd & Hin).
  exists blocks. destruct (alloc_nodes_eq h1 blocks Hnd) as (N & Halloc & HN).
  set (h1' := h1 ++ ((fun b => newNode b None) <$> blocks)) in *.
  assert (forall k, is_Some (view h bc !! k) <-> is_Some (N !! k)) as Hdom.
  { intros k. split.
    - intros [b Hb]. pose proof (view_hash _ _ _ _ W Hb) as <-. apply Hin in Hb.
      apply list_elem_of_lookup in Hb as [i Hi]. exists (length h1 + i). apply HN. eauto.
    - intros [l Hl]. apply HN in Hl as (i & b & Hi & <- & _). exists b. apply Hin.
      by eapply list_elem_of_lookup_2. }
  assert (forall k1 k2 l, N !! k1 = Some l -> N !! k2 = Some l -> k1 = k2) as Hinj.
  { intros k1 k2 l (i1 & b1 & Hi1 & <- & ->)%HN (i2 & b2 & Hi2 & <- & Heq)%HN.
    assert (i1 = i2) as -> by lia. congruence. }
  assert (link_inv (view h bc) N [] h1') as Hl0.
  { intros k b l HV (i & b' & Hi & Hk & ->)%HN. unfold h1'.
    rewrite lookup_app_r, Nat.add_comm, Nat.add_sub, list_lookup_fmap, Hi by lia. simpl.
    pose proof Hi as Hb. apply list_elem_of_lookup_2, Hin in Hb. rewrite Hk, HV in Hb.
    injection Hb as <-. unfold link_parent. rewrite decide_False; [done|]. intros [[]%elem_of_nil _]. }
  pose proof (rebuilt_closed W g0 Hg0 Hgr N Hdom) as Hclosed.
  destruct (link_nodes_ok _ _ Hdom Hinj Hclosed (range rg' N).*1 [] h1' None)
    as (h2 & Hrun & Hlink & Hlen).
  { apply NoDup_range_keys. }
  { intros k ([k' l] & -> & Hk)%list_elem_of_fmap. apply elem_of_range in Hk. apply Hdom. eauto. }
  { done. }
  simpl in Hlink. set (keys := (range rg' N).*1) in *.
  assert (forall k, k ∈ keys <-> is_Some (view h bc !! k)) as Hall.
  { intros k. rewrite Hdom. unfold keys. rewrite list_elem_of_fmap. split.
    - intros ([k' l] & -> & Hk). apply elem_of_range in Hk. eauto.
    - intros [l Hl]. exists (k, l). split; [done|]. by apply elem_of_range. }
  destruct (rebuilt_genesis W g0 Hg0 N Hdom) as (lg & Hlg & HVg).
  rewrite (link_root_unique _ _ _ (Hash (block g0))), Hlg in Hrun;
    [|by eapply rebuilt_root|eauto|apply Hall; eauto].
  pose proof (rebuilt_wf W g0 Hg0 Hgr Hemp N h2 keys Hdom Hinj (NoDup_range_keys _ _) Hall Hlink lg Hlg) as W2.
  destruct (getLastNodes_wf W2) as (l0 & ls & Hlast & Hdeep & _).
  exists h2, (set_lastNode (mkBlockchain lg lg N zero_Settings) l0). split_and!; [done|..].
  - unfold UnmarshallBlockchain. rewrite Halloc. fold h1' keys. rewrite Hrun. simpl.
    unfold getLastNodes in Hlast. by rewrite <- Hlen, Hlast.
  - apply wf_set_lastNode; [done|]. apply (Hdeep l0). by left.
  - intros k. simpl. destruct (bc_m bc !! k) as [l|] eqn:Hk, (N !! k) as [l2|] eqn:HNk; try done.
    + edestruct (rebuilt_branch W g0 Hg0 Hgr Hemp N h2 keys Hdom Hall Hlink l) as (? & _ & ?); eauto.
      by exists k.
    + destruct (wf_node _ _ W _ _ Hk) as (n & ? & _).
      assert (is_Some (N !! k)) as [? ?]; [|congruence]. apply Hdom. eexists. apply view_lookup; eauto.
    + assert (is_Some (view h bc !! k)) as [? (? & ? & ? & _)%view_lookup]; [apply Hdom; eauto|]. congruence.
Qed.

(** ** The nodes of other chains *)

(** [h'] has the nodes of [h], unchanged. *)
Definition keeps (h h' : heap) : Prop := forall x n, h !! x = Some n -> h' !! x = Some n.

#[export] Instance keeps_po : PreOrder keeps.
Proof. split; [by intros h x n|]. intros h1 h2 h3 H1 H2 x n Hn. by apply H2, H1. Qed.

Lemma keeps_insert h0 h l n : keeps h0 h -> length h0 <= l -> keeps h0 (<[l := n]> h).
Proof.
  intros Hk Hl x n' Hx. apply lookup_lt_Some in Hx as Hlt.
  rewrite list_lookup_insert_ne by lia. by apply Hk.
Qed.

Lemma alloc_nodes_keeps h blocks :
  keeps h (alloc_nodes h blocks).1 /\
  forall k l, (alloc_nodes h blocks).2 !! k = Some l -> length h <= l.
Proof.
  unfold alloc_nodes. apply (fold_left_inv (fun _ (r : heap * gmap string loc) =>
    keeps h r.1 /\ forall k l, r.2 !! k = Some l -> length h <= l)); [by split|].
  intros _ b _ [h1 N] _ [Hk HN]. simpl in *. split.
  - intros x n Hx. apply lookup_app_l_Some. by apply Hk.
  - intros k l. rewrite lookup_insert. case_decide; [intros [= <-]|apply HN].
    destruct (decide (length h = 0)) as [->|]; [lia|].
    destruct (lookup_lt_is_Some_2 h (length h - 1)) as [nd Hnd]; [lia|].
    apply Hk, lookup_lt_Some in Hnd. lia.
Qed.

Lemma link_nodes_keeps h0 N keys :
  (forall k l, N !! k = Some l -> length h0 <= l) ->
  forall h g h' r, keeps h0 h -> link_nodes N keys h g = Ret (h', r) -> keeps h0 h'.
Proof.
  intros HN. induction keys as [|k keys IH]; intros h g h' r Hk Hrun; simpl in Hrun; [by simplify_eq|].
  destruct (N !! k) as [l|] eqn:Hl; simpl in Hrun; [|done].
  destruct (h !! l) as [nd|] eqn:Hnd; simpl in Hrun; [|done].
  case_decide; [by eapply IH|]. destruct (N !! PreviousHash (block nd)) as [p|] eqn:Hp; [|by simplify_eq].
  destruct (<[l := _]> h !! p) as [pn|]; simpl in Hrun; [|done].
  eapply IH; [|done]. apply keeps_insert; [|by eapply HN]. apply keeps_insert; [done|by eapply HN].
Qed.

(** Rebuilding a chain does not touch the nodes already in the store. *)
Lemma UnmarshallBlockchain_keeps rg h blocks h' r :
  UnmarshallBlockchain rg h blocks = Ret (h', r) -> keeps h h'.
Proof.
  unfold UnmarshallBlockchain. destruct (alloc_nodes_keeps h blocks) as [Hk HN].
  destruct (alloc_nodes h blocks) as [h1 N]. simpl in Hk, HN. intros Hrun. go_inv Hrun.
  destruct r0 as [h2 res]. assert (keeps h h2) as H2 by (by eapply link_nodes_keeps).
  destruct res as [[g|]|e]; simpl in Hrun; [|by simplify_eq..].
  go_inv Hrun. destruct r0. by simplify_eq.
Qed.

Lemma keeps_ext h h' : keeps h h' -> heap_ext h h'.
Proof. intros Hk x n Hn. eauto. Qed.

Lemma keeps_wf h h' bc : keeps h h' -> wf h bc -> wf h' bc.
Proof.
  intros Hk W. assert (forall x n, in_chain bc x -> h' !! x = Some n -> h !! x = Some n) as Hback.
  { intros x n Hx Hn. destruct (wf_lookup W x Hx) as (n' & Hn' & _). apply Hk in Hn' as Hn2. congruence. }
  assert (forall k l, bc_m bc !! k = Some l -> in_chain bc l) as Hin by (intros; by eexists).
  destruct W as [Hnode (g & Hg & Hgp & Hgm) Hpar Hpath Hch Hnd Hlast]. split.
  - intros k l Hl. destruct (Hnode k l Hl) as (n & ? & ?). eauto.
  - exists g. eauto.
  - intros k l n Hl Hn. apply (Hpar k l n Hl). eauto.
  - intros k l Hl. destruct (Hpath k l Hl) as [ls Hp]. exists ls.
    eapply heap_ext_path; [by apply keeps_ext|done].
  - intros k l n c Hl Hn. rewrite (Hch k l n c Hl) by eauto. split.
    + intros (kc & cn & ? & ? & ?). eauto 10.
    + intros (kc & cn & ? & ? & ?). exists kc, cn. eauto.
  - intros k l n Hl Hn. apply (Hnd k l n Hl). eauto.
  - done.
Qed.

(** ** Theorem *)

(** C13: A chain survives the trip to a peer: for every order in which the blocks
    are listed and relinked, encoding a well-formed chain, decoding it and
    rebuilding the nodes in the store of the peer gives a well-formed chain
    with the same hashes and the same branch under every hash. *)
Theorem Marshall_Unmarshall_roundtrip `{GobLaws (list Block)} rg rg' h bc h1 g0
    (W : wf h bc) (Hg : h !! genesis bc = Some g0)
    (Hroot : PreviousHash (block g0) = EmptyString)
    (Hempty : bc_m bc !! EmptyString = None) :
  exists data blocks h2 bc2,
    Marshall rg h bc = Ret (data, None) /\
    UnmarshallBlocks data = (blocks, None) /\
    UnmarshallBlockchain rg' h1 blocks = Ret (h2, Ok bc2) /\
    wf h2 bc2 /\ same_chain h bc h2 bc2.
Proof.
  destruct (Unmarshall_copy rg rg' h bc h1 g0) as (blocks & h2 & bc2 & Hget & Hun & W2 & Hsame); [done..|].
  exists (gob_Encode blocks).1, blocks, h2, bc2. split_and!; try done.
  - unfold Marshall, MarshallBlocks. rewrite Hget. simpl.
    rewrite <- (gob_Encode_ok blocks). by destruct (gob_Encode blocks).
  - apply gob_Decode_Encode.
Qed.
