(* ===== verification/RFSLedger.v ===== *)
(** The interface [RFSLedger] of [bclib/blockchain_rfs.go], through which the
    worker and the RPC server use the block chain: its operations as a class,
    what they promise as a second class, and the block chain as an instance of
    both. Clients are verified against the promises only. *)
From S2P Require Import Prelude GoLib Settings Operation Block Pow Blockchain ChainTheory.
From S2P Require Import Ledger LedgerTheory AddBlock QueryTheory.
Local Open Scope Z_scope.

(** The methods on a ledger [L]; they may change it ([getLastNodes] moves
    [lastNode]). The methods that range over maps take the orders. *)
Class RFSLedger (L : Type) : Type := {
  ld_GetLastHash : L -> go (L * string);
  ld_GetLastBlocks : L -> go (L * list Block);
  ld_ValidateOperations : RangeOrder -> RangeOrder -> L -> list Operation -> string ->
    go (L * (list Operation * bool));
  ld_ListFiles : RangeOrder -> L -> go (L * list string);
  ld_GetFile : L -> string -> go (L * (FileOps * bool));
  ld_NumRecs : L -> string -> go (L * (Z * bool));
  ld_CheckOpConfirmed : L -> Operation -> go (L * confirmation)
}.

(** ** Abstract ledger

    A client sees the configuration, the blocks of the branch under each hash,
    and the longest branch. What the queries answer is a function of these. *)

Definition file_of (cfg : Settings) (bs : list Block) (fname : string) : FileOps * bool :=
  match confirmed_part (ConfirmsPerFileAppend cfg) bs with
  | None => (zero_FileOps, false)
  | Some c => (mkFileOps fname (reverse (appends fname (chain_ops c))) (deletes fname (chain_ops c)),
               mentions fname (chain_ops c))
  end.

Definition numrecs_of (cfg : Settings) (bs : list Block) (fname : string) : Z * bool :=
  match confirmed_part (ConfirmsPerFileAppend cfg) bs with
  | None => (-1, false)
  | Some c => (Z.of_nat (length (appends fname (chain_ops c))), mentions fname (chain_ops c))
  end.

Definition listed (cfg : Settings) (bs : list Block) (fname : string) : Prop :=
  exists c op, confirmed_part (ConfirmsPerFileCreate cfg) bs = Some c /\
    op ∈ chain_ops c /\ Filename op = fname.

Definition status_of (cfg : Settings) (bs : list Block) (op : Operation) : confirmation :=
  check_blocks op (confirms_of cfg op) 0 bs false.

(** The scan of a block's operations reports another miner that it has seen. *)
Lemma check_ops_other op num i ops other :
  match check_ops op num i ops other with
  | inl r => otherMiner r = false -> other = false
  | inr o => o = false -> other = false /\ forall c, c ∈ ops -> ~ other_miner op c
  end.
Proof.
  revert other. induction ops as [|c ops IH]; intros other; simpl.
  { intros ->. split; [done|]. by intros c ?%elem_of_nil. }
  set (other' := if decide (Op op = Create /\ _) then true else other).
  assert (other' = false -> other = false /\ ~ other_miner op c) as Ho'.
  { unfold other', other_miner. by case_decide. }
  case_decide; [simpl; intros Hf; by apply Ho'|]. specialize (IH other').
  destruct (check_ops _ _ _ _ _) as [r|o]; intros Hf; [by apply Ho', IH|]. destruct (IH Hf) as [Hf' Hrest].
  destruct (Ho' Hf') as [-> Hc]. split; [done|]. intros c' [->|Hc']%elem_of_cons; [done|auto].
Qed.

Lemma check_blocks_position op num bs : forall i other,
  let r := check_blocks op num i bs other in
  confirmed r = true -> otherMiner r = false ->
  other = false /\ exists newer blk older, bs = newer ++ blk :: older /\
    OperationID op ∈ OperationID <$> Operations blk /\ (OperationID op ∉ OperationID <$> chain_ops newer) /\
    num < i + Z.of_nat (length newer) /\ (forall c, c ∈ chain_ops newer -> ~ other_miner op c).
Proof.
  induction bs as [|b bs IH]; intros i other; cbn [check_blocks]; cbv zeta; [done|].
  pose proof (check_ops_found op num i (Operations b) other) as Hb.
  pose proof (check_ops_other op num i (Operations b) other) as Ho.
  destruct (check_ops op num i (Operations b) other) as [r|o]; intros Hc Hother.
  - destruct Hb as (Hin & _ & Hconf & _). rewrite Hconf in Hc. apply bool_decide_eq_true in Hc.
    split; [by apply Ho|]. exists [], b, bs. split_and!; [done|done|set_solver|simpl; lia|by intros c ?%elem_of_nil].
  - destruct (IH (i + 1) o Hc Hother) as (-> & newer & blk & older & -> & Hin & Hnew & Hlt & Hno).
    destruct (Ho eq_refl) as [-> Hb']. split; [done|]. exists (b :: newer), blk, older.
    change (chain_ops (b :: newer)) with (Operations b ++ chain_ops newer). rewrite fmap_app. destruct Hb as [Hb _].
    split_and!; [done|done|set_solver|simpl; lia|]. intros c [?|?]%elem_of_app; auto.
Qed.

(** Where a confirmed operation lies: enough newer blocks follow it, and if it
    creates a file, no operation of another miner on the file is in them. *)
Definition confirmed_at (cfg : Settings) (bs : list Block) (op : Operation) : Prop :=
  exists newer blk older, bs = newer ++ blk :: older /\
    OperationID op ∈ OperationID <$> Operations blk /\ (OperationID op ∉ OperationID <$> chain_ops newer) /\
    confirms_of cfg op < Z.of_nat (length newer) /\
    (Op op = Create -> forall c, c ∈ chain_ops newer -> Filename c = Filename op -> op_MinerID c = op_MinerID op).

Lemma status_confirmed_at cfg bs op :
  confirmed (status_of cfg bs op) = true -> otherMiner (status_of cfg bs op) = false -> confirmed_at cfg bs op.
Proof.
  intros Hc Ho. destruct (check_blocks_position _ _ _ _ _ Hc Ho) as (_ & newer & blk & older & ? & ? & ? & ? & Hno).
  exists newer, blk, older. split_and!; [done..|lia|]. intros Hcr c Hin Hf.
  destruct (decide (op_MinerID c = op_MinerID op)) as [|Hm]; [done|]. destruct (Hno c Hin). by split_and!.
Qed.

(** A confirmed append is a record of its file. *)
Lemma file_of_confirmed cfg bs op :
  settings_ok cfg -> Op op = Append ->
  (forall c, c ∈ chain_ops bs -> OperationID c = OperationID op -> c = op) ->
  confirmed (status_of cfg bs op) = true ->
  exists f, file_of cfg bs (Filename op) = (f, true) /\ op ∈ file_Operations f.
Proof.
  intros Hcfg Happ Hid Hconf. unfold status_of, confirms_of in Hconf. rewrite decide_True in Hconf by done.
  destruct (confirmed_in_part (ConfirmsPerFileAppend cfg) bs op) as (c & Hc & Hop); [|done|done|].
  { destruct Hcfg. unfold is_uint8 in *. lia. }
  unfold file_of. rewrite Hc, (mentions_of op) by done. eexists. split; [done|]. simpl.
  rewrite elem_of_reverse. by apply elem_of_appends.
Qed.

(** Records stay where they are while the branch grows. *)
Lemma file_of_grows cfg bs bs' fname f :
  bs `suffix_of` bs' -> file_of cfg bs fname = (f, true) ->
  exists f', file_of cfg bs' fname = (f', true) /\ file_Operations f `prefix_of` file_Operations f'.
Proof.
  intros Hsuf. unfold file_of. destruct (confirmed_part _ bs) as [c|] eqn:Hc; [|done]. intros [= <- Hm].
  destruct (confirmed_part_suffix _ _ _ _ Hsuf Hc) as (c' & -> & [new ->]). rewrite chain_ops_app.
  exists (mkFileOps fname (reverse (appends fname (chain_ops new ++ chain_ops c)))
    (deletes fname (chain_ops new ++ chain_ops c))). split.
  - f_equal. unfold mentions in *. rewrite bool_decide_eq_true in Hm |- *. apply Exists_app. by right.
  - simpl. rewrite appends_app, reverse_app. by eexists.
Qed.

(** [l_ok] is the representation invariant; [l_branch] gives the blocks from a
    hash back to the genesis block. *)
Class LedgerView (L : Type) : Type := {
  l_ok : L -> Prop;
  l_config : L -> Settings;
  l_longest : L -> list Block;
  l_branch : L -> string -> option (list Block)
}.

(** Two states that a client cannot tell apart. *)
Record same_view {L} `{LedgerView L} (s s' : L) : Prop := {
  sv_ok : l_ok s -> l_ok s';
  sv_config : l_config s' = l_config s;
  sv_longest : l_longest s' = l_longest s;
  sv_branch : forall k, l_branch s' k = l_branch s k
}.

#[export] Instance same_view_po {L} `{LedgerView L} : PreOrder same_view.
Proof.
  split; [by split|]. intros s1 s2 s3 [? H1 H2 H3] [? H1' H2' H3']. split; [auto|congruence..|].
  intros k. by rewrite H3', H3.
Qed.

(** What a ledger promises: in a valid state every method returns, changes
    nothing a client can see, and answers as the abstract ledger does. *)
Class LedgerLaws (L : Type) `{RFSLedger L, LedgerView L} : Prop := {
  law_config s : l_ok s -> settings_ok (l_config s);
  law_branch s k bs : l_ok s -> l_branch s k = Some bs ->
    exists b bs', bs = b :: bs' /\ Hash b = k;
  law_GetLastHash s : l_ok s -> exists s' b bs,
    ld_GetLastHash s = Ret (s', Hash b) /\ same_view s s' /\
    l_longest s = b :: bs /\ l_branch s (Hash b) = Some (b :: bs);
  law_GetLastBlocks s : l_ok s -> exists s' b bs,
    ld_GetLastBlocks s = Ret (s', b :: bs) /\ same_view s s' /\
    head (l_longest s) = Some b /\
    forall x, x ∈ b :: bs -> exists xs, l_branch s (Hash x) = Some (x :: xs) /\
      length (x :: xs) = length (l_longest s);
  law_ValidateOperations rg1 rg2 s ops prev : l_ok s -> exists s' valid ok,
    ld_ValidateOperations rg1 rg2 s ops prev = Ret (s', (valid, ok)) /\ same_view s s' /\
    match l_branch s prev with
    | None => valid = [] /\ (ok = true <-> ops = [])
    | Some bs =>
        (ok = true <-> admissible (l_config s) bs ops) /\ (ok = true -> valid ≡ₚ ops) /\
        (forall o, o ∈ valid -> o ∈ ops) /\
        (creates_apart ops -> admissible (l_config s) bs valid)
    end;
  law_ListFiles rg s : l_ok s -> exists s' res,
    ld_ListFiles rg s = Ret (s', res) /\ same_view s s' /\
    NoDup res /\ forall f, f ∈ res <-> listed (l_config s) (l_longest s) f;
  law_GetFile s fname : l_ok s -> exists s',
    ld_GetFile s fname = Ret (s', file_of (l_config s) (l_longest s) fname) /\ same_view s s';
  law_NumRecs s fname : l_ok s -> exists s',
    ld_NumRecs s fname = Ret (s', numrecs_of (l_config s) (l_longest s) fname) /\ same_view s s';
  law_CheckOpConfirmed s op : l_ok s -> exists s',
    ld_CheckOpConfirmed s op = Ret (s', status_of (l_config s) (l_longest s) op) /\ same_view s s'
}.

(** ** The block chain as a ledger *)

#[export] Instance bc_ledger : RFSLedger (heap * Blockchain) := {
  ld_GetLastHash := fun s => '(bc, r) ← GetLastHash s.1 s.2; Ret ((s.1, bc), r);
  ld_GetLastBlocks := fun s => '(bc, r) ← GetLastBlocks s.1 s.2; Ret ((s.1, bc), r);
  ld_ValidateOperations := fun rg1 rg2 s ops prev =>
    r ← ValidateOperations rg1 rg2 s.1 s.2 ops prev; Ret (s, r);
  ld_ListFiles := fun rg s => '(bc, r) ← ListFiles rg s.1 s.2; Ret ((s.1, bc), r);
  ld_GetFile := fun s f => '(bc, r) ← GetFile s.1 s.2 f; Ret ((s.1, bc), r);
  ld_NumRecs := fun s f => '(bc, r) ← NumRecs s.1 s.2 f; Ret ((s.1, bc), r);
  ld_CheckOpConfirmed := fun s op => '(bc, r) ← CheckOpConfirmed s.1 s.2 op; Ret ((s.1, bc), r)
}.

#[export] Instance bc_view : LedgerView (heap * Blockchain) := {
  l_ok := fun s => wf s.1 s.2 /\ settings_ok (bc_config s.2);
  l_config := fun s => bc_config s.2;
  l_longest := fun s => longest s.1 s.2;
  l_branch := fun s k => branch s.1 <$> bc_m s.2 !! k
}.

Lemma longest_set_lastNode h bc l : longest h (set_lastNode bc l) = longest h bc.
Proof. unfold longest, getLastNodes, getLastNodes_fuel. simpl. by destruct (dfs_loop _ _ _). Qed.

(** Moving [lastNode] within the chain is invisible. *)
Lemma same_view_lastNode h bc l :
  in_chain bc l -> same_view (h, bc) (h, set_lastNode bc l).
Proof.
  intros Hl. split; simpl; [|done|apply longest_set_lastNode|done].
  intros [W Hc]. split; [by apply wf_set_lastNode|done].
Qed.
#[export] Hint Resolve same_view_lastNode : miner.

Lemma branch_head h bc l :
  wf h bc -> in_chain bc l -> exists n bs, h !! l = Some n /\ branch h l = block n :: bs /\
    bc_m bc !! Hash (block n) = Some l.
Proof.
  intros W Hl. destruct (wf_lookup W l Hl) as (n & Hn & Hk). exists n, (tail (branch h l)).
  split; [done|]. split; [|done]. rewrite (branch_unfold _ _ _ n (wf_ancestors W l Hl) Hn). done.
Qed.

Lemma length_branch_depth h bc l : wf h bc -> in_chain bc l -> length (branch h l) = S (depth h l).
Proof.
  intros W Hl. pose proof (wf_ancestors W l Hl) as Hp. rewrite (length_branch _ _ _ Hp).
  unfold depth. by destruct Hp.
Qed.

Lemma mapM_blocks h bc ls :
  wf h bc -> Forall (in_chain bc) ls -> exists bs,
    mapM (fun l => nd ← deref (h !! l); Ret (block nd)) ls = Ret bs /\
    Forall2 (fun l b => exists n, h !! l = Some n /\ b = block n) ls bs.
Proof.
  intros W. induction 1 as [|l ls Hl _ (bs & Hrun & IH)]; [by exists []|].
  destruct (wf_lookup W l Hl) as (n & Hn & _). exists (block n :: bs). split; [|by constructor; eauto].
  cbn [mapM]. rewrite Hn. simpl. by rewrite Hrun.
Qed.

Lemma bc_GetLastBlocks h bc :
  l_ok (h, bc) -> exists s' b bs,
    ld_GetLastBlocks (h, bc) = Ret (s', b :: bs) /\ same_view (h, bc) s' /\
    head (longest h bc) = Some b /\
    forall x, x ∈ b :: bs -> exists xs, l_branch (h, bc) (Hash x) = Some (x :: xs) /\
      length (x :: xs) = length (longest h bc).
Proof.
  intros [W Hc]. simpl in *. destruct (getLastNodes_wf W) as (l0 & ls & Hrun & Hd & _).
  assert (longest h bc = branch h l0) as Hlong by (unfold longest; by rewrite Hrun).
  assert (Forall (in_chain bc) (l0 :: ls)) as Hall by (apply Forall_forall; intros l Hl; by apply Hd in Hl as []).
  destruct (mapM_blocks h bc _ W Hall) as (bs & Hbs & HF).
  destruct bs as [|b bs]; [by inversion HF|]. assert (is_deepest (h:=h) (bc:=bc) l0) as Hl0 by (apply Hd; by left).
  exists (h, set_lastNode bc l0), b, bs. unfold GetLastBlocks. rewrite Hrun, go_bind_of_Ret. cbv beta iota.
  rewrite Hbs. simpl. split_and!; [done|apply same_view_lastNode, Hl0|..].
  - destruct (branch_head h bc l0 W (proj1 Hl0)) as (n & bs' & Hn & Hb & _).
    apply Forall2_cons in HF as [(n' & ? & ->) _]. simplify_eq. by rewrite Hlong, Hb.
  - intros x (i & Hi)%list_elem_of_lookup. destruct (Forall2_lookup_r _ _ _ _ _ HF Hi) as (l & Hl & n & Hn & ->).
    apply list_elem_of_lookup_2, Hd in Hl as [Hl Hmax].
    destruct (branch_head h bc l W Hl) as (n' & xs & ? & Hb & Hk). simplify_eq.
    exists xs. rewrite Hk. simpl. rewrite Hb. split; [done|].
    pose proof (length_branch_depth h bc l W Hl) as Hlen. rewrite Hb in Hlen. simpl in Hlen.
    rewrite Hlong, (length_branch_depth h bc l0 W) by apply Hl0.
    pose proof (Hmax l0 (proj1 Hl0)). pose proof (proj2 Hl0 l Hl). lia.
Qed.

#[export] Instance bc_laws : LedgerLaws (heap * Blockchain).
Proof.
  split; simpl.
  - by intros s [].
  - intros [h bc] k bs [W _] (l & Hk & ->)%fmap_Some. simpl in *.
    destruct (branch_head h bc l W) as (n & bs & Hn & Hb & _); [by exists k|].
    destruct (wf_node _ _ W _ _ Hk) as (n' & Hn' & Hh). simplify_eq. eauto.
  - intros [h bc] [W Hc]. simpl in *. destruct (longest_wf W) as (l0 & ls & Hrun & [Hl0 _] & Hlong).
    destruct (branch_head h bc l0 W Hl0) as (n & bs & Hn & Hb & Hk).
    exists (h, set_lastNode bc l0), (block n), bs. unfold GetLastHash. rewrite Hrun. simpl.
    rewrite Hn. simpl. split_and!; [done|auto with miner|congruence|]. by rewrite Hk, <- Hb.
  - intros [h bc]. apply bc_GetLastBlocks.
  - intros rg1 rg2 [h bc] ops prev [W Hc]. simpl. simpl in W, Hc. destruct (bc_m bc !! prev) as [l|] eqn:Hp; simpl.
    + destruct (ValidateOperations_iff h bc rg1 rg2 ops prev l W (cost_ok _ Hc) Hp)
        as (valid & ok & -> & H1 & H2 & H3 & _ & _ & _ & H4). simpl.
      exists (h, bc), valid, ok. split_and!; done.
    + rewrite ValidateOperations_unknown by done. simpl.
      exists (h, bc), [], (bool_decide (ops = [])). by rewrite bool_decide_eq_true.
  - intros rg [h bc] [W Hc]. simpl. simpl in W, Hc. destruct (ListFiles_eq W rg) as (l0 & res & Hl0 & -> & Hnd & Hin). simpl.
    exists (h, set_lastNode bc l0), res. split_and!; [done|auto with miner|done|done].
  - intros [h bc] f [W Hc]. simpl. simpl in W, Hc. destruct (GetFile_eq W f) as (l0 & Hl0 & ->). simpl.
    exists (h, set_lastNode bc l0). split; [done|auto with miner].
  - intros [h bc] f [W Hc]. simpl. simpl in W, Hc. destruct (NumRecs_eq W f) as (l0 & Hl0 & ->). simpl.
    exists (h, set_lastNode bc l0). split; [done|auto with miner].
  - intros [h bc] op [W Hc]. simpl. simpl in W, Hc. destruct (CheckOpConfirmed_eq h bc op W) as (l0 & Hl0 & ->). simpl.
    exists (h, set_lastNode bc l0). split; [done|auto with miner].
Qed.
