(* ===== verification/Worker.v ===== *)
(** Package [mining]: the worker that mines one block, with or without
    operations, on top of the longest chain. Verified against the ledger
    interface; the last theorems put it on top of the block chain. *)
From S2P Require Import Prelude GoLib Settings Operation Block Pow Blockchain ChainTheory.
From S2P Require Import Ledger LedgerTheory AddBlock QueryTheory RFSLedger.
Local Open Scope Z_scope.

(** [w_stopped]: the channel [stop] is closed. *)
Record Worker : Type := mkWorker {
  w_MinerID : string;
  w_PowPerNoOpBlock : Z;
  w_PowPerOpBlock : Z;
  w_stopped : bool
}.

Definition NewWorker (id : string) (powPerNoOpBlock powPerOpBlock : Z) : Worker :=
  mkWorker id powPerNoOpBlock powPerOpBlock false.

(** Closing a closed channel panics. *)
Definition Stop (w : Worker) : go Worker :=
  if w_stopped w then Panic
  else Ret (mkWorker (w_MinerID w) (w_PowPerNoOpBlock w) (w_PowPerOpBlock w) true).

(** The case that the [select] of [StartMining] takes. *)
Inductive mining_case : Type :=
| CaseStop
| CaseDoneNoOp
| CaseBatch (ops : list Operation).

(** What [StartMining] leaves behind: the ledger, the hash its no-op miner
    works on, whether it told that miner to stop, and the block it sent. *)
Record mining (L : Type) : Type := mkMining {
  mn_ledger : L;
  mn_noOpPreviousHash : string;
  mn_stopNoOp : bool;
  mn_minedBlock : option Block
}.
Arguments mkMining {L}.
Arguments mn_ledger {L}.
Arguments mn_noOpPreviousHash {L}.
Arguments mn_stopNoOp {L}.
Arguments mn_minedBlock {L}.

Section worker.
Context `{Gob (list Operation)} {L : Type} `{RFSLedger L}.

(** The block that the no-op miner sends: also when it is stopped, with nonce
    -1. [stop]: see [Run]. *)
Definition mineNoOp (fuel : nat) (w : Worker) (stop : Z -> bool) (previousHash : string) (now : Z)
    : go Block :=
  NewBlock fuel [] previousHash (w_MinerID w) (w_PowPerNoOpBlock w) stop now.

(** Other threads may change the ledger before any of the worker's calls:
    [env n] is what happens before its [n]-th call. [rgs n] are the orders used
    inside the [n]-th validation. *)
Context (env : nat -> L -> L) (rgs : nat -> RangeOrder * RangeOrder).

(** The loop over the last blocks. *)
Fixpoint best_loop (filteredOperations : list Operation) (lastBlocks : list Block) (n : nat) (s : L)
    (bestOps : list Operation) (prevHash : string) : go (L * (list Operation * string)) :=
  match lastBlocks with
  | [] => Ret (s, (bestOps, prevHash))
  | blk :: lastBlocks =>
      '(s, (validatedOperations, _)) ←
        ld_ValidateOperations (rgs n).1 (rgs n).2 (env n s) filteredOperations prevHash;
      if decide (length bestOps <= length validatedOperations)%nat
      then best_loop filteredOperations lastBlocks (S n) s validatedOperations (Hash blk)
      else best_loop filteredOperations lastBlocks (S n) s bestOps prevHash
  end.

(** [srt]: the sort of [FilterInvalidOperations]. *)
Definition StartMining (fuel : nat) (srt : SortSlice) (w : Worker) (s : L) (c : mining_case) (now : Z)
    : go (mining L) :=
  '(s, noOpPreviousHash) ← ld_GetLastHash (env 0 s);
  match c with
  | CaseStop => Ret (mkMining s noOpPreviousHash true None)
  | CaseDoneNoOp => Ret (mkMining s noOpPreviousHash false None)
  | CaseBatch ops =>
      let filteredOperations := (FilterInvalidOperations srt ops).2 in
      '(s, prevHash) ← ld_GetLastHash (env 1 s);
      '(s, lastBlocks) ← ld_GetLastBlocks (env 2 s);
      '(s, (bestOps, prevHash)) ← best_loop filteredOperations lastBlocks 3 s [] prevHash;
      if decide (0 < length bestOps)%nat then
        blk ← NewBlock fuel bestOps prevHash (w_MinerID w) (w_PowPerOpBlock w) (fun _ => false) now;
        Ret (mkMining s noOpPreviousHash true (Some blk))
      else Ret (mkMining s noOpPreviousHash false None)
  end.

(** ** On a quiet ledger with one longest chain *)

Context `{!LedgerView L, !LedgerLaws L}.

(** No call of another thread is visible. *)
Definition quiet : Prop := forall n s, same_view s (env n s).

Lemma filtered_apart srt ops : creates_apart (FilterInvalidOperations srt ops).2 /\
  forall o, o ∈ (FilterInvalidOperations srt ops).2 -> o ∈ ops.
Proof.
  pose proof (FilterInvalidOperations_props srt ops) as Hf.
  destruct (FilterInvalidOperations srt ops) as [sorted valid]. destruct Hf as (Hp & _ & Hsub & Hnd & _).
  split.
  - intros o o' Ho Ho' Hc Hc' Hfn. eapply (NoDup_fmap_inj_on op_key); [done..|].
    unfold op_key. rewrite !decide_True by done. by rewrite Hfn.
  - intros o Ho. rewrite <- Hp. by eapply elem_of_sublist.
Qed.

(** The loop, when all last blocks are the block [hash] it starts from. *)
Lemma best_loop_single ops lastBlocks : quiet -> creates_apart ops ->
  forall n s best hash bs,
  l_ok s -> l_branch s hash = Some bs -> (forall b, b ∈ lastBlocks -> Hash b = hash) ->
  admissible (l_config s) bs best -> (forall o, o ∈ best -> o ∈ ops) ->
  exists s' best', best_loop ops lastBlocks n s best hash = Ret (s', (best', hash)) /\
    same_view s s' /\ admissible (l_config s) bs best' /\ (forall o, o ∈ best' -> o ∈ ops).
Proof.
  intros Hq Hap. induction lastBlocks as [|b rest IH]; intros n s best hash bs Hok Hbr Hh Hadm Hsub.
  { by exists s, best. }
  simpl. pose proof (Hq n s) as Hv. pose proof (sv_ok _ _ Hv Hok) as Hok1.
  destruct (law_ValidateOperations (rgs n).1 (rgs n).2 (env n s) ops hash Hok1)
    as (s1 & valid & ok & -> & Hv1 & Hres).
  rewrite (sv_branch _ _ Hv), Hbr, (sv_config _ _ Hv) in Hres. destruct Hres as (_ & _ & Hin & Hadm').
  assert (same_view s s1) as Hs1 by (by transitivity (env n s)).
  assert (Hash b = hash) as -> by (apply Hh; by left). simpl.
  assert (forall best0, admissible (l_config s) bs best0 -> (forall o, o ∈ best0 -> o ∈ ops) ->
    exists s' best', best_loop ops rest (S n) s1 best0 hash = Ret (s', (best', hash)) /\
      same_view s s' /\ admissible (l_config s) bs best' /\ (forall o, o ∈ best' -> o ∈ ops)) as Hrec.
  { intros best0 H1 H2. destruct (IH (S n) s1 best0 hash bs) as (s' & best' & -> & Hv2 & Ha & Hi).
    - by apply (sv_ok _ _ Hs1).
    - by rewrite (sv_branch _ _ Hs1).
    - intros b' Hb'. apply Hh. by right.
    - by rewrite (sv_config _ _ Hs1).
    - done.
    - rewrite (sv_config _ _ Hs1) in Ha. exists s', best'. split_and!; [done|by transitivity s1|done|done]. }
  case_decide; apply Hrec; auto.
Qed.

(** One longest chain: no other branch is as long. *)
Definition unique_longest (s : L) : Prop :=
  forall k bs, l_branch s k = Some bs -> length bs = length (l_longest s) -> bs = l_longest s.

(** A batch is mined on the last block of the longest chain, with operations of
    the batch that are admissible there. *)
Lemma StartMining_batch fuel srt w s ops now m blk :
  quiet -> unique_longest s -> l_ok s ->
  StartMining fuel srt w s (CaseBatch ops) now = Ret m -> mn_minedBlock m = Some blk ->
  exists best tip rest, l_longest s = tip :: rest /\ l_branch s (Hash tip) = Some (tip :: rest) /\
    NewBlock fuel best (Hash tip) (w_MinerID w) (w_PowPerOpBlock w) (fun _ => false) now = Ret blk /\
    best <> [] /\ (forall o, o ∈ best -> o ∈ ops) /\ admissible (l_config s) (tip :: rest) best /\
    same_view s (mn_ledger m) /\ mn_stopNoOp m = true.
Proof.
  intros Hq Hst Hok Hrun Hm. destruct (filtered_apart srt ops) as [Hap Hfil].
  unfold StartMining in Hrun. pose proof (Hq 0%nat s) as V0.
  destruct (law_GetLastHash _ (sv_ok _ _ V0 Hok)) as (s1 & b1 & bs1 & E1 & V1 & _).
  rewrite E1 in Hrun. simpl in Hrun.
  assert (same_view s (env 1 s1)) as V2 by (transitivity (env 0 s); [done|]; by transitivity s1).
  destruct (law_GetLastHash _ (sv_ok _ _ V2 Hok)) as (s2 & tip & rest & E2 & V3 & Hlong & Hbr).
  rewrite E2 in Hrun. simpl in Hrun.
  assert (same_view s (env 2 s2)) as V4 by (transitivity (env 1 s1); [done|]; by transitivity s2).
  destruct (law_GetLastBlocks _ (sv_ok _ _ V4 Hok)) as (s3 & b3 & bs3 & E3 & V5 & _ & Htips).
  rewrite E3 in Hrun. simpl in Hrun.
  rewrite (sv_longest _ _ V2) in Hlong. rewrite (sv_branch _ _ V2) in Hbr.
  rewrite (sv_longest _ _ V4) in Htips. assert (same_view s s3) as V6 by (by transitivity (env 2 s2)).
  destruct (best_loop_single (FilterInvalidOperations srt ops).2 (b3 :: bs3) Hq Hap 3 s3 [] (Hash tip) (tip :: rest))
    as (s4 & best & E4 & V7 & Hadm & Hin).
  - by apply (sv_ok _ _ V6).
  - by rewrite (sv_branch _ _ V6).
  - intros b (xs & Hx & Hlen)%Htips. rewrite (sv_branch _ _ V4) in Hx.
    pose proof (Hst _ _ Hx Hlen) as Heq. rewrite Hlong in Heq. by injection Heq as -> _.
  - apply admissible_nil.
  - by intros o Ho%elem_of_nil.
  - simpl in E4. rewrite E4 in Hrun. simpl in Hrun. case_decide as Hlen; [|by simplify_eq].
    go_inv Hrun. simplify_eq. simpl in Hm. simplify_eq. rewrite (sv_config _ _ V6) in Hadm.
    exists best, tip, rest. split_and!; try done; [intros ->; simpl in Hlen; lia|auto|by transitivity s3].
Qed.
End worker.

(** ** On the block chain *)

Section chain.
Context `{Gob (list Operation)}.

(** A valid block on a deepest node is accepted and its branch becomes the only
    longest one. *)
Lemma AddBlock_tip rg1 rg2 h bc (blk : Block) l :
  wf h bc -> settings_ok (bc_config bc) -> @is_deepest h bc l ->
  bc_m bc !! PreviousHash blk = Some l -> bc_m bc !! Hash blk = None ->
  block_valid (bc_config bc) (branch h l) blk ->
  exists h' bc', AddBlock rg1 rg2 h bc blk = Ret (h', bc', None) /\ wf h' bc' /\
    longest h' bc' = blk :: branch h l.
Proof.
  intros W Hc [Hl Hmax] Hp Hnew Hv.
  destruct (AddBlock_outcome h bc rg1 rg2 blk W (cost_ok _ Hc)) as (h' & bc' & err & Hadd & Hout).
  destruct err as [e|]; [destruct Hout as (_ & _ & []); eauto|].
  destruct Hout as (p & pn & _ & Hp' & Hpn & _ & -> & ->). rewrite Hp in Hp'. injection Hp' as <-.
  pose proof (linked_wf W blk l pn Hp Hpn Hnew) as W'.
  exists (linked_heap h blk l pn), (linked_chain h bc blk). split_and!; [done..|].
  destruct (longest_wf W') as (l0 & ls & _ & [Hl0 Hmax0] & ->).
  destruct (proj1 (linked_in_chain blk Hnew l0) Hl0) as [->|Hold].
  { exact (linked_branch_new W blk l pn Hp Hpn). }
  exfalso. specialize (Hmax0 (length h)). specialize (Hmax l0 Hold).
  pose proof (length_branch_depth _ _ _ W' Hl0) as D0.
  assert (in_chain (linked_chain h bc blk) (length h)) as Hin by (apply linked_in_chain; auto).
  pose proof (length_branch_depth _ _ _ W' Hin) as D1.
  rewrite (linked_branch_old W blk l pn Hpn l0 Hold), (length_branch_depth h bc) in D0 by done.
  rewrite (linked_branch_new W blk l pn Hp Hpn) in D1. simpl in D1.
  rewrite (length_branch_depth h bc) in D1 by done. specialize (Hmax0 Hin). lia.
Qed.

(** The deepest node whose branch is the longest one. *)
Lemma longest_node h bc tip rest :
  wf h bc -> longest h bc = tip :: rest ->
  exists l, @is_deepest h bc l /\ bc_m bc !! Hash tip = Some l /\ branch h l = tip :: rest.
Proof.
  intros W Hlong. destruct (longest_wf W) as (l & ls & _ & Hd & Hb). exists l. rewrite <- Hb, Hlong.
  split_and!; [done| |done]. destruct (branch_head h bc l W (proj1 Hd)) as (n & bs & _ & Hb' & Hk).
  rewrite <- Hb, Hlong in Hb'. by injection Hb' as -> _.
Qed.

(** A block mined to the end has its proof of work. *)
Lemma NewBlock_valid fuel ops prev mID d stop now blk :
  NewBlock fuel ops prev mID d stop now = Ret blk -> 0 <= Nonce blk < maxNonce ->
  PreviousHash blk = prev /\ Operations blk = ops /\ Validate (NewProofOfWork blk d) = true.
Proof.
  intros Hb Hn. destruct (NewBlock_outcome _ _ _ _ _ _ _ _ Hb) as (Hh & _ & Hc).
  rewrite Hh. split_and!; [done..|]. destruct Hc as [(? & _)|[(_ & _ & ? & _)|?]]; [lia|done|lia].
Qed.

(** C11: What the worker mines, the chain takes: with one longest chain, and no
    other thread at work, the block that [StartMining] mines for a batch holds
    operations of the batch, and [AddBlock] accepts it and makes it the last
    block of the longest chain, unless the nonces ran out or its hash is
    taken. *)
Theorem mined_batch_accepted rgs fuel srt w h bc ops now m blk rg1 rg2
    (W : wf h bc) (Hcfg : settings_ok (bc_config bc))
    (Hone : unique_longest (h, bc))
    (Hpow : w_PowPerOpBlock w = PowPerOpBlock (bc_config bc))
    (Hrun : StartMining (fun _ s => s) rgs fuel srt w (h, bc) (CaseBatch ops) now = Ret m)
    (Hm : mn_minedBlock m = Some blk)
    (Hnonce : Nonce blk <> maxNonce) (Hnew : bc_m bc !! Hash blk = None) :
  Operations blk <> [] /\ (forall o, o ∈ Operations blk -> o ∈ ops) /\
  exists h' bc', AddBlock rg1 rg2 h bc blk = Ret (h', bc', None) /\
    longest h' bc' = blk :: longest h bc.
Proof.
  destruct (StartMining_batch (fun _ s => s) rgs fuel srt w (h, bc) ops now m blk)
    as (best & tip & rest & Hlong & _ & Hb & Hne & Hin & Hadm & _); [by intros n s|done..|].
  simpl in Hlong, Hadm. destruct (longest_node h bc tip rest W Hlong) as (l & Hd & Hk & Hbr).
  destruct (NewBlock_outcome _ _ _ _ _ _ _ _ Hb) as (Hh & _ & Hc).
  destruct (NewBlock_valid _ _ _ _ _ _ _ _ Hb) as (Hp & Hops & Hv).
  { destruct Hc as [(_ & _ & ? & _ & ?)|[(? & _)|?]]; done. }
  rewrite Hops. split_and!; [done..|].
  destruct (AddBlock_tip rg1 rg2 h bc blk l W Hcfg Hd) as (h' & bc' & Hadd & _ & Hl); [by rewrite Hp|done| |].
  - split; [|by rewrite Hops, Hbr]. unfold difficulty_of. rewrite Hops, <- Hpow.
    by destruct best.
  - exists h', bc'. by rewrite Hl, Hlong, Hbr.
Qed.

(** C28: The no-op miner keeps the chain growing: the block it mines on the last
    hash is accepted, and makes the longest chain one block longer. *)
Theorem mined_noop_accepted fuel w h bc stop now bc1 prev blk rg1 rg2
    (W : wf h bc) (Hcfg : settings_ok (bc_config bc))
    (Hpow : w_PowPerNoOpBlock w = PowPerNoOpBlock (bc_config bc))
    (Hprev : GetLastHash h bc = Ret (bc1, prev))
    (Hmine : mineNoOp fuel w stop prev now = Ret blk)
    (Hnonce : 0 <= Nonce blk < maxNonce) (Hnew : bc_m bc !! Hash blk = None) :
  exists h' bc', AddBlock rg1 rg2 h bc blk = Ret (h', bc', None) /\
    longest h' bc' = blk :: longest h bc.
Proof.
  assert (l_ok (h, bc)) as Hok by done.
  destruct (law_GetLastHash (h, bc) Hok) as (s' & tip & rest & Hrun & _ & Hlong & _).
  simpl in Hrun, Hlong. rewrite Hprev in Hrun. simpl in Hrun. simplify_eq.
  destruct (longest_node h bc tip rest W Hlong) as (l & Hd & Hk & Hbr).
  destruct (NewBlock_valid _ _ _ _ _ _ _ _ Hmine Hnonce) as (Hp & Hops & Hv).
  destruct (AddBlock_tip rg1 rg2 h bc blk l W Hcfg Hd) as (h' & bc' & Hadd & _ & Hl); [by rewrite Hp|done| |].
  - split; [|rewrite Hops; apply admissible_nil]. unfold difficulty_of. rewrite Hops. simpl. by rewrite <- Hpow.
  - exists h', bc'. by rewrite Hl, Hlong, Hbr.
Qed.

(** ** On a fork *)

(** Admissibility does not depend on the order of a batch. *)
Lemma admissible_perm cfg bs ops ops' : ops ≡ₚ ops' -> admissible cfg bs ops -> admissible cfg bs ops'.
Proof.
  intros Hp [H1 H2 H3 H4]. split.
  - by rewrite <- Hp.
  - intros op c. rewrite <- Hp. apply H2.
  - intros op c. rewrite <- Hp. apply H3.
  - intros op. rewrite <- Hp. apply H4.
Qed.

(** The last blocks do not depend on the node that the chain remembers. *)
Lemma last_blocks_eq h bc bc1 b bs :
  wf h bc -> GetLastBlocks h bc = Ret (bc1, b :: bs) ->
  exists l, in_chain bc l /\ forall bc', genesis bc' = genesis bc ->
    GetLastHash h bc' = Ret (set_lastNode bc' l, Hash b) /\
    GetLastBlocks h bc' = Ret (set_lastNode bc' l, b :: bs).
Proof.
  intros W Hlast. destruct (getLastNodes_wf W) as (l & ls & Hrun & Hd & _).
  exists l. split; [apply (Hd l); by left|]. intros bc' Hg.
  assert (getLastNodes h bc' = Ret (set_lastNode bc' l, l :: ls)) as Hrun'.
  { unfold getLastNodes, getLastNodes_fuel in *. go_inv Hrun. rewrite Hg, Hrun0. simpl.
    injection Hrun as Hx Hy. by rewrite Hx, Hy. }
  unfold GetLastHash, GetLastBlocks in *. rewrite Hrun in Hlast. rewrite Hrun'. simpl in *.
  destruct (h !! l) as [nd|]; [|done]. simpl in *.
  destruct (mapM _ ls) as [bs'| | |]; simpl in *; by simplify_eq.
Qed.

(** On a fork of two branches the loop validates twice on the first and ends on
    the second, if the first takes the whole batch. *)
Lemma best_loop_fork rgs h bc ops n b1 b2 l1 :
  wf h bc -> settings_ok (bc_config bc) -> bc_m bc !! Hash b1 = Some l1 ->
  admissible (bc_config bc) (branch h l1) ops ->
  exists best, best_loop (fun _ s => s) rgs ops [b1; b2] n (h, bc) [] (Hash b1)
    = Ret ((h, bc), (best, Hash b2)) /\ best ≡ₚ ops.
Proof.
  intros W Hc Hl Hadm. assert (forall k, exists valid,
    ld_ValidateOperations (rgs k).1 (rgs k).2 (h, bc) ops (Hash b1) = Ret ((h, bc), (valid, true)) /\
    valid ≡ₚ ops) as Hv.
  { intros k. destruct (law_ValidateOperations (rgs k).1 (rgs k).2 (h, bc) ops (Hash b1))
      as (s' & valid & ok & Hrun & _ & Hres); [done|].
    simpl in Hres. rewrite Hl in Hres. simpl in Hres. destruct Hres as (Hok & Hperm & _).
    assert (ok = true) as -> by (by apply Hok). exists valid. split; [|by apply Hperm].
    simpl in Hrun |- *. go_inv Hrun. rewrite Hrun0. simpl. by simplify_eq. }
  destruct (Hv n) as (v1 & E1 & P1), (Hv (S n)) as (v2 & E2 & P2). exists v2. split; [|done].
  unfold best_loop. rewrite E1, go_bind_of_Ret. cbv beta iota. rewrite decide_True by (simpl; lia).
  rewrite E2, go_bind_of_Ret. cbv beta iota. rewrite decide_True; [done|]. by rewrite (Permutation_length P1), (Permutation_length P2).
Qed.

(** C39: On a fork the worker mines blocks that its own chain rejects. If there
    are two last blocks, and the batch (without its invalid operations) is
    admissible after the first but not after the second, then the block that
    [StartMining] mines holds the whole batch and continues the second, and
    [AddBlock] refuses it, in every order and whatever the nonce. *)
Theorem fork_batch_rejected rgs fuel srt w h bc bc1 b1 b2 l1 l2 ops now m rg1 rg2
    (W : wf h bc) (Hcfg : settings_ok (bc_config bc))
    (Hfork : GetLastBlocks h bc = Ret (bc1, [b1; b2]))
    (Hl1 : bc_m bc !! Hash b1 = Some l1) (Hl2 : bc_m bc !! Hash b2 = Some l2)
    (Hfirst : admissible (bc_config bc) (branch h l1) (FilterInvalidOperations srt ops).2)
    (Hsecond : ~ admissible (bc_config bc) (branch h l2) (FilterInvalidOperations srt ops).2)
    (Hrun : StartMining (fun _ s => s) rgs fuel srt w (h, bc) (CaseBatch ops) now = Ret m) :
  exists blk err, mn_minedBlock m = Some blk /\ PreviousHash blk = Hash b2 /\
    Operations blk ≡ₚ (FilterInvalidOperations srt ops).2 /\
    AddBlock rg1 rg2 h bc blk = Ret (h, bc, Some err).
Proof.
  destruct (last_blocks_eq h bc bc1 b1 [b2] W Hfork) as (l & Hl & Heq).
  set (valid := (FilterInvalidOperations srt ops).2) in *.
  destruct (best_loop_fork rgs h (set_lastNode bc l) valid 3 b1 b2 l1) as (best & Hbest & Hp);
    [by apply wf_set_lastNode|done..|].
  assert (forall bc', genesis bc' = genesis bc ->
    ld_GetLastHash (h, bc') = Ret ((h, set_lastNode bc' l), Hash b1)) as Eh.
  { intros bc' Hg. simpl. by rewrite (proj1 (Heq bc' Hg)). }
  assert (forall bc', genesis bc' = genesis bc ->
    ld_GetLastBlocks (h, bc') = Ret ((h, set_lastNode bc' l), [b1; b2])) as Eb.
  { intros bc' Hg. simpl. by rewrite (proj2 (Heq bc' Hg)). }
  unfold StartMining in Hrun. rewrite !Eh, go_bind_of_Ret in Hrun by done. cbv beta iota in Hrun.
  rewrite Eh, go_bind_of_Ret in Hrun by done. cbv beta iota in Hrun.
  rewrite Eb, go_bind_of_Ret in Hrun by done. cbv beta iota in Hrun. fold valid in Hrun.
  change (set_lastNode (set_lastNode (set_lastNode bc l) l) l) with (set_lastNode bc l) in Hrun.
  rewrite Hbest, go_bind_of_Ret in Hrun. cbv beta iota in Hrun. rewrite decide_True in Hrun.
  2: { destruct best; [|simpl; lia]. destruct Hsecond. apply Permutation_nil in Hp. rewrite Hp. apply admissible_nil. }
  go_inv Hrun. rename r into blk. simplify_eq. destruct (NewBlock_outcome _ _ _ _ _ _ _ _ Hrun0) as (Hh & _).
  destruct (AddBlock_outcome h bc rg1 rg2 blk W (cost_ok _ Hcfg)) as (h' & bc' & [err|] & Hadd & Hout).
  - destruct Hout as (-> & -> & _). exists blk, err. by rewrite Hh.
  - destruct Hsecond. destruct Hout as (p & pn & _ & Hp' & _ & [_ Hv] & _). rewrite Hh in Hp', Hv. simpl in Hp', Hv.
    rewrite Hl2 in Hp'. simplify_eq. by apply (admissible_perm _ _ best).
Qed.
End chain.
