(* ===== verification/Resolver.v ===== *)
(** [p2p/chain_resolver.go]: the index of blocks whose predecessors are missing.
    A send on a channel is an output of the operation. *)
From S2P Require Import Prelude GoLib Operation Block.

Record ChainResolver : Type := mkResolver {
  blocksToResolve : gmap string (list Block);
  waitingBlocks : gmap string string
}.

Definition NewChainResolver : ChainResolver := mkResolver ∅ ∅.

Fixpoint contains (blocks : list Block) (hash : string) : bool :=
  match blocks with
  | [] => false
  | b :: blocks => if decide (Hash b = hash) then true else contains blocks hash
  end.

Definition addPendingDownload (c : ChainResolver) (blk : Block) : ChainResolver :=
  let pendingBlocks :=
    match blocksToResolve c !! PreviousHash blk with
    | None => [blk]
    | Some pendingBlocks =>
        if contains pendingBlocks (Hash blk) then pendingBlocks else pendingBlocks ++ [blk]
    end in
  mkResolver (<[PreviousHash blk := pendingBlocks]> (blocksToResolve c)) (waitingBlocks c).

Definition hasPendingDownloadForHash (c : ChainResolver) (hash : string) : bool :=
  bool_decide (is_Some (blocksToResolve c !! hash)).

Definition addWaitingBlockForHash (c : ChainResolver) (hash previousHash : string) : ChainResolver :=
  mkResolver (blocksToResolve c) (<[hash := previousHash]> (waitingBlocks c)).

Definition getPendingBlocksForDownload (c : ChainResolver) (hash : string) : list Block :=
  default [] (blocksToResolve c !! hash).

(** Reading a [map[string]string]: a missing key gives the empty string. *)
Definition waiting_for (c : ChainResolver) (hash : string) : string :=
  default EmptyString (waitingBlocks c !! hash).

(** The loop of [findPendingDownloadForBlock]: file the block under every hash
    that its predecessor waits for, directly or not. *)
Fixpoint find_loop (fuel : nat) (c : ChainResolver) (blk : Block) (pendingDownload : string)
    : go ChainResolver :=
  if decide (pendingDownload = EmptyString) then Ret c
  else
    match fuel with
    | O => NoFuel
    | S fuel =>
        let blocks := default [] (blocksToResolve c !! pendingDownload) in
        let c :=
          if contains blocks (Hash blk) then c
          else mkResolver (<[pendingDownload := blocks ++ [blk]]> (blocksToResolve c)) (waitingBlocks c) in
        find_loop fuel c blk (waiting_for c pendingDownload)
    end.

(** The loop does not end on a cycle of waiting blocks; otherwise the number of
    these bounds it ([find_loop_enough]). *)
Definition findPendingDownloadForBlock (c : ChainResolver) (blk : Block)
    : go (ChainResolver * string) :=
  c ← find_loop (S (size (waitingBlocks c))) c blk (waiting_for c (PreviousHash blk));
  Ret (c, waiting_for c (Hash blk)).

(** Returns the hashes sent to [downloadBlock]. *)
Definition ResolveFloodedBlock (c : ChainResolver) (blk : Block) : go (ChainResolver * list string) :=
  let hash := Hash blk in
  let prevHash := PreviousHash blk in
  if hasPendingDownloadForHash c prevHash then
    let c := addPendingDownload c blk in
    let c := addWaitingBlockForHash c hash prevHash in
    Ret (c, [])
  else
    '(c, pendingDownload) ← findPendingDownloadForBlock c blk;
    if decide (pendingDownload = EmptyString) then
      let c := addPendingDownload c blk in
      let c := addWaitingBlockForHash c hash prevHash in
      Ret (c, [PreviousHash blk])
    else if hasPendingDownloadForHash c pendingDownload then
      let c := addPendingDownload c blk in
      let c := addWaitingBlockForHash c hash prevHash in
      Ret (c, [])
    else
      let c := addPendingDownload c blk in
      Ret (c, [PreviousHash blk]).

(** Returns the blocks sent to [addBlock]. *)
Definition ResolveAddedBlock (c : ChainResolver) (hash : string) : ChainResolver * list Block :=
  let pendingDownBlocks := default [] (blocksToResolve c !! hash) in
  let waiting := fold_left (fun w (b : Block) => delete (Hash b) w) pendingDownBlocks (waitingBlocks c) in
  (mkResolver (delete hash (blocksToResolve c)) waiting, pendingDownBlocks).

(** ** Properties *)

Lemma contains_spec blocks hash : contains blocks hash = true <-> hash ∈ Hash <$> blocks.
Proof.
  induction blocks as [|b blocks IH]; simpl; [set_solver|].
  case_decide as Hd; [set_solver|]. rewrite IH. set_solver.
Qed.

(** A block is filed at most once under a hash. *)
Definition filed_once (c : ChainResolver) : Prop :=
  forall k bs, blocksToResolve c !! k = Some bs -> NoDup (Hash <$> bs).

(** [rank] decreases along the waiting relation, which therefore has no
    cycle; block height is such a rank. *)
Definition ranked (rank : string -> nat) (c : ChainResolver) : Prop :=
  forall k v, waitingBlocks c !! k = Some v -> rank v < rank k.

(** Filing [blk] under [k]; [c] and [c'] agree elsewhere. *)
Definition file_under (k : string) (blk : Block) (c : ChainResolver) : ChainResolver :=
  let blocks := default [] (blocksToResolve c !! k) in
  mkResolver (<[k := if contains blocks (Hash blk) then blocks else blocks ++ [blk]]> (blocksToResolve c))
    (waitingBlocks c).

Lemma addPendingDownload_eq c blk : addPendingDownload c blk = file_under (PreviousHash blk) blk c.
Proof. unfold addPendingDownload, file_under. by destruct (blocksToResolve c !! _). Qed.

Lemma file_under_once k blk c : filed_once c -> filed_once (file_under k blk c).
Proof.
  intros Ho k' bs. simpl. rewrite lookup_insert. case_decide as Hk; [|apply Ho].
  intros [= <-]. assert (NoDup (Hash <$> default [] (blocksToResolve c !! k))) as Hnd.
  { destruct (blocksToResolve c !! k) eqn:E; simpl; [by eapply Ho|constructor]. }
  destruct (contains _ _) eqn:Hc; [done|]. rewrite fmap_app. apply NoDup_app. split_and!; [done| |apply NoDup_singleton].
  intros x Hx ->%list_elem_of_singleton. apply contains_spec in Hx. congruence.
Qed.

(** A block with this hash is filed under [k]. *)
Definition filed (c : ChainResolver) (k hash : string) : Prop :=
  exists bs, blocksToResolve c !! k = Some bs /\ hash ∈ Hash <$> bs.

Lemma file_under_filed k blk c : filed (file_under k blk c) k (Hash blk).
Proof.
  unfold filed. eexists. simpl. rewrite lookup_insert_eq. split; [done|].
  destruct (contains _ _) eqn:Hc; [by apply contains_spec|]. rewrite fmap_app. set_solver.
Qed.

(** [c'] has all that [c] has filed, in the same order, and waits for the same. *)
Record extends (c c' : ChainResolver) : Prop := {
  ext_waiting : waitingBlocks c' = waitingBlocks c;
  ext_filed : forall k bs, blocksToResolve c !! k = Some bs ->
    exists bs', blocksToResolve c' !! k = Some bs' /\ bs `prefix_of` bs';
  ext_once : filed_once c -> filed_once c'
}.

#[export] Instance extends_po : PreOrder extends.
Proof.
  split; [split; eauto|]. intros c1 c2 c3 [W1 F1 O1] [W2 F2 O2]. split; [congruence| |auto].
  intros k bs Hk. destruct (F1 k bs Hk) as (bs2 & Hk2 & ?), (F2 k bs2 Hk2) as (bs3 & ? & ?).
  exists bs3. split; [done|]. by transitivity bs2.
Qed.

Lemma file_under_extends k blk c : extends c (file_under k blk c).
Proof.
  split; [done| |apply file_under_once]. intros k' bs Hk. simpl. rewrite lookup_insert.
  case_decide as Heq; [subst|by exists bs]. rewrite Hk. simpl. eexists; split; [done|].
  destruct (contains _ _); [done|]. by apply prefix_app_r.
Qed.
#[export] Hint Resolve file_under_extends : miner.

Lemma extends_filed c c' k hash : extends c c' -> filed c k hash -> filed c' k hash.
Proof.
  intros Hx (bs & Hk & Hin). destruct (ext_filed _ _ Hx k bs Hk) as (bs' & Hk' & [ys ->]).
  exists (bs ++ ys). split; [done|]. rewrite fmap_app. set_solver.
Qed.

(** ** The chain of waiting blocks *)

(** The loop that starts at [k] ends after [n] rounds. *)
Inductive ends_in (w : gmap string string) : string -> nat -> Prop :=
| ends_here : ends_in w EmptyString 0
| ends_next k n : k <> EmptyString -> ends_in w (default EmptyString (w !! k)) n -> ends_in w k (S n).

(** The loop that starts at [k] comes to [k']. *)
Inductive on_chain (w : gmap string string) : string -> string -> Prop :=
| on_here k : k <> EmptyString -> on_chain w k k
| on_next k k' : k <> EmptyString -> on_chain w (default EmptyString (w !! k)) k' -> on_chain w k k'.

Lemma ends_in_inj w k n m : ends_in w k n -> ends_in w k m -> n = m.
Proof.
  intros Hn. revert m. induction Hn as [|k n Hk Hn IH]; intros m Hm; inversion Hm; subst; [done..|].
  f_equal. by apply IH.
Qed.

(** The hashes on a chain that ends are distinct, and all but the last wait. *)
Lemma ends_in_keys w n : forall k, ends_in w k (S n) ->
  exists ks, NoDup ks /\ length ks = n /\
    forall x, x ∈ ks -> is_Some (w !! x) /\ exists m, ends_in w x m /\ m <= S n.
Proof.
  induction n as [|n IH]; intros k Hk.
  { exists []. split_and!; [constructor|done|set_solver]. }
  inversion Hk as [|? ? Hne Hnext]; subst. destruct (IH _ Hnext) as (ks & Hnd & Hlen & Hin).
  exists (k :: ks). split_and!; [|by rewrite <- Hlen|].
  - constructor; [|done]. intros Hx. destruct (Hin k Hx) as (_ & m & Hm & Hle).
    pose proof (ends_in_inj _ _ _ _ Hk Hm). lia.
  - intros x [->|Hx]%elem_of_cons.
    + split; [|by eauto]. destruct (w !! k); [by eauto|]. inversion Hnext; by subst.
    + destruct (Hin x Hx) as (? & m & ? & ?). split; [done|]. exists m. split; [done|lia].
Qed.

Lemma ends_in_bound w k n : ends_in w k n -> n <= S (size w).
Proof.
  destruct n as [|n]; [lia|]. intros (ks & Hnd & <- & Hin)%ends_in_keys.
  assert (size (list_to_set ks : gset string) <= size (dom w)) as Hle.
  { apply subseteq_size. intros x Hx%elem_of_list_to_set. by apply elem_of_dom, Hin. }
  rewrite size_list_to_set, size_dom in Hle by done. lia.
Qed.

(** Waiting that follows the height of blocks ends. *)
Lemma ranked_ends rank c k : ranked rank c -> exists n, ends_in (waitingBlocks c) k n.
Proof.
  intros Hr. remember (rank k) as r eqn:Hk. revert k Hk. induction r as [r IH] using lt_wf_ind. intros k ->.
  destruct (decide (k = EmptyString)) as [->|Hne]; [exists 0; constructor|].
  destruct (waitingBlocks c !! k) as [v|] eqn:Hv.
  - destruct (IH (rank v) (Hr k v Hv) v eq_refl) as [n Hn]. exists (S n). constructor; [done|]. by rewrite Hv.
  - exists 1. constructor; [done|]. rewrite Hv. constructor.
Qed.

(** One round of the loop. *)
Lemma find_loop_round c blk k :
  let blocks := default [] (blocksToResolve c !! k) in
  let c1 := if contains blocks (Hash blk) then c
            else mkResolver (<[k := blocks ++ [blk]]> (blocksToResolve c)) (waitingBlocks c) in
  extends c c1 /\ filed c1 k (Hash blk).
Proof.
  cbv zeta. pose proof (file_under_extends k blk c) as Hx. pose proof (file_under_filed k blk c) as Hf.
  unfold file_under in Hx, Hf. destruct (contains _ _) eqn:Hc; [|done]. split; [done|].
  apply contains_spec in Hc. destruct (blocksToResolve c !! k) as [bs|] eqn:Hk; simpl in Hc; [by exists bs|set_solver].
Qed.

Lemma find_loop_enough blk n : forall fuel c k,
  ends_in (waitingBlocks c) k n -> n <= fuel -> exists c', find_loop fuel c blk k = Ret c'.
Proof.
  induction n as [|n IH]; intros fuel c k Hn Hf; inversion Hn as [|? ? Hk Hnext]; subst.
  { exists c. by destruct fuel. }
  destruct fuel as [|fuel]; [lia|]. simpl. rewrite decide_False by done.
  destruct (find_loop_round c blk k) as [Hx _]. apply IH; [|lia].
  unfold waiting_for. by rewrite (ext_waiting _ _ Hx).
Qed.

Lemma find_loop_inv blk fuel : forall c k c', find_loop fuel c blk k = Ret c' ->
  (exists n, ends_in (waitingBlocks c) k n) /\ extends c c' /\
  forall k', on_chain (waitingBlocks c) k k' -> filed c' k' (Hash blk).
Proof.
  induction fuel as [|fuel IH]; intros c k c' Hrun; simpl in Hrun; case_decide as Hk; simplify_eq;
    try (split_and!; [exists 0; constructor|done|by inversion 1]).
  destruct (find_loop_round c blk k) as [Hx Hf]. apply IH in Hrun as ((n & Hn) & Hx' & Hall).
  unfold waiting_for in *. rewrite (ext_waiting _ _ Hx) in Hn, Hall. split_and!.
  - exists (S n). by constructor.
  - etransitivity; [exact Hx|exact Hx'].
  - intros k' Hon. inversion Hon; subst; [by eapply extends_filed|by apply Hall].
Qed.

(** A cycle keeps the loop busy whatever the fuel. *)
Lemma find_loop_busy blk fuel c k :
  (forall n, ~ ends_in (waitingBlocks c) k n) -> find_loop fuel c blk k = NoFuel.
Proof.
  revert c k. induction fuel as [|fuel IH]; intros c k Hn; simpl;
    (case_decide; [subst; destruct (Hn 0); constructor|]); [done|].
  destruct (find_loop_round c blk k) as [Hx _]. apply IH. intros n. unfold waiting_for.
  rewrite (ext_waiting _ _ Hx). intros Hend. apply (Hn (S n)). by constructor.
Qed.

(** ** [ResolveFloodedBlock] *)

(** Where a flooded block is filed: under its predecessor, and, if nothing else
    waits for that, under every hash that the predecessor waits for. *)
Definition files_under (c : ChainResolver) (blk : Block) (k : string) : Prop :=
  k = PreviousHash blk \/
  blocksToResolve c !! PreviousHash blk = None /\
  on_chain (waitingBlocks c) (waiting_for c (PreviousHash blk)) k.

(** What a call that returns has done. *)
Record flooded (c c' : ChainResolver) (blk : Block) (reqs : list string) : Prop := {
  fl_filed k : files_under c blk k -> filed c' k (Hash blk);
  fl_keeps k bs : blocksToResolve c !! k = Some bs ->
    exists bs', blocksToResolve c' !! k = Some bs' /\ bs `prefix_of` bs';
  fl_once : filed_once c -> filed_once c';
  fl_waiting : waitingBlocks c' = waitingBlocks c \/
    waitingBlocks c' = <[Hash blk := PreviousHash blk]> (waitingBlocks c);
  fl_asks : reqs = [] \/ reqs = [PreviousHash blk] /\ blocksToResolve c !! PreviousHash blk = None;
  fl_new : waitingBlocks c !! Hash blk = None -> blocksToResolve c !! PreviousHash blk = None ->
    reqs = [PreviousHash blk]
}.

Lemma flooded_intro c c1 c' blk reqs :
  extends c c1 -> (forall k, files_under c blk k -> k = PreviousHash blk \/ filed c1 k (Hash blk)) ->
  blocksToResolve c' = blocksToResolve (file_under (PreviousHash blk) blk c1) ->
  (waitingBlocks c' = waitingBlocks c \/
   waitingBlocks c' = <[Hash blk := PreviousHash blk]> (waitingBlocks c)) ->
  (reqs = [] \/ reqs = [PreviousHash blk] /\ blocksToResolve c !! PreviousHash blk = None) ->
  (waitingBlocks c !! Hash blk = None -> blocksToResolve c !! PreviousHash blk = None ->
   reqs = [PreviousHash blk]) ->
  flooded c c' blk reqs.
Proof.
  intros Hx Hc Hf Hw Hr Hn. pose proof (file_under_extends (PreviousHash blk) blk c1) as Hx1.
  split; [..|done|done|done].
  - intros k Hk. unfold filed. rewrite Hf. destruct (Hc k Hk) as [->|?]; [apply file_under_filed|by eapply extends_filed].
  - rewrite Hf. eapply ext_filed. by transitivity c1.
  - intros Ho k bs. rewrite Hf. by apply (ext_once _ _ Hx1), (ext_once _ _ Hx).
Qed.

Lemma ResolveFloodedBlock_inv c blk c' reqs :
  ResolveFloodedBlock c blk = Ret (c', reqs) ->
  (is_Some (blocksToResolve c !! PreviousHash blk) \/
   exists n, ends_in (waitingBlocks c) (waiting_for c (PreviousHash blk)) n) /\ flooded c c' blk reqs.
Proof.
  unfold ResolveFloodedBlock, hasPendingDownloadForHash. case_bool_decide as Hp; intros Hrun.
  { simplify_eq. split; [by left|]. rewrite addPendingDownload_eq. apply (flooded_intro c c); [done| |auto..|].
    - intros k [?|[? _]]; [by left|]. destruct Hp. congruence.
    - intros _ E. destruct Hp. congruence. }
  rewrite <- eq_None_not_Some in Hp. unfold findPendingDownloadForBlock in Hrun.
  destruct (find_loop _ c blk _) as [c1| | |] eqn:Hloop; simpl in Hrun; [|done..].
  apply find_loop_inv in Hloop as (Hend & Hx & Hall). split; [by right|].
  pose proof (ext_waiting _ _ Hx) as Hw.
  assert (forall k, files_under c blk k -> k = PreviousHash blk \/ filed c1 k (Hash blk)) as Hfile
    by (intros k [?|[_ Hon]]; auto).
  case_decide as Hd; [|case_bool_decide]; simplify_eq; rewrite ?addPendingDownload_eq;
    apply (flooded_intro c c1); simpl; rewrite ?Hw; auto.
  intros E _. destruct Hd. unfold waiting_for. by rewrite Hw, E.
Qed.

Lemma ResolveFloodedBlock_returns c (blk : Block) :
  is_Some (blocksToResolve c !! PreviousHash blk) \/
  (exists n, ends_in (waitingBlocks c) (waiting_for c (PreviousHash blk)) n) ->
  exists c' reqs, ResolveFloodedBlock c blk = Ret (c', reqs).
Proof.
  intros Hr. unfold ResolveFloodedBlock, hasPendingDownloadForHash. case_bool_decide as Hp; [by eauto|].
  destruct Hr as [?|[n Hn]]; [done|]. unfold findPendingDownloadForBlock.
  destruct (find_loop_enough blk n (S (size (waitingBlocks c))) c _ Hn) as [c1 ->]; [by eapply ends_in_bound|].
  simpl. case_decide; [|case_bool_decide]; by eauto.
Qed.

Lemma flooded_ranked rank c c' blk reqs :
  flooded c c' blk reqs -> ranked rank c -> rank (PreviousHash blk) < rank (Hash blk) -> ranked rank c'.
Proof.
  intros F Hr Hb k v. destruct (fl_waiting _ _ _ _ F) as [->| ->]; [apply Hr|]. rewrite lookup_insert.
  case_decide; [|apply Hr]. intros [= <-]. by subst.
Qed.

Lemma fold_delete_hashes (bs : list Block) (w : gmap string string) (b : Block) :
  b ∈ bs -> fold_left (fun w (b : Block) => delete (Hash b) w) bs w !! Hash b = None.
Proof.
  intros Hb. revert b Hb. apply (fold_left_inv (fun done (w : gmap string string) =>
    forall b : Block, b ∈ done -> w !! Hash b = None)); [by intros b ?%elem_of_nil|].
  intros done x rest w' _ IH b [Hb|Hb%list_elem_of_singleton]%elem_of_app; [|subst; apply lookup_delete_eq].
  rewrite lookup_delete. case_decide; [done|auto].
Qed.

(** ** Sequences of calls *)

Inductive resolver_op : Type :=
| RFlood (blk : Block)
| RAdded (hash : string).

Fixpoint resolver_run (c : ChainResolver) (ops : list resolver_op) : go ChainResolver :=
  match ops with
  | [] => Ret c
  | RFlood blk :: ops => '(c, _) ← ResolveFloodedBlock c blk; resolver_run c ops
  | RAdded hash :: ops => resolver_run (ResolveAddedBlock c hash).1 ops
  end.

(** What is filed under a hash stays there until that hash is added. *)
Lemma resolver_run_filed k hash ops : forall c c',
  resolver_run c ops = Ret c' -> RAdded k ∉ ops -> filed_once c -> filed c k hash ->
  filed_once c' /\ filed c' k hash.
Proof.
  induction ops as [|[blk|h] ops IH]; intros c c' Hrun Hk Ho Hf; simpl in Hrun; [by simplify_eq|..];
    apply not_elem_of_cons in Hk as [Hne Hk].
  - go_inv Hrun. destruct r as [c1 reqs]. apply ResolveFloodedBlock_inv in Hrun0 as [_ F].
    apply (IH c1 c' Hrun Hk); [by apply F|]. destruct Hf as (bs & Hbs & Hin).
    destruct (fl_keeps _ _ _ _ F k bs Hbs) as (bs' & Hbs' & [ys ->]). exists (bs ++ ys).
    split; [done|]. rewrite fmap_app. set_solver.
  - apply (IH _ c' Hrun Hk); simpl.
    + intros k' bs. simpl. rewrite lookup_delete_Some. intros [_ ?]. by eapply Ho.
    + unfold filed. simpl. rewrite lookup_delete_ne by congruence. done.
Qed.

(** ** Theorems *)

(** C33: [ResolveFloodedBlock] returns exactly if something already waits for the
    predecessor of the block, or the chain of blocks that the predecessor waits
    for ends; on a cycle its loop runs for ever. Waiting that follows the height
    of blocks has no cycle. When it returns, the block is filed under its
    predecessor, under each hash at most once, and nothing filed is dropped; it
    has asked for the predecessor only if nothing waited for it, and always if
    in addition the block itself is new. *)
Theorem ResolveFloodedBlock_spec c (blk : Block) :
  let next := waiting_for c (PreviousHash blk) in
  ((exists c' reqs, ResolveFloodedBlock c blk = Ret (c', reqs)) <->
   is_Some (blocksToResolve c !! PreviousHash blk) \/ exists n, ends_in (waitingBlocks c) next n) /\
  ((forall n, ~ ends_in (waitingBlocks c) next n) -> forall fuel, find_loop fuel c blk next = NoFuel) /\
  (forall rank, ranked rank c -> exists n, ends_in (waitingBlocks c) next n) /\
  forall c' reqs, ResolveFloodedBlock c blk = Ret (c', reqs) ->
    filed c' (PreviousHash blk) (Hash blk) /\ (filed_once c -> filed_once c') /\
    (forall k bs, blocksToResolve c !! k = Some bs ->
       exists bs', blocksToResolve c' !! k = Some bs' /\ bs `prefix_of` bs') /\
    (reqs = [] \/ reqs = [PreviousHash blk] /\ blocksToResolve c !! PreviousHash blk = None) /\
    (waitingBlocks c !! Hash blk = None -> blocksToResolve c !! PreviousHash blk = None ->
     reqs = [PreviousHash blk]) /\
    (forall rank, ranked rank c -> rank (PreviousHash blk) < rank (Hash blk) -> ranked rank c').
Proof.
  cbv zeta. split_and!.
  - split; [|apply ResolveFloodedBlock_returns]. intros (c' & reqs & Hrun). by apply ResolveFloodedBlock_inv in Hrun as [? _].
  - intros Hn fuel. by apply find_loop_busy.
  - intros rank. apply ranked_ends.
  - intros c' reqs [_ F]%ResolveFloodedBlock_inv. destruct F as [F1 F2 F3 F4 F5 F6] eqn:E.
    split_and!; [apply F1; by left|done..|]. intros rank. by eapply flooded_ranked.
Qed.

(** C34: A flooded block is not lost, and not sent on once only. It is filed
    under its predecessor and, if nothing else waits for that, under every hash
    that the predecessor waits for, directly or not; whatever other blocks are
    flooded or added in between, the addition of each of these hashes sends the
    block on to be added, each block filed there once, and then nothing is filed
    there and none of the blocks sent counts as waiting. *)
Theorem flooded_block_resolved c (blk : Block) c' reqs ops c2 k
    (Honce : filed_once c) (Hflood : ResolveFloodedBlock c blk = Ret (c', reqs))
    (Hk : files_under c blk k)
    (Hops : resolver_run c' ops = Ret c2) (Hbefore : RAdded k ∉ ops) :
  let '(c3, sent) := ResolveAddedBlock c2 k in
  Hash blk ∈ Hash <$> sent /\ NoDup (Hash <$> sent) /\
  hasPendingDownloadForHash c3 k = false /\
  (forall b, b ∈ sent -> waitingBlocks c3 !! Hash b = None) /\
  (forall k', k' <> k -> blocksToResolve c3 !! k' = blocksToResolve c2 !! k').
Proof.
  apply ResolveFloodedBlock_inv in Hflood as [_ F].
  destruct (resolver_run_filed k (Hash blk) ops c' c2 Hops Hbefore) as (Ho & bs & Hbs & Hin);
    [by apply F|by apply F|].
  unfold ResolveAddedBlock, hasPendingDownloadForHash. simpl. rewrite Hbs. simpl.
  split_and!; [done|by eapply Ho|..].
  - by rewrite lookup_delete_eq.
  - intros b Hb. by apply fold_delete_hashes.
  - intros k' Hk'. by rewrite lookup_delete_ne.
Qed.

(** ** Witnesses *)

Definition resolver_block (hash prev : string) : Block :=
  mkBlock (mkHeader 0 [] prev) EmptyString hash 0.

Definition resolver_after (bs : list Block) : ChainResolver :=
  match resolver_run NewChainResolver (RFlood <$> bs) with Ret c => c | _ => NewChainResolver end.

Definition waits_A : ChainResolver := Eval vm_compute in resolver_after [resolver_block "A" "R"].

(** A and B follow each other, and X follows A: the call on a successor of X
    does not return. *)
Definition cyclic : ChainResolver := Eval vm_compute in
  resolver_after [resolver_block "A" "B"; resolver_block "B" "A"; resolver_block "X" "A"].

Lemma cyclic_busy k n : k = "A"%string \/ k = "B"%string -> ~ ends_in (waitingBlocks cyclic) k n.
Proof.
  intros Hk Hn. revert Hk. induction Hn as [|k n Hne Hn IH]; [by intros [|]|].
  intros [->| ->]; apply IH; vm_compute; auto.
Qed.

Lemma ResolveFloodedBlock_spec_witness :
  (exists c', ResolveFloodedBlock waits_A (resolver_block "B" "A") = Ret (c', ["A"%string])) /\
  forall fuel, find_loop fuel cyclic (resolver_block "Y" "X") "A" = NoFuel.
Proof.
  split.
  - destruct (ResolveFloodedBlock_spec waits_A (resolver_block "B" "A")) as ((_ & Hret) & _ & _ & Hspec).
    destruct Hret as (c' & reqs & Hrun); [right; exists 1; constructor; [discriminate|constructor]|].
    exists c'. destruct (Hspec c' reqs Hrun) as (_ & _ & _ & _ & Hnew & _). rewrite Hrun, Hnew; reflexivity.
  - destruct (ResolveFloodedBlock_spec cyclic (resolver_block "Y" "X")) as (_ & Hbusy & _).
    apply Hbusy. intros n. apply cyclic_busy. left. reflexivity.
Defined.

(** B is sent on when R is added, before its predecessor A, and again when A is. *)
Lemma flooded_block_resolved_witness :
  exists c', ResolveFloodedBlock waits_A (resolver_block "B" "A") = Ret (c', ["A"%string]) /\
    "B"%string ∈ Hash <$> (ResolveAddedBlock c' "R").2 /\
    "B"%string ∈ Hash <$> (ResolveAddedBlock (ResolveAddedBlock c' "R").1 "A").2.
Proof.
  assert (filed_once waits_A) as Ho.
  { intros k bs Hk. change (blocksToResolve waits_A) with ({["R" := [resolver_block "A" "R"]]} : gmap string (list Block)) in Hk.
    apply lookup_singleton_Some in Hk as [_ <-]. apply NoDup_singleton. }
  eexists. split; [vm_compute; reflexivity|]. split.
  - eapply (flooded_block_resolved waits_A (resolver_block "B" "A") _ ["A"%string] [] _ "R" Ho);
      [vm_compute; reflexivity| |reflexivity|by intros ?%elem_of_nil].
    right. split; [reflexivity|]. apply (on_here _ "R"). discriminate.
  - eapply (flooded_block_resolved waits_A (resolver_block "B" "A") _ ["A"%string] [RAdded "R"] _ "A" Ho);
      [vm_compute; reflexivity|left; reflexivity|reflexivity|].
    intros Hin%list_elem_of_singleton. discriminate.
Defined.
