(* ===== verification/Manager.v ===== *)
(** [p2p/blockchain_manager.go]: the thread that owns the block chain. Its
    [select] loop is one handler per case; the buffered channels are queues of
    the state, the unbuffered ones are outputs. The read-write mutex makes every
    method atomic, so it leaves no trace in the model. *)
From S2P Require Import Prelude GoLib Settings Operation Block Pow Blockchain ChainTheory.
From S2P Require Import Ledger LedgerTheory AddBlock QueryTheory Rebuild RFSLedger Worker Resolver.
Local Open Scope Z_scope.

(** The loop's local variables [replayQueue] and [replayMap] are part of the
    state. [chainResolver] is built and never used. *)
Record ChainManager : Type := mkManager {
  m_heap : heap;
  blockchain : Blockchain;
  m_config : Settings;
  chainResolver : ChainResolver;
  addBlock : list Block;
  receiveFloodedBlock : list Block;
  replayQueue : list Block;
  replayMap : gset string
}.

(** Sends of the manager on channels that other threads read. *)
Inductive output : Type :=
| OutSyncDone
| OutDownloadBlock (b : Block)
| OutNewBlockAdded
| OutSendBlock (b : Block)
| OutContinueMining.

Definition addBlock_cap : nat := 100.
Definition receiveFloodedBlock_cap : nat := 1000.

(** A send of the manager's thread on a channel that only it reads: when the
    buffer is full it waits for ever. *)
Definition send {A} (cap : nat) (q : list A) (x : A) : go (list A) :=
  if decide (length q < cap)%nat then Ret (q ++ [x]) else Stuck.

Definition NewChainManager (h : heap) (bc : Blockchain) (config : Settings) : ChainManager :=
  mkManager h bc config NewChainResolver [] [] [] ∅.

(** ** Updates of the state *)

Definition with_chain (m : ChainManager) (h : heap) (bc : Blockchain) : ChainManager :=
  mkManager h bc (m_config m) (chainResolver m) (addBlock m) (receiveFloodedBlock m)
    (replayQueue m) (replayMap m).
Definition with_addBlock (m : ChainManager) (q : list Block) : ChainManager :=
  mkManager (m_heap m) (blockchain m) (m_config m) (chainResolver m) q (receiveFloodedBlock m)
    (replayQueue m) (replayMap m).
Definition with_received (m : ChainManager) (q : list Block) : ChainManager :=
  mkManager (m_heap m) (blockchain m) (m_config m) (chainResolver m) (addBlock m) q
    (replayQueue m) (replayMap m).
Definition with_replay (m : ChainManager) (q : list Block) (r : gset string) : ChainManager :=
  mkManager (m_heap m) (blockchain m) (m_config m) (chainResolver m) (addBlock m)
    (receiveFloodedBlock m) q r.

(** ** The cases of the loop *)

Section manager.
Context `{Gob (list Operation)}.

(** [case newBlocks := <-m.syncBlockchain]. On an error nothing is sent, not
    even on the request's [err] channel. *)
Definition on_sync (rg : RangeOrder) (m : ChainManager) (blocks : list Block)
    : go (ChainManager * list output) :=
  '(h, r) ← UnmarshallBlockchain rg (m_heap m) blocks;
  match r with
  | Err _ => Ret (with_chain m h (blockchain m), [])
  | Ok bc => Ret (with_chain m h (SetConfig bc (m_config m)), [OutSyncDone])
  end.

(** [case block := <-m.receiveFloodedBlock], the block already taken off. *)
Definition on_flooded (m : ChainManager) (blk : Block) : go (ChainManager * list output) :=
  let hasBlock := HasBlock (blockchain m) (Hash blk) in
  let canAdd := negb hasBlock && HasBlock (blockchain m) (PreviousHash blk) in
  if canAdd then
    q ← send addBlock_cap (addBlock m) blk;
    Ret (with_addBlock m q, [])
  else if negb hasBlock then
    if decide (PreviousHash blk ∈ replayMap m) then
      let m := with_replay m (replayQueue m) ({[Hash blk]} ∪ replayMap m) in
      q ← send receiveFloodedBlock_cap (receiveFloodedBlock m) blk;
      Ret (with_received m q, [])
    else
      let outs := if decide (length (replayQueue m) = 0%nat) then [OutDownloadBlock blk] else [] in
      Ret (with_replay m (replayQueue m ++ [blk]) ({[Hash blk]} ∪ replayMap m), outs)
  else Ret (m, []).

(** [m.receiveFloodedBlock <- block] for every block of a list. *)
Fixpoint send_all (blocks q : list Block) : go (list Block) :=
  match blocks with
  | [] => Ret q
  | b :: blocks => q ← send receiveFloodedBlock_cap q b; send_all blocks q
  end.

(** [case blocks := <-m.downloadedBlocks]. The log message reads
    [replayQueue[0]]. *)
Definition on_downloaded (m : ChainManager) (blocks : list Block) : go (ChainManager * list output) :=
  _ ← deref (replayQueue m !! 0%nat);
  let r := fold_left (fun r (b : Block) => {[Hash b]} ∪ r) blocks (replayMap m) in
  let replaySlice := blocks ++ replayQueue m in
  q ← send_all replaySlice (receiveFloodedBlock m);
  Ret (with_replay (with_received m q) [] r, []).

(** [case block := <-m.addBlock], the block already taken off. The log message
    after a success calls [GetLastHash]. *)
Definition on_add (rg1 rg2 : RangeOrder) (m : ChainManager) (blk : Block)
    : go (ChainManager * list output) :=
  '(h, bc, err) ← AddBlock rg1 rg2 (m_heap m) (blockchain m) blk;
  match err with
  | Some _ => Ret (with_chain m h bc, [OutContinueMining])
  | None =>
      '(bc, _) ← GetLastHash h bc;
      Ret (with_chain m h bc, [OutNewBlockAdded; OutSendBlock blk; OutContinueMining])
  end.

(** Iterations of the loop, and what other threads do to the queues and, by
    queries, to [lastNode]. *)
Inductive mstep : ChainManager -> ChainManager -> list output -> Prop :=
| step_tick m : mstep m m []
| step_sync rg m blocks m' outs :
    on_sync rg m blocks = Ret (m', outs) -> mstep m m' outs
| step_flooded m b q m' outs :
    receiveFloodedBlock m = b :: q -> on_flooded (with_received m q) b = Ret (m', outs) ->
    mstep m m' outs
| step_downloaded m blocks m' outs :
    on_downloaded m blocks = Ret (m', outs) -> mstep m m' outs
| step_add rg1 rg2 m b q m' outs :
    addBlock m = b :: q -> on_add rg1 rg2 (with_addBlock m q) b = Ret (m', outs) ->
    mstep m m' outs
| step_receive m b :
    (length (receiveFloodedBlock m) < receiveFloodedBlock_cap)%nat ->
    mstep m (with_received m (receiveFloodedBlock m ++ [b])) []
| step_mined m b :
    (length (addBlock m) < addBlock_cap)%nat ->
    mstep m (with_addBlock m (addBlock m ++ [b])) []
| step_query m bc ls :
    getLastNodes (m_heap m) (blockchain m) = Ret (bc, ls) ->
    mstep m (with_chain m (m_heap m) bc) [].
End manager.

(** ** [RFSLedger] methods: each calls the block chain under the lock *)

#[export] Instance manager_ledger : RFSLedger ChainManager := {
  ld_GetLastHash := fun m => '(bc, r) ← GetLastHash (m_heap m) (blockchain m);
    Ret (with_chain m (m_heap m) bc, r);
  ld_GetLastBlocks := fun m => '(bc, r) ← GetLastBlocks (m_heap m) (blockchain m);
    Ret (with_chain m (m_heap m) bc, r);
  ld_ValidateOperations := fun rg1 rg2 m ops prev =>
    r ← ValidateOperations rg1 rg2 (m_heap m) (blockchain m) ops prev; Ret (m, r);
  ld_ListFiles := fun rg m => '(bc, r) ← ListFiles rg (m_heap m) (blockchain m);
    Ret (with_chain m (m_heap m) bc, r);
  ld_GetFile := fun m f => '(bc, r) ← GetFile (m_heap m) (blockchain m) f;
    Ret (with_chain m (m_heap m) bc, r);
  ld_NumRecs := fun m f => '(bc, r) ← NumRecs (m_heap m) (blockchain m) f;
    Ret (with_chain m (m_heap m) bc, r);
  ld_CheckOpConfirmed := fun m op => '(bc, r) ← CheckOpConfirmed (m_heap m) (blockchain m) op;
    Ret (with_chain m (m_heap m) bc, r)
}.

(** [GetPreviousBlocks] of the manager reverses the result. *)
Definition GetPreviousBlocks_oldest_first (m : ChainManager) (hash : string) (numBlocks : Z)
    : go (list Block) :=
  blocks ← GetPreviousBlocks (m_heap m) (blockchain m) hash numBlocks;
  Ret (reverse_half blocks).

Definition chain_of (m : ChainManager) : heap * Blockchain := (m_heap m, blockchain m).

#[export] Instance manager_view : LedgerView ChainManager := {
  l_ok := fun m => l_ok (chain_of m);
  l_config := fun m => l_config (chain_of m);
  l_longest := fun m => l_longest (chain_of m);
  l_branch := fun m => l_branch (chain_of m)
}.

(** The laws carry over from the block chain. *)
Lemma same_view_chain m s' :
  same_view (chain_of m) s' -> same_view m (with_chain m s'.1 s'.2).
Proof. destruct s' as [h bc]. by intros []. Qed.

(** Runs of a chain method and of the manager's method that wraps it. *)
Lemma lift_run {R} (m : ChainManager) (c : go (Blockchain * R)) s' r :
  ('(bc, r) ← c; Ret ((m_heap m, bc), r)) = Ret (s', r) ->
  ('(bc, r) ← c; Ret (with_chain m (m_heap m) bc, r)) = Ret (with_chain m s'.1 s'.2, r).
Proof. destruct c as [[bc r']| | |]; simpl; intros; by simplify_eq. Qed.

#[export] Instance manager_laws : LedgerLaws ChainManager.
Proof.
  split.
  - intros m. apply (law_config (chain_of m)).
  - intros m. apply (law_branch (chain_of m)).
  - intros m Hok. destruct (law_GetLastHash (chain_of m) Hok) as (s' & b & bs & Hrun & V & HP).
    do 3 eexists. split; [exact (lift_run m _ _ _ Hrun)|]. split; [by apply same_view_chain|exact HP].
  - intros m Hok. destruct (law_GetLastBlocks (chain_of m) Hok) as (s' & b & bs & Hrun & V & HP).
    do 3 eexists. split; [exact (lift_run m _ _ _ Hrun)|]. split; [by apply same_view_chain|exact HP].
  - intros rg1 rg2 m ops prev Hok.
    destruct (law_ValidateOperations rg1 rg2 (chain_of m) ops prev Hok) as (s' & valid & ok & Hrun & V & HP).
    exists m, valid, ok. split; [|split; [done|exact HP]]. revert Hrun. simpl.
    destruct (ValidateOperations _ _ _ _ _ _); simpl; intros; by simplify_eq.
  - intros rg m Hok. destruct (law_ListFiles rg (chain_of m) Hok) as (s' & res & Hrun & V & HP).
    do 2 eexists. split; [exact (lift_run m _ _ _ Hrun)|]. split; [by apply same_view_chain|exact HP].
  - intros m f Hok. destruct (law_GetFile (chain_of m) f Hok) as (s' & Hrun & V).
    eexists. split; [exact (lift_run m _ _ _ Hrun)|by apply same_view_chain].
  - intros m f Hok. destruct (law_NumRecs (chain_of m) f Hok) as (s' & Hrun & V).
    eexists. split; [exact (lift_run m _ _ _ Hrun)|by apply same_view_chain].
  - intros m op Hok. destruct (law_CheckOpConfirmed (chain_of m) op Hok) as (s' & Hrun & V).
    eexists. split; [exact (lift_run m _ _ _ Hrun)|by apply same_view_chain].
Qed.

(** ** Safety *)

Section safety.
Context `{Gob (list Operation)}.

(** The states of a manager that never takes over the chain of a peer. *)
Inductive manager_reach (cfg : Settings) : ChainManager -> Prop :=
| mreach_new h now h' bc :
    NewBlockchain h cfg now = (h', bc) -> manager_reach cfg (NewChainManager h' bc cfg)
| mreach_step m m' outs :
    manager_reach cfg m -> mstep m m' outs -> OutSyncDone ∉ outs -> manager_reach cfg m'.

Lemma chain_inv_keeps h h' bc : keeps h h' -> chain_inv h bc -> chain_inv h' bc.
Proof.
  intros Hk [W (g & Hg & Hops) Hv]. pose proof (keeps_wf _ _ _ Hk W) as W'. split; [done|eauto|].
  intros l n p Hl Hn Hp. destruct (wf_lookup W l Hl) as (n' & Hn' & _).
  apply Hk in Hn' as Hn2. rewrite Hn2 in Hn. simplify_eq.
  pose proof (in_chain_parent W _ _ _ Hl Hn' Hp) as Hpc.
  rewrite (heap_ext_branch _ _ p _ (keeps_ext _ _ Hk) (wf_ancestors W p Hpc)). eauto.
Qed.

(** The chain part of a manager state. *)
Definition manager_ok (cfg : Settings) (m : ChainManager) : Prop :=
  chain_inv (m_heap m) (blockchain m) /\ bc_config (blockchain m) = cfg /\ m_config m = cfg.

Lemma chain_inv_query h bc bc' ls :
  chain_inv h bc -> getLastNodes h bc = Ret (bc', ls) ->
  chain_inv h bc' /\ bc_config bc' = bc_config bc.
Proof.
  intros I Hrun. destruct (getLastNodes_wf (ci_wf _ _ I)) as (l0 & ls' & Hrun' & Hd & _).
  rewrite Hrun in Hrun'. simplify_eq. split; [|done]. apply chain_inv_set_lastNode; [done|].
  apply (Hd l0). by left.
Qed.

Lemma on_flooded_chain m b m' outs :
  on_flooded m b = Ret (m', outs) -> chain_of m' = chain_of m /\ m_config m' = m_config m.
Proof.
  unfold on_flooded, send. repeat case_match; simpl; intros; by simplify_eq.
Qed.

Lemma manager_ok_step cfg m m' outs :
  settings_ok cfg -> manager_ok cfg m -> mstep m m' outs -> OutSyncDone ∉ outs -> manager_ok cfg m'.
Proof.
  intros Hcfg (I & Hc & Hm) Hstep Hsync. destruct Hstep as [|rg m bs m' outs Hrun|m b q m' outs _ Hrun|
    m bs m' outs Hrun|rg1 rg2 m b q m' outs _ Hrun| | |m bc ls Hrun]; try done.
  - unfold on_sync in Hrun. go_inv Hrun. destruct r as [h [bc|e]]; simplify_eq.
    { destruct Hsync. by left. }
    split; [|done]. simpl. eapply chain_inv_keeps; [|done]. by eapply UnmarshallBlockchain_keeps.
  - destruct (on_flooded_chain _ _ _ _ Hrun) as [[= H1 H2] H3].
    unfold manager_ok. by rewrite H1, H2, H3.
  - unfold on_downloaded in Hrun. go_inv Hrun. by simplify_eq.
  - unfold on_add in Hrun. go_inv Hrun. destruct r as [[h bc] err]. simpl in Hrun0. subst cfg.
    destruct (chain_inv_AddBlock _ _ _ _ _ _ _ _ I Hcfg Hrun0) as [I' Hc'].
    destruct err; [by simplify_eq|]. unfold GetLastHash in Hrun. go_inv Hrun. destruct r as [bc2 ?].
    unfold GetLastHash in Hrun1. go_inv Hrun1. destruct r as [bc3 ls]. go_inv Hrun1. simplify_eq.
    destruct (chain_inv_query _ _ _ _ I' Hrun2) as [I2 Hc2]. split; [done|]. simpl. by rewrite Hc2, Hc'.
  - destruct (chain_inv_query _ _ _ _ I Hrun) as [I' Hc']. split; [done|]. simpl. by rewrite Hc'.
Qed.

Lemma manager_reach_ok cfg m : settings_ok cfg -> manager_reach cfg m -> manager_ok cfg m.
Proof.
  intros Hcfg. induction 1 as [h now h' bc Hnew|m m' outs _ IH Hstep Hsync].
  - pose proof (chain_inv_new h cfg now) as I. rewrite Hnew in I. split; [done|].
    unfold NewBlockchain in Hnew. simpl in Hnew. by simplify_eq.
  - by eapply manager_ok_step.
Qed.

Lemma manager_ok_safe cfg m :
  settings_ok cfg -> manager_ok cfg m -> ledger_safe cfg (m_heap m) (blockchain m).
Proof. intros Hcfg (I & <- & _). by apply chain_inv_safe. Qed.

(** C9: The manager keeps its chain safe: from a fresh chain, whatever blocks peers
    flood or answer to downloads, whatever is mined, failed synchronizations
    and queries, in whatever order, until it takes over a peer's chain. *)
Theorem manager_chain_safe cfg m
    (Hcfg : settings_ok cfg) (Hreach : manager_reach cfg m) :
  ledger_safe cfg (m_heap m) (blockchain m).
Proof. apply manager_ok_safe; [done|]. by apply manager_reach_ok. Qed.
End safety.

(** ** Catching up after a download *)

Section catch_up.
Context `{Gob (list Operation)} (rg1 rg2 : RangeOrder).

(** The loop left to itself until both queues are empty, adding before it looks
    at the next received block. *)
Fixpoint drain (fuel : nat) (m : ChainManager) : go (ChainManager * list output) :=
  match addBlock m, receiveFloodedBlock m with
  | [], [] => Ret (m, [])
  | b :: q, _ =>
      match fuel with
      | O => NoFuel
      | S fuel =>
          '(m, outs) ← on_add rg1 rg2 (with_addBlock m q) b;
          '(m, outs') ← drain fuel m;
          Ret (m, outs ++ outs')
      end
  | [], b :: q =>
      match fuel with
      | O => NoFuel
      | S fuel =>
          '(m, outs) ← on_flooded (with_received m q) b;
          '(m, outs') ← drain fuel m;
          Ret (m, outs ++ outs')
      end
  end.

(** [todo] can be appended, oldest block first, to the branch [bs]. *)
Fixpoint segment (cfg : Settings) (bs : list Block) (todo : list Block) : Prop :=
  match todo with
  | [] => True
  | b :: rest =>
      (exists tip bs', bs = tip :: bs' /\ PreviousHash b = Hash tip) /\
      block_valid cfg bs b /\ segment cfg (b :: bs) rest
  end.

(** The messages for an added block. *)
Definition announce (b : Block) : list output :=
  [OutNewBlockAdded; OutSendBlock b; OutContinueMining].

(** [todo] is missing on top of [l]; all of it is among the received blocks, in
    any order, with repetitions and known blocks in between. *)
Record catching (m : ChainManager) (l : loc) (todo : list Block) : Prop := {
  ct_ok : l_ok (chain_of m);
  ct_in : in_chain (blockchain m) l;
  ct_seg : segment (bc_config (blockchain m)) (branch (m_heap m) l) todo;
  ct_nodup : NoDup (Hash <$> todo);
  ct_new : forall b : Block, b ∈ todo -> bc_m (blockchain m) !! Hash b = None;
  ct_recv : forall b : Block, b ∈ receiveFloodedBlock m ->
    b ∈ todo \/ is_Some (bc_m (blockchain m) !! Hash b);
  ct_cover : forall b : Block, b ∈ todo -> b ∈ receiveFloodedBlock m;
  ct_map : forall b : Block, b ∈ todo -> Hash b ∈ replayMap m;
  ct_cap : (length (receiveFloodedBlock m) <= receiveFloodedBlock_cap)%nat;
  ct_add : addBlock m = []
}.

(** The predecessor of a block of a segment: the block before it. *)
Lemma segment_prev cfg bs todo b rest (x : Block) :
  segment cfg bs todo -> todo = b :: rest -> x ∈ rest -> exists y : Block, y ∈ todo /\ PreviousHash x = Hash y.
Proof.
  revert bs todo b. induction rest as [|r rest IH]; intros bs todo b Hseg -> Hx; [by apply elem_of_nil in Hx|].
  destruct Hseg as (_ & _ & Hseg). apply elem_of_cons in Hx as [->|Hx].
  - exists b. split; [by left|]. destruct Hseg as ((tip & bs' & [= <- <-] & Hp) & _). done.
  - destruct (IH _ _ _ Hseg eq_refl Hx) as (y & Hy & Hp). exists y. split; [by right|done].
Qed.

Lemma HasBlock_None bc k : bc_m bc !! k = None -> HasBlock bc k = false.
Proof. intros Hk. unfold HasBlock. rewrite Hk. apply bool_decide_eq_false. by intros []. Qed.
Lemma HasBlock_Some bc k : is_Some (bc_m bc !! k) -> HasBlock bc k = true.
Proof. apply bool_decide_eq_true. Qed.

(** A received block that is not next is dropped if known, put back if not. *)
Lemma catching_skip m l b rest x q :
  catching m l (b :: rest) -> receiveFloodedBlock m = x :: q -> x <> b ->
  exists m' q', on_flooded (with_received m q) x = Ret (m', []) /\ catching m' l (b :: rest) /\
    receiveFloodedBlock m' = q ++ q' /\ (length q' <= 1)%nat /\ chain_of m' = chain_of m.
Proof.
  intros C Hq Hne. pose proof C as [Hok Hin Hseg Hnd Hnew Hrecv Hcov Hmap Hcap Hadd].
  rewrite Hq in Hrecv, Hcov, Hcap. simpl in Hcap.
  assert (forall y, y ∈ b :: rest -> y <> x -> y ∈ q) as Hcov'.
  { intros y Hy Hyx. by apply Hcov in Hy as [?|?]%elem_of_cons. }
  unfold on_flooded. destruct (bc_m (blockchain m) !! Hash x) as [lx|] eqn:Hx.
  - rewrite HasBlock_Some by (simpl; rewrite Hx; eauto). simpl. exists (with_received m q), [].
    split; [done|]. split; [|split_and!; [by rewrite app_nil_r|simpl; lia|done]]. split; simpl; try done.
    + intros y Hy. apply Hrecv. by right.
    + intros y Hy. apply Hcov'; [done|]. intros ->. rewrite Hnew in Hx by done. done.
    + lia.
  - assert (x ∈ b :: rest) as Hxt.
    { destruct (Hrecv x) as [?|[? ?]]; [by left|done|congruence]. }
    assert (x ∈ rest) as Hxr by (by apply elem_of_cons in Hxt as [?|?]).
    destruct (segment_prev _ _ _ b rest x Hseg eq_refl Hxr) as (y & Hy & Hp).
    rewrite !HasBlock_None by (simpl; rewrite ?Hp; auto). simpl.
    rewrite decide_True by (rewrite Hp; auto). unfold send. simpl.
    rewrite decide_True by (unfold receiveFloodedBlock_cap in *; lia). simpl.
    eexists _, [x]. split; [done|]. split; [|split_and!; [done|simpl; lia|done]]. split; simpl; try done.
    + intros z [Hz|Hz]%elem_of_app; [apply Hrecv; by right|left].
      by apply list_elem_of_singleton in Hz as ->.
    + intros z Hz. apply elem_of_app. destruct (decide (z = x)) as [->|]; [right; by left|left; auto].
    + intros z Hz. apply elem_of_union. right. auto.
    + rewrite length_app. simpl. lia.
Qed.

(** The next missing block is queued, then added. *)
Lemma catching_next m l b rest q :
  catching m l (b :: rest) -> receiveFloodedBlock m = b :: q ->
  let m1 := with_addBlock (with_received m q) [b] in
  on_flooded (with_received m q) b = Ret (m1, []) /\
  exists m' l', on_add rg1 rg2 (with_addBlock m1 []) b = Ret (m', announce b) /\
    catching m' l' rest /\ receiveFloodedBlock m' = q /\
    branch (m_heap m') l' = b :: branch (m_heap m) l.
Proof.
  intros C Hq m1. destruct C as [[W Hc] Hin Hseg Hnd Hnew Hrecv Hcov Hmap Hcap Hadd].
  simpl in W, Hc. rewrite Hq in Hrecv, Hcov, Hcap. simpl in Hcap.
  destruct Hseg as ((tip & bs & Hbr & Hp) & Hval & Hseg).
  apply NoDup_cons in Hnd as [Hnb Hnd].
  destruct (branch_head _ _ l W Hin) as (n & bs' & Hn & Hbr' & Hk). rewrite Hbr in Hbr'. simplify_eq.
  assert (bc_m (blockchain m) !! PreviousHash b = Some l) as Hprev by (by rewrite Hp).
  assert (bc_m (blockchain m) !! Hash b = None) as Hb by (apply Hnew; by left).
  split.
  { unfold on_flooded. simpl. rewrite HasBlock_None, HasBlock_Some by eauto. simpl.
    unfold send. rewrite Hadd, decide_True by (simpl; unfold addBlock_cap; lia). done. }
  destruct (AddBlock_outcome (m_heap m) (blockchain m) rg1 rg2 b W (cost_ok _ Hc)) as (h' & bc' & err & Hrun & Hout).
  destruct err as [e|]; [destruct Hout as (_ & _ & []); eauto|].
  destruct Hout as (p & pn & _ & Hp' & Hpn & _ & -> & ->). rewrite Hprev in Hp'. injection Hp' as <-.
  pose proof (linked_wf W b l pn Hprev Hpn Hb) as W'.
  assert (l_ok (linked_heap (m_heap m) b l pn, linked_chain (m_heap m) (blockchain m) b)) as Hok' by done.
  destruct (law_GetLastHash _ Hok') as ([h2 bc2] & t & ts & Hlast & V & _).
  simpl in Hlast. apply go_bind_Ret_inv in Hlast as ([bc3 s3] & Hlast & [= <- <- ->]).
  assert (forall k, bc_m bc3 !! k = bc_m (linked_chain (m_heap m) (blockchain m) b) !! k /\
    bc_config bc3 = bc_config (blockchain m)) as Hsame.
  { intros k. unfold GetLastHash in Hlast. go_inv Hlast. destruct r as [bc4 ls].
    unfold getLastNodes, getLastNodes_fuel in Hlast0. go_inv Hlast0. simplify_eq. go_inv Hlast. simplify_eq. done. }
  exists (with_chain (with_addBlock m1 []) (linked_heap (m_heap m) b l pn) bc3), (length (m_heap m)).
  split; [unfold on_add; simpl; rewrite Hrun; simpl; rewrite Hlast; done|].
  pose proof (linked_branch_new W b l pn Hprev Hpn) as Hbn. rewrite Hbr in Hbn. rewrite Hbr.
  split; [|done]. split; simpl; try done.
  - apply (sv_ok _ _ V), Hok'.
  - exists (Hash b). rewrite (proj1 (Hsame _)). simpl. apply lookup_insert_eq.
  - rewrite (proj2 (Hsame EmptyString)), Hbn, <- Hbr. done.
  - intros x Hx. rewrite (proj1 (Hsame _)). simpl. rewrite lookup_insert_ne; [apply Hnew; by right|].
    intros Heq. apply Hnb. rewrite Heq. by apply list_elem_of_fmap_2.
  - intros x Hx. rewrite (proj1 (Hsame _)). simpl. rewrite lookup_insert.
    destruct (Hrecv x) as [[->|?]%elem_of_cons|?]; [by right|right; rewrite decide_True by done; eauto|by left|].
    right. case_decide; eauto.
  - intros x Hx. specialize (Hcov x). destruct (proj1 (elem_of_cons _ _ _) (Hcov (list_elem_of_further _ _ _ Hx))) as [->|?]; [|done].
    exfalso. apply Hnb. by apply list_elem_of_fmap_2.
  - intros x Hx. apply Hmap. by right.
  - lia.
Qed.

Lemma drain_flooded fuel m b q m' outs :
  addBlock m = [] -> receiveFloodedBlock m = b :: q -> on_flooded (with_received m q) b = Ret (m', outs) ->
  drain (S fuel) m = ('(m2, outs') ← drain fuel m'; Ret (m2, outs ++ outs')).
Proof. intros Ha Hq Hrun. cbn [drain]. by rewrite Ha, Hq, Hrun. Qed.

Lemma drain_add fuel m b q m' outs :
  addBlock m = b :: q -> on_add rg1 rg2 (with_addBlock m q) b = Ret (m', outs) ->
  drain (S fuel) m = ('(m2, outs') ← drain fuel m'; Ret (m2, outs ++ outs')).
Proof. intros Ha Hrun. cbn [drain]. by rewrite Ha, Hrun. Qed.

Lemma drain_nil {A} (c : go (A * list output)) : ('(m, o) ← c; Ret (m, [] ++ o)) = c.
Proof. by destruct c as [[]| | |]. Qed.

(** From one missing block to the next. *)
Lemma catching_phase l b rest pre : forall m post,
  catching m l (b :: rest) -> receiveFloodedBlock m = pre ++ b :: post -> b ∉ pre ->
  exists m' l', catching m' l' rest /\
    (length (receiveFloodedBlock m') < length (receiveFloodedBlock m))%nat /\
    branch (m_heap m') l' = b :: branch (m_heap m) l /\
    forall fuel, drain (S (S (length pre + fuel))) m
      = ('(m2, outs) ← drain fuel m'; Ret (m2, announce b ++ outs)).
Proof.
  induction pre as [|x pre IH]; intros m post C Hq Hnb.
  - destruct (catching_next m l b rest post C Hq) as (Hf & m' & l' & Hadd & C' & Hq' & Hbr).
    exists m', l'. rewrite Hq', Hq. split_and!; [done|simpl; lia|done|]. intros fuel. simpl length. rewrite Nat.add_0_l.
    rewrite (drain_flooded _ _ _ _ _ _ (ct_add _ _ _ C) Hq Hf), drain_nil.
    by rewrite (drain_add _ (with_addBlock (with_received m post) [b]) b [] _ _ eq_refl Hadd).
  - apply not_elem_of_cons in Hnb as [Hxb Hnb].
    destruct (catching_skip m l b rest x (pre ++ b :: post) C Hq) as (m1 & q' & Hf & C1 & Hq1 & Hlen & Hch);
      [congruence|].
    rewrite <- app_assoc in Hq1. simpl in Hq1.
    destruct (IH m1 (post ++ q') C1 Hq1 Hnb) as (m' & l' & C' & Hl & Hbr & Hd).
    exists m', l'. injection Hch as Hh _. rewrite Hh in Hbr. rewrite Hq1, length_app in Hl. simpl in Hl.
    rewrite length_app in Hl. split_and!; [done|rewrite Hq; simpl; rewrite length_app; simpl; lia|done|].
    intros fuel. simpl length. rewrite Nat.add_succ_l.
    rewrite (drain_flooded _ _ _ _ _ _ (ct_add _ _ _ C) Hq Hf), drain_nil. apply Hd.
Qed.

(** Only known blocks are left: they are dropped. *)
Lemma catching_done l q : forall m fuel,
  catching m l [] -> receiveFloodedBlock m = q -> (length q <= fuel)%nat ->
  exists m', drain fuel m = Ret (m', []) /\ chain_of m' = chain_of m /\
    addBlock m' = [] /\ receiveFloodedBlock m' = [].
Proof.
  induction q as [|x q IH]; intros m fuel C Hq Hf.
  - exists m. destruct fuel; simpl; by rewrite (ct_add _ _ _ C), Hq.
  - destruct fuel as [|fuel]; simpl in Hf; [lia|].
    assert (on_flooded (with_received m q) x = Ret (with_received m q, [])) as Hrun.
    { unfold on_flooded. rewrite HasBlock_Some; [done|]. simpl.
      destruct (ct_recv _ _ _ C x) as [Hx|?]; [rewrite Hq; by left|by apply elem_of_nil in Hx|done]. }
    rewrite (drain_flooded _ _ _ _ _ _ (ct_add _ _ _ C) Hq Hrun), drain_nil.
    destruct (IH (with_received m q) fuel) as (m' & ? & ? & ? & ?); [|done|lia|by exists m'].
    destruct C as [? ? ? ? ? Hrecv ? ? Hcap ?]. rewrite Hq in Hrecv, Hcap. simpl in Hcap.
    split; simpl; try done; [intros y Hy; apply Hrecv; by right|by intros y Hy%elem_of_nil|lia].
Qed.

Lemma catching_drain todo : forall m l N fuel,
  catching m l todo -> (length (receiveFloodedBlock m) <= N)%nat ->
  (length todo * S N + N <= fuel)%nat ->
  exists m' l', drain fuel m = Ret (m', todo ≫= announce) /\
    addBlock m' = [] /\ receiveFloodedBlock m' = [] /\
    l_ok (chain_of m') /\ in_chain (blockchain m') l' /\
    branch (m_heap m') l' = reverse todo ++ branch (m_heap m) l.
Proof.
  induction todo as [|b rest IH]; intros m l N fuel C HN Hf.
  - destruct (catching_done l _ m fuel C eq_refl) as (m' & Hrun & Hch & Ha & Hr); [simpl in Hf; lia|].
    exists m', l. pose proof Hch as [= Hh Hb]. rewrite Hch, Hb, Hh.
    split_and!; [done..|apply (ct_ok _ _ _ C)|apply (ct_in _ _ _ C)|done].
  - destruct (list_elem_of_split_l _ _ (ct_cover _ _ _ C b (list_elem_of_here _ _))) as (pre & post & Hq & Hnb).
    destruct (catching_phase l b rest pre m post C Hq Hnb) as (m1 & l1 & C1 & Hl1 & Hbr & Hd).
    assert (length pre < N)%nat as Hpre by (rewrite Hq, length_app in HN; simpl in HN; lia).
    destruct (IH m1 l1 N (fuel - S (S (length pre)))%nat C1) as (m' & l' & Hrun & Ha & Hr & Hok & Hin & Hb);
      [lia|simpl in Hf; lia|].
    exists m', l'. replace fuel with (S (S (length pre + (fuel - S (S (length pre)))))) by (simpl in Hf; lia).
    rewrite Hd, Hrun. split_and!; [done..|]. rewrite Hb, Hbr, reverse_cons, <- app_assoc. done.
Qed.

Lemma send_all_ok blocks : forall q,
  (length q + length blocks <= receiveFloodedBlock_cap)%nat -> send_all blocks q = Ret (q ++ blocks).
Proof.
  induction blocks as [|b blocks IH]; intros q Hlen; simpl in *; [by rewrite app_nil_r|].
  unfold send. rewrite decide_True by lia. simpl. rewrite IH by (rewrite length_app; simpl; lia).
  by rewrite <- app_assoc.
Qed.

Lemma fold_hashes (blocks : list Block) (r : gset string) k :
  k ∈ fold_left (fun r (b : Block) => {[Hash b]} ∪ r) blocks r <-> k ∈ Hash <$> blocks \/ k ∈ r.
Proof. revert r. induction blocks as [|b blocks IH]; intros r; simpl; [set_solver|]. rewrite IH. set_solver. Qed.

(** A download that closes the gap is added completely, whatever the order and
    the repetitions in it. *)
Lemma download_drain m l todo blocks fuel :
  l_ok (chain_of m) -> in_chain (blockchain m) l ->
  segment (bc_config (blockchain m)) (branch (m_heap m) l) todo ->
  NoDup (Hash <$> todo) -> (forall b : Block, b ∈ todo -> bc_m (blockchain m) !! Hash b = None) ->
  (forall b : Block, b ∈ blocks ++ replayQueue m -> b ∈ todo \/ is_Some (bc_m (blockchain m) !! Hash b)) ->
  (forall b : Block, b ∈ todo -> b ∈ blocks ++ replayQueue m) ->
  (forall b : Block, b ∈ replayQueue m -> Hash b ∈ replayMap m) ->
  addBlock m = [] -> receiveFloodedBlock m = [] -> replayQueue m <> [] ->
  (length (blocks ++ replayQueue m) <= receiveFloodedBlock_cap)%nat ->
  (S (length todo) * S (length (blocks ++ replayQueue m)) <= fuel)%nat ->
  exists m1 m' l', on_downloaded m blocks = Ret (m1, []) /\
    drain fuel m1 = Ret (m', todo ≫= announce) /\
    addBlock m' = [] /\ receiveFloodedBlock m' = [] /\
    l_ok (chain_of m') /\ in_chain (blockchain m') l' /\
    branch (m_heap m') l' = reverse todo ++ branch (m_heap m) l.
Proof.
  intros Hok Hin Hseg Hnd Hnew Hsub Hcov Hmap Ha Hr Hne Hcap Hf.
  unfold on_downloaded. destruct (replayQueue m) as [|x rq] eqn:Hrq; [done|].
  change ((x :: rq) !! 0%nat) with (Some x). simpl. rewrite send_all_ok by (rewrite Hr; done).
  rewrite Hr, app_nil_l. simpl.
  set (m1 := with_replay _ _ _). exists m1.
  edestruct (catching_drain todo m1 l (length (blocks ++ x :: rq)) fuel) as (m' & l' & Hd & Hrest).
  - split; simpl; try done. intros b Hb. rewrite fold_hashes. apply Hcov in Hb as [Hb|Hb]%elem_of_app; [left|auto].
    by apply list_elem_of_fmap_2.
  - done.
  - simpl in Hf. simpl. lia.
  - exists m', l'. split; [reflexivity|]. split; [done|exact Hrest].
Qed.
End catch_up.

(** ** What a branch of a chain looks like *)

Section branches.
Context `{Gob (list Operation)} {h : heap} {bc : Blockchain} (W : wf h bc).

Lemma branch_known l : in_chain bc l -> forall x : Block, x ∈ branch h l ->
  exists lx, bc_m bc !! Hash x = Some lx /\ (depth h lx <= depth h l)%nat.
Proof using W.
  revert l. apply (chain_ind W (fun l => forall x : Block, x ∈ branch h l -> exists lx, _)).
  - intros x. destruct (wf_genesis _ _ W) as (g & Hg & Hgp & Hgm).
    rewrite (branch_cons W _ _ (in_chain_genesis W) Hg), Hgp.
    intros ->%list_elem_of_singleton. eauto.
  - intros p pn c cn Hp Hpn Hc Hcn Hpar _ IH x. rewrite (branch_cons W _ _ Hc Hcn), Hpar.
    destruct (wf_lookup W c Hc) as (cn' & ? & Hk). simplify_eq.
    intros [->|Hx]%elem_of_cons; [eauto|]. destruct (IH x Hx) as (lx & ? & ?). exists lx. split; [done|].
    rewrite (depth_child h c cn p (ancestors h p)); eauto using wf_ancestors.
Qed.

Lemma branch_hashes l : in_chain bc l -> NoDup (Hash <$> branch h l).
Proof using W.
  revert l. apply (chain_ind W).
  - destruct (wf_genesis _ _ W) as (g & Hg & Hgp & Hgm).
    rewrite (branch_cons W _ _ (in_chain_genesis W) Hg), Hgp. apply NoDup_singleton.
  - intros p pn c cn Hp Hpn Hc Hcn Hpar _ IH. rewrite (branch_cons W _ _ Hc Hcn), Hpar.
    rewrite fmap_cons. apply NoDup_cons. split; [|done].
    intros (x & Heq & Hx)%list_elem_of_fmap. destruct (branch_known p Hp x Hx) as (lx & Hlx & Hd).
    destruct (wf_lookup W c Hc) as (cn' & ? & Hk). simplify_eq. rewrite <- Heq, Hk in Hlx. simplify_eq.
    rewrite (depth_child h lx cn p (ancestors h p)) in Hd; eauto using wf_ancestors. lia.
Qed.

Lemma branch_linked l : in_chain bc l -> forall (b t : Block) bs,
  b :: t :: bs `suffix_of` branch h l -> PreviousHash b = Hash t.
Proof using W.
  revert l. apply (chain_ind W (fun l => forall (b t : Block) bs,
    b :: t :: bs `suffix_of` branch h l -> PreviousHash b = Hash t)).
  - intros b t bs [k Hk]. destruct (wf_genesis _ _ W) as (g & Hg & Hgp & Hgm).
    rewrite (branch_cons W _ _ (in_chain_genesis W) Hg), Hgp in Hk.
    apply (f_equal length) in Hk. rewrite length_app in Hk. simpl in Hk. lia.
  - intros p pn c cn Hp Hpn Hc Hcn Hpar _ IH b t bs Hsuf.
    rewrite (branch_cons W _ _ Hc Hcn), Hpar in Hsuf. apply suffix_cons_inv in Hsuf as [[= -> Hbr]|Hsuf]; [|eauto].
    destruct (wf_lookup W c Hc) as (cn' & ? & Hk). simplify_eq.
    assert (c <> genesis bc) as Hg.
    { intros ->. destruct (wf_genesis _ _ W) as (g & ? & Hgp & _). congruence. }
    destruct (wf_parent _ _ W _ _ _ Hk Hcn Hg) as (p' & Hp' & Hkp). simplify_eq.
    destruct (branch_head h bc p W Hp) as (n & bs' & Hn & Hb & Hkn). rewrite Hb in Hbr. simplify_eq.
    destruct (wf_node _ _ W _ _ Hkp) as (n' & ? & <-). by simplify_eq.
Qed.

(** The upper part of a branch is a segment on its lower part. *)
Lemma branch_segment cfg l todo bs :
  (forall b bs, b :: bs `suffix_of` branch h l -> bs <> [] -> block_valid cfg bs b) ->
  in_chain bc l -> bs <> [] -> reverse todo ++ bs `suffix_of` branch h l -> segment cfg bs todo.
Proof using W.
  intros Hv Hl. revert bs. induction todo as [|b rest IH]; intros bs Hne Hsuf; [done|].
  rewrite reverse_cons, <- app_assoc in Hsuf. simpl in Hsuf.
  assert (b :: bs `suffix_of` branch h l) as Hs by (etransitivity; [|exact Hsuf]; by eexists).
  simpl. split_and!; [|auto|by apply IH].
  destruct bs as [|t bs]; [done|]. exists t, bs. split; [done|]. by eapply branch_linked.
Qed.
End branches.

(** ** Theorems *)

Section theorems.
Context `{Gob (list Operation)}.

(** What a peer answers to [GetPreviousBlocks]: all of [todo] and known blocks. *)
Lemma answer_covers mb lb b todo base :
  wf (m_heap mb) (blockchain mb) -> bc_m (blockchain mb) !! Hash b = Some lb ->
  branch (m_heap mb) lb = b :: reverse todo ++ base -> todo <> [] -> (length todo < 500)%nat ->
  exists blocks, GetPreviousBlocks_oldest_first mb (PreviousHash b) 500 = Ret blocks /\
    (length blocks <= 501)%nat /\ (forall x, x ∈ todo -> x ∈ blocks) /\
    (forall x, x ∈ blocks -> x ∈ todo \/ x ∈ base) /\
    exists t, t ∈ todo /\ PreviousHash b = Hash t.
Proof.
  intros W Hb Hbr Hne Hlen. assert (in_chain (blockchain mb) lb) as Hlb by (by exists (Hash b)).
  destruct (reverse todo) as [|t rtodo] eqn:Hrev; [by apply (f_equal reverse) in Hrev; rewrite reverse_involutive in Hrev|].
  assert (PreviousHash b = Hash t) as Hp.
  { apply (branch_linked W lb Hlb b t (rtodo ++ base)). rewrite Hbr. done. }
  destruct (branch_known W lb Hlb t) as (lt & Hlt & _); [rewrite Hbr; right; by left|].
  assert (branch (m_heap mb) lt = t :: rtodo ++ base) as Hbrt.
  { destruct (wf_lookup W lb Hlb) as (n & Hn & _). pose proof (branch_cons W _ _ Hlb Hn) as Hc.
    rewrite Hbr in Hc. destruct (parent n) as [p|] eqn:Hpar; [|done].
    pose proof (in_chain_parent W _ _ _ Hlb Hn Hpar) as Hpc. injection Hc as _ Hc.
    destruct (branch_head _ _ p W Hpc) as (pn & bs & _ & Hb' & Hk). rewrite Hb' in Hc.
    injection Hc as Hc1 Hc2. subst. rewrite Hk in Hlt. injection Hlt as <-. by rewrite Hb'. }
  unfold GetPreviousBlocks_oldest_first. rewrite (GetPreviousBlocks_eq W) by lia. rewrite Hp, Hlt. simpl.
  rewrite Hbrt. eexists. split; [done|]. rewrite reverse_half_eq.
  assert (forall x, x ∈ todo <-> x ∈ t :: rtodo) as Htodo by (intros x; by rewrite <- Hrev, elem_of_reverse).
  assert (length (t :: rtodo) = length todo) as Hl by (by rewrite <- Hrev, length_reverse).
  split_and!.
  - rewrite length_reverse. simpl. rewrite length_take. lia.
  - intros x Hx. rewrite elem_of_reverse. apply elem_of_app. right. apply Htodo in Hx.
    change (t :: rtodo ++ base) with ((t :: rtodo) ++ base).
    rewrite take_app_ge by lia. apply elem_of_app. by left.
  - intros x Hx. rewrite elem_of_reverse in Hx. rewrite Htodo, <- elem_of_app. simpl.
    apply elem_of_app in Hx as [Hx|Hx].
    2: { apply elem_of_take in Hx as (i & Hi & _). by eapply list_elem_of_lookup_2. }
    apply list_elem_of_singleton in Hx as ->. by left.
  - exists t. split; [|done]. apply Htodo. by left.
Qed.

Lemma on_flooded_missing m (b : Block) :
  bc_m (blockchain m) !! Hash b = None -> bc_m (blockchain m) !! PreviousHash b = None ->
  PreviousHash b ∉ replayMap m -> replayQueue m = [] ->
  on_flooded m b = Ret (with_replay m [b] ({[Hash b]} ∪ replayMap m), [OutDownloadBlock b]).
Proof.
  intros Hb Hp Hr Hq. unfold on_flooded. rewrite !HasBlock_None by done. simpl.
  by rewrite decide_False, Hq by done.
Qed.

(** C8: A miner that is behind catches up. It is flooded a block whose predecessor
    it lacks; the peer has the block on a branch that goes through the miner's
    node [la], fewer than 500 blocks earlier. Then the miner asks for a
    download, and after the peer's answer the loop adds the missing blocks and
    the flooded one, announces each of them, and has the branch of the peer. *)
Theorem peer_download_catches_up rg1 rg2 fuel m mb b la lb todo
    (Hok : l_ok (chain_of m)) (Hpeer : chain_inv (m_heap mb) (blockchain mb))
    (Hcfg : bc_config (blockchain mb) = bc_config (blockchain m))
    (Hlb : bc_m (blockchain mb) !! Hash b = Some lb) (Hla : in_chain (blockchain m) la)
    (Hgap : branch (m_heap mb) lb = b :: reverse todo ++ branch (m_heap m) la)
    (Hne : todo <> []) (Hlen : (length todo < 500)%nat)
    (Hnew : forall x : Block, x ∈ todo ++ [b] -> bc_m (blockchain m) !! Hash x = None)
    (Hadd : addBlock m = []) (Hrecv : receiveFloodedBlock m = []) (Hqueue : replayQueue m = [])
    (Hmap : PreviousHash b ∉ replayMap m)
    (Hfuel : (S (S (length todo)) * 503 <= fuel)%nat) :
  exists m1 blocks m2 m3 l,
    on_flooded m b = Ret (m1, [OutDownloadBlock b]) /\
    GetPreviousBlocks_oldest_first mb (PreviousHash b) 500 = Ret blocks /\
    on_downloaded m1 blocks = Ret (m2, []) /\
    drain rg1 rg2 fuel m2 = Ret (m3, (todo ++ [b]) ≫= announce) /\
    in_chain (blockchain m3) l /\ branch (m_heap m3) l = branch (m_heap mb) lb.
Proof.
  pose proof (ci_wf _ _ Hpeer) as Wb. pose proof Hok as [Wa _]. simpl in Wa.
  assert (in_chain (blockchain mb) lb) as Hlb' by (by exists (Hash b)).
  destruct (answer_covers mb lb b todo _ Wb Hlb Hgap Hne Hlen) as (blocks & Hans & Hbl & Hcov & Hsub & t & Ht & Hp).
  eexists _, blocks. rewrite on_flooded_missing; [|apply Hnew; set_solver|rewrite Hp; apply Hnew; set_solver|done|done].
  set (m1 := with_replay m [b] _).
  assert (branch (m_heap mb) lb = reverse (todo ++ [b]) ++ branch (m_heap m) la) as Hgap'
    by (by rewrite reverse_app).
  destruct (download_drain rg1 rg2 m1 la (todo ++ [b]) blocks fuel) as (m2 & m3 & l & Hd & Hrun & _ & _ & _ & Hl & Hbr);
    simpl; try done.
  - apply (branch_segment Wb (bc_config (blockchain m)) lb); [|done| |by rewrite <- Hgap'].
    + rewrite <- Hcfg. exact (chain_inv_blocks _ _ Hpeer lb Hlb').
    + destruct (branch_head _ _ la Wa Hla) as (? & ? & _ & -> & _). done.
  - pose proof (branch_hashes Wb lb Hlb') as Hnd. rewrite Hgap', fmap_app in Hnd.
    apply NoDup_app in Hnd as [Hnd _]. by rewrite reverse_Permutation in Hnd.
  - intros x [[Hx|Hx]%Hsub|Hx%list_elem_of_singleton]%elem_of_app; [left; set_solver| |left; set_solver].
    right. destruct (branch_known Wa la Hla x Hx) as (lx & ? & _). eauto.
  - intros x Hx. apply elem_of_app in Hx as [Hx|Hx]; apply elem_of_app; [left; auto|by right].
  - intros x ->%list_elem_of_singleton. set_solver.
  - rewrite length_app. simpl. unfold receiveFloodedBlock_cap. lia.
  - rewrite !length_app. simpl. nia.
  - exists m2, m3, l. rewrite Hbr, Hgap'. split_and!; done.
Qed.

(** A download nobody waits for crashes the manager: after one answer the
    replay queue is empty, and the log message reads its first element. *)
Theorem second_download_panics m blocks m' outs blocks'
    (Hfirst : on_downloaded m blocks = Ret (m', outs)) :
  on_downloaded m' blocks' = Panic.
Proof. unfold on_downloaded in Hfirst. go_inv Hfirst. by simplify_eq. Qed.
End theorems.

(** C21: The manager, as the block chain does, implements the ledger interface. *)
Theorem manager_refines_ledger : LedgerLaws ChainManager /\ LedgerLaws (heap * Blockchain).
Proof. split; [apply manager_laws|apply bc_laws]. Qed.
