(* ===== verification/Rfslib.v ===== *)
(** Package [rfslib]: records, errors, and the client side of the RPC
    interface: the class [RFS] and its instance [RFSClient] over the calls that a
    miner serves; [remote] is how [net/rpc] carries a server method's result to
    the caller, or fails. *)
From S2P Require Import Prelude GoLib.
Local Open Scope Z_scope.

(** A [[512]byte]: a string of that length. *)
Definition record_size : nat := 512.
Definition is_Record (r : string) : Prop := String.length r = record_size.
Definition zero_Record : string := string_of_bytes (replicate record_size 0).

(** [copy(record[:], data)] on a zero record. *)
Definition copy_record (data : string) : string :=
  string_of_bytes (take record_size (bytes_of_string data ++ replicate record_size 0)).

Record AppendRecordInfo : Type := { ar_Data : string; ar_Fname : string }.
Record ReadRecordInfo : Type := { rr_RecNum : Z; rr_Fname : string }.

Inductive rfs_error : Type :=
| DisconnectedError (minerAddr : string)
| BadFilenameError (fname : string)
| FileDoesNotExistError (fname : string)
| FileExistsError (fname : string)
| FileMaxLenReachedError (fname : string).

Definition Error (e : rfs_error) : string :=
  match e with
  | DisconnectedError s => "RFS: Disconnected from the bclib [" +:+ s +:+ "]"
  | BadFilenameError s => "RFS: Filename [" +:+ s +:+ "] has the wrong length"
  | FileDoesNotExistError s =>
      "RFS: Cannot open file [" +:+ s +:+ "] in D mode as it does not exist locally"
  | FileExistsError s =>
      "RFS: Cannot create file with filename [" +:+ s +:+ "] as it already exists"
  | FileMaxLenReachedError s => "RFS: File [" +:+ s +:+ "] has reached its maximum length"
  end.

(** What a client method returns as its [error]: one of the package's errors, the
    [rpc.ServerError] made from the message of the server's error, or an error of
    [net/rpc] itself. *)
Inductive client_error : Type :=
| LocalError (e : rfs_error)
| ServerError (msg : string)
| RpcError (msg : string).

(** [rpc.Client.Call] of a method that ends as [r]. [lost]: the error of
    [net/rpc] ([ErrShutdown], an unexpected end of file, ...) when the connection
    does not last until the reply; then the client learns nothing of [r]. *)
Definition remote {A} (lost : option string) (r : go (rfs_error + A)) : go (client_error + A) :=
  match lost with
  | Some msg => Ret (inl (RpcError msg))
  | None =>
      r ← r;
      Ret match r with
          | inl e => inl (ServerError (Error e))
          | inr a => inr a
          end
  end.

(** A connection to a miner: the calls it serves. *)
Record Remote : Type := {
  call_CreateFile : string -> go (client_error + bool);
  call_ListFiles : Z -> go (client_error + list string);
  call_TotalRecs : string -> go (client_error + Z);
  call_ReadRecord : ReadRecordInfo -> go (client_error + string);
  call_AppendRecord : AppendRecordInfo -> go (client_error + Z)
}.

Record RFSClient : Type := mkClient { client : Remote }.

(** The interface of the library. A nil error and no other result is [inr tt];
    [ReadRec] returns what it stores in [*record]. *)
Class RFS (R : Type) : Type := {
  rfs_CreateFile : R -> string -> go (client_error + unit);
  rfs_ListFiles : R -> go (client_error + list string);
  rfs_TotalRecs : R -> string -> go (client_error + Z);
  rfs_ReadRec : R -> string -> Z -> go (client_error + string);
  rfs_AppendRec : R -> string -> string -> go (client_error + Z)
}.

(** [resolve]: whether [net.ResolveTCPAddr] accepts an address; [dial]: the
    connection [rpc.Dial] makes, if it does. *)
Definition Initialize (resolve : string -> bool) (dial : string -> option Remote)
    (localAddr minerAddr : string) : rfs_error + RFSClient :=
  if negb (resolve localAddr) then inl (DisconnectedError localAddr)
  else if negb (resolve minerAddr) then inl (DisconnectedError minerAddr)
  else match dial minerAddr with
  | None => inl (DisconnectedError minerAddr)
  | Some conn => inr (mkClient conn)
  end.

(** The methods of [RFSClient]. *)
Definition client_CreateFile (c : RFSClient) (fname : string) : go (client_error + unit) :=
  if decide (64 < str_len fname) then Ret (inl (LocalError (BadFilenameError fname)))
  else
    r ← call_CreateFile (client c) fname;
    match r with
    | inl err => Ret (inl err)
    | inr _ => Ret (inr tt)
    end.

Definition client_ListFiles (c : RFSClient) : go (client_error + list string) :=
  r ← call_ListFiles (client c) 1;
  match r with
  | inl err => Ret (inl err)
  | inr reply => Ret (inr reply)
  end.

Definition client_TotalRecs (c : RFSClient) (fname : string) : go (client_error + Z) :=
  r ← call_TotalRecs (client c) fname;
  match r with
  | inl err => Ret (inl err)
  | inr reply => Ret (inr (uint16 reply))
  end.

Definition client_ReadRec (c : RFSClient) (fname : string) (recordNum : Z) : go (client_error + string) :=
  r ← call_ReadRecord (client c) {| rr_RecNum := recordNum; rr_Fname := fname |};
  match r with
  | inl err => Ret (inl err)
  | inr reply => Ret (inr reply)
  end.

Definition client_AppendRec (c : RFSClient) (fname record : string) : go (client_error + Z) :=
  r ← call_AppendRecord (client c) {| ar_Data := record; ar_Fname := fname |};
  match r with
  | inl err => Ret (inl err)
  | inr reply => Ret (inr (uint16 reply))
  end.

#[export] Instance RFSClient_RFS : RFS RFSClient := {|
  rfs_CreateFile := client_CreateFile;
  rfs_ListFiles := client_ListFiles;
  rfs_TotalRecs := client_TotalRecs;
  rfs_ReadRec := client_ReadRec;
  rfs_AppendRec := client_AppendRec
|}.

(** ** Properties *)

Lemma copy_record_id r : is_Record r -> copy_record r = r.
Proof.
  unfold is_Record, copy_record. intros Hr. rewrite take_app_length'; [apply string_of_bytes_of_string|].
  by rewrite length_bytes_of_string.
Qed.

Lemma copy_record_length data : is_Record (copy_record data).
Proof.
  unfold is_Record, copy_record.
  rewrite length_string_of_bytes, length_take, length_app, length_replicate. lia.
Qed.

(** Addresses that do not resolve or do not answer give a connection error;
    otherwise the client uses the dialed connection. *)
Lemma Initialize_ok resolve dial l m c :
  Initialize resolve dial l m = inr c <-> resolve l = true /\ resolve m = true /\ dial m = Some (client c).
Proof. unfold Initialize. destruct c, (resolve l), (resolve m), (dial m); naive_solver. Qed.
