(* ===== verification/Server.v ===== *)
(** [p2p/rpc.go]: the server a miner runs for its clients, over any ledger. The
    handlers run under the server's locks, so each piece between two waits is
    one step; sends on channels are outputs. *)
From S2P Require Import Prelude GoLib Settings Operation Block Pow Blockchain ChainTheory.
From S2P Require Import Ledger LedgerTheory AddBlock QueryTheory RFSLedger Rfslib.
Local Open Scope Z_scope.

(** A client's operation, and the channel its call waits on. *)
Record PendingOperation : Type := mkPending {
  operation : Operation;
  Ready : nat
}.

(** [nextChan] numbers the channels made so far. A [map[string]struct{}] is a
    map to [unit]. *)
Record Server : Type := mkServer {
  Address : string;
  minerID : string;
  confirmedFiles : gmap string unit;
  clientOps : gmap string PendingOperation;
  isConnected : bool;
  nextChan : nat
}.

Inductive server_out : Type :=
| SReady (ch : nat) (success : bool)
| SReceivedOp (op : Operation)
| SUpdateFileCache.

Definition with_confirmed (s : Server) (f : gmap string unit) : Server :=
  mkServer (Address s) (minerID s) f (clientOps s) (isConnected s) (nextChan s).
Definition with_clientOps (s : Server) (ops : gmap string PendingOperation) : Server :=
  mkServer (Address s) (minerID s) (confirmedFiles s) ops (isConnected s) (nextChan s).

(** [resolve]: the result of [net.ResolveTCPAddr]. *)
Definition NewRPCServer (resolve : string -> result string) (config : Settings) : result Server :=
  match resolve (IncomingClientsAddr config) with
  | Err e => Err e
  | Ok addr => Ok (mkServer addr (cfg_MinerID config) ∅ ∅ false 0)
  end.

Section server.
Context {L : Type} `{RFSLedger L} `{Gob Operation}.

(** The set of the names in a list. *)
Definition name_set (fnames : list string) (m : gmap string unit) : gmap string unit :=
  fold_left (fun m fname => <[fname := tt]> m) fnames m.

(** [register], [listen]: the errors of registering the handlers and of opening
    the port, if any. The threads it starts are in [Threads], its accept loop in
    [Listener]. *)
Definition startListening (register : option string) (listen : string -> option string)
    (rg : RangeOrder) (s : Server) (l : L) : go (L * (Server * option string)) :=
  '(l, fnames) ← ld_ListFiles rg l;
  let s := with_confirmed s (name_set fnames (confirmedFiles s)) in
  match register with
  | Some err => Ret (l, (s, Some err))
  | None => Ret (l, (s, listen (Address s)))
  end.

(** One iteration of the thread [updateConfirmedFiles]. *)
Definition updateConfirmedFiles (rg : RangeOrder) (s : Server) (l : L) : go (L * Server) :=
  '(l, files) ← ld_ListFiles rg l;
  Ret (l, with_confirmed s (name_set files ∅)).

(** One iteration of the thread [updateConnectedStatus]. *)
Definition updateConnectedStatus (s : Server) (connected : bool) : Server :=
  mkServer (Address s) (minerID s) (confirmedFiles s) (clientOps s) connected (nextChan s).

(** What the other threads do for an iteration of [checkConfirmedOperations]:
    whether they leave it the lock for reading and then for writing, whether a
    channel [Ready] has room, which operations [buildPendingOperations] receives,
    and whether [updateConfirmedFiles] receives the last message. *)
Record Others : Type := mkOthers {
  grant_RLock : bool;
  has_room : nat -> bool;
  receives_op : Operation -> bool;
  grant_Lock : bool;
  receives_update : bool
}.

(** Blocked for ever unless the other side does its part. *)
Definition await (served : bool) : go unit := if served then Ret tt else Stuck.

(** The first loop of [checkConfirmedOperations]: the operations to remove and
    the messages. *)
Fixpoint check_pending (e : Others) (ops : list (string * PendingOperation)) (l : L)
    : go (L * (list PendingOperation * list server_out)) :=
  match ops with
  | [] => Ret (l, ([], []))
  | (_, op) :: ops =>
      '(l, c) ← ld_CheckOpConfirmed l (operation op);
      '(removed, ready) ←
        (if confirmed c && negb (otherMiner c) then
           _ ← await (has_room e (Ready op)); Ret ([op], [SReady (Ready op) true])
         else if confirmed c && otherMiner c then
           _ ← await (has_room e (Ready op)); Ret ([op], [SReady (Ready op) false])
         else Ret ([], []));
      resend ←
        (if negb (exists_ c) then
           _ ← await (receives_op e (operation op)); Ret [SReceivedOp (operation op)]
         else Ret []);
      '(l, (removeOps, outs)) ← check_pending e ops l;
      Ret (l, (removed ++ removeOps, ready ++ resend ++ outs))
  end.

(** One iteration of the thread [checkConfirmedOperations]. *)
Definition checkConfirmedOperations (rg : RangeOrder) (e : Others) (s : Server) (l : L)
    : go (L * (Server * list server_out)) :=
  _ ← await (grant_RLock e);
  '(l, (removeOps, outs)) ← check_pending e (range rg (clientOps s)) l;
  _ ← await (grant_Lock e);
  let ops := fold_left (fun m op => delete (OperationID (operation op)) m) removeOps (clientOps s) in
  _ ← await (receives_update e);
  Ret (l, (with_clientOps s ops, outs ++ [SUpdateFileCache])).

(** The loop assigns [conflicts] on every pending creation. *)
Definition conflictPendingCreate (rg : RangeOrder) (s : Server) (fname : string) : bool :=
  fold_left (fun conflicts kv =>
    if decide (Op (operation kv.2) = Create) then bool_decide (Filename (operation kv.2) = fname)
    else conflicts) (range rg (clientOps s)) false.

(** [ready := make(chan bool, 10); s.clientOps[op.OperationID] = ...;
    s.receivedOp <- op]. *)
Definition submit (s : Server) (op : Operation) : Server * list server_out :=
  (mkServer (Address s) (minerID s) (confirmedFiles s)
     (<[OperationID op := mkPending op (nextChan s)]> (clientOps s)) (isConnected s) (S (nextChan s)),
   [SReceivedOp op]).

(** The checks of [CreateFile] before it submits: the error, if any. *)
Definition create_check (rg : RangeOrder) (s : Server) (filename : string) : option rfs_error :=
  if negb (isConnected s) then Some (DisconnectedError (minerID s))
  else if conflictPendingCreate rg s filename then Some (FileExistsError filename)
  else None.

(** The end of [CreateFile], after the answer. *)
Definition create_finish (filename : string) (success : bool) : rfs_error + bool :=
  if negb success then inl (FileExistsError filename) else inr true.

(** [wait op] is what the call receives on its channel, and the ledger at that
    time; [None] while nothing is sent. [now]: the time stamp of the new
    operation. *)
Definition CreateFile (rg : RangeOrder) (s : Server) (filename : string) (now : Z)
    (wait : Operation -> option (bool * L)) : go (Server * list server_out * (rfs_error + bool)) :=
  match create_check rg s filename with
  | Some e => Ret (s, [], inl e)
  | None =>
      let op := NewOperation Create (minerID s) filename EmptyString now in
      let '(s, outs) := submit s op in
      match wait op with
      | None => NoFuel
      | Some (success, _) => Ret (s, outs, create_finish filename success)
      end
  end.

(** The search for the record from the end of the file, [n] records left;
    without it the reply keeps its value 0. *)
Fixpoint find_record (id : string) (ops : list Operation) (n : nat) : Z :=
  match n with
  | O => 0
  | S i =>
      match ops !! i with
      | Some o => if decide (OperationID o = id) then Z.of_nat i else find_record id ops i
      | None => find_record id ops i
      end
  end.

(** The end of [AppendRecord], after the answer. *)
Definition append_finish (l : L) (op : Operation) (success : bool) : go (L * (rfs_error + Z)) :=
  if negb success then Ret (l, inl (FileDoesNotExistError (Filename op)))
  else
    '(l, (file, ok)) ← ld_GetFile l (Filename op);
    if negb ok then Ret (l, inl (FileDoesNotExistError (Filename op)))
    else Ret (l, inr (find_record (OperationID op) (file_Operations file) (length (file_Operations file)))).

(** The checks of [AppendRecord] on the server, and on the file it read. *)
Definition append_check (s : Server) (fname : string) : option rfs_error :=
  if negb (isConnected s) then Some (DisconnectedError (minerID s))
  else match confirmedFiles s !! fname with
  | None => Some (FileDoesNotExistError fname)
  | Some _ => None
  end.

Definition full_file (file : FileOps) (ok : bool) : bool :=
  ok && bool_decide (MaxUint16 < Z.of_nat (length (file_Operations file))).

Definition AppendRecord (s : Server) (l : L) (info : AppendRecordInfo) (now : Z)
    (wait : Operation -> option (bool * L)) : go (Server * list server_out * (rfs_error + Z)) :=
  let fname := ar_Fname info in
  match append_check s fname with
  | Some e => Ret (s, [], inl e)
  | None =>
      '(_, (file, ok)) ← ld_GetFile l fname;
      if full_file file ok then Ret (s, [], inl (FileMaxLenReachedError fname))
      else
        let op := NewOperation Append (minerID s) fname (ar_Data info) now in
        let '(s, outs) := submit s op in
        match wait op with
        | None => NoFuel
        | Some (success, l) =>
            '(_, r) ← append_finish l op success;
            Ret (s, outs, r)
        end
  end.

(** The polling loop of [ReadRecord], on the ledger at each poll. An index below
    zero is out of range. *)
Fixpoint read_loop (polls : list L) (fname : string) (recNum : Z) : go (rfs_error + string) :=
  match polls with
  | [] => NoFuel
  | l :: polls =>
      '(_, (file, ok)) ← ld_GetFile l fname;
      if negb ok then Ret (inl (FileDoesNotExistError fname))
      else if decide (recNum < Z.of_nat (length (file_Operations file))) then
        if decide (recNum < 0) then Panic
        else
          o ← deref (file_Operations file !! Z.to_nat recNum);
          Ret (inr (copy_record (Data o)))
      else read_loop polls fname recNum
  end.

Definition ReadRecord (s : Server) (polls : list L) (info : ReadRecordInfo) : go (rfs_error + string) :=
  if negb (isConnected s) then Ret (inl (DisconnectedError (minerID s)))
  else
    match confirmedFiles s !! rr_Fname info with
    | None => Ret (inl (FileDoesNotExistError (rr_Fname info)))
    | Some _ => read_loop polls (rr_Fname info) (rr_RecNum info)
    end.

Definition server_ListFiles (rg : RangeOrder) (s : Server) : rfs_error + list string :=
  if negb (isConnected s) then inl (DisconnectedError (minerID s))
  else inr (range rg (confirmedFiles s)).*1.

Definition server_TotalRecs (s : Server) (l : L) (fname : string) : go (rfs_error + Z) :=
  if negb (isConnected s) then Ret (inl (DisconnectedError (minerID s)))
  else
    match confirmedFiles s !! fname with
    | None => Ret (inl (FileDoesNotExistError fname))
    | Some _ =>
        '(_, (file, ok)) ← ld_GetFile l fname;
        if negb ok then Ret (inl (FileDoesNotExistError fname))
        else Ret (inr (Z.of_nat (length (file_Operations file))))
    end.
End server.

(** ** Properties *)

(** Pending operations are filed under their identifier. *)
Definition server_ok (s : Server) : Prop :=
  forall i p, clientOps s !! i = Some p -> OperationID (operation p) = i.

Lemma server_ok_submit s op : server_ok s -> server_ok (submit s op).1.
Proof. intros Hs i p. simpl. rewrite lookup_insert. case_decide; [|apply Hs]. by intros [= <-]. Qed.

Lemma name_set_lookup fnames m f :
  is_Some (name_set fnames m !! f) <-> f ∈ fnames \/ is_Some (m !! f).
Proof.
  revert m. induction fnames as [|x fnames IH]; intros m; simpl; [set_solver|].
  rewrite IH, lookup_insert, elem_of_cons. case_decide; naive_solver.
Qed.

Lemma exists_elem_cons {A} (P : A -> Prop) a l :
  (exists x, x ∈ a :: l /\ P x) <-> P a \/ exists x, x ∈ l /\ P x.
Proof.
  split.
  - intros (x & [->|Hx]%elem_of_cons & HP); eauto.
  - intros [HP|(x & Hx & HP)]; [exists a|exists x]; split; [by left|done|by right|done].
Qed.

(** The messages about one operation with status [c]. *)
Lemma ready_elem p c ch b :
  SReady ch b ∈ (if confirmed c then [SReady (Ready p) (negb (otherMiner c))] else []) <->
  Ready p = ch /\ confirmed c = true /\ b = negb (otherMiner c).
Proof.
  destruct (confirmed c); rewrite ?list_elem_of_singleton, ?elem_of_nil; naive_solver.
Qed.

Lemma resend_elem p c o :
  o ∈ (if negb (exists_ c) then [SReceivedOp (operation p)] else []) <->
  o = SReceivedOp (operation p) /\ exists_ c = false.
Proof.
  destruct (exists_ c); simpl; rewrite ?list_elem_of_singleton, ?elem_of_nil; naive_solver.
Qed.

Lemma ready_not p c o :
  o ∈ (if confirmed c then [SReady (Ready p) (negb (otherMiner c))] else []) -> exists ch b, o = SReady ch b.
Proof.
  destruct (confirmed c); rewrite ?list_elem_of_singleton, ?elem_of_nil; [eauto|done].
Qed.

Lemma fold_delete_ops (removed : list PendingOperation) (m : gmap string PendingOperation) i :
  fold_left (fun m op => delete (OperationID (operation op)) m) removed m !! i
  = if decide (i ∈ (fun p => OperationID (operation p)) <$> removed) then None else m !! i.
Proof.
  revert m. induction removed as [|p removed IH]; intros m; simpl; [done|].
  rewrite IH, lookup_delete. repeat case_decide; set_solver.
Qed.

Lemma pending_elem rg (s : Server) p :
  p ∈ (range rg (clientOps s)).*2 <-> exists i, clientOps s !! i = Some p.
Proof.
  rewrite list_elem_of_fmap. split.
  - intros ([i p'] & -> & Hp). exists i. by apply elem_of_range in Hp.
  - intros [i Hi]. exists (i, p). split; [done|]. by apply elem_of_range.
Qed.

Lemma find_record_spec id ops n j o :
  (n <= length ops)%nat -> (j < n)%nat -> ops !! j = Some o -> OperationID o = id ->
  exists i o', find_record id ops n = Z.of_nat i /\ (i < n)%nat /\ ops !! i = Some o' /\ OperationID o' = id.
Proof.
  induction n as [|n IH]; intros Hn Hj Ho Hid; [lia|]. simpl.
  destruct (lookup_lt_is_Some_2 ops n) as [x Hx]; [lia|]. rewrite Hx. case_decide as Hd.
  - exists n, x. split_and!; [done|lia|done|done].
  - destruct (decide (j = n)) as [->|]; [congruence|].
    destruct IH as (i & o' & -> & ? & ? & ?); [lia|lia|done|done|]. exists i, o'. split_and!; [done|lia|done|done].
Qed.

Section properties.
Context {L : Type} `{LedgerLaws L}.

(** Nothing that the iteration does for one pending operation blocks it. *)
Definition served (e : Others) (l : L) (p : PendingOperation) : Prop :=
  let c := status_of (l_config l) (l_longest l) (operation p) in
  (confirmed c = true -> has_room e (Ready p) = true) /\
  (exists_ c = false -> receives_op e (operation p) = true).

#[export] Instance served_dec e l p : Decision (served e l p).
Proof using Type. unfold served. apply _. Defined.

Lemma served_view e l l' p : same_view l l' -> served e l' p <-> served e l p.
Proof using Type. intros V. unfold served. by rewrite (sv_config _ _ V), (sv_longest _ _ V). Qed.

(** What becomes of one pending operation. *)
Lemma check_one_pending e p c :
  (confirmed c = true -> has_room e (Ready p) = true) -> (exists_ c = false -> receives_op e (operation p) = true) ->
  (if confirmed c && negb (otherMiner c) then
     _ ← await (has_room e (Ready p)); Ret ([p], [SReady (Ready p) true])
   else if confirmed c && otherMiner c then
     _ ← await (has_room e (Ready p)); Ret ([p], [SReady (Ready p) false])
   else Ret ([], [])) =
  Ret (if decide (confirmed c = true) then [p] else [],
       if confirmed c then [SReady (Ready p) (negb (otherMiner c))] else []) /\
  (if negb (exists_ c) then
     _ ← await (receives_op e (operation p)); Ret [SReceivedOp (operation p)]
   else Ret []) = Ret (if negb (exists_ c) then [SReceivedOp (operation p)] else []).
Proof using Type.
  intros Hc He. destruct c as [[] [] []]; simpl in *; rewrite ?Hc, ?He by done; done.
Qed.

Lemma check_pending_spec e ops : forall l, l_ok l -> (forall p, p ∈ ops.*2 -> served e l p) ->
  let status p := status_of (l_config l) (l_longest l) (operation p) in
  exists l' removed outs, check_pending e ops l = Ret (l', (removed, outs)) /\ same_view l l' /\
    removed = filter (fun p => confirmed (status p) = true) ops.*2 /\
    (forall ch b, SReady ch b ∈ outs <-> exists p, p ∈ ops.*2 /\ Ready p = ch /\
       confirmed (status p) = true /\ b = negb (otherMiner (status p))) /\
    (forall op, SReceivedOp op ∈ outs <-> exists p, p ∈ ops.*2 /\ operation p = op /\
       exists_ (status p) = false) /\
    SUpdateFileCache ∉ outs.
Proof.
  induction ops as [|[k p] ops IH]; intros l Hok He; cbv zeta; simpl.
  { exists l, [], []. split_and!; try done; set_solver. }
  destruct (law_CheckOpConfirmed l (operation p) Hok) as (l1 & -> & V1). simpl.
  destruct (IH l1 (sv_ok _ _ V1 Hok)) as (l2 & removed & outs & Hrun & V2 & Hrem & Hr & Hs & Hu).
  { intros q Hq. apply (served_view e l l1 q V1), He. by right. }
  rewrite (sv_config _ _ V1), (sv_longest _ _ V1) in Hrem, Hr, Hs.
  destruct (He p) as [Hc1 Hc2]; [by left|].
  set (c := status_of (l_config l) (l_longest l) (operation p)) in *.
  destruct (check_one_pending e p c Hc1 Hc2) as [-> ->]. simpl.
  rewrite Hrun. simpl. do 3 eexists. split; [done|]. split; [by transitivity l1|]. split_and!.
  - rewrite filter_cons. fold c. rewrite Hrem. by case_decide.
  - intros ch b. rewrite !elem_of_app, Hr, exists_elem_cons, ready_elem, resend_elem. fold c. naive_solver.
  - intros op. rewrite !elem_of_app, Hs, exists_elem_cons, resend_elem. fold c. split.
    + intros [(? & ? & ?)%ready_not|[[[=] ?]|?]]; [done|by left|by right].
    + intros [[<- ?]|?]; [right; by left|right; by right].
  - rewrite !elem_of_app, resend_elem. intros [(? & ? & ?)%ready_not|[[? ?]|?]]; done.
Qed.

(** The loop blocks at the first operation that others do not serve. *)
Lemma check_pending_stuck e ops : forall l, l_ok l -> (exists p, p ∈ ops.*2 /\ ~ served e l p) ->
  check_pending e ops l = Stuck.
Proof.
  induction ops as [|[k p] ops IH]; intros l Hok (q & Hq & Hno); simpl; [by apply elem_of_nil in Hq|].
  destruct (law_CheckOpConfirmed l (operation p) Hok) as (l1 & -> & V1). simpl.
  destruct (decide (served e l p)) as [[Hc1 Hc2]|Hnot].
  - destruct (check_one_pending e p _ Hc1 Hc2) as [-> ->]. simpl. rewrite IH; [done|by apply (sv_ok _ _ V1)|].
    apply elem_of_cons in Hq as [->|Hq]; [by destruct Hno|]. exists q. split; [done|].
    by rewrite (served_view e l l1 q V1).
  - unfold served in Hnot. cbv zeta in Hnot. revert Hnot.
    destruct (status_of (l_config l) (l_longest l) (operation p)) as [[] [] []]; simpl;
      destruct (has_room e (Ready p)), (receives_op e (operation p)); simpl; naive_solver.
Qed.

(** Nothing blocks the iteration. *)
Record unblocked (e : Others) (s : Server) (l : L) : Prop := {
  ub_RLock : grant_RLock e = true;
  ub_served : forall i p, clientOps s !! i = Some p -> served e l p;
  ub_Lock : grant_Lock e = true;
  ub_update : receives_update e = true
}.

Lemma checkConfirmedOperations_run rg e s l : server_ok s -> l_ok l -> unblocked e s l ->
  let status p := status_of (l_config l) (l_longest l) (operation p) in
  exists l' s' outs, checkConfirmedOperations rg e s l = Ret (l', (s', outs)) /\
    same_view l l' /\ server_ok s' /\
    (forall i, clientOps s' !! i
       = match clientOps s !! i with
         | Some p => if confirmed (status p) then None else Some p
         | None => None
         end) /\
    (forall ch b, SReady ch b ∈ outs <-> exists p, (exists i, clientOps s !! i = Some p) /\
       Ready p = ch /\ confirmed (status p) = true /\ b = negb (otherMiner (status p))) /\
    (forall op, SReceivedOp op ∈ outs <-> exists p, (exists i, clientOps s !! i = Some p) /\
       operation p = op /\ exists_ (status p) = false) /\
    last outs = Some SUpdateFileCache.
Proof.
  intros Hs Hl [U1 U2 U3 U4]. cbv zeta. unfold checkConfirmedOperations. rewrite U1. simpl.
  destruct (check_pending_spec e (range rg (clientOps s)) l Hl) as (l' & rem & outs & -> & V & Hrem & Hr & Hsr & Hu).
  { intros p [i Hi]%pending_elem. eauto. }
  simpl. rewrite U3. simpl. rewrite U4. simpl. do 3 eexists. split; [done|]. split; [done|].
  set (ops' := fold_left _ rem (clientOps s)).
  assert (forall i, ops' !! i = match clientOps s !! i with
    | Some p => if confirmed (status_of (l_config l) (l_longest l) (operation p)) then None else Some p
    | None => None end) as Hops.
  { intros i. unfold ops'. rewrite fold_delete_ops. case_decide as Hi.
    - apply list_elem_of_fmap in Hi as (p & -> & Hp). rewrite Hrem in Hp.
      apply list_elem_of_filter in Hp as [Hc [j Hj]%pending_elem]. rewrite (Hs j p Hj), Hj, Hc. done.
    - destruct (clientOps s !! i) as [p|] eqn:Hp; [|done]. destruct (confirmed _) eqn:Hc; [|done].
      destruct Hi. apply list_elem_of_fmap. exists p. rewrite (Hs i p Hp). split; [done|].
      rewrite Hrem. apply list_elem_of_filter. split; [done|]. apply pending_elem. eauto. }
  split_and!.
  - intros i p. simpl. fold ops'. rewrite Hops. destruct (clientOps s !! i) as [p'|] eqn:Hp; [|done].
    destruct (confirmed _); [done|]. intros [= <-]. by apply Hs.
  - done.
  - intros ch b. rewrite elem_of_app, Hr, list_elem_of_singleton. setoid_rewrite pending_elem. naive_solver.
  - intros op. rewrite elem_of_app, Hsr, list_elem_of_singleton. setoid_rewrite pending_elem. naive_solver.
  - by rewrite last_snoc.
Qed.

Lemma checkConfirmedOperations_stuck rg e s l : l_ok l ->
  grant_RLock e = false \/ (exists i p, clientOps s !! i = Some p /\ ~ served e l p) \/
  grant_Lock e = false \/ receives_update e = false ->
  checkConfirmedOperations rg e s l = Stuck.
Proof.
  intros Hl Hno. unfold checkConfirmedOperations. destruct (grant_RLock e) eqn:E1; [simpl|done].
  destruct (decide (Forall (served e l) (range rg (clientOps s)).*2)) as [Hall|Hnot].
  - rewrite Forall_forall in Hall. destruct (check_pending_spec e _ l Hl Hall) as (l' & rem & outs & -> & _). simpl.
    destruct (grant_Lock e) eqn:E3, (receives_update e) eqn:E4; simpl; try done.
    destruct Hno as [?|[(i & p & Hi & Hp)|[?|?]]]; [done| |done..]. exfalso. apply Hp, Hall, pending_elem. eauto.
  - apply not_Forall_Exists, Exists_exists in Hnot as (p & Hp & Hn); [|apply _].
    rewrite check_pending_stuck; [done|done|]. eauto.
Qed.

(** C19: What an iteration of [checkConfirmedOperations] does, and when it ends. If
    the lock is granted to it, every lost operation is received by
    [buildPendingOperations], every answer has room in its channel and the last
    message is received, then, whatever the iteration order, exactly the confirmed
    operations are answered (with success unless [otherMiner] is reported) and
    forgotten, exactly those not on the longest chain are submitted again, and the
    cache is told to refresh. If any of these is not the case, it blocks for ever. *)
Theorem checkConfirmedOperations_spec rg e s l (Hs : server_ok s) (Hl : l_ok l) :
  let status p := status_of (l_config l) (l_longest l) (operation p) in
  (unblocked e s l ->
   exists l' s' outs, checkConfirmedOperations rg e s l = Ret (l', (s', outs)) /\
    same_view l l' /\ server_ok s' /\
    (forall i, clientOps s' !! i
       = match clientOps s !! i with
         | Some p => if confirmed (status p) then None else Some p
         | None => None
         end) /\
    (forall ch b, SReady ch b ∈ outs <-> exists p, (exists i, clientOps s !! i = Some p) /\
       Ready p = ch /\ confirmed (status p) = true /\ b = negb (otherMiner (status p))) /\
    (forall op, SReceivedOp op ∈ outs <-> exists p, (exists i, clientOps s !! i = Some p) /\
       operation p = op /\ exists_ (status p) = false) /\
    last outs = Some SUpdateFileCache) /\
  (grant_RLock e = false \/ (exists i p, clientOps s !! i = Some p /\ ~ served e l p) \/
   grant_Lock e = false \/ receives_update e = false ->
   checkConfirmedOperations rg e s l = Stuck).
Proof. split; [by apply checkConfirmedOperations_run|by apply checkConfirmedOperations_stuck]. Qed.

(** C29: After a refresh of the cache a connected client is given exactly the files
    of the ledger, each once. *)
Theorem listing_is_ledger rg rg' s l (Hl : l_ok l) (Hconn : isConnected s = true) :
  exists l' s' fnames, updateConfirmedFiles rg s l = Ret (l', s') /\ same_view l l' /\
    server_ListFiles rg' s' = inr fnames /\ NoDup fnames /\
    forall f, f ∈ fnames <-> listed (l_config l) (l_longest l) f.
Proof.
  unfold updateConfirmedFiles. destruct (law_ListFiles rg l Hl) as (l' & res & -> & V & Hnd & Hin). simpl.
  do 3 eexists. split; [done|]. split; [done|]. unfold server_ListFiles. simpl. rewrite Hconn. simpl.
  split; [done|]. split; [apply NoDup_range_keys|]. intros f. rewrite <- Hin, list_elem_of_fmap. split.
  - intros ([k u] & -> & Hk). apply elem_of_range in Hk.
    destruct (proj1 (name_set_lookup res ∅ k)) as [?|[? ?]]; [eauto|done|]. by rewrite lookup_empty in *.
  - intros Hf. destruct (proj2 (name_set_lookup res ∅ f) (or_introl Hf)) as [[] Hk].
    exists (f, tt). split; [done|]. by apply elem_of_range.
Qed.

(** A record is found at the position that the append returned. *)
Lemma append_position l op :
  l_ok l -> Op op = Append ->
  (forall c, c ∈ chain_ops (l_longest l) -> OperationID c = OperationID op -> c = op) ->
  confirmed (status_of (l_config l) (l_longest l) op) = true ->
  exists l' i f, append_finish l op true = Ret (l', inr (Z.of_nat i)) /\
    file_of (l_config l) (l_longest l) (Filename op) = (f, true) /\ file_Operations f !! i = Some op.
Proof.
  intros Hl Happ Hid Hconf.
  destruct (file_of_confirmed _ _ op (law_config l Hl) Happ Hid Hconf) as (f & Hf & Hop).
  apply list_elem_of_lookup in Hop as [j Hj].
  destruct (find_record_spec (OperationID op) (file_Operations f) (length (file_Operations f)) j op)
    as (i & o & Hfind & _ & Ho & Hoid); [done|by eapply lookup_lt_Some|done|done|].
  destruct (law_GetFile l (Filename op) Hl) as (l' & Hget & _). rewrite Hf in Hget.
  exists l', i, f. unfold append_finish. simpl. rewrite Hget. simpl. rewrite Hfind. split_and!; [done|done|].
  rewrite Ho. f_equal. apply Hid; [|done]. apply list_elem_of_lookup_2 in Ho.
  unfold file_of in Hf. destruct (confirmed_part _ _) as [c|] eqn:Hc; [|done]. injection Hf as <- _.
  simpl in Ho. rewrite elem_of_reverse in Ho. apply list_elem_of_filter in Ho as [_ Ho].
  unfold confirmed_part in Hc. case_decide; [|done]. injection Hc as <-.
  rewrite <- (take_drop (Z.to_nat (ConfirmsPerFileAppend (l_config l))) (l_longest l)), chain_ops_app.
  apply elem_of_app. by right.
Qed.

Lemma ReadRecord_at s l polls fname f i o :
  l_ok l -> isConnected s = true -> is_Some (confirmedFiles s !! fname) ->
  file_of (l_config l) (l_longest l) fname = (f, true) -> file_Operations f !! i = Some o ->
  ReadRecord s (l :: polls) {| rr_RecNum := Z.of_nat i; rr_Fname := fname |} = Ret (inr (copy_record (Data o))).
Proof.
  intros Hl Hc [u Hu] Hf Ho. unfold ReadRecord. simpl. rewrite Hc, Hu. simpl.
  destruct (law_GetFile l fname Hl) as (l' & -> & _). rewrite Hf. simpl.
  apply lookup_lt_Some in Ho as Hlt. rewrite decide_True, decide_False, Nat2Z.id, Ho by lia. done.
Qed.

Context `{Gob Operation}.

(** An appended record can be read back. The client's append is answered with
    success on a ledger [l] that confirms it; then the call returns the
    position of the record, and reading that position, on any later ledger
    whose longest chain extends that of [l], returns the data appended (padded
    to a record if it is not one). *)
Theorem append_then_read s l0 l l2 fname data now wait
    (Hl0 : l_ok l0) (Hl : l_ok l) (Hl2 : l_ok l2)
    (Hconn : isConnected s = true) (Hfile : is_Some (confirmedFiles s !! fname))
    (Hroom : Z.of_nat (length (file_Operations (file_of (l_config l0) (l_longest l0) fname).1)) <= MaxUint16) :
  let op := NewOperation Append (minerID s) fname data now in
  wait op = Some (true, l) ->
  confirmed (status_of (l_config l) (l_longest l) op) = true ->
  (forall c, c ∈ chain_ops (l_longest l) -> OperationID c = OperationID op -> c = op) ->
  l_config l2 = l_config l -> l_longest l `suffix_of` l_longest l2 ->
  exists s' i, AppendRecord s l0 {| ar_Data := data; ar_Fname := fname |} now wait
      = Ret (s', [SReceivedOp op], inr i) /\
    0 <= i < Z.of_nat (length (file_Operations (file_of (l_config l) (l_longest l) fname).1)) /\
    (forall s2 polls, isConnected s2 = true -> is_Some (confirmedFiles s2 !! fname) ->
       ReadRecord s2 (l2 :: polls) {| rr_RecNum := i; rr_Fname := fname |} = Ret (inr (copy_record data))) /\
    (is_Record data -> copy_record data = data).
Proof.
  intros op Hwait Hconf Hid Hcfg Hgrow. assert (Op op = Append /\ Filename op = fname /\ Data op = data) as (Ha & Hf & Hd).
  { unfold op, NewOperation. by destruct (MarshallOperation _). }
  destruct (append_position l op Hl Ha Hid Hconf) as (l' & i & f & Hfin & Hof & Hi).
  exists (submit s op).1, (Z.of_nat i). split_and!; [|lia| | |apply copy_record_id].
  - unfold AppendRecord, append_check, full_file. simpl. rewrite Hconn. simpl. destruct Hfile as [u Hu]. rewrite Hu.
    destruct (law_GetFile l0 fname Hl0) as (l0' & -> & _). destruct (file_of (l_config l0) _ _) as [f0 ok0].
    simpl in Hroom |- *. rewrite (bool_decide_eq_false_2 (MaxUint16 < _)), andb_false_r by lia.
    fold op. by rewrite Hwait, Hfin.
  - rewrite <- Hf, Hof. apply lookup_lt_Some in Hi. simpl. lia.
  - intros s2 polls Hconn2 Hfile2.
    destruct (file_of_grows _ _ (l_longest l2) (Filename op) f Hgrow Hof) as (f2 & Hf2 & Hpre).
    rewrite <- Hd, <- Hf.
    eapply ReadRecord_at; [done|done|by rewrite Hf|by rewrite Hcfg|by eapply prefix_lookup_Some].
Qed.

End properties.

(** The loop over a list of pending operations. *)
Lemma conflict_fold fname (l : list (string * PendingOperation)) :
  let c := fold_left (fun conflicts kv => if decide (Op (operation kv.2) = Create)
    then bool_decide (Filename (operation kv.2) = fname) else conflicts) l false in
  (c = true -> exists kv, kv ∈ l /\ Op (operation kv.2) = Create /\ Filename (operation kv.2) = fname) /\
  ((exists kv, kv ∈ l /\ Op (operation kv.2) = Create) ->
   (forall kv, kv ∈ l -> Op (operation kv.2) = Create -> Filename (operation kv.2) = fname) -> c = true).
Proof.
  cbv zeta. apply (fold_left_inv (fun done (c : bool) =>
    (c = true -> exists kv, kv ∈ done /\ Op (operation kv.2) = Create /\ Filename (operation kv.2) = fname) /\
    ((exists kv, kv ∈ done /\ Op (operation kv.2) = Create) ->
     (forall kv, kv ∈ done -> Op (operation kv.2) = Create -> Filename (operation kv.2) = fname) -> c = true))).
  - split; [done|]. by intros (kv & ?%elem_of_nil & _).
  - intros done kv rest c _ [IH1 IH2]. case_decide as Hc; split.
    + intros Hb%bool_decide_eq_true. exists kv. split_and!; [set_solver|done|done].
    + intros _ Hall. apply bool_decide_eq_true, Hall; [set_solver|done].
    + intros Hb. destruct (IH1 Hb) as (kv' & ? & ? & ?). exists kv'. set_solver.
    + intros (kv' & Hkv & Hc') Hall. apply IH2; [|intros kv2 Hkv2; apply Hall; set_solver].
      exists kv'. split; [|done]. apply elem_of_app in Hkv as [?|Hkv%list_elem_of_singleton]; [done|congruence].
Qed.

(** A creation is refused as pending only if a creation of that file is
    pending; and if no creation of another file is pending, it is refused. *)
Theorem conflictPendingCreate_sound rg s fname :
  (conflictPendingCreate rg s fname = true -> exists i p, clientOps s !! i = Some p /\
     Op (operation p) = Create /\ Filename (operation p) = fname) /\
  ((exists i p, clientOps s !! i = Some p /\ Op (operation p) = Create) ->
   (forall i p, clientOps s !! i = Some p -> Op (operation p) = Create -> Filename (operation p) = fname) ->
   conflictPendingCreate rg s fname = true).
Proof.
  destruct (conflict_fold fname (range rg (clientOps s))) as [Hs Hc].
  assert (forall kv, kv ∈ range rg (clientOps s) <-> clientOps s !! kv.1 = Some kv.2) as Hin
    by (intros [i p]; apply elem_of_range).
  split.
  - intros Hb. destruct (Hs Hb) as ([i p] & Hk%Hin & ? & ?). by exists i, p.
  - intros (i & p & Hp & Hcr) Hall. apply Hc; [exists (i, p); split; [by apply Hin|done]|].
    intros [i' p'] Hk%Hin. by eapply Hall.
Qed.

(** The check for a pending creation depends on the iteration order when
    creations of several files are pending: it may miss one. *)
Theorem conflictPendingCreate_misses : exists s fname i p,
  server_ok s /\ clientOps s !! i = Some p /\ Op (operation p) = Create /\
  Filename (operation p) = fname /\
  conflictPendingCreate range_fwd s fname <> conflictPendingCreate range_bwd s fname.
Proof.
  set (p1 := mkPending (mkOperation Create "" "f" "A" "1" 0) 0).
  set (p2 := mkPending (mkOperation Create "" "g" "A" "2" 0) 1).
  exists (mkServer "" "A" ∅ {["1"%string := p1; "2"%string := p2]} true 2), "f"%string, "1"%string, p1.
  split_and!; [|done|done|done|vm_compute; discriminate].
  intros i p. simpl. rewrite lookup_insert, lookup_singleton. repeat case_decide; naive_solver.
Qed.
