(* ===== verification/Client.v ===== *)
(** A client of [rfslib] connected to the server of a miner: the two sides
    composed, and what an application sees through the interface [RFS]. *)
From S2P Require Import Prelude GoLib Settings Operation Block Pow Blockchain ChainTheory.
From S2P Require Import Ledger LedgerTheory AddBlock QueryTheory RFSLedger Rfslib Server.
Local Open Scope Z_scope.

Section serve.
Context {L : Type} `{RFSLedger L} `{Gob Operation}.

(** What a call meets: the orders of its loops, the time, the ledger, what a
    call that waits receives, and the ledgers that a call that polls sees. *)
Record Meets : Type := {
  at_order : RangeOrder;
  at_time : Z;
  at_ledger : L;
  at_wait : Operation -> option (bool * L);
  at_polls : list L
}.

(** The calls that the server [s] serves over a connection, which may be
    [lost]. *)
Definition serve (lost : option string) (s : Server) (e : Meets) : Remote := {|
  call_CreateFile fname :=
    remote lost ('(_, r) ← CreateFile (at_order e) s fname (at_time e) (at_wait e); Ret r);
  call_ListFiles _ := remote lost (Ret (server_ListFiles (at_order e) s));
  call_TotalRecs fname := remote lost (server_TotalRecs s (at_ledger e) fname);
  call_ReadRecord info := remote lost (ReadRecord s (at_polls e) info);
  call_AppendRecord info :=
    remote lost ('(_, r) ← AppendRecord s (at_ledger e) info (at_time e) (at_wait e); Ret r)
|}.

Definition client_over (lost : option string) (s : Server) (e : Meets) : RFSClient :=
  mkClient (serve lost s e).

(** A client whose connection lasts. *)
Definition connected_to (s : Server) (e : Meets) : RFSClient := client_over None s e.
End serve.
Arguments Meets : clear implicits.

(** ** Errors *)

(** The file [f] on the longest chain of [l], and whether there is one. *)
Definition ledger_file {L} `{LedgerView L} (l : L) (f : string) : FileOps * bool :=
  file_of (l_config l) (l_longest l) f.
Definition ledger_len {L} `{LedgerView L} (l : L) (f : string) : Z :=
  Z.of_nat (length (file_Operations (ledger_file l f).1)).

(** A call returns an error in the cases [P] only, and then the message of the
    server's error; on a lost connection it returns the error of [net/rpc]. *)
Definition errors_exactly {A} (lost : option string) (P : rfs_error -> Prop)
    (r : go (client_error + A)) : Prop :=
  match lost with
  | Some msg => r = Ret (inl (RpcError msg))
  | None => forall err, r = Ret (inl err) <-> exists e, P e /\ err = ServerError (Error e)
  end.

Lemma errors_remote {A B} lost (r : go (rfs_error + A)) (f : A -> B) (P : rfs_error -> Prop) :
  (forall e, r = Ret (inl e) <-> P e) ->
  errors_exactly lost P
    (x ← remote lost r; match x with inl err => Ret (inl err) | inr a => Ret (inr (f a)) end).
Proof.
  intros Hr. destruct lost as [msg|]; [done|]. intros err. simpl. split.
  - destruct r as [[e|a]| | |]; simpl; try done. intros [= <-]. exists e. split; [by apply Hr|done].
  - intros (e & He & ->). apply Hr in He as ->. done.
Qed.

Section errors.
Context {L : Type} `{LedgerLaws L} `{Gob Operation}.
Implicit Types (e : Meets L).

(** When each call is refused, and with which error. A miner without peers
    refuses every call. *)
Inductive create_error (s : Server) e (f : string) : rfs_error -> Prop :=
| create_disconnected : isConnected s = false -> create_error s e f (DisconnectedError (minerID s))
| create_pending : isConnected s = true -> conflictPendingCreate (at_order e) s f = true ->
    create_error s e f (FileExistsError f)
| create_refused l : isConnected s = true -> conflictPendingCreate (at_order e) s f = false ->
    at_wait e (NewOperation Create (minerID s) f EmptyString (at_time e)) = Some (false, l) ->
    create_error s e f (FileExistsError f).

Definition list_error (s : Server) (err : rfs_error) : Prop :=
  isConnected s = false /\ err = DisconnectedError (minerID s).

Inductive total_error (s : Server) e (f : string) : rfs_error -> Prop :=
| total_disconnected : isConnected s = false -> total_error s e f (DisconnectedError (minerID s))
| total_unknown : isConnected s = true -> confirmedFiles s !! f = None ->
    total_error s e f (FileDoesNotExistError f)
| total_gone : isConnected s = true -> is_Some (confirmedFiles s !! f) ->
    (ledger_file (at_ledger e) f).2 = false -> total_error s e f (FileDoesNotExistError f).

(** [read_gone]: the file goes away while the call waits for the record. *)
Inductive read_error (s : Server) e (f : string) (n : Z) : rfs_error -> Prop :=
| read_disconnected : isConnected s = false -> read_error s e f n (DisconnectedError (minerID s))
| read_unknown : isConnected s = true -> confirmedFiles s !! f = None ->
    read_error s e f n (FileDoesNotExistError f)
| read_gone ls l ls' : isConnected s = true -> is_Some (confirmedFiles s !! f) ->
    at_polls e = ls ++ l :: ls' -> (ledger_file l f).2 = false ->
    (forall l0, l0 ∈ ls -> (ledger_file l0 f).2 = true /\ ledger_len l0 f <= n) ->
    read_error s e f n (FileDoesNotExistError f).

(** The operation that [AppendRecord] submits, when it does. *)
Definition append_op (s : Server) e (f data : string) : Operation :=
  NewOperation Append (minerID s) f data (at_time e).
Definition append_submits (s : Server) e (f : string) : Prop :=
  isConnected s = true /\ is_Some (confirmedFiles s !! f) /\
  ~ ((ledger_file (at_ledger e) f).2 = true /\ MaxUint16 < ledger_len (at_ledger e) f).

Inductive append_error (s : Server) e (f data : string) : rfs_error -> Prop :=
| append_disconnected : isConnected s = false -> append_error s e f data (DisconnectedError (minerID s))
| append_unknown : isConnected s = true -> confirmedFiles s !! f = None ->
    append_error s e f data (FileDoesNotExistError f)
| append_full : isConnected s = true -> is_Some (confirmedFiles s !! f) ->
    (ledger_file (at_ledger e) f).2 = true -> MaxUint16 < ledger_len (at_ledger e) f ->
    append_error s e f data (FileMaxLenReachedError f)
| append_refused l : append_submits s e f -> at_wait e (append_op s e f data) = Some (false, l) ->
    append_error s e f data (FileDoesNotExistError f)
| append_gone l : append_submits s e f -> at_wait e (append_op s e f data) = Some (true, l) ->
    (ledger_file l f).2 = false -> append_error s e f data (FileDoesNotExistError f).

(** The ledgers that a call meets are in order. *)
Record meets_ok e : Prop := {
  mt_ledger : l_ok (at_ledger e);
  mt_polls : Forall l_ok (at_polls e);
  mt_wait op b l : at_wait e op = Some (b, l) -> l_ok l
}.
Hint Constructors create_error total_error read_error append_error : core.

Lemma CreateFile_errors s e f err :
  ('(_, r) ← CreateFile (at_order e) s f (at_time e) (at_wait e); Ret r) = Ret (inl err) <->
  create_error s e f err.
Proof.
  unfold CreateFile, create_check, create_finish. split.
  - destruct (isConnected s) eqn:Hc; simpl; [|intros [= <-]; auto].
    destruct (conflictPendingCreate _ _ _) eqn:Hp; simpl; [intros [= <-]; auto|].
    destruct (at_wait e _) as [[[] l]|] eqn:Hw; simpl; [done| |done]. intros [= <-]. by eapply create_refused.
  - intros [Hc|Hc Hp|l Hc Hp Hw]; rewrite Hc; simpl; [done|by rewrite Hp|]. rewrite Hp. simpl. by rewrite Hw.
Qed.

Lemma TotalRecs_errors s e f err : meets_ok e ->
  server_TotalRecs s (at_ledger e) f = Ret (inl err) <-> total_error s e f err.
Proof.
  intros [Hl _ _]. unfold server_TotalRecs.
  destruct (law_GetFile (at_ledger e) f Hl) as (l' & -> & _). fold (ledger_file (at_ledger e) f).
  destruct (ledger_file (at_ledger e) f) as [file ok] eqn:Hf. split.
  - destruct (isConnected s) eqn:Hc; simpl; [|intros [= <-]; auto].
    destruct (confirmedFiles s !! f) eqn:Hk; [|intros [= <-]; auto]. destruct ok; simpl; [done|].
    intros [= <-]. apply total_gone; [done|by eauto|by rewrite Hf].
  - intros [Hc|Hc Hk|Hc [u Hk] Hg]; rewrite Hc; simpl; [done|by rewrite Hk|]. rewrite Hf in Hg. simpl in Hg.
    by rewrite Hk, Hg.
Qed.

Lemma read_loop_errors f n polls err : Forall l_ok polls -> 0 <= n ->
  read_loop polls f n = Ret (inl err) <->
  err = FileDoesNotExistError f /\ exists ls l ls', polls = ls ++ l :: ls' /\ (ledger_file l f).2 = false /\
    forall l0, l0 ∈ ls -> (ledger_file l0 f).2 = true /\ ledger_len l0 f <= n.
Proof.
  intros Hok Hn. induction Hok as [|l polls Hl _ IH]; simpl.
  { split; [done|]. by intros (_ & [] & ? & ? & ? & _). }
  destruct (law_GetFile l f Hl) as (l' & -> & _). fold (ledger_file l f).
  destruct (ledger_file l f) as [file ok] eqn:Hf. simpl. split.
  - destruct ok; simpl; [|intros [= <-]; split; [done|]; exists [], l, polls; rewrite Hf; set_solver].
    case_decide as Hlt; [rewrite decide_False by lia; intros Hrun; by go_inv Hrun|].
    intros (-> & ls & l1 & ls' & -> & Hg & Hall)%IH. split; [done|]. exists (l :: ls), l1, ls'. split_and!; [done..|].
    intros l0 [->|Hl0]%elem_of_cons; [|by apply Hall]. unfold ledger_len. rewrite Hf. simpl. split; [done|lia].
  - intros (-> & ls & l1 & ls' & Heq & Hg & Hall). destruct ls as [|l0 ls]; simplify_eq/=; [by rewrite Hf in Hg; simplify_eq/=|].
    destruct (Hall l0) as [Hg0 Hlen]; [by left|]. unfold ledger_len in Hlen. rewrite Hf in Hg0, Hlen. simplify_eq/=.
    rewrite decide_False by lia. apply IH. split; [done|]. exists ls, l1, ls'. split_and!; [done..|].
    intros l2 Hl2. apply Hall. by right.
Qed.

Lemma ReadRecord_errors s e f n err : meets_ok e -> 0 <= n ->
  ReadRecord s (at_polls e) {| rr_RecNum := n; rr_Fname := f |} = Ret (inl err) <-> read_error s e f n err.
Proof.
  intros [_ Hl _] Hn. unfold ReadRecord. simpl. split.
  - destruct (isConnected s) eqn:Hc; simpl; [|intros [= <-]; auto].
    destruct (confirmedFiles s !! f) eqn:Hk; [|intros [= <-]; auto].
    intros (-> & ls & l & ls' & ? & ? & ?)%read_loop_errors; [eapply read_gone; by eauto|done..].
  - intros [Hc|Hc Hk|ls l ls' Hc [u Hk] Hp Hg Hall]; rewrite Hc; simpl; [done|by rewrite Hk|].
    rewrite Hk. apply read_loop_errors; [done..|]. split; [done|]. by exists ls, l, ls'.
Qed.

Lemma append_finish_errors l op (b : bool) : l_ok l ->
  exists l' r, append_finish l op b = Ret (l', r) /\ forall err, r = inl err <->
    err = FileDoesNotExistError (Filename op) /\ (b = true -> (ledger_file l (Filename op)).2 = false).
Proof.
  intros Hl. unfold append_finish. destruct b; simpl.
  - destruct (law_GetFile l (Filename op) Hl) as (l' & -> & _). fold (ledger_file l (Filename op)).
    destruct (ledger_file l (Filename op)) as [file ok]. simpl. destruct ok; simpl; eexists _, _; split; [done|naive_solver|done|naive_solver].
  - eexists _, _. split; [done|naive_solver].
Qed.

(** What [AppendRecord] returns, by the case. *)
Definition append_answer (s : Server) e (f data : string) : go (rfs_error + Z) :=
  if negb (isConnected s) then Ret (inl (DisconnectedError (minerID s)))
  else if decide (confirmedFiles s !! f = None) then Ret (inl (FileDoesNotExistError f))
  else if decide ((ledger_file (at_ledger e) f).2 = true /\ MaxUint16 < ledger_len (at_ledger e) f)
  then Ret (inl (FileMaxLenReachedError f))
  else match at_wait e (append_op s e f data) with
    | None => NoFuel
    | Some (b, l) => '(_, r) ← append_finish l (append_op s e f data) b; Ret r
    end.

Lemma AppendRecord_answer s e f data : meets_ok e ->
  ('(_, r) ← AppendRecord s (at_ledger e) {| ar_Data := data; ar_Fname := f |} (at_time e) (at_wait e); Ret r)
  = append_answer s e f data.
Proof.
  intros [Hl _ _]. unfold append_answer, AppendRecord, append_check, ledger_len. simpl.
  destruct (law_GetFile (at_ledger e) f Hl) as (l' & -> & _). fold (ledger_file (at_ledger e) f).
  destruct (isConnected s); simpl; [|done]. destruct (confirmedFiles s !! f) as [u|]; [|done]. simpl.
  destruct (ledger_file (at_ledger e) f) as [file ok]. unfold full_file. cbn [fst snd].
  destruct ok; cbn [andb]; [case_bool_decide; [by rewrite decide_True|rewrite decide_False by tauto]
    |rewrite decide_False by naive_solver].
  all: fold (append_op s e f data); destruct (at_wait e _) as [[b l]|]; simpl; [|done];
    destruct (append_finish l _ b) as [[l1 r]| | |]; done.
Qed.

Lemma AppendRecord_errors s e f data err : meets_ok e ->
  ('(_, r) ← AppendRecord s (at_ledger e) {| ar_Data := data; ar_Fname := f |} (at_time e) (at_wait e); Ret r)
  = Ret (inl err) <-> append_error s e f data err.
Proof.
  intros Hok. rewrite AppendRecord_answer by done.
  assert (Filename (append_op s e f data) = f) as Hfn
    by (unfold append_op, NewOperation; by destruct (MarshallOperation _)).
  split.
  - unfold append_answer. destruct (isConnected s) eqn:Hc; cbn [negb]; [|intros [= <-]; auto].
    case_decide as Hk; [intros [= <-]; auto|]. apply not_eq_None_Some in Hk.
    case_decide as Hf; [destruct Hf; intros [= <-]; auto|].
    assert (append_submits s e f) as Hsub by done.
    destruct (at_wait e _) as [[b l]|] eqn:Hw; [|done].
    destruct (append_finish_errors l (append_op s e f data) b) as (l1 & r & -> & Hr); [by eapply mt_wait|].
    simpl. intros [= ->]. destruct (proj1 (Hr err) eq_refl) as [-> Hb]. rewrite Hfn in Hb |- *.
    destruct b; [eapply append_gone; by eauto|by eapply append_refused].
  - assert (forall b l, append_submits s e f -> at_wait e (append_op s e f data) = Some (b, l) ->
      (b = true -> (ledger_file l f).2 = false) ->
      append_answer s e f data = Ret (inl (FileDoesNotExistError f))) as Hsub.
    { intros b l (Hc & [u Hk] & Hf) Hw Hg. unfold append_answer.
      rewrite Hc, !decide_False, Hw by (done || by rewrite Hk). cbn [negb].
      destruct (append_finish_errors l (append_op s e f data) b) as (l1 & r & -> & Hr); [by eapply mt_wait|].
      simpl. f_equal. apply Hr. by rewrite Hfn. }
    intros [Hc|Hc Hk|Hc [u Hk] Hf Hlen|l ? Hw|l ? Hw Hg]; [..|by eapply Hsub|by eapply Hsub];
      unfold append_answer; rewrite Hc; cbn [negb]; [done|by rewrite decide_True|].
    rewrite decide_False by (by rewrite Hk). by rewrite decide_True.
Qed.

Lemma ListFiles_errors s e err :
  Ret (server_ListFiles (at_order e) s) = Ret (inl err) <-> list_error s err.
Proof.
  unfold server_ListFiles, list_error. split; [|by intros [-> ->]].
  destruct (isConnected s); simpl; [done|]. by intros [= <-].
Qed.

(** C30: The errors that a client sees, exactly. While the connection lasts, each
    call returns the message of one of the errors that the interface [RFS]
    documents for it, as an error of [net/rpc] and not as the documented type,
    and it does so in the cases of [create_error], [list_error], [total_error],
    [read_error] and [append_error] and in no other. On a lost connection every
    call returns an error of [net/rpc] that the interface does not document. A
    file name over 64 bytes is refused by the client alone, in both cases. *)
Theorem client_errors lost s e (Hok : meets_ok e) :
  let c := client_over lost s e in
  (forall f, if decide (64 < str_len f)
     then rfs_CreateFile c f = Ret (inl (LocalError (BadFilenameError f)))
     else errors_exactly lost (create_error s e f) (rfs_CreateFile c f)) /\
  errors_exactly lost (list_error s) (rfs_ListFiles c) /\
  (forall f, errors_exactly lost (total_error s e f) (rfs_TotalRecs c f)) /\
  (forall f n, 0 <= n -> errors_exactly lost (read_error s e f n) (rfs_ReadRec c f n)) /\
  (forall f d, errors_exactly lost (append_error s e f d) (rfs_AppendRec c f d)).
Proof.
  cbv zeta. split_and!.
  - intros f. simpl. unfold client_CreateFile. case_decide; [done|]. apply errors_remote.
    intros err. apply CreateFile_errors.
  - apply (errors_remote _ _ id). intros err. apply ListFiles_errors.
  - intros f. apply errors_remote. intros err. by apply TotalRecs_errors.
  - intros f n Hn. apply (errors_remote _ _ id). intros err. by apply ReadRecord_errors.
  - intros f d. apply errors_remote. intros err. by apply AppendRecord_errors.
Qed.
End errors.


(** ** Results *)

Section results.
Context {L : Type} `{LedgerLaws L} `{Gob Operation}.

(** C10: A client reads back what it appended: if its append is confirmed, it is given
    the position of the record, and reading there later, through the same
    interface, returns it (padded to a record if it is not one). The position is 16 bits wide, which is enough while
    the file has at most 65536 records. *)
Theorem client_append_then_read s s2 (e e2 : Meets L) l l2 polls fname data
    (Hl0 : l_ok (at_ledger e)) (Hl : l_ok l) (Hl2 : l_ok l2) (Hpolls : at_polls e2 = l2 :: polls)
    (Hconn : isConnected s = true) (Hfile : is_Some (confirmedFiles s !! fname))
    (Hconn2 : isConnected s2 = true) (Hfile2 : is_Some (confirmedFiles s2 !! fname))
    (Hroom : Z.of_nat (length (file_Operations (file_of (l_config (at_ledger e)) (l_longest (at_ledger e)) fname).1))
             <= MaxUint16)
    (Hpos : Z.of_nat (length (file_Operations (file_of (l_config l) (l_longest l) fname).1)) <= MaxUint16 + 1) :
  let op := NewOperation Append (minerID s) fname data (at_time e) in
  at_wait e op = Some (true, l) ->
  confirmed (status_of (l_config l) (l_longest l) op) = true ->
  (forall c, c ∈ chain_ops (l_longest l) -> OperationID c = OperationID op -> c = op) ->
  l_config l2 = l_config l -> l_longest l `suffix_of` l_longest l2 ->
  exists n, rfs_AppendRec (connected_to s e) fname data = Ret (inr n) /\
    rfs_ReadRec (connected_to s2 e2) fname n = Ret (inr (copy_record data)) /\
    (is_Record data -> copy_record data = data).
Proof.
  intros op Hwait Hconf Hid Hcfg Hgrow.
  destruct (append_then_read s (at_ledger e) l l2 fname data (at_time e) (at_wait e) Hl0 Hl Hl2 Hconn Hfile Hroom
    Hwait Hconf Hid Hcfg Hgrow) as (s' & i & Happ & Hi & Hread & Hrec). exists i. split_and!; [| |exact Hrec].
  - simpl. unfold client_AppendRec. simpl. rewrite Happ. simpl. unfold uint16, MaxUint16 in *.
    rewrite Z.mod_small by lia. done.
  - simpl. unfold client_ReadRec. simpl. by rewrite Hpolls, Hread.
Qed.

(** C38: The count of records that a client sees is taken modulo 65536: it is exact
    for files of up to 65535 records, and only for these. *)
Theorem client_TotalRecs_bound s (e : Meets L) fname f
    (Hl : l_ok (at_ledger e)) (Hconn : isConnected s = true) (Hfile : is_Some (confirmedFiles s !! fname))
    (Hf : file_of (l_config (at_ledger e)) (l_longest (at_ledger e)) fname = (f, true)) :
  exists n, rfs_TotalRecs (connected_to s e) fname = Ret (inr n) /\
    0 <= n <= MaxUint16 /\
    n = Z.of_nat (length (file_Operations f)) mod 65536 /\
    (n = Z.of_nat (length (file_Operations f)) <->
     Z.of_nat (length (file_Operations f)) <= MaxUint16).
Proof.
  exists (uint16 (Z.of_nat (length (file_Operations f)))). split.
  - simpl. unfold client_TotalRecs. simpl. unfold server_TotalRecs. rewrite Hconn. destruct Hfile as [u ->]. simpl.
    destruct (law_GetFile (at_ledger e) fname Hl) as (l' & -> & _). by rewrite Hf.
  - unfold uint16, MaxUint16.
    pose proof (Z.mod_pos_bound (Z.of_nat (length (file_Operations f))) (2 ^ 16)). split; [lia|]. split; [done|]. split; [lia|].
    intros Hle. apply Z.mod_small. lia.
Qed.
End results.
