(* ===== verification/Peers.v ===== *)
(** [p2p/p2p_rpc.go], the peers of a miner: the thread [managePeers], the
    handlers of the calls that peers make, and [p2p/peer.go], the thread that
    talks to one peer. Sends on channels are outputs; a peer is named by its
    miner identifier. *)
From S2P Require Import Prelude GoLib Settings Operation Block.
Local Open Scope Z_scope.

Record Peer : Type := mkPeer { p_MinerID : string; p_Address : string }.

Record FloodBlockReq : Type := mkFloodBlock { fb_Block : Block; fb_FromMinerId : string }.
Record FloodOpReq : Type := mkFloodOp { fo_Operation : Operation; fo_IgnoreMiners : list string }.
Record PeerError : Type := mkPeerError { pe_minerID : string; pe_err : string }.

(** The local variables of [managePeers], and the miner's own identifier. *)
Record MinerPeers : Type := mkPeers {
  own_MinerID : string;
  peers : gmap string Peer;
  blocksToPeers : gmap string (list string)
}.

Inductive peers_out : Type :=
| PMine
| PHavePeers (b : bool)
| PReceiveFlooded (b : Block)
| PRequestBlocks (peer : string) (hash : string)
| PDownloadedBlocks (blocks : list Block)
| PSendBlock (peer : string) (req : FloodBlockReq)
| PSendOp (peer : string) (req : FloodOpReq)
| PDone (peer : string)
| PCloseConn (peer : string).

Definition have_peers (s : MinerPeers) : bool := bool_decide (0 < size (peers s))%nat.

(** ** The cases of [managePeers] *)

Definition on_newPeer (s : MinerPeers) (newPeer : Peer) : MinerPeers * list peers_out :=
  let s := mkPeers (own_MinerID s) (<[p_MinerID newPeer := newPeer]> (peers s)) (blocksToPeers s) in
  (s, [PMine; PHavePeers (have_peers s)]).

Definition on_continueMining (s : MinerPeers) : list peers_out :=
  if have_peers s then [PMine] else [].

Definition on_receivedBlock (s : MinerPeers) (req : FloodBlockReq) : MinerPeers * list peers_out :=
  let blk := fb_Block req in
  let miners :=
    match blocksToPeers s !! Hash blk with
    | None => [fb_FromMinerId req]
    | Some miners => miners ++ [fb_FromMinerId req]
    end in
  (mkPeers (own_MinerID s) (peers s) (<[Hash blk := miners]> (blocksToPeers s)), [PReceiveFlooded blk]).

(** [answer n] is what comes back for the [n]-th request: blocks, or an error. *)
Fixpoint download_loop (s : MinerPeers) (hash : string) (answer : nat -> option (list Block)) (n : nat)
    (miners : list string) : list peers_out :=
  match miners with
  | [] => []
  | minerID :: miners =>
      match peers s !! minerID with
      | None => download_loop s hash answer n miners
      | Some _ =>
          PRequestBlocks minerID hash ::
          match answer n with
          | Some blocks => PDownloadedBlocks blocks :: download_loop s hash answer (S n) miners
          | None => download_loop s hash answer (S n) miners
          end
      end
  end.

Definition on_downloadPrevBlocks (s : MinerPeers) (answer : nat -> option (list Block)) (blk : Block)
    : list peers_out :=
  match blocksToPeers s !! Hash blk with
  | None => []
  | Some miners => download_loop s (PreviousHash blk) answer 0 miners
  end.

(** The set of the strings in a list. *)
Definition string_set (l : list string) (m : gmap string unit) : gmap string unit :=
  fold_left (fun m x => <[x := tt]> m) l m.

Definition on_sendBlock (rg : RangeOrder) (s : MinerPeers) (blk : Block) : list peers_out :=
  let ignorePeers := string_set (default [] (blocksToPeers s !! Hash blk)) ∅ in
  let req := mkFloodBlock blk (own_MinerID s) in
  flat_map (fun kp =>
    match ignorePeers !! kp.1 with
    | Some _ => []
    | None =>
        match peers s !! kp.1 with
        | None => []
        | Some _ => [PSendBlock kp.1 req]
        end
    end) (range rg (peers s)).

Definition StringSetToList (rg : RangeOrder) (set : gmap string unit) : list string :=
  fold_left (fun result kv => result ++ [kv.1]) (range rg set) [].

(** [rg1], [rg2]: the orders of the loops over [peers]; [rg3]: of the listing of
    the set. *)
Definition on_floodOperation (rg1 rg2 rg3 : RangeOrder) (s : MinerPeers) (op : FloodOpReq)
    : list peers_out :=
  let ignorePeers := string_set (fo_IgnoreMiners op) ∅ in
  let peersToFloodTo :=
    flat_map (fun kp =>
      match ignorePeers !! p_MinerID kp.2 with
      | Some _ => []
      | None => [kp.2]
      end) (range rg1 (peers s)) in
  let ignorePeers := string_set (range rg2 (peers s)).*1 ignorePeers in
  let ignorePeers := <[own_MinerID s := tt]> ignorePeers in
  let opFloodReq := mkFloodOp (fo_Operation op) (StringSetToList rg3 ignorePeers) in
  (fun p => PSendOp (p_MinerID p) opFloodReq) <$> peersToFloodTo.

Definition on_peerErr (s : MinerPeers) (err : PeerError) : MinerPeers * list peers_out :=
  match peers s !! pe_minerID err with
  | None => (s, [])
  | Some _ =>
      let s := mkPeers (own_MinerID s) (delete (pe_minerID err) (peers s)) (blocksToPeers s) in
      (s, [PDone (pe_minerID err); PHavePeers (have_peers s)])
  end.

Definition on_stop (rg : RangeOrder) (s : MinerPeers) : list peers_out :=
  (fun kp => PCloseConn (p_MinerID kp.2)) <$> range rg (peers s).

(** ** Calls from peers *)

(** [FloodBlock] passes the request on to [managePeers] (its change to the
    operations is made on a copy). *)
Definition FloodBlock (req : FloodBlockReq) : list FloodBlockReq := [req].

(** [FloodOperation]: to [managePeers] first, then to the batch of operations. *)
Definition FloodOperation (req : FloodOpReq) : list FloodOpReq * list Operation :=
  ([req], [fo_Operation req]).

Definition Heartbeat : bool := true.

(** ** One peer: [Peer.run] *)

Inductive PeerStatus : Type := Connected | Disconnected.
Inductive DisconnectReason : Type := ShuttingDown | RequestedDisconnect.

Definition DisconnectReason_String (r : DisconnectReason) : string :=
  match r with
  | ShuttingDown => "requested shutdown"
  | RequestedDisconnect => EmptyString
  end.

(** Times are in nanoseconds. *)
Definition seconds (n : Z) : Z := n * 1000000000.

Inductive run_out : Type :=
| RErr (e : PeerError)
| RDownloadErr (e : string)
| RDownloaded (blocks : list Block).

(** The cases [sendBlock] and [sendOp]: [call] is the error of the remote call,
    if any; [now] the time after it. *)
Definition run_send (p : Peer) (lastConnected : Z) (call : option string) (now : Z)
    : Z * list run_out :=
  match call with
  | Some err => (lastConnected, [RErr (mkPeerError (p_MinerID p) err)])
  | None => (now, [])
  end.

Definition run_request (lastConnected : Z) (call : string + list Block) (now : Z) : Z * list run_out :=
  match call with
  | inl err => (lastConnected, [RDownloadErr err])
  | inr blocks => (now, [RDownloaded blocks])
  end.

(** The case of the ticker: [heartbeat] is the error of the call, made only
    after five seconds without contact. *)
Definition run_tick (p : Peer) (lastConnected now : Z) (heartbeat : option string) (later : Z)
    : Z * list run_out :=
  if decide (lastConnected + seconds 5 < now) then
    match heartbeat with
    | Some err => (lastConnected, [RErr (mkPeerError (p_MinerID p) err)])
    | None => (later, [])
    end
  else (lastConnected, []).

(** ** Properties *)

(** Peers are filed under their identifier. *)
Definition peers_ok (s : MinerPeers) : Prop :=
  forall k p, peers s !! k = Some p -> p_MinerID p = k.

Lemma peers_ok_new s p : peers_ok s -> peers_ok (on_newPeer s p).1.
Proof. intros Hs k q. simpl. rewrite lookup_insert. case_decide; [|apply Hs]. by intros [= <-]. Qed.

Lemma peers_ok_err s e : peers_ok s -> peers_ok (on_peerErr s e).1.
Proof.
  intros Hs k q. unfold on_peerErr. case_match; [|apply Hs]. simpl. rewrite lookup_delete.
  case_decide; [done|apply Hs].
Qed.

Lemma string_set_lookup l m x : is_Some (string_set l m !! x) <-> x ∈ l \/ is_Some (m !! x).
Proof.
  revert m. induction l as [|y l IH]; intros m; simpl; [set_solver|].
  rewrite IH, lookup_insert, elem_of_cons. case_decide; naive_solver.
Qed.

Lemma string_set_None l x : string_set l ∅ !! x = None <-> x ∉ l.
Proof.
  rewrite eq_None_not_Some, string_set_lookup, lookup_empty. split.
  - intros Hn Hx. apply Hn. by left.
  - intros Hn [?|[? ?]]; done.
Qed.

Lemma StringSetToList_eq rg set : StringSetToList rg set = (range rg set).*1.
Proof.
  unfold StringSetToList. apply (fold_left_inv (fun done r => r = done.*1)); [done|].
  intros done kv rest r _ ->. by rewrite fmap_app.
Qed.

Lemma elem_of_range_keys {V} rg (m : gmap string V) x : x ∈ (range rg m).*1 <-> is_Some (m !! x).
Proof.
  rewrite list_elem_of_fmap. split.
  - intros ([k v] & -> & Hk). apply elem_of_range in Hk. eauto.
  - intros [v Hv]. exists (x, v). split; [done|]. by apply elem_of_range.
Qed.

(** Selecting entries of an enumerated map. *)
Lemma flat_map_select {V B} (m : gmap string V) rg (P : string * V -> bool) (f : string * V -> B) :
  flat_map (fun kv => if P kv then [] else [f kv]) (range rg m)
  = f <$> filter (fun kv => P kv = false) (range rg m).
Proof.
  induction (range rg m) as [|kv l IH]; [done|]. simpl. rewrite filter_cons, IH.
  by destruct (P kv).
Qed.

(** The peers that a flooded operation goes to. *)
Lemma flood_targets rg s ignored :
  peers_ok s ->
  let l := flat_map (fun kp : string * Peer => match string_set ignored ∅ !! p_MinerID kp.2 with
    | Some _ => [] | None => [kp.2] end) (range rg (peers s)) in
  NoDup (p_MinerID <$> l) /\
  forall k, k ∈ p_MinerID <$> l <-> is_Some (peers s !! k) /\ k ∉ ignored.
Proof.
  intros Hok. cbv zeta.
  assert (flat_map (fun kp : string * Peer => match string_set ignored ∅ !! p_MinerID kp.2 with
    | Some _ => [] | None => [kp.2] end) (range rg (peers s))
    = snd <$> filter (fun kp => bool_decide (p_MinerID kp.2 ∈ ignored) = false) (range rg (peers s))) as ->.
  { rewrite <- flat_map_select. apply flat_map_ext. intros [k p]. simpl.
    destruct (string_set ignored ∅ !! p_MinerID p) eqn:E.
    - rewrite bool_decide_eq_true_2; [done|].
      destruct (proj1 (string_set_lookup ignored ∅ (p_MinerID p))) as [?|[? ?]]; [eauto|done|].
      by rewrite lookup_empty in *.
    - apply string_set_None in E. by rewrite bool_decide_eq_false_2. }
  assert (forall l : list (string * Peer), (forall k p, (k, p) ∈ l -> p_MinerID p = k) ->
    p_MinerID <$> (snd <$> l) = l.*1) as Hkeys.
  { intros l Hl. rewrite <- list_fmap_compose. apply list_fmap_ext. intros i [k p] Hi. simpl.
    by apply Hl, list_elem_of_lookup_2 with i. }
  rewrite Hkeys.
  2: { intros k p [_ Hp]%list_elem_of_filter. apply elem_of_range in Hp. by apply Hok. }
  split.
  - eapply sublist_NoDup; [apply (NoDup_range_keys rg (peers s))|apply fmap_sublist, sublist_filter].
  - intros k. rewrite list_elem_of_fmap. split.
    + intros ([k' p] & -> & [Hi%bool_decide_eq_false Hp]%list_elem_of_filter). apply elem_of_range in Hp.
      simpl in Hi. rewrite (Hok _ _ Hp) in Hi. eauto.
    + intros [[p Hp] Hi]. exists (k, p). split; [done|]. apply list_elem_of_filter.
      simpl. rewrite (Hok _ _ Hp), bool_decide_eq_false. split; [done|]. by apply elem_of_range.
Qed.

Lemma fmap_via {A B C} (f : A -> B) (g : B -> C) (l : list A) : g <$> (f <$> l) = (fun x => g (f x)) <$> l.
Proof. by rewrite <- list_fmap_compose. Qed.

(** ** Theorems *)

(** The peers that a block is sent to. *)
Lemma on_sendBlock_eq rg s blk : exists ks, NoDup ks /\
  on_sendBlock rg s blk = (fun k => PSendBlock k (mkFloodBlock blk (own_MinerID s))) <$> ks /\
  forall k, k ∈ ks <-> is_Some (peers s !! k) /\ k ∉ default [] (blocksToPeers s !! Hash blk).
Proof.
  exists (filter (fun kp => bool_decide (kp.1 ∈ default [] (blocksToPeers s !! Hash blk)) = false) (range rg (peers s))).*1.
  split_and!.
  - eapply sublist_NoDup; [apply (NoDup_range_keys rg (peers s))|apply fmap_sublist, sublist_filter].
  - rewrite fmap_via, <- flat_map_select. unfold on_sendBlock. rewrite !flat_map_concat_map. f_equal.
    apply map_ext_in. intros [k p] Hk%list_elem_of_In. apply elem_of_range in Hk. simpl. rewrite Hk.
    set (l := default [] _). destruct (string_set l ∅ !! k) eqn:E.
    + rewrite bool_decide_eq_true_2; [done|].
      destruct (proj1 (string_set_lookup l ∅ k)) as [?|[? ?]]; [eauto|done|]. by rewrite lookup_empty in *.
    + apply string_set_None in E. by rewrite bool_decide_eq_false_2.
  - intros k. rewrite list_elem_of_fmap. split.
    + intros ([k' p] & -> & [Hi%bool_decide_eq_false Hp%elem_of_range]%list_elem_of_filter). eauto.
    + intros ([p Hp] & Hi). exists (k, p). split; [done|]. apply list_elem_of_filter.
      rewrite bool_decide_eq_false. split; [done|]. by apply elem_of_range.
Qed.

(** An added block is sent once to every peer that has not sent it, and to
    nobody else, whatever the iteration order. *)
Theorem on_sendBlock_spec rg s blk :
  NoDup (on_sendBlock rg s blk) /\
  forall o, o ∈ on_sendBlock rg s blk <-> exists k, is_Some (peers s !! k) /\
    (k ∉ default [] (blocksToPeers s !! Hash blk)) /\
    o = PSendBlock k (mkFloodBlock blk (own_MinerID s)).
Proof.
  destruct (on_sendBlock_eq rg s blk) as (ks & Hnd & -> & Hin). split.
  - apply NoDup_fmap_2; [by intros ?? [=]|done].
  - intros o. rewrite list_elem_of_fmap. setoid_rewrite Hin. naive_solver.
Qed.

Lemma on_floodOperation_eq rg1 rg2 rg3 s op :
  peers_ok s -> exists ignore, NoDup ignore /\
    (forall x, x ∈ ignore <-> x ∈ fo_IgnoreMiners op \/ is_Some (peers s !! x) \/ x = own_MinerID s) /\
    NoDup (on_floodOperation rg1 rg2 rg3 s op) /\
    forall o, o ∈ on_floodOperation rg1 rg2 rg3 s op <-> exists k, is_Some (peers s !! k) /\
      (k ∉ fo_IgnoreMiners op) /\ o = PSendOp k (mkFloodOp (fo_Operation op) ignore).
Proof.
  intros Hok. unfold on_floodOperation. rewrite StringSetToList_eq.
  set (ig := <[own_MinerID s := tt]> _). exists (range rg3 ig).*1.
  destruct (flood_targets rg1 s (fo_IgnoreMiners op) Hok) as [Hnd Hin]. cbv zeta in Hnd, Hin.
  set (l := flat_map _ _) in *. split; [apply NoDup_range_keys|]. split.
  { intros x. rewrite elem_of_range_keys. unfold ig. rewrite lookup_insert. case_decide; [naive_solver|].
    rewrite string_set_lookup, elem_of_range_keys, string_set_lookup, lookup_empty.
    split; [intros [?|[?|[? ?]]]|intros [?|[?|?]]]; auto; congruence. }
  rewrite <- (fmap_via p_MinerID (fun k => PSendOp k _)). split.
  - apply NoDup_fmap_2; [by intros ?? [=]|done].
  - intros o. rewrite list_elem_of_fmap. setoid_rewrite Hin. naive_solver.
Qed.

(** A flooded operation goes once to every peer that the request does not tell
    to ignore; the request passed on tells to ignore these, and all peers, and
    the miner itself, each once. *)
Theorem on_floodOperation_spec rg1 rg2 rg3 s op (Hok : peers_ok s) :
  exists ignore, NoDup ignore /\
    (forall x, x ∈ ignore <-> x ∈ fo_IgnoreMiners op \/ is_Some (peers s !! x) \/ x = own_MinerID s) /\
    NoDup (on_floodOperation rg1 rg2 rg3 s op) /\
    forall o, o ∈ on_floodOperation rg1 rg2 rg3 s op <-> exists k, is_Some (peers s !! k) /\
      (k ∉ fo_IgnoreMiners op) /\ o = PSendOp k (mkFloodOp (fo_Operation op) ignore).
Proof. by apply on_floodOperation_eq. Qed.

(** ** Flooding an operation through a network *)

Section network.
Local Open Scope nat_scope.
Context (net : string -> MinerPeers).
Context (Hown : forall v, own_MinerID (net v) = v) (Hok : forall v, peers_ok (net v)).
Context (op : Operation) (origin : string).

Definition linked (v w : string) : Prop := is_Some (peers (net v) !! w).

(** The requests that miners process when [origin] floods [op], with the number
    of hops; each miner may use other iteration orders. *)
Inductive delivered : nat -> string -> FloodOpReq -> Prop :=
| delivered_origin : delivered 0 origin (mkFloodOp op [])
| delivered_hop n v req rg1 rg2 rg3 w req' :
    delivered n v req -> PSendOp w req' ∈ on_floodOperation rg1 rg2 rg3 (net v) req ->
    delivered (S n) w req'.

(** [w] is [n] links away from [origin], or less. *)
Inductive reach_in : nat -> string -> Prop :=
| reach_0 : reach_in 0 origin
| reach_S n v w : reach_in n v -> linked v w -> reach_in (S n) w.

Lemma delivered_next n v req w :
  delivered n v req -> linked v w -> w ∉ fo_IgnoreMiners req ->
  exists req', delivered (S n) w req' /\ fo_Operation req' = fo_Operation req /\
    forall x, x ∈ fo_IgnoreMiners req' <-> x ∈ fo_IgnoreMiners req \/ linked v x \/ x = v.
Proof using Hown Hok.
  intros Hd Hl Hi. destruct (on_floodOperation_eq range_fwd range_fwd range_fwd (net v) req (Hok v))
    as (ignore & _ & Hig & _ & Hin). rewrite Hown in Hig.
  exists (mkFloodOp (fo_Operation req) ignore). split; [|done].
  eapply delivered_hop; [done|]. apply Hin. eauto.
Qed.

Lemma delivered_prev n w req' :
  delivered (S n) w req' -> exists v req, delivered n v req /\ linked v w /\ (w ∉ fo_IgnoreMiners req) /\
    fo_Operation req' = fo_Operation req /\
    forall x, x ∈ fo_IgnoreMiners req' <-> x ∈ fo_IgnoreMiners req \/ linked v x \/ x = v.
Proof using Hown Hok.
  intros Hd. inversion Hd as [|? v req rg1 rg2 rg3 ? ? Hv Hs]; subst. exists v, req.
  destruct (on_floodOperation_eq rg1 rg2 rg3 (net v) req (Hok v)) as (ignore & _ & Hig & _ & Hin).
  rewrite Hown in Hig. destruct (proj1 (Hin _) Hs) as (k & Hk & Hi & Heq). injection Heq as -> ->. done.
Qed.

(** Every miner that links lead to gets the operation. *)
Lemma flood_covers n w : reach_in n w ->
  exists m req, m <= n /\ delivered m w req /\ fo_Operation req = op /\
    forall x, x ∈ fo_IgnoreMiners req -> exists k, k <= m /\ reach_in k x.
Proof using Hown Hok.
  revert w. induction (lt_wf n) as [n _ IH]. intros w Hr. destruct Hr as [|n v w Hv Hl].
  { exists 0, (mkFloodOp op []). split_and!; [done|constructor|done|by intros x ?%elem_of_nil]. }
  destruct (IH n ltac:(lia) v Hv) as (m & req & Hm & Hd & Hop & Hign).
  destruct (decide (w ∈ fo_IgnoreMiners req)) as [Hw|Hw].
  - destruct (Hign w Hw) as (k & Hk & Hrk).
    destruct (IH k ltac:(lia) w Hrk) as (m' & req' & ? & ? & ? & ?). exists m', req'. split_and!; [lia|done..].
  - destruct (delivered_next _ _ _ _ Hd Hl Hw) as (req' & Hd' & Hop' & Hig').
    assert (exists k, k <= m /\ reach_in k v) as (kv & Hkv & Hrv).
    { destruct m as [|m]; [inversion Hd; subst; exists 0; split; [lia|constructor]|].
      destruct (delivered_prev _ _ _ Hd) as (u & ru & _ & Hu & _ & _ & Hig). apply Hign, Hig. auto. }
    exists (S m), req'. split_and!; [lia|done|congruence|]. intros x [Hx|[Hx| ->]]%Hig'.
    + destruct (Hign x Hx) as (k & ? & ?). exists k. split; [lia|done].
    + exists (S kv). split; [lia|]. by eapply reach_S.
    + exists kv. split; [lia|done].
Qed.

(** A miner gets the operation along a path of miners that are all different. *)
Lemma delivered_path (Hself : forall v, ~ linked v v) n w req :
  delivered n w req -> exists path, length path = n /\ NoDup (w :: path) /\
    (forall x, x ∈ path -> x ∈ fo_IgnoreMiners req) /\
    (forall x, x ∈ w :: path -> x = origin \/ exists v, linked v x).
Proof using Hown Hok.
  revert w req. induction n as [|n IH]; intros w req Hd.
  { inversion Hd; subst. exists []. split_and!; [done|apply NoDup_singleton|by intros x ?%elem_of_nil|].
    intros x ->%list_elem_of_singleton. by left. }
  destruct (delivered_prev _ _ _ Hd) as (v & req0 & Hd0 & Hl & Hi & _ & Hig).
  destruct (IH v req0 Hd0) as (path & Hlen & Hnd & Hsub & Hids). exists (v :: path). split_and!.
  - simpl. by rewrite Hlen.
  - apply NoDup_cons. split; [|done]. intros [->|Hx]%elem_of_cons; [by eapply Hself|]. by apply Hi, Hsub.
  - intros x [->|Hx]%elem_of_cons; apply Hig; [by right; right|left; by apply Hsub].
  - intros x [->|Hx]%elem_of_cons; [right; by exists v|by apply Hids].
Qed.
End network.

(** C14: Flooding reaches everyone: in a network where every miner passes an
    operation on as [managePeers] does, each miner that a path of links
    connects to the origin is sent the operation. *)
Theorem flood_reaches_all net op origin n w
    (Hown : forall v, own_MinerID (net v) = v) (Hok : forall v, peers_ok (net v))
    (Hpath : reach_in net origin n w) :
  exists m req, (m <= n)%nat /\ delivered net op origin m w req /\ fo_Operation req = op.
Proof.
  destruct (flood_covers net Hown Hok op origin n w Hpath) as (m & req & ? & ? & ? & _).
  by exists m, req.
Qed.

(** C15: Flooding ends: in a network of finitely many miners [ids], none a peer of
    itself, an operation makes fewer hops than there are miners. *)
Theorem flood_terminates net op origin n w req (ids : gset string)
    (Hown : forall v, own_MinerID (net v) = v) (Hok : forall v, peers_ok (net v))
    (Hself : forall v, ~ linked net v v)
    (Hids : forall v x, linked net v x -> x ∈ ids) (Horigin : origin ∈ ids)
    (Hdel : delivered net op origin n w req) :
  (n < size ids)%nat.
Proof.
  destruct (delivered_path net Hown Hok op origin Hself n w req Hdel) as (path & <- & Hnd & _ & Hin).
  cut (length (w :: path) <= size ids)%nat; [simpl; lia|].
  rewrite <- (size_list_to_set (C := gset string) (w :: path)) by done.
  apply subseteq_size. intros x Hx%elem_of_list_to_set. destruct (Hin x Hx) as [->|[v Hv]]; eauto.
Qed.

(** ** Applications: three miners in a line, A - B - C *)

Definition line_peers (l : list string) : gmap string Peer :=
  list_to_map ((fun x => (x, mkPeer x EmptyString)) <$> l).

Definition line (v : string) : MinerPeers :=
  mkPeers v (if decide (v = "A"%string) then line_peers ["B"%string]
    else if decide (v = "B"%string) then line_peers ["A"%string; "C"%string]
    else if decide (v = "C"%string) then line_peers ["B"%string] else ∅) ∅.

Definition line_op : Operation := mkOperation Append "x" "f" "A" "1" 0.

Lemma line_peers_ok l k p : line_peers l !! k = Some p -> p_MinerID p = k /\ k ∈ l.
Proof.
  intros Hk. apply elem_of_list_to_map_2, list_elem_of_fmap in Hk as (x & [= -> ->] & Hx). done.
Qed.

Lemma line_ok v : peers_ok (line v).
Proof.
  intros k p. simpl. repeat case_decide; intros Hk; try (by apply line_peers_ok in Hk as []).
  by rewrite lookup_empty in Hk.
Qed.

Lemma line_linked v x : linked line v x -> x <> v /\ x ∈ ({["A"%string; "B"%string; "C"%string]} : gset string).
Proof.
  intros [p Hp]. unfold line in Hp. simpl in Hp. repeat case_decide; subst;
    try (apply line_peers_ok in Hp as [_ Hp]; set_solver). by rewrite lookup_empty in Hp.
Qed.

Lemma on_floodOperation_spec_witness :
  exists ignore, (forall x, x ∈ ignore <-> x ∈ ["A"%string] \/ is_Some (peers (line "B") !! x) \/ x = "B"%string) /\
    PSendOp "C" (mkFloodOp line_op ignore)
      ∈ on_floodOperation range_fwd range_bwd range_fwd (line "B") (mkFloodOp line_op ["A"%string]).
Proof.
  destruct (on_floodOperation_spec range_fwd range_bwd range_fwd (line "B") (mkFloodOp line_op ["A"%string]))
    as (ignore & _ & Hi & _ & Ho).
  - apply line_ok.
  - exists ignore. split; [exact Hi|]. apply Ho. exists "C"%string.
    split; [by exists (mkPeer "C" "")|]. split; [|reflexivity]. simpl. set_solver.
Defined.

Lemma line_reach : reach_in line "A" 2 "C".
Proof.
  apply (reach_S line "A" 1 "B" "C"); [apply (reach_S line "A" 0 "A" "B"); [apply reach_0|]|].
  - exists (mkPeer "B" ""). reflexivity.
  - exists (mkPeer "C" ""). reflexivity.
Qed.

Lemma flood_reaches_all_witness :
  exists m req, (m <= 2)%nat /\ delivered line line_op "A" m "C" req /\ fo_Operation req = line_op.
Proof.
  apply (flood_reaches_all line line_op "A" 2 "C").
  - reflexivity.
  - apply line_ok.
  - apply line_reach.
Defined.

Lemma flood_terminates_witness :
  (1 < size ({["A"%string; "B"%string; "C"%string]} : gset string))%nat.
Proof.
  destruct (on_floodOperation_eq range_fwd range_fwd range_fwd (line "A") (mkFloodOp line_op []))
    as (ignore & _ & _ & _ & Ho); [apply line_ok|].
  apply (flood_terminates line line_op "A" 1 "B" (mkFloodOp line_op ignore)).
  - reflexivity.
  - apply line_ok.
  - intros v Hv. by apply line_linked in Hv as [].
  - intros v x Hv. by apply line_linked in Hv as [].
  - set_solver.
  - eapply delivered_hop; [apply delivered_origin|]. apply Ho. exists "B"%string.
    split; [by exists (mkPeer "B" "")|]. split; [|reflexivity]. simpl. set_solver.
Defined.
