(* ===== verification/Batch.v ===== *)
(** [p2p/p2p_rpc.go], the two threads between operations and blocks:
    [buildPendingOperations], which collects operations into batches, and
    [startMining], which runs the worker. *)
From S2P Require Import Prelude GoLib Settings Operation Block Pow Blockchain ChainTheory.
From S2P Require Import Ledger LedgerTheory AddBlock QueryTheory RFSLedger Worker Rfslib Server Peers.
Local Open Scope Z_scope.

Definition MAX_BLOCK_SIZE : nat := 100.

(** The channel variable [C]: nil, or of a running or a stopped ticker (a tick
    sent before [Stop] can still be received). *)
Inductive tick_chan : Type := CNil | CRunning | CStopped.

(** The thread's local variables, and whether it holds [clientRPC.mux]. *)
Record Batch : Type := mkBatch {
  operations : gmap string Operation;
  C : tick_chan;
  holds_mux : bool
}.

Definition new_batch : Batch := mkBatch ∅ CNil false.

(** [BPanic]: [time.NewTicker] crashes when its duration is not positive. *)
Inductive batch_out : Type :=
| BReady (ch : nat) (success : bool)
| BFlood (req : FloodOpReq)
| BFinalized (ops : list Operation)
| BPanic.

(** [ticker.Stop(); finalizedOperations <- ListOpsFromMap(operations)], with
    the map made anew. *)
Definition finalize (rg : RangeOrder) (ops : gmap string Operation) (c : tick_chan) : Batch * list batch_out :=
  (mkBatch ∅ c false, [BFinalized (ListOpsFromMap rg ops)]).

Section batch.
Context {L : Type} `{RFSLedger L}.

(** A received operation that is valid on the longest chain: it is added to the
    batch and flooded if it comes from a client of this miner; the first of a
    batch starts a ticker of [timeout] seconds ([GenOpBlockTimeout]), the last
    hands the batch on. *)
Definition admit_valid (timeout : Z) (rg : RangeOrder) (b : Batch) (op : Operation)
    (pendingClientOperation : bool) : Batch * list batch_out :=
  let ops := <[OperationID op := op]> (operations b) in
  let flood := if pendingClientOperation then [BFlood (mkFloodOp op [])] else [] in
  if decide (size ops = 1%nat /\ timeout <= 0) then (mkBatch ops (C b) false, flood ++ [BPanic])
  else
    let c := if decide (size ops = 1%nat) then CRunning else C b in
    if decide (size ops = MAX_BLOCK_SIZE) then
      let '(b, outs) := finalize rg ops CStopped in (b, flood ++ outs)
    else (mkBatch ops c false, flood).

Definition panics (outs : list batch_out) : bool :=
  existsb (fun o => match o with BPanic => true | _ => false end) outs.

(** The second half of the case for a received operation, after the lock is
    released: validate it on the longest chain, add it to the batch. *)
Definition admit_op (timeout : Z) (rg1 rg2 rg3 : RangeOrder) (b : Batch) (s : Server) (l : L) (op : Operation)
    (pendingClientOperation : bool) : go (L * Server * Batch * list batch_out) :=
  '(l, lastHash) ← ld_GetLastHash l;
  '(l, (_, valid)) ← ld_ValidateOperations rg1 rg2 l [op] lastHash;
  if negb valid then Ret (l, s, b, [])
  else
    let '(b, outs) := admit_valid timeout rg3 b op pendingClientOperation in
    if panics outs then Panic else Ret (l, s, b, outs).

(** The part of the case under [clientRPC.mux]: a client's operation is refused
    ([inl], the early [continue]), or it goes on with the answer whether a
    client waits for it. *)
Definition locked_section (s : Server) (op : Operation) : (Server * list batch_out) + bool :=
  let ok := bool_decide (is_Some (confirmedFiles s !! Filename op)) in
  if (ok && bool_decide (Op op = Create)) || (negb ok && bool_decide (Op op = Append)) then
    match clientOps s !! OperationID op with
    | Some respChan =>
        inl (with_clientOps s (delete (OperationID op) (clientOps s)), [BReady (Ready respChan) false])
    | None => inr false
    end
  else inr (bool_decide (is_Some (clientOps s !! OperationID op))).

(** [case op := <-ms.receivedOps]. Locking a mutex that the thread holds blocks
    for ever; the early [continue] does not unlock it. *)
Definition on_receivedOp (timeout : Z) (rg1 rg2 rg3 : RangeOrder) (b : Batch) (s : Server) (l : L) (op : Operation)
    : go (L * Server * Batch * list batch_out) :=
  match operations b !! OperationID op with
  | Some _ => Ret (l, s, b, [])
  | None =>
      if holds_mux b then Stuck
      else match locked_section s op with
      | inl (s, outs) => Ret (l, s, mkBatch (operations b) (C b) true, outs)
      | inr pend => admit_op timeout rg1 rg2 rg3 b s l op pend
      end
  end.

(** [case <-C]. *)
Definition on_tick (rg : RangeOrder) (b : Batch) : option (Batch * list batch_out) :=
  match C b with
  | CNil => None
  | _ => let '(b', outs) := finalize rg (operations b) CNil in
         Some (mkBatch (operations b') (C b') (holds_mux b), outs)
  end.
End batch.

(** ** The thread [startMining] *)

Record MiningLoop : Type := mkLoop {
  isMining : bool;
  worker : option Worker
}.

Inductive loop_out : Type :=
| LStartMining (w : Worker)
| LAddBlock (b : Block).

Definition new_loop (config : Settings) : MiningLoop :=
  mkLoop false (Some (NewWorker (cfg_MinerID config) (PowPerNoOpBlock config) (PowPerOpBlock config))).

(** [case <-ms.mine]; without a worker the started thread dereferences nil. *)
Definition on_mine (s : MiningLoop) : go (MiningLoop * list loop_out) :=
  if isMining s then Ret (s, [])
  else match worker s with
  | None => Panic
  | Some w => Ret (mkLoop true (worker s), [LStartMining w])
  end.

(** [case block := <-finishedMining]. *)
Definition on_finishedMining (s : MiningLoop) (blk : Block) : MiningLoop * list loop_out :=
  if decide (0 < Nonce blk) then (mkLoop false (worker s), [LAddBlock blk]) else (s, []).

(** [case <-ms.stopMining]. *)
Definition on_stopMining (s : MiningLoop) : go MiningLoop :=
  match worker s with
  | None => Ret s
  | Some w => _ ← Stop w; Ret (mkLoop (isMining s) None)
  end.

(** ** Properties of batches *)

(** Operations are filed under their identifier, fewer than a full batch; while
    there are any, the ticker runs (if it could be started), so they will be
    sent. *)
Record batch_ok (timeout : Z) (b : Batch) : Prop := {
  bo_keyed : keyed (operations b);
  bo_size : (size (operations b) < MAX_BLOCK_SIZE)%nat;
  bo_tick : 0 < timeout -> operations b <> ∅ -> C b = CRunning
}.

(** A batch for the worker: at most a full block, distinct identifiers. *)
Definition good_batch (ops : list Operation) : Prop :=
  (length ops <= MAX_BLOCK_SIZE)%nat /\ NoDup (OperationID <$> ops).

Lemma finalized_good rg ops :
  keyed ops -> (size ops <= MAX_BLOCK_SIZE)%nat -> good_batch (ListOpsFromMap rg ops).
Proof.
  intros Hk Hs. pose proof (ListOpsFromMap_perm rg ops) as Hp. split.
  - rewrite Hp, length_fmap, length_map_to_list. done.
  - rewrite Hp. apply (keyed_values range_fwd ops Hk).
Qed.

Lemma keyed_insert ops op : keyed ops -> keyed (<[OperationID op := op]> ops).
Proof. intros Hk i o. rewrite lookup_insert. case_decide; [|apply Hk]. by intros [= <-]. Qed.

Lemma batch_ok_empty timeout c h : batch_ok timeout (mkBatch ∅ c h).
Proof. split; simpl; [by intros i o ?%lookup_empty_Some|rewrite map_size_empty; unfold MAX_BLOCK_SIZE; lia|done]. Qed.

Section theorems.
Context {L : Type} `{LedgerLaws L}.

(** What becomes of a received operation: nothing, or the ledger admits it and
    it is added, which may fill the batch. *)
Definition op_outcome (rg : RangeOrder) (b : Batch) (l : L) (op : Operation) (b' : Batch)
    (outs : list batch_out) : Prop :=
  (operations b' = operations b /\ C b' = C b /\ forall fin, BFinalized fin ∉ outs) \/
  (operations b !! OperationID op = None /\ admissible (l_config l) (l_longest l) [op] /\
   let ops := <[OperationID op := op]> (operations b) in
   ((operations b' = ∅ /\ size ops = MAX_BLOCK_SIZE /\
     forall fin, BFinalized fin ∈ outs -> fin = ListOpsFromMap rg ops) \/
    (operations b' = ops /\ size ops <> MAX_BLOCK_SIZE /\
     C b' = (if decide (size ops = 1%nat) then CRunning else C b) /\
     forall fin, BFinalized fin ∉ outs))).

Lemma admit_valid_outcome timeout rg b op pend l :
  operations b !! OperationID op = None -> admissible (l_config l) (l_longest l) [op] ->
  (panics (admit_valid timeout rg b op pend).2 = true /\ timeout <= 0 /\ operations b = ∅) \/
  (panics (admit_valid timeout rg b op pend).2 = false /\
   (operations b = ∅ -> 0 < timeout) /\
   op_outcome rg b l op (admit_valid timeout rg b op pend).1 (admit_valid timeout rg b op pend).2).
Proof using Type.
  intros Hdup Hadm. unfold admit_valid. set (fl := if pend then _ else _).
  assert (forall fin, BFinalized fin ∉ fl) as Hnf.
  { intros fin. unfold fl. destruct pend; [intros ?%list_elem_of_singleton; done|apply not_elem_of_nil]. }
  assert (size (<[OperationID op := op]> (operations b)) = S (size (operations b))) as Hsz by (by apply map_size_insert_None).
  case_decide as Hp; [left|right].
  { simpl. unfold panics. rewrite existsb_app. simpl. rewrite orb_true_r. split_and!; [done|lia|].
    apply map_size_empty_inv. lia. }
  assert (operations b = ∅ -> 0 < timeout) as Hpos.
  { intros He. assert (size (operations b) = 0%nat) as Hzero by (by rewrite He, map_size_empty).
    destruct (decide (0 < timeout)); [done|]. destruct Hp. split; lia. }
  assert (forall l, panics (fl ++ l) = panics l) as Hpf by (intros ?; unfold panics, fl; rewrite existsb_app; by destruct pend).
  case_decide as Hs; simpl.
  - rewrite Hpf. split_and!; [done..|]. right. split; [done|]. split; [done|]. left.
    split_and!; [done..|]. intros fin [Hf|Hf%list_elem_of_singleton]%elem_of_app; [by apply Hnf in Hf|by injection Hf].
  - split_and!; [unfold fl; by destruct pend|done|]. right. split; [done|]. split; [done|]. right. split_and!; done.
Qed.

Lemma admit_op_total timeout rg1 rg2 rg3 b s l op pend :
  l_ok l -> operations b !! OperationID op = None ->
  (admit_op timeout rg1 rg2 rg3 b s l op pend = Panic /\ timeout <= 0 /\ operations b = ∅) \/
  exists l' b' outs, admit_op timeout rg1 rg2 rg3 b s l op pend = Ret (l', s, b', outs) /\ same_view l l' /\
    op_outcome rg3 b l op b' outs /\ (operations b' <> operations b -> operations b = ∅ -> 0 < timeout).
Proof.
  intros Hl Hdup. unfold admit_op.
  destruct (law_GetLastHash l Hl) as (l1 & t & ts & -> & V1 & Hlong & Hbr). simpl.
  destruct (law_ValidateOperations rg1 rg2 l1 [op] (Hash t) (sv_ok _ _ V1 Hl)) as (l2 & valid & ok & -> & V2 & Hv).
  rewrite (sv_branch _ _ V1), Hbr, (sv_config _ _ V1) in Hv. destruct Hv as (Hok & _). simpl.
  assert (same_view l l2) as V by (by transitivity l1).
  destruct ok; simpl;
    [|right; do 3 eexists; split; [done|]; split_and!; [done| |done]; left; split_and!; [done..|by intros ? ?%elem_of_nil]].
  rewrite <- Hlong in Hok.
  destruct (admit_valid_outcome timeout rg3 b op pend l Hdup (proj1 Hok eq_refl)) as [(Hp & ? & ?)|(Hp & ? & Ho)];
    destruct (admit_valid timeout rg3 b op pend) as [b' outs]; simpl in *; rewrite Hp; [by left|].
  right. exists l2, b', outs. by split_and!.
Qed.

Lemma admit_op_panics timeout rg1 rg2 rg3 b s l op pend :
  l_ok l -> timeout <= 0 -> operations b = ∅ -> admissible (l_config l) (l_longest l) [op] ->
  admit_op timeout rg1 rg2 rg3 b s l op pend = Panic.
Proof.
  intros Hl Ht He Hadm. unfold admit_op.
  destruct (law_GetLastHash l Hl) as (l1 & t & ts & -> & V1 & Hlong & Hbr). simpl.
  destruct (law_ValidateOperations rg1 rg2 l1 [op] (Hash t) (sv_ok _ _ V1 Hl)) as (l2 & valid & ok & -> & V2 & Hv).
  rewrite (sv_branch _ _ V1), Hbr, (sv_config _ _ V1) in Hv. destruct Hv as (Hok & _). simpl.
  rewrite <- Hlong in Hok. rewrite (proj2 Hok Hadm). simpl.
  destruct (admit_valid_outcome timeout rg3 b op pend l) as [(Hp & _)|(_ & Hpos & _)]; [by rewrite He|done| |].
  - destruct (admit_valid timeout rg3 b op pend) as [b' outs]. simpl in *. by rewrite Hp.
  - specialize (Hpos He). lia.
Qed.

Lemma on_receivedOp_total timeout rg1 rg2 rg3 b s l op : l_ok l ->
  (on_receivedOp timeout rg1 rg2 rg3 b s l op = Stuck /\ holds_mux b = true) \/
  (on_receivedOp timeout rg1 rg2 rg3 b s l op = Panic /\ timeout <= 0 /\ operations b = ∅) \/
  exists l' s' b' outs, on_receivedOp timeout rg1 rg2 rg3 b s l op = Ret (l', s', b', outs) /\ same_view l l' /\
    op_outcome rg3 b l op b' outs /\ (operations b' <> operations b -> operations b = ∅ -> 0 < timeout).
Proof.
  intros Hl. unfold on_receivedOp.
  destruct (operations b !! OperationID op) as [o0|] eqn:Hdup.
  { right. right. do 4 eexists. split; [done|]. split_and!; [done| |done]. left. split_and!; [done..|by intros ? ?%elem_of_nil]. }
  destruct (holds_mux b) eqn:Hmux; [by left|]. right.
  destruct (locked_section s op) as [[s' outs]|pend] eqn:Hlock.
  - right. do 4 eexists. split; [done|]. split_and!; [done| |done]. left. split_and!; [done..|].
    unfold locked_section in Hlock. repeat case_match; simplify_eq. intros ops ?%list_elem_of_singleton. done.
  - destruct (admit_op_total timeout rg1 rg2 rg3 b s l op pend Hl Hdup)
      as [(-> & ? & ?)|(l' & b' & outs & -> & V & Ho & Hpos)]; [by left|].
    right. exists l', s, b', outs. done.
Qed.

Lemma op_outcome_ok timeout rg b l op b' outs :
  batch_ok timeout b -> op_outcome rg b l op b' outs ->
  batch_ok timeout b' /\ forall fin, BFinalized fin ∈ outs -> good_batch fin.
Proof using Type.
  intros [Hk Hs Ht] [(Ho & Hc & Hf)|(Hn & _ & Hcase)].
  { split; [split; by rewrite ?Ho, ?Hc|]. intros fin Hfin. by apply Hf in Hfin. }
  pose proof (keyed_insert _ op Hk) as Hk'. cbv zeta in Hcase.
  assert (size (<[OperationID op := op]> (operations b)) = S (size (operations b))) as Hsz by (by apply map_size_insert_None).
  destruct Hcase as [(Ho & Hmax & Hf)|(Ho & Hmax & Hc & Hf)].
  - split; [destruct b' as [? c m]; simpl in Ho; subst; apply batch_ok_empty|].
    intros fin ->%Hf. apply finalized_good; [done|lia].
  - split; [|intros fin Hfin; by apply Hf in Hfin]. rewrite Hsz in Hmax, Hc.
    split; rewrite ?Ho, ?Hc; [done|rewrite Hsz; unfold MAX_BLOCK_SIZE in *; lia|].
    intros Hpos _. case_decide; [done|]. apply Ht; [done|]. intros He.
    assert (size (operations b) = 0%nat) by (rewrite He; apply map_size_empty). lia.
Qed.

(** The batches sent to the worker. *)
Definition finals (outs : list batch_out) : list (list Operation) :=
  omap (fun o => match o with BFinalized ops => Some ops | _ => None end) outs.

(** The thread from its start: the state, all batches sent so far, and the
    operations it received, each with the ledger at that moment. Other threads
    may change the server and the ledger between its steps. *)
Inductive batch_run (timeout : Z) : Batch -> list (list Operation) -> list (L * Operation) -> Prop :=
| run_start : batch_run timeout new_batch [] []
| run_op rg1 rg2 rg3 b s l op l' s' b' outs sent received :
    batch_run timeout b sent received -> l_ok l ->
    on_receivedOp timeout rg1 rg2 rg3 b s l op = Ret (l', s', b', outs) ->
    batch_run timeout b' (sent ++ finals outs) (received ++ [(l, op)])
| run_tick rg b b' outs sent received :
    batch_run timeout b sent received -> on_tick rg b = Some (b', outs) ->
    batch_run timeout b' (sent ++ finals outs) received.

(** An operation that was received in the run, on a ledger that admitted it on
    its longest chain. *)
Definition admitted (received : list (L * Operation)) (op : Operation) : Prop :=
  exists l, (l, op) ∈ received /\ admissible (l_config l) (l_longest l) [op].

Definition run_inv (timeout : Z) (b : Batch) (sent : list (list Operation)) (received : list (L * Operation)) : Prop :=
  batch_ok timeout b /\ map_Forall (fun _ => admitted received) (operations b) /\
  Forall (fun ops => good_batch ops /\ Forall (admitted received) ops) sent /\
  (timeout <= 0 -> operations b = ∅ /\ C b = CNil /\ sent = []).

Lemma elem_of_finals outs fin : fin ∈ finals outs <-> BFinalized fin ∈ outs.
Proof using Type.
  unfold finals. rewrite list_elem_of_omap. split; [|eauto].
  intros (o & Ho & Heq). destruct o; by simplify_eq.
Qed.

Lemma ListOps_admitted rg received ops :
  map_Forall (fun _ => admitted received) ops -> Forall (admitted received) (ListOpsFromMap rg ops).
Proof using Type.
  intros Ha. rewrite ListOpsFromMap_perm. apply Forall_fmap, Forall_forall. intros [k o] Ho.
  apply elem_of_map_to_list in Ho. exact (Ha k o Ho).
Qed.

Lemma admitted_more received x op : admitted received op -> admitted (received ++ [x]) op.
Proof using Type. intros (l & Hin & Ha). exists l. split; [|done]. apply elem_of_app. by left. Qed.

Lemma finals_nil outs : (forall fin, BFinalized fin ∉ outs) -> finals outs = [].
Proof using Type.
  intros Hn. destruct (finals outs) as [|fin fins] eqn:E; [done|]. destruct (Hn fin).
  apply elem_of_finals. rewrite E. by left.
Qed.

Lemma run_inv_op timeout rg1 rg2 rg3 b s l op l' s' b' outs sent received :
  run_inv timeout b sent received -> l_ok l ->
  on_receivedOp timeout rg1 rg2 rg3 b s l op = Ret (l', s', b', outs) ->
  run_inv timeout b' (sent ++ finals outs) (received ++ [(l, op)]).
Proof.
  intros (Hb & Ha & Hs & Hz) Hl Hrun.
  destruct (on_receivedOp_total timeout rg1 rg2 rg3 b s l op Hl)
    as [[Hst _]|[[Hst _]|(? & ? & ? & ? & Hrun' & _ & Ho & Hpos)]]; [congruence..|].
  rewrite Hrun in Hrun'. simplify_eq. destruct (op_outcome_ok timeout _ _ _ _ _ _ Hb Ho) as [Hb' Hfin].
  assert (map_Forall (fun _ => admitted (received ++ [(l, op)])) (operations b)) as Ha'.
  { eapply map_Forall_impl; [exact Ha|]. intros. by apply admitted_more. }
  assert (admissible (l_config l) (l_longest l) [op] ->
    map_Forall (fun _ => admitted (received ++ [(l, op)])) (<[OperationID op := op]> (operations b))) as Hins.
  { intros Hadm. apply map_Forall_insert_2; [|done]. exists l. split; [|done]. apply elem_of_app. right. by left. }
  split_and!; [done|..].
  - destruct Ho as [(-> & _)|(_ & Hadm & [(-> & _)|(-> & _)])]; [done|apply map_Forall_empty|auto].
  - apply Forall_app. split.
    + eapply Forall_impl; [exact Hs|]. intros ops [? Hf]. split; [done|]. eapply Forall_impl; [exact Hf|].
      intros. by apply admitted_more.
    + apply Forall_forall. intros fin Hf%elem_of_finals. split; [auto|].
      destruct Ho as [(_ & _ & Hn)|(_ & Hadm & [(_ & _ & Heq)|(_ & _ & _ & Hn)])]; [by apply Hn in Hf| |by apply Hn in Hf].
      rewrite (Heq _ Hf). apply ListOps_admitted. auto.
  - intros Ht. destruct (Hz Ht) as (He & Hc & ->). destruct Ho as [(Ho & Hc' & Hn)|(Hn & _ & Hcase)].
    + rewrite Ho, Hc', (finals_nil _ Hn). done.
    + exfalso. assert (0 < timeout); [|lia]. apply Hpos; [|done]. rewrite He in Hcase |- *. cbv zeta in Hcase.
      destruct Hcase as [(_ & Hmax & _)|(-> & _)]; [|apply insert_non_empty].
      rewrite map_size_insert_None, map_size_empty in Hmax by done. discriminate.
Qed.

Lemma run_inv_tick timeout rg b b' outs sent received :
  run_inv timeout b sent received -> on_tick rg b = Some (b', outs) ->
  run_inv timeout b' (sent ++ finals outs) received.
Proof using Type.
  intros (Hb & Ha & Hs & Hz) Hrun. unfold on_tick in Hrun.
  assert (0 < timeout) as Hpos.
  { destruct (decide (0 < timeout)); [done|]. destruct Hz as (_ & Hc & _); [lia|]. by rewrite Hc in Hrun. }
  destruct (C b); [done|..]; simpl in Hrun; injection Hrun as <- <-.
  all: split_and!; [apply batch_ok_empty|apply map_Forall_empty| |lia]; apply Forall_app; (split; [done|]);
    apply Forall_singleton; split; [apply finalized_good; [apply Hb|apply Nat.lt_le_incl, Hb]|by apply ListOps_admitted].
Qed.

Lemma run_inv_holds timeout b sent received : batch_run timeout b sent received -> run_inv timeout b sent received.
Proof.
  induction 1; [|by eapply run_inv_op|by eapply run_inv_tick].
  split_and!; [apply batch_ok_empty|apply map_Forall_empty|constructor|done].
Qed.

(** C20: Batches are sound: whatever operations arrive and whenever the ticker
    fires, every batch sent to the worker has at most [MAX_BLOCK_SIZE]
    operations with distinct identifiers, each of which was received in the run
    and admitted by the ledger at that moment. If [GenOpBlockTimeout] is
    positive, the ticker runs while operations are waiting, and when it fires
    they are all sent; if it is zero nothing is ever sent, and the first
    admitted operation crashes the thread. *)
Theorem batches_sound timeout b sent received (Hrun : batch_run timeout b sent received) :
  Forall (fun ops => (length ops <= MAX_BLOCK_SIZE)%nat /\ NoDup (OperationID <$> ops) /\
    Forall (admitted received) ops) sent /\
  (size (operations b) < MAX_BLOCK_SIZE)%nat /\
  (0 < timeout -> operations b <> ∅ -> C b = CRunning /\ forall rg, exists b' outs, on_tick rg b = Some (b', outs) /\
     operations b' = ∅ /\ finals outs = [ListOpsFromMap rg (operations b)]) /\
  (timeout <= 0 -> sent = [] /\ forall rg1 rg2 rg3 s l op pend, l_ok l ->
     admissible (l_config l) (l_longest l) [op] -> admit_op timeout rg1 rg2 rg3 b s l op pend = Panic).
Proof.
  destruct (run_inv_holds timeout b sent received Hrun) as (Hb & _ & Hs & Hz). split_and!.
  - eapply Forall_impl; [exact Hs|]. by intros ops [[? ?] ?].
  - apply Hb.
  - intros Hpos Hne. pose proof (bo_tick _ _ Hb Hpos Hne) as Hc. split; [done|]. intros rg. unfold on_tick. rewrite Hc. eauto.
  - intros Ht. destruct (Hz Ht) as (He & _ & Hsent). split; [done|]. intros rg1 rg2 rg3 s l op pend Hl Hadm.
    by apply admit_op_panics.
Qed.

(** Refusing a client's operation stops the thread: it keeps the server's lock,
    and the next operation waits for ever. *)
Theorem refusal_blocks timeout rg1 rg2 rg3 b s (l : L) op ch op2 l2 s2
    (Hfree : holds_mux b = false) (Hnew : operations b !! OperationID op = None)
    (Hpend : clientOps s !! OperationID op = Some ch)
    (Hfile : is_Some (confirmedFiles s !! Filename op)) (Hcreate : Op op = Create)
    (Hnext : operations b !! OperationID op2 = None) :
  exists s' b', on_receivedOp timeout rg1 rg2 rg3 b s l op = Ret (l, s', b', [BReady (Ready ch) false]) /\
    on_receivedOp timeout rg1 rg2 rg3 b' s2 l2 op2 = Stuck.
Proof.
  unfold on_receivedOp, locked_section.
  rewrite Hnew, Hfree, Hpend, (bool_decide_eq_true_2 _ Hfile), (bool_decide_eq_true_2 _ Hcreate).
  simpl. do 2 eexists. split; [done|]. simpl. by rewrite Hnext.
Qed.
End theorems.

(** ** The mining loop *)

Section mining_loop.
Context `{Gob (list Operation)}.

(** A worker's block is handed on, once the loop is free again, unless its
    nonce is 0: then the loop drops it and, still marked as mining, ignores
    every later request to mine. With difficulty 0 this is every block. *)
Theorem zero_nonce_block_dropped fuel s ops prev mID stop now blk
    (Hmining : isMining s = true) (Hgo : stop 0 = false)
    (Hmined : NewBlock (S fuel) ops prev mID 0 stop now = Ret blk) :
  Validate (NewProofOfWork blk 0) = true /\
  on_finishedMining s blk = (s, []) /\ on_mine s = Ret (s, []).
Proof.
  assert (forall b x, hash_ok (NewProofOfWork b 0) x = true) as Hok.
  { intros b x. unfold hash_ok, NewProofOfWork. simpl. apply Z.eqb_eq. symmetry. apply Z.shiftl_0_r. }
  split; [apply Hok|]. unfold on_finishedMining, on_mine. rewrite Hmining. split; [|done].
  unfold NewBlock, Run in Hmined. simpl in Hmined. rewrite Hgo, Hok in Hmined. simpl in Hmined.
  injection Hmined as <-. done.
Qed.
End mining_loop.
