(* ===== verification/Dial.v ===== *)
(** [p2p/p2p_rpc.go], joining the network: the calls [DialPeer] and [GetBlocks]
    that peers make, and [startMinerRPC], which dials the configured peers and
    takes over their chains. *)
From S2P Require Import Prelude GoLib Settings Operation Block Pow Blockchain ChainTheory.
From S2P Require Import Ledger AddBlock QueryTheory Rebuild RFSLedger Resolver Manager Peers.

Record NewPeerInfo : Type := mkPeerInfo {
  np_Address : string;
  np_MinerID : string;
  np_Blockchain : list Block
}.

Record NewPeerResponse : Type := mkPeerResponse {
  nr_MinerID : string;
  nr_Blockchain : list Block
}.

Definition hex_digits : list Ascii.ascii := String.list_ascii_of_string "0123456789abcdef".

(** [%x] of a byte string. *)
Definition hex (s : string) : string :=
  String.string_of_list_ascii
    ((fun n => default Ascii.zero (hex_digits !! Z.to_nat n)) <$> nibbles s).

Definition BlockDoesNotExistError (e : string) : string :=
  "The blockchain does not contain a Block with hash [" +:+ e +:+ "]".

(** The call [GetBlocks]. *)
Definition MinerServer_GetBlocks (config : Settings) (m : ChainManager) (hash : string)
    : go (result (list Block)) :=
  blocks ← GetPreviousBlocks_oldest_first m hash 500;
  if decide (length blocks = 0) then
    Ret (Err (cfg_MinerID config +:+ " does not have blocks for hash " +:+ hex hash))
  else Ret (Ok blocks).

(** Waiting for the manager to synchronize: it answers on [done] if it did; if
    it did not, it answers on no channel. *)
Definition synchronize (rg : RangeOrder) (m : ChainManager) (blocks : list Block) : go ChainManager :=
  '(m, outs) ← on_sync rg m blocks;
  match outs with
  | [] => Stuck
  | _ => Ret m
  end.

Definition respond (rg : RangeOrder) (config : Settings) (m : ChainManager) : go NewPeerResponse :=
  blocks ← GetBlocks rg (m_heap m) (blockchain m);
  Ret (mkPeerResponse (cfg_MinerID config) blocks).

(** [resolve], [dial]: the results of [net.ResolveTCPAddr] and [rpc.Dial]. The
    list holds the peer sent to [newPeer]. *)
Definition DialPeer (resolve : string -> result string) (dial : string -> option string)
    (rg1 rg2 : RangeOrder) (config : Settings) (m : ChainManager) (info : NewPeerInfo)
    : go (ChainManager * list Peer * result NewPeerResponse) :=
  match resolve (np_Address info) with
  | Err e => Ret (m, [], Err e)
  | Ok addr =>
      match dial addr with
      | Some e => Ret (m, [], Err e)
      | None =>
          let newPeer := mkPeer (np_MinerID info) addr in
          if decide (1 < length (np_Blockchain info)) then
            m ← synchronize rg1 m (np_Blockchain info);
            response ← respond rg2 config m;
            Ret (m, [newPeer], Ok response)
          else
            response ← respond rg2 config m;
            Ret (m, [newPeer], Ok response)
      end
  end.

(** ** Dialing *)

(** [attempt n addr]: what dialing [addr] in the [n]-th round gives: no
    connection, a failed call, or the peer's response. *)
Section dialing.
Context (attempt : nat -> string -> option (result NewPeerResponse)) (rg : RangeOrder).

(** The inner loop over the addresses. *)
Fixpoint dial_round (n : nat) (addrs : list string) (dialedPeers : gset string) (m : ChainManager)
    (newPeers : list Peer) : go (gset string * ChainManager * list Peer) :=
  match addrs with
  | [] => Ret (dialedPeers, m, newPeers)
  | addr :: addrs =>
      if decide (addr ∈ dialedPeers) then dial_round n addrs dialedPeers m newPeers
      else match attempt n addr with
      | None => dial_round n addrs dialedPeers m newPeers
      | Some (Err _) => dial_round n addrs dialedPeers m newPeers
      | Some (Ok response) =>
          let newPeer := mkPeer (nr_MinerID response) addr in
          m ← synchronize rg m (nr_Blockchain response);
          dial_round n addrs ({[addr]} ∪ dialedPeers) m (newPeers ++ [newPeer])
      end
  end.

(** The outer loop, until as many peers are dialed as there are addresses. *)
Fixpoint dial_rounds (fuel n : nat) (addrs : list string) (dialedPeers : gset string) (m : ChainManager)
    (newPeers : list Peer) : go (ChainManager * list Peer) :=
  if decide (size dialedPeers < length addrs) then
    match fuel with
    | O => NoFuel
    | S fuel =>
        '(dialedPeers, m, newPeers) ← dial_round n addrs dialedPeers m newPeers;
        dial_rounds fuel (S n) addrs dialedPeers m newPeers
    end
  else Ret (m, newPeers).

Definition startMinerRPC (fuel : nat) (config : Settings) (m : ChainManager) : go (ChainManager * list Peer) :=
  dial_rounds fuel 0 (PeerMinersAddrs config) ∅ m [].
End dialing.

(** ** Properties *)

Lemma same_chain_view h bc h2 bc2 k :
  wf h bc -> wf h2 bc2 -> same_chain h bc h2 bc2 -> view h2 bc2 !! k = view h bc !! k.
Proof.
  intros W W2 Hs. specialize (Hs k). apply option_eq. intros b. rewrite !view_lookup.
  destruct (bc_m bc !! k) as [l|] eqn:Hl, (bc_m bc2 !! k) as [l2|] eqn:Hl2; try done.
  2: by split; intros (? & ? & ? & _).
  destruct (branch_head h bc l W) as (n & bs & Hn & Hb & _); [by exists k|].
  destruct (branch_head h2 bc2 l2 W2) as (n2 & bs2 & Hn2 & Hb2 & _); [by exists k|].
  rewrite Hb, Hb2 in Hs. injection Hs as Hs _. split.
  - intros (? & ? & ? & ? & ?). simplify_eq. exists l, n. auto.
  - intros (? & ? & ? & ? & ?). simplify_eq. exists l2, n2. auto.
Qed.

(** Rebuilding the blocks of a well-formed chain never blocks, and copies it. *)
Lemma synchronize_copy rg0 rg m hp bcp g0 :
  wf hp bcp -> hp !! genesis bcp = Some g0 -> PreviousHash (block g0) = EmptyString ->
  bc_m bcp !! EmptyString = None ->
  exists blocks m', GetBlocks rg0 hp bcp = Ret blocks /\ synchronize rg m blocks = Ret m' /\
    wf (m_heap m') (blockchain m') /\ same_chain hp bcp (m_heap m') (blockchain m') /\
    bc_config (blockchain m') = m_config m /\ m_config m' = m_config m.
Proof.
  intros W Hg Hroot Hemp.
  destruct (Unmarshall_copy rg0 rg hp bcp (m_heap m) g0 W Hg Hroot Hemp)
    as (blocks & h2 & bc2 & Hget & Hun & W2 & Hsame).
  exists blocks, (with_chain m h2 (SetConfig bc2 (m_config m))). split; [done|].
  unfold synchronize, on_sync. rewrite Hun. simpl. split_and!; try done. by destruct W2.
Qed.

(** ** Theorems *)

(** C16: Meeting a peer: when a peer with a well-formed chain of several blocks
    dials a miner, and can be dialed back, the miner takes the peer's chain
    over, under its own configuration, and answers with the same blocks. *)
Theorem DialPeer_adopts resolve dial rg0 rg1 rg2 config m addr hp bcp g0 peerAddr peerID blocks
    (W : wf hp bcp) (Hg : hp !! genesis bcp = Some g0)
    (Hroot : PreviousHash (block g0) = EmptyString) (Hempty : bc_m bcp !! EmptyString = None)
    (Hblocks : GetBlocks rg0 hp bcp = Ret blocks) (Hmany : (1 < length blocks)%nat)
    (Hresolve : resolve peerAddr = Ok addr) (Hdial : dial addr = None) :
  exists m' blocks', DialPeer resolve dial rg1 rg2 config m (mkPeerInfo peerAddr peerID blocks)
      = Ret (m', [mkPeer peerID addr], Ok (mkPeerResponse (cfg_MinerID config) blocks')) /\
    wf (m_heap m') (blockchain m') /\ same_chain hp bcp (m_heap m') (blockchain m') /\
    bc_config (blockchain m') = m_config m /\ blocks' ≡ₚ blocks.
Proof.
  destruct (synchronize_copy rg0 rg1 m hp bcp g0 W Hg Hroot Hempty)
    as (blocks0 & m' & Hget & Hsync & W' & Hsame & Hcfg & _). rewrite Hblocks in Hget. injection Hget as <-.
  destruct (GetBlocks_eq rg2 _ _ W') as (blocks' & Hget' & Hnd' & Hin').
  destruct (GetBlocks_eq rg0 _ _ W) as (blocks0 & Hget & Hnd & Hin). rewrite Hblocks in Hget. injection Hget as <-.
  exists m', blocks'. split.
  - unfold DialPeer. simpl. rewrite Hresolve, Hdial, decide_True by done. rewrite Hsync. simpl.
    unfold respond. by rewrite Hget'.
  - split_and!; [done..|]. apply NoDup_Permutation; [by eapply NoDup_fmap_1|by eapply NoDup_fmap_1|].
    intros b. rewrite Hin, Hin', (same_chain_view hp bcp) by done. done.
Qed.

(** A peer that sends a chain with a missing parent blocks the call for ever. *)
Theorem DialPeer_blocks resolve dial rg1 rg2 config m addr info h e
    (Hresolve : resolve (np_Address info) = Ok addr) (Hdial : dial addr = None)
    (Hmany : (1 < length (np_Blockchain info))%nat)
    (Hbad : UnmarshallBlockchain rg1 (m_heap m) (np_Blockchain info) = Ret (h, Err e)) :
  DialPeer resolve dial rg1 rg2 config m info = Stuck.
Proof.
  unfold DialPeer. rewrite Hresolve, Hdial, decide_True by done.
  unfold synchronize, on_sync. by rewrite Hbad.
Qed.

(** Only configured addresses are ever marked as dialed. *)
Lemma dial_round_subset attempt rg n addrs : forall all dialed m new dialed' m' new',
  addrs ⊆ all -> dialed ⊆ (list_to_set all : gset string) ->
  dial_round attempt rg n addrs dialed m new = Ret (dialed', m', new') ->
  dialed' ⊆ (list_to_set all : gset string).
Proof.
  induction addrs as [|a addrs IH]; intros all dialed m new dialed' m' new' Hsub Hd Hrun; simpl in Hrun;
    [by simplify_eq|].
  assert (addrs ⊆ all) as Hsub' by set_solver. assert (a ∈ all) as Ha by set_solver.
  case_decide; [by eapply IH|]. destruct (attempt n a) as [[resp|e]|]; [|by eapply IH..].
  go_inv Hrun. eapply IH; [done| |done]. set_solver.
Qed.

Lemma size_list_le (l : list string) : size (list_to_set l : gset string) <= length l.
Proof.
  induction l as [|x l IH]; simpl; [done|]. destruct (decide (x ∈ l)) as [Hx|Hx].
  - assert ({[x]} ∪ list_to_set l = (list_to_set l : gset string)) as -> by set_solver. lia.
  - rewrite size_union, size_singleton by set_solver. lia.
Qed.

Lemma size_repeated (l : list string) : ~ NoDup l -> size (list_to_set l : gset string) < length l.
Proof.
  induction l as [|x l IH]; intros Hn; [destruct Hn; constructor|]. simpl.
  pose proof (size_list_le l). destruct (decide (x ∈ l)) as [Hx|Hx].
  - assert ({[x]} ∪ list_to_set l = (list_to_set l : gset string)) as -> by set_solver. lia.
  - assert (~ NoDup l) as Hl by (intros ?; apply Hn; by constructor).
    rewrite size_union, size_singleton by set_solver. specialize (IH Hl). lia.
Qed.

(** C40: Dialing never ends if an address is configured twice: addresses are counted
    with, dialed peers without repetition. *)
Theorem startMinerRPC_repeated attempt rg fuel config m r
    (Hdup : ~ NoDup (PeerMinersAddrs config)) :
  startMinerRPC attempt rg fuel config m <> Ret r.
Proof.
  unfold startMinerRPC. set (addrs := PeerMinersAddrs config) in *.
  assert (size (list_to_set addrs : gset string) < length addrs)%nat as Hlt by (by apply size_repeated).
  assert (forall fuel n dialed m new, dialed ⊆ (list_to_set addrs : gset string) ->
    dial_rounds attempt rg fuel n addrs dialed m new <> Ret r) as Hgen; [|apply Hgen; set_solver].
  clear fuel m. intros fuel. induction fuel as [|fuel IH]; intros n dialed m new Hd; simpl;
    (rewrite decide_True by (apply subseteq_size in Hd; lia)); [done|].
  intros Hrun. go_inv Hrun. destruct r0 as [[dialed' m1] new'].
  eapply IH; [|exact Hrun]. by eapply dial_round_subset.
Qed.
