(* ===== verification/Listener.v ===== *)
(** The accept loops of the two servers a miner runs: [Server.startListening] in
    [p2p/rpc.go], and [MinerServer.startListening] in [p2p/p2p_rpc.go] with the
    threads that its [listen] starts, each with a channel of its own. *)
From S2P Require Import Prelude.

(** What [listener.Accept] returns. *)
Inductive accept_result : Type :=
| Accepted (conn : string)
| AcceptFailed (err : string).

(** The loop of [Server.startListening]: the connections it serves. *)
Fixpoint serve_clients (results : list accept_result) : list string :=
  match results with
  | [] => []
  | AcceptFailed _ :: results => serve_clients results
  | Accepted conn :: results => conn :: serve_clients results
  end.

(** ** The loop for miners *)

(** A thread of [listen]: in [Accept]; about to send [nil] after an error; about
    to send what [Accept] returned, [None] for [nil]; returned. *)
Inductive accept_pc : Type :=
| GAccept
| GSendNil
| GSend (conn : option string)
| GDone.

#[export] Instance accept_pc_eq_dec : EqDecision accept_pc.
Proof. solve_decision. Defined.

(** [ls_threads]: the threads that [listen] has started; [ls_select]: the one on
    whose channel the [select] waits, [None] once the loop has returned.
    [ls_stop] and [ls_closed]: the channel [stop] and the listener are closed.
    [ls_accepted], [ls_failed] and [ls_served] are what [Accept] has returned so
    far, and the connections for which [ServeConn] was started. *)
Record Listener : Type := mkListener {
  ls_threads : list accept_pc;
  ls_select : option nat;
  ls_stop : bool;
  ls_closed : bool;
  ls_accepted : list string;
  ls_failed : nat;
  ls_served : list string
}.

(** At its first [select]. *)
Definition new_listener : Listener := mkListener [GAccept] (Some 0) false false [] 0 [].

(** [Accept] returns to thread [i]. *)
Definition accepts (l : Listener) (i : nat) (r : accept_result) : Listener :=
  match r with
  | Accepted conn => mkListener (<[i := GSend (Some conn)]> (ls_threads l)) (ls_select l) (ls_stop l)
      (ls_closed l) (ls_accepted l ++ [conn]) (ls_failed l) (ls_served l)
  | AcceptFailed _ => mkListener (<[i := GSendNil]> (ls_threads l)) (ls_select l) (ls_stop l)
      (ls_closed l) (ls_accepted l) (S (ls_failed l)) (ls_served l)
  end.

(** The [select] receives [conn] from thread [i], which goes on as [pc]; a
    connection is served, and the next round starts a new thread. *)
Definition receives (l : Listener) (i : nat) (conn : option string) (pc : accept_pc) : Listener :=
  mkListener (<[i := pc]> (ls_threads l) ++ [GAccept]) (Some (length (ls_threads l))) (ls_stop l)
    (ls_closed l) (ls_accepted l) (ls_failed l)
    (match conn with Some conn => ls_served l ++ [conn] | None => ls_served l end).

(** A send needs the [select] to wait on its channel; [Accept] on a closed
    listener fails. *)
Inductive listen_step : Listener -> Listener -> Prop :=
| li_accept l i r :
    ls_threads l !! i = Some GAccept -> (ls_closed l = true -> exists err, r = AcceptFailed err) ->
    listen_step l (accepts l i r)
| li_nil l i :
    ls_threads l !! i = Some GSendNil -> ls_select l = Some i ->
    listen_step l (receives l i None (GSend None))
| li_conn l i conn :
    ls_threads l !! i = Some (GSend conn) -> ls_select l = Some i ->
    listen_step l (receives l i conn GDone)
| li_close l :
    ls_stop l = false ->
    listen_step l (mkListener (ls_threads l) (ls_select l) true (ls_closed l) (ls_accepted l) (ls_failed l)
      (ls_served l))
| li_stop l i :
    ls_stop l = true -> ls_select l = Some i ->
    listen_step l (mkListener (ls_threads l) None (ls_stop l) true (ls_accepted l) (ls_failed l) (ls_served l)).

(** ** The invariant of the loop *)

(** The connection that a thread has accepted and not handed over. *)
Definition pending (pc : accept_pc) : list string :=
  match pc with GSend (Some conn) => [conn] | _ => [] end.

(** The thread has got an error from [Accept]. *)
Definition failed (pc : accept_pc) : bool :=
  match pc with GSendNil | GSend None => true | _ => false end.

(** A thread of an earlier round: returned, or about to send a second time. *)
Definition left_behind (pc : accept_pc) : Prop := pc = GDone \/ pc = GSend None.

Record listen_inv (l : Listener) (old : list accept_pc) (cur : accept_pc) : Prop := {
  lv_threads : ls_threads l = old ++ [cur];
  lv_select : ls_select l = Some (length old) \/ ls_select l = None;
  lv_closed : ls_closed l = bool_decide (ls_select l = None);
  lv_old : Forall left_behind old;
  lv_cur : ~ left_behind cur;
  lv_accepted : ls_accepted l = ls_served l ++ pending cur;
  lv_failed : ls_failed l = length (filter (fun pc => failed pc = true) (ls_threads l))
}.

Lemma lookup_cur {A} (old : list A) cur i pc :
  (old ++ [cur]) !! i = Some pc -> i = length old /\ pc = cur \/ old !! i = Some pc.
Proof.
  rewrite lookup_app. destruct (old !! i) eqn:E; [auto|]. apply lookup_ge_None in E. intros Hi. left.
  destruct (i - length old) as [|k] eqn:Hk; [|by destruct k]. simpl in Hi. split; [lia|congruence].
Qed.

Lemma insert_cur {A} (old : list A) cur pc : <[length old := pc]> (old ++ [cur]) = old ++ [pc].
Proof. by rewrite insert_app_r_alt, Nat.sub_diag by lia. Qed.

(** A thread that can move or is received from is the one of the current round. *)
Lemma inv_current l old cur i pc :
  listen_inv l old cur -> ls_threads l !! i = Some pc -> ~ left_behind pc -> i = length old /\ pc = cur.
Proof.
  intros I. rewrite (lv_threads _ _ _ I). intros [?|Hi]%lookup_cur Hn; [done|].
  destruct Hn. exact (proj1 (Forall_forall _ _) (lv_old _ _ _ I) pc (list_elem_of_lookup_2 _ _ _ Hi)).
Qed.

Definition fails (ts : list accept_pc) : nat := length (filter (fun pc => failed pc = true) ts).

Lemma fails_snoc ts pc : fails (ts ++ [pc]) = fails ts + (if failed pc then 1 else 0).
Proof.
  unfold fails. rewrite filter_app, length_app, filter_cons, filter_nil. by destruct (failed pc).
Qed.

(** The [select] receives from the thread of the current round. *)
Lemma receives_inv l old cur conn pc :
  listen_inv l old cur -> ls_select l = Some (length old) ->
  left_behind pc -> failed pc = failed cur ->
  ls_served (receives l (length old) conn pc) = ls_served l ++ pending cur ->
  listen_inv (receives l (length old) conn pc) (old ++ [pc]) GAccept.
Proof.
  intros I Hsel Hpc Hf Hs. destruct I as [Ht _ Hcl Ho _ Ha Hfl]. fold (fails (ls_threads l)) in Hfl.
  assert (ls_threads (receives l (length old) conn pc) = (old ++ [pc]) ++ [GAccept]) as Ht'.
  { simpl. by rewrite Ht, insert_cur. }
  split; [done| | | |by intros [?|?]|by rewrite Hs; cbn [pending ls_accepted receives]; rewrite app_nil_r|].
  - left. simpl. by rewrite Ht, !length_app.
  - simpl. by rewrite Hcl, Hsel.
  - by apply Forall_app_2; [|apply Forall_singleton].
  - fold (fails (ls_threads (receives l (length old) conn pc))). rewrite Ht', !fails_snoc, Hf.
    simpl. rewrite Hfl, Ht, fails_snoc. lia.
Qed.

Lemma listen_step_inv l l' old cur :
  listen_inv l old cur -> listen_step l l' -> exists old' cur', listen_inv l' old' cur' /\ old `prefix_of` old' /\
    (ls_select l = None -> old' = old /\ ls_select l' = None /\ ls_served l' = ls_served l).
Proof.
  intros I Hstep. destruct Hstep as [l i r Hi Hcl|l i Hi Hsel|l i conn Hi Hsel|l Hstop|l i Hstop Hsel].
  - destruct (inv_current _ _ _ _ _ I Hi) as [-> <-]; [by intros [?|?]|].
    destruct I as [Ht Hs Hc Ho _ Ha Hf]. fold (fails (ls_threads l)) in Hf. rewrite Ht, fails_snoc in Hf. simpl in Ha, Hf.
    exists old, (match r with Accepted conn => GSend (Some conn) | AcceptFailed _ => GSendNil end).
    split; [|by destruct r]. destruct r; split; simpl; try done; rewrite ?Ht, ?insert_cur; try done; try (by intros [?|?]).
    + by rewrite Ha, app_nil_r.
    + fold (fails (old ++ [GSend (Some conn)])). rewrite fails_snoc. simpl. lia.
    + fold (fails (old ++ [GSendNil])). rewrite fails_snoc. simpl. lia.
  - destruct (inv_current _ _ _ _ _ I Hi) as [-> <-]; [by intros [?|?]|].
    eexists _, _. split; [apply (receives_inv l old GSendNil); [done|done|by right|done|by cbn; rewrite app_nil_r]|].
    split; [by apply prefix_app_r|congruence].
  - assert (i = length old /\ GSend conn = cur) as [-> <-].
    { destruct (lv_select _ _ _ I) as [Hs|Hs]; [|congruence]. rewrite Hsel in Hs. injection Hs as ->.
      rewrite (lv_threads _ _ _ I), list_lookup_middle in Hi by done. by injection Hi. }
    destruct conn as [conn|]; [|destruct (lv_cur _ _ _ I); by right].
    eexists _, _. split; [apply (receives_inv l old (GSend (Some conn))); auto; by left|].
    split; [by apply prefix_app_r|congruence].
  - exists old, cur. destruct I. split; [by split|]. by split.
  - exists old, cur. destruct I. split; [|split; [done|congruence]]. split; try done; auto.
Qed.

Abbreviation listen_steps := (rtc listen_step).

Lemma listen_steps_inv l l' old cur :
  listen_inv l old cur -> listen_steps l l' -> exists old' cur', listen_inv l' old' cur' /\ old `prefix_of` old' /\
    (ls_select l = None -> old' = old /\ ls_select l' = None /\ ls_served l' = ls_served l).
Proof.
  intros I Hrun. revert old cur I. induction Hrun as [l|l l1 l' Hstep _ IH]; intros old cur I.
  { by exists old, cur. }
  destruct (listen_step_inv _ _ _ _ I Hstep) as (old1 & cur1 & I1 & Hp1 & Hn1).
  destruct (IH old1 cur1 I1) as (old' & cur' & I' & Hp' & Hn'). exists old', cur'. split_and!; [done|by etransitivity|].
  intros Hs. destruct (Hn1 Hs) as (-> & Hs1 & Hv1). destruct (Hn' Hs1) as (-> & ? & ?). split_and!; congruence.
Qed.

Lemma new_listener_inv : listen_inv new_listener [] GAccept.
Proof. split; simpl; auto. by intros [?|?]. Qed.

(** C31: The accept loop for miners, in every run of it and of the threads that
    [listen] starts. Connections are served in the order in which they were
    accepted, each once; at most one accepted connection has not been served, it
    can be served as long as the loop has not returned, and is never served
    afterwards. The threads that got an error from [Accept] are as many as these
    errors: each that was received from has one more send to make, and waits for
    ever. When the loop returns it leaves behind one more thread that never
    returns. *)
Theorem accept_loop_spec l (Hrun : listen_steps new_listener l) :
  (exists rest, ls_accepted l = ls_served l ++ rest /\ length rest <= 1 /\
     forall conn, rest = [conn] -> is_Some (ls_select l) ->
       exists l', listen_step l l' /\ ls_served l' = ls_served l ++ [conn]) /\
  ls_failed l = length (filter (fun pc => failed pc = true) (ls_threads l)) /\
  (forall i l', ls_threads l !! i = Some (GSend None) -> listen_steps l l' ->
     ls_threads l' !! i = Some (GSend None)) /\
  (ls_select l = None -> exists i, forall l', listen_steps l l' ->
     ls_served l' = ls_served l /\ exists pc, ls_threads l' !! i = Some pc /\ pc <> GDone).
Proof.
  destruct (listen_steps_inv _ _ _ _ new_listener_inv Hrun) as (old & cur & I & _). split_and!.
  - exists (pending cur). split_and!; [apply I|by destruct cur as [| |[]|]; simpl; lia|].
    intros conn Hp [i Hi]. destruct cur as [| |[c|]|]; try done. injection Hp as ->.
    destruct (lv_select _ _ _ I) as [Hs|Hs]; [|congruence]. eexists. split; [apply (li_conn l (length old) (Some conn))|done]; [|done].
    rewrite (lv_threads _ _ _ I). by apply list_lookup_middle.
  - apply I.
  - intros i l' Hi Hl'. destruct (listen_steps_inv _ _ _ _ I Hl') as (old' & cur' & I' & Hp & _).
    rewrite (lv_threads _ _ _ I) in Hi. apply lookup_cur in Hi as [[_ Hc]|Hi]; [destruct (lv_cur _ _ _ I); by right|].
    rewrite (lv_threads _ _ _ I'). apply lookup_app_l_Some. by eapply prefix_lookup_Some.
  - intros Hn. exists (length old). intros l' Hl'. destruct (listen_steps_inv _ _ _ _ I Hl') as (old' & cur' & I' & _ & Hq).
    destruct (Hq Hn) as (-> & _ & ->). split; [done|]. exists cur'. split.
    + rewrite (lv_threads _ _ _ I'). by apply list_lookup_middle.
    + intros ->. destruct (lv_cur _ _ _ I'). by left.
Qed.

(** ** Witness: an error, a connection, and the end. *)
Definition after_error : Listener := receives (accepts new_listener 0 (AcceptFailed "reset")) 0 None (GSend None).
Definition after_conn : Listener := accepts after_error 1 (Accepted "conn").

Lemma after_conn_run : listen_steps new_listener after_conn.
Proof.
  eapply rtc_l; [apply (li_accept _ 0 (AcceptFailed "reset")); [reflexivity|by eauto]|].
  eapply rtc_l; [apply (li_nil _ 0); reflexivity|].
  eapply rtc_l; [apply (li_accept _ 1 (Accepted "conn")); [reflexivity|discriminate]|]. apply rtc_refl.
Qed.

Lemma accept_loop_spec_witness :
  ls_failed after_conn = 1 /\ (exists l', listen_step after_conn l' /\ ls_served l' = ["conn"%string]) /\
  forall l', listen_steps after_conn l' -> ls_threads l' !! 0 = Some (GSend None).
Proof.
  destruct (accept_loop_spec after_conn after_conn_run) as ((rest & Hr & _ & Hserve) & Hf & Hold & _).
  split; [exact Hf|]. split; [|intros l'; apply Hold; reflexivity].
  apply Hserve; [|by eexists]. change (["conn"%string] = [] ++ rest) in Hr. by symmetry.
Defined.
