(* ===== verification/Threads.v ===== *)
(** The state of a running miner ([MinerServer] of [p2p/p2p_rpc.go]) with all its
    threads: what they share, the unbuffered channels they meet on, and where
    each of them is. The steps are in [Miner]. *)
From S2P Require Import Prelude GoLib Settings Operation Block Pow Blockchain ChainTheory.
From S2P Require Import Ledger AddBlock RFSLedger Worker Resolver Manager Rfslib Server Peers Batch Dial.
Local Open Scope Z_scope.

(** ** Messages

    One constructor per unbuffered channel; a peer's own channels carry the
    number of the [Peer] object. *)
Inductive msg : Type :=
| MSync (blocks : list Block)                       (* manager.syncBlockchain *)
| MManagerBlocks (blocks : list Block)              (* manager.downloadedBlocks *)
| MNewBlockAdded                                    (* manager.newBlockAdded *)
| MSendBlock (b : Block)                            (* manager.sendBlock *)
| MContinueMining                                   (* manager.continueMining *)
| MDownloadPrev (b : Block)                         (* ms.downloadPrevBlocks *)
| MNewPeer (p : Peer) (obj : nat)                   (* ms.newPeer *)
| MReceivedBlock (req : FloodBlockReq)              (* ms.receivedBlocks *)
| MFloodOperation (req : FloodOpReq)                (* ms.floodOperation *)
| MReceivedOp (op : Operation)                      (* ms.receivedOps *)
| MPeerErr (e : PeerError)                          (* ms.peerErrs *)
| MDownloaded (blocks : list Block)                 (* ms.downloadedBlocks *)
| MDownloadErr (e : string)                         (* ms.downloadErrs *)
| MHavePeers (b : bool)                             (* clientRPC.havePeers *)
| MUpdateCache                                      (* clientRPC.updateFileCache *)
| MPeerSendBlock (obj : nat) (req : FloodBlockReq)  (* peer.sendBlock *)
| MPeerSendOp (obj : nat) (req : FloodOpReq)        (* peer.sendOp *)
| MPeerRequest (obj : nat) (hash : string)          (* peer.requestBlocks *)
| MFinished (b : Block).                            (* finishedMining *)

(** What a thread does in a step: something of its own, or its half of a
    meeting on a channel. *)
Inductive act : Type := Tau | Snd (m : msg) | Rcv (m : msg).

(** ** Where the threads are *)

(** [manageBlockchain]: what it still has to send in this round of its loop (at
    the [select] if nothing), or for ever inside a handler. *)
Inductive manager_pc : Type :=
| MSends (outs : list output)
| MDead.

(** [managePeers]: likewise, or in the loop over the miners that sent a block:
    about to ask one, waiting for its answer, about to pass the blocks on. *)
Inductive peers_pc : Type :=
| PSends (outs : list peers_out)
| PRequest (peer hash : string) (rest : list string)
| PAwait (hash : string) (rest : list string)
| PForward (blocks : list Block) (hash : string) (rest : list string)
| PStopped.

(** The loop over the miners, from one request to the next. *)
Fixpoint next_download (s : MinerPeers) (hash : string) (miners : list string) : peers_pc :=
  match miners with
  | [] => PSends []
  | minerID :: miners =>
      match peers s !! minerID with
      | None => next_download s hash miners
      | Some _ => PRequest minerID hash miners
      end
  end.

(** [Peer.run]: sending, at the [select], in a remote call, or returned. A
    heartbeat remembers when its ticker fired. *)
Inductive run_call : Type :=
| CallFloodBlock (req : FloodBlockReq)
| CallFloodOperation (req : FloodOpReq)
| CallGetBlocks (hash : string)
| CallHeartbeat (now : Z).

Inductive run_pc : Type :=
| RSends (outs : list run_out)
| RCall (c : run_call)
| RExit.

(** A [Peer] object with its thread; whether [done] and [Conn] are closed. *)
Record PeerThread : Type := mkThread {
  pt_peer : Peer;
  pt_pc : run_pc;
  pt_lastConnected : Z;
  pt_done : bool;
  pt_connClosed : bool
}.

(** [NewPeer], at time [now]. *)
Definition NewPeer (minerID address : string) (now : Z) : PeerThread :=
  mkThread (mkPeer minerID address) (RSends []) now false false.

Definition at_pc (t : PeerThread) (pc : run_pc) (lastConnected : Z) : PeerThread :=
  mkThread (pt_peer t) pc lastConnected (pt_done t) (pt_connClosed t).
Definition close_done (t : PeerThread) : PeerThread :=
  mkThread (pt_peer t) (pt_pc t) (pt_lastConnected t) true (pt_connClosed t).
Definition close_conn (t : PeerThread) : PeerThread :=
  mkThread (pt_peer t) (pt_pc t) (pt_lastConnected t) (pt_done t) true.

(** [checkConfirmedOperations]: waiting for a block; for the read lock; in the
    loop (under the read lock), about to resubmit an operation; waiting for the
    lock to delete; about to refresh the cache. *)
Inductive check_pc : Type :=
| KIdle
| KLock
| KLoop (rest : list (string * PendingOperation)) (removeOps : list PendingOperation)
| KResend (op : Operation) (rest : list (string * PendingOperation)) (removeOps : list PendingOperation)
| KDelete (removeOps : list PendingOperation)
| KNotify.

(** [updateConfirmedFiles]. *)
Inductive update_pc : Type :=
| UIdle
| UList
| UStore (files : list string).

(** [buildPendingOperations]: sending or at the [select]; with an operation
    before the lock; before its two calls of the ledger; returned; crashed. *)
Inductive batch_pc : Type :=
| BSends (outs : list batch_out)
| BLock (op : Operation)
| BHash (op : Operation) (pendingClientOperation : bool)
| BValidate (op : Operation) (pendingClientOperation : bool) (lastHash : string)
| BStopped
| BDead.

(** [startMining]. *)
Inductive loop_pc : Type :=
| LSelect
| LSend (b : Block)
| LStopped.

(** [Worker.StartMining]; the number is that of its no-op miner. *)
Inductive worker_pc : Type :=
| WStart
| WSelect (n : nat)
| WHash (n : nat) (filteredOperations : list Operation)
| WBlocks (n : nat) (filteredOperations : list Operation) (prevHash : string)
| WLoop (n : nat) (filteredOperations : list Operation) (lastBlocks : list Block)
    (bestOps : list Operation) (prevHash : string)
| WMine (bestOps : list Operation) (prevHash : string)
| WSend (b : Block)
| WExit.

(** [Worker.mineNoOp]; [done] is closed once it is past [NMine]. *)
Inductive noop_pc : Type :=
| NMine
| NSend (b : Block)
| NExit.

Record NoOp : Type := mkNoOp {
  no_worker : Worker;
  no_previousHash : string;
  no_stop : bool;
  no_pc : noop_pc
}.

Definition stop_noop (n : NoOp) : NoOp := mkNoOp (no_worker n) (no_previousHash n) true (no_pc n).
Definition noop_at (n : NoOp) (pc : noop_pc) : NoOp :=
  mkNoOp (no_worker n) (no_previousHash n) (no_stop n) pc.

(** A remote call being served, as what is left to do: calls of peers only send;
    calls of clients check the size of a file, submit, send and wait. *)
Inductive hact : Type :=
| HSend (m : msg)
| HRoom (op : Operation)
| HSubmit (op : Operation)
| HReply (op : Operation) (ready : nat).

(** What a client's call for an operation returns. *)
Inductive reply : Type :=
| RCreated (r : rfs_error + bool)
| RAppended (r : rfs_error + Z).

(** ** The state

    [ms_objs] gives the [Peer] object behind an entry of [peers];
    [ms_answers] is what was sent on the [Ready] channels and [ms_replies] what
    the calls of clients returned; [ms_closed] that [finalizedOperations] is
    closed, [ms_wstop] that the worker's [stop] is; [ms_mine] that the buffer of
    [mine] is full. *)
Record MinerServer : Type := mkMiner {
  ms_config : Settings;
  ms_manager : ChainManager;
  ms_mpc : manager_pc;
  ms_peers : MinerPeers;
  ms_ppc : peers_pc;
  ms_objs : gmap string nat;
  ms_threads : list PeerThread;
  ms_server : Server;
  ms_answers : list (nat * bool);
  ms_replies : list (Operation * reply);
  ms_kpc : check_pc;
  ms_upc : update_pc;
  ms_batch : Batch;
  ms_bpc : batch_pc;
  ms_finalized : list (list Operation);
  ms_closed : bool;
  ms_loop : MiningLoop;
  ms_lpc : loop_pc;
  ms_mine : bool;
  ms_wstop : bool;
  ms_workers : list (Worker * worker_pc);
  ms_noops : list NoOp;
  ms_handlers : list (list hact);
  ms_listening : bool;
  ms_stop : bool;
  ms_wg : Z
}.

(** ** Updates *)

Definition with_manager (s : MinerServer) (x0 : ChainManager) : MinerServer :=
  mkMiner (ms_config s) x0 (ms_mpc s) (ms_peers s) (ms_ppc s) (ms_objs s) (ms_threads s)
    (ms_server s) (ms_answers s) (ms_replies s) (ms_kpc s) (ms_upc s) (ms_batch s) (ms_bpc s)
    (ms_finalized s) (ms_closed s) (ms_loop s) (ms_lpc s) (ms_mine s) (ms_wstop s) (ms_workers s)
    (ms_noops s) (ms_handlers s) (ms_listening s) (ms_stop s) (ms_wg s).
Definition with_mpc (s : MinerServer) (x0 : manager_pc) : MinerServer :=
  mkMiner (ms_config s) (ms_manager s) x0 (ms_peers s) (ms_ppc s) (ms_objs s) (ms_threads s)
    (ms_server s) (ms_answers s) (ms_replies s) (ms_kpc s) (ms_upc s) (ms_batch s) (ms_bpc s)
    (ms_finalized s) (ms_closed s) (ms_loop s) (ms_lpc s) (ms_mine s) (ms_wstop s) (ms_workers s)
    (ms_noops s) (ms_handlers s) (ms_listening s) (ms_stop s) (ms_wg s).
Definition with_peers (s : MinerServer) (x0 : MinerPeers) : MinerServer :=
  mkMiner (ms_config s) (ms_manager s) (ms_mpc s) x0 (ms_ppc s) (ms_objs s) (ms_threads s)
    (ms_server s) (ms_answers s) (ms_replies s) (ms_kpc s) (ms_upc s) (ms_batch s) (ms_bpc s)
    (ms_finalized s) (ms_closed s) (ms_loop s) (ms_lpc s) (ms_mine s) (ms_wstop s) (ms_workers s)
    (ms_noops s) (ms_handlers s) (ms_listening s) (ms_stop s) (ms_wg s).
Definition with_ppc (s : MinerServer) (x0 : peers_pc) : MinerServer :=
  mkMiner (ms_config s) (ms_manager s) (ms_mpc s) (ms_peers s) x0 (ms_objs s) (ms_threads s)
    (ms_server s) (ms_answers s) (ms_replies s) (ms_kpc s) (ms_upc s) (ms_batch s) (ms_bpc s)
    (ms_finalized s) (ms_closed s) (ms_loop s) (ms_lpc s) (ms_mine s) (ms_wstop s) (ms_workers s)
    (ms_noops s) (ms_handlers s) (ms_listening s) (ms_stop s) (ms_wg s).
Definition with_objs (s : MinerServer) (x0 : gmap string nat) : MinerServer :=
  mkMiner (ms_config s) (ms_manager s) (ms_mpc s) (ms_peers s) (ms_ppc s) x0 (ms_threads s)
    (ms_server s) (ms_answers s) (ms_replies s) (ms_kpc s) (ms_upc s) (ms_batch s) (ms_bpc s)
    (ms_finalized s) (ms_closed s) (ms_loop s) (ms_lpc s) (ms_mine s) (ms_wstop s) (ms_workers s)
    (ms_noops s) (ms_handlers s) (ms_listening s) (ms_stop s) (ms_wg s).
Definition with_threads (s : MinerServer) (x0 : list PeerThread) : MinerServer :=
  mkMiner (ms_config s) (ms_manager s) (ms_mpc s) (ms_peers s) (ms_ppc s) (ms_objs s) x0
    (ms_server s) (ms_answers s) (ms_replies s) (ms_kpc s) (ms_upc s) (ms_batch s) (ms_bpc s)
    (ms_finalized s) (ms_closed s) (ms_loop s) (ms_lpc s) (ms_mine s) (ms_wstop s) (ms_workers s)
    (ms_noops s) (ms_handlers s) (ms_listening s) (ms_stop s) (ms_wg s).
Definition with_server (s : MinerServer) (x0 : Server) : MinerServer :=
  mkMiner (ms_config s) (ms_manager s) (ms_mpc s) (ms_peers s) (ms_ppc s) (ms_objs s) (ms_threads s)
    x0 (ms_answers s) (ms_replies s) (ms_kpc s) (ms_upc s) (ms_batch s) (ms_bpc s) (ms_finalized s)
    (ms_closed s) (ms_loop s) (ms_lpc s) (ms_mine s) (ms_wstop s) (ms_workers s) (ms_noops s)
    (ms_handlers s) (ms_listening s) (ms_stop s) (ms_wg s).
Definition with_answers (s : MinerServer) (x0 : list (nat * bool)) : MinerServer :=
  mkMiner (ms_config s) (ms_manager s) (ms_mpc s) (ms_peers s) (ms_ppc s) (ms_objs s) (ms_threads s)
    (ms_server s) x0 (ms_replies s) (ms_kpc s) (ms_upc s) (ms_batch s) (ms_bpc s) (ms_finalized s)
    (ms_closed s) (ms_loop s) (ms_lpc s) (ms_mine s) (ms_wstop s) (ms_workers s) (ms_noops s)
    (ms_handlers s) (ms_listening s) (ms_stop s) (ms_wg s).
Definition with_replies (s : MinerServer) (x0 : list (Operation * reply)) : MinerServer :=
  mkMiner (ms_config s) (ms_manager s) (ms_mpc s) (ms_peers s) (ms_ppc s) (ms_objs s) (ms_threads s)
    (ms_server s) (ms_answers s) x0 (ms_kpc s) (ms_upc s) (ms_batch s) (ms_bpc s) (ms_finalized s)
    (ms_closed s) (ms_loop s) (ms_lpc s) (ms_mine s) (ms_wstop s) (ms_workers s) (ms_noops s)
    (ms_handlers s) (ms_listening s) (ms_stop s) (ms_wg s).
Definition with_kpc (s : MinerServer) (x0 : check_pc) : MinerServer :=
  mkMiner (ms_config s) (ms_manager s) (ms_mpc s) (ms_peers s) (ms_ppc s) (ms_objs s) (ms_threads s)
    (ms_server s) (ms_answers s) (ms_replies s) x0 (ms_upc s) (ms_batch s) (ms_bpc s)
    (ms_finalized s) (ms_closed s) (ms_loop s) (ms_lpc s) (ms_mine s) (ms_wstop s) (ms_workers s)
    (ms_noops s) (ms_handlers s) (ms_listening s) (ms_stop s) (ms_wg s).
Definition with_upc (s : MinerServer) (x0 : update_pc) : MinerServer :=
  mkMiner (ms_config s) (ms_manager s) (ms_mpc s) (ms_peers s) (ms_ppc s) (ms_objs s) (ms_threads s)
    (ms_server s) (ms_answers s) (ms_replies s) (ms_kpc s) x0 (ms_batch s) (ms_bpc s)
    (ms_finalized s) (ms_closed s) (ms_loop s) (ms_lpc s) (ms_mine s) (ms_wstop s) (ms_workers s)
    (ms_noops s) (ms_handlers s) (ms_listening s) (ms_stop s) (ms_wg s).
Definition with_batch (s : MinerServer) (x0 : Batch) : MinerServer :=
  mkMiner (ms_config s) (ms_manager s) (ms_mpc s) (ms_peers s) (ms_ppc s) (ms_objs s) (ms_threads s)
    (ms_server s) (ms_answers s) (ms_replies s) (ms_kpc s) (ms_upc s) x0 (ms_bpc s) (ms_finalized s)
    (ms_closed s) (ms_loop s) (ms_lpc s) (ms_mine s) (ms_wstop s) (ms_workers s) (ms_noops s)
    (ms_handlers s) (ms_listening s) (ms_stop s) (ms_wg s).
Definition with_bpc (s : MinerServer) (x0 : batch_pc) : MinerServer :=
  mkMiner (ms_config s) (ms_manager s) (ms_mpc s) (ms_peers s) (ms_ppc s) (ms_objs s) (ms_threads s)
    (ms_server s) (ms_answers s) (ms_replies s) (ms_kpc s) (ms_upc s) (ms_batch s) x0
    (ms_finalized s) (ms_closed s) (ms_loop s) (ms_lpc s) (ms_mine s) (ms_wstop s) (ms_workers s)
    (ms_noops s) (ms_handlers s) (ms_listening s) (ms_stop s) (ms_wg s).
Definition with_finalized (s : MinerServer) (x0 : list (list Operation)) : MinerServer :=
  mkMiner (ms_config s) (ms_manager s) (ms_mpc s) (ms_peers s) (ms_ppc s) (ms_objs s) (ms_threads s)
    (ms_server s) (ms_answers s) (ms_replies s) (ms_kpc s) (ms_upc s) (ms_batch s) (ms_bpc s) x0
    (ms_closed s) (ms_loop s) (ms_lpc s) (ms_mine s) (ms_wstop s) (ms_workers s) (ms_noops s)
    (ms_handlers s) (ms_listening s) (ms_stop s) (ms_wg s).
Definition with_closed (s : MinerServer) (x0 : bool) : MinerServer :=
  mkMiner (ms_config s) (ms_manager s) (ms_mpc s) (ms_peers s) (ms_ppc s) (ms_objs s) (ms_threads s)
    (ms_server s) (ms_answers s) (ms_replies s) (ms_kpc s) (ms_upc s) (ms_batch s) (ms_bpc s)
    (ms_finalized s) x0 (ms_loop s) (ms_lpc s) (ms_mine s) (ms_wstop s) (ms_workers s) (ms_noops s)
    (ms_handlers s) (ms_listening s) (ms_stop s) (ms_wg s).
Definition with_loop (s : MinerServer) (x0 : MiningLoop) : MinerServer :=
  mkMiner (ms_config s) (ms_manager s) (ms_mpc s) (ms_peers s) (ms_ppc s) (ms_objs s) (ms_threads s)
    (ms_server s) (ms_answers s) (ms_replies s) (ms_kpc s) (ms_upc s) (ms_batch s) (ms_bpc s)
    (ms_finalized s) (ms_closed s) x0 (ms_lpc s) (ms_mine s) (ms_wstop s) (ms_workers s)
    (ms_noops s) (ms_handlers s) (ms_listening s) (ms_stop s) (ms_wg s).
Definition with_lpc (s : MinerServer) (x0 : loop_pc) : MinerServer :=
  mkMiner (ms_config s) (ms_manager s) (ms_mpc s) (ms_peers s) (ms_ppc s) (ms_objs s) (ms_threads s)
    (ms_server s) (ms_answers s) (ms_replies s) (ms_kpc s) (ms_upc s) (ms_batch s) (ms_bpc s)
    (ms_finalized s) (ms_closed s) (ms_loop s) x0 (ms_mine s) (ms_wstop s) (ms_workers s)
    (ms_noops s) (ms_handlers s) (ms_listening s) (ms_stop s) (ms_wg s).
Definition with_mine (s : MinerServer) (x0 : bool) : MinerServer :=
  mkMiner (ms_config s) (ms_manager s) (ms_mpc s) (ms_peers s) (ms_ppc s) (ms_objs s) (ms_threads s)
    (ms_server s) (ms_answers s) (ms_replies s) (ms_kpc s) (ms_upc s) (ms_batch s) (ms_bpc s)
    (ms_finalized s) (ms_closed s) (ms_loop s) (ms_lpc s) x0 (ms_wstop s) (ms_workers s)
    (ms_noops s) (ms_handlers s) (ms_listening s) (ms_stop s) (ms_wg s).
Definition with_wstop (s : MinerServer) (x0 : bool) : MinerServer :=
  mkMiner (ms_config s) (ms_manager s) (ms_mpc s) (ms_peers s) (ms_ppc s) (ms_objs s) (ms_threads s)
    (ms_server s) (ms_answers s) (ms_replies s) (ms_kpc s) (ms_upc s) (ms_batch s) (ms_bpc s)
    (ms_finalized s) (ms_closed s) (ms_loop s) (ms_lpc s) (ms_mine s) x0 (ms_workers s) (ms_noops s)
    (ms_handlers s) (ms_listening s) (ms_stop s) (ms_wg s).
Definition with_workers (s : MinerServer) (x0 : list (Worker * worker_pc)) : MinerServer :=
  mkMiner (ms_config s) (ms_manager s) (ms_mpc s) (ms_peers s) (ms_ppc s) (ms_objs s) (ms_threads s)
    (ms_server s) (ms_answers s) (ms_replies s) (ms_kpc s) (ms_upc s) (ms_batch s) (ms_bpc s)
    (ms_finalized s) (ms_closed s) (ms_loop s) (ms_lpc s) (ms_mine s) (ms_wstop s) x0 (ms_noops s)
    (ms_handlers s) (ms_listening s) (ms_stop s) (ms_wg s).
Definition with_noops (s : MinerServer) (x0 : list NoOp) : MinerServer :=
  mkMiner (ms_config s) (ms_manager s) (ms_mpc s) (ms_peers s) (ms_ppc s) (ms_objs s) (ms_threads s)
    (ms_server s) (ms_answers s) (ms_replies s) (ms_kpc s) (ms_upc s) (ms_batch s) (ms_bpc s)
    (ms_finalized s) (ms_closed s) (ms_loop s) (ms_lpc s) (ms_mine s) (ms_wstop s) (ms_workers s) x0
    (ms_handlers s) (ms_listening s) (ms_stop s) (ms_wg s).
Definition with_handlers (s : MinerServer) (x0 : list (list hact)) : MinerServer :=
  mkMiner (ms_config s) (ms_manager s) (ms_mpc s) (ms_peers s) (ms_ppc s) (ms_objs s) (ms_threads s)
    (ms_server s) (ms_answers s) (ms_replies s) (ms_kpc s) (ms_upc s) (ms_batch s) (ms_bpc s)
    (ms_finalized s) (ms_closed s) (ms_loop s) (ms_lpc s) (ms_mine s) (ms_wstop s) (ms_workers s)
    (ms_noops s) x0 (ms_listening s) (ms_stop s) (ms_wg s).
Definition with_listening (s : MinerServer) (x0 : bool) : MinerServer :=
  mkMiner (ms_config s) (ms_manager s) (ms_mpc s) (ms_peers s) (ms_ppc s) (ms_objs s) (ms_threads s)
    (ms_server s) (ms_answers s) (ms_replies s) (ms_kpc s) (ms_upc s) (ms_batch s) (ms_bpc s)
    (ms_finalized s) (ms_closed s) (ms_loop s) (ms_lpc s) (ms_mine s) (ms_wstop s) (ms_workers s)
    (ms_noops s) (ms_handlers s) x0 (ms_stop s) (ms_wg s).
Definition with_stop (s : MinerServer) (x0 : bool) : MinerServer :=
  mkMiner (ms_config s) (ms_manager s) (ms_mpc s) (ms_peers s) (ms_ppc s) (ms_objs s) (ms_threads s)
    (ms_server s) (ms_answers s) (ms_replies s) (ms_kpc s) (ms_upc s) (ms_batch s) (ms_bpc s)
    (ms_finalized s) (ms_closed s) (ms_loop s) (ms_lpc s) (ms_mine s) (ms_wstop s) (ms_workers s)
    (ms_noops s) (ms_handlers s) (ms_listening s) x0 (ms_wg s).
Definition with_wg (s : MinerServer) (x0 : Z) : MinerServer :=
  mkMiner (ms_config s) (ms_manager s) (ms_mpc s) (ms_peers s) (ms_ppc s) (ms_objs s) (ms_threads s)
    (ms_server s) (ms_answers s) (ms_replies s) (ms_kpc s) (ms_upc s) (ms_batch s) (ms_bpc s)
    (ms_finalized s) (ms_closed s) (ms_loop s) (ms_lpc s) (ms_mine s) (ms_wstop s) (ms_workers s)
    (ms_noops s) (ms_handlers s) (ms_listening s) (ms_stop s) x0.

(** The reader-writer lock [clientRPC.mux]: held for reading by the loop of
    [checkConfirmedOperations], for writing by [buildPendingOperations] after it
    refused an operation. Every other holder releases it within a step. *)
Definition reading (pc : check_pc) : bool :=
  match pc with KLoop _ _ | KResend _ _ _ => true | _ => false end.

Definition mux_free (s : MinerServer) : bool :=
  negb (holds_mux (ms_batch s)) && negb (reading (ms_kpc s)).

(** What a call receives first on its channel. *)
Definition first_answer (ready : nat) (answers : list (nat * bool)) : option bool :=
  snd <$> head (filter (fun a => a.1 = ready) answers).

Definition finalized_cap : nat := 10.
Definition ready_cap : nat := 10.
