(* ===== verification/Miner.v ===== *)
(** The threads of a miner at work: for every thread a relation on the state of
    [Threads], with its half of each meeting, and the steps of the whole. What
    lies outside the program (time, mining luck, the answers of remote calls, which
    calls come in) is chosen freely in the steps. *)
From S2P Require Import Prelude GoLib Settings Operation Block Pow Blockchain ChainTheory.
From S2P Require Import Ledger AddBlock RFSLedger Worker Resolver Manager Rfslib Server Peers Batch Dial Threads.
Local Open Scope Z_scope.

Section miner.
Context `{Gob (list Operation)} `{Gob Operation}.

(** ** [manageBlockchain] *)

Definition manager_msg (o : output) : option msg :=
  match o with
  | OutSyncDone => None
  | OutDownloadBlock b => Some (MDownloadPrev b)
  | OutNewBlockAdded => Some MNewBlockAdded
  | OutSendBlock b => Some (MSendBlock b)
  | OutContinueMining => Some MContinueMining
  end.

(** A case of the loop, then its sends; a case that panics or waits for ever
    ends the thread. *)
Definition manager_case (s : MinerServer) (r : go (ChainManager * list output)) : MinerServer :=
  match r with
  | Ret (m, outs) => with_mpc (with_manager s m) (MSends outs)
  | _ => with_mpc s MDead
  end.

Inductive manager_step : MinerServer -> act -> MinerServer -> Prop :=
| mg_sync s rg blocks :
    ms_mpc s = MSends [] ->
    manager_step s (Rcv (MSync blocks)) (manager_case s (on_sync rg (ms_manager s) blocks))
| mg_flooded s b q :
    ms_mpc s = MSends [] -> receiveFloodedBlock (ms_manager s) = b :: q ->
    manager_step s Tau (manager_case s (on_flooded (with_received (ms_manager s) q) b))
| mg_downloaded s blocks :
    ms_mpc s = MSends [] ->
    manager_step s (Rcv (MManagerBlocks blocks)) (manager_case s (on_downloaded (ms_manager s) blocks))
| mg_add s rg1 rg2 b q :
    ms_mpc s = MSends [] -> addBlock (ms_manager s) = b :: q ->
    manager_step s Tau (manager_case s (on_add rg1 rg2 (with_addBlock (ms_manager s) q) b))
| mg_send s o outs m :
    ms_mpc s = MSends (o :: outs) -> manager_msg o = Some m ->
    manager_step s (Snd m) (with_mpc s (MSends outs))
| mg_close_done s outs :
    ms_mpc s = MSends (OutSyncDone :: outs) -> manager_step s Tau (with_mpc s (MSends outs)).

(** ** [managePeers] *)

Definition peers_case (s : MinerServer) (r : MinerPeers * list peers_out) : MinerServer :=
  with_ppc (with_peers s r.1) (PSends r.2).

(** Where [downloadPrevBlocks] leads. *)
Definition download_start (s : MinerPeers) (blk : Block) : peers_pc :=
  match blocksToPeers s !! Hash blk with
  | None => PSends []
  | Some miners => next_download s (PreviousHash blk) miners
  end.

(** [peer.Conn.Close()] for every peer. *)
Definition close_conns (objs : gmap string nat) (outs : list peers_out) (threads : list PeerThread)
    : list PeerThread :=
  fold_left (fun ts o =>
    match o with
    | PCloseConn k => match objs !! k with Some i => alter close_conn i ts | None => ts end
    | _ => ts
    end) outs threads.

Inductive peers_step : MinerServer -> act -> MinerServer -> Prop :=
| pr_newPeer s p i :
    ms_ppc s = PSends [] ->
    peers_step s (Rcv (MNewPeer p i))
      (with_objs (peers_case s (on_newPeer (ms_peers s) p)) (<[p_MinerID p := i]> (ms_objs s)))
| pr_continueMining s :
    ms_ppc s = PSends [] ->
    peers_step s (Rcv MContinueMining) (with_ppc s (PSends (on_continueMining (ms_peers s))))
| pr_receivedBlock s req :
    ms_ppc s = PSends [] ->
    peers_step s (Rcv (MReceivedBlock req)) (peers_case s (on_receivedBlock (ms_peers s) req))
| pr_downloadPrev s blk :
    ms_ppc s = PSends [] ->
    peers_step s (Rcv (MDownloadPrev blk)) (with_ppc s (download_start (ms_peers s) blk))
| pr_sendBlock s rg blk :
    ms_ppc s = PSends [] ->
    peers_step s (Rcv (MSendBlock blk)) (with_ppc s (PSends (on_sendBlock rg (ms_peers s) blk)))
| pr_floodOperation s rg1 rg2 rg3 req :
    ms_ppc s = PSends [] ->
    peers_step s (Rcv (MFloodOperation req))
      (with_ppc s (PSends (on_floodOperation rg1 rg2 rg3 (ms_peers s) req)))
| pr_peerErr s e :
    ms_ppc s = PSends [] ->
    peers_step s (Rcv (MPeerErr e)) (peers_case s (on_peerErr (ms_peers s) e))
| pr_stop s rg :
    ms_ppc s = PSends [] -> ms_stop s = true ->
    peers_step s Tau (with_wg (with_ppc (with_threads s
      (close_conns (ms_objs s) (on_stop rg (ms_peers s)) (ms_threads s))) PStopped) (ms_wg s - 1))
| pr_mine s outs :
    ms_ppc s = PSends (PMine :: outs) -> ms_mine s = false ->
    peers_step s Tau (with_mine (with_ppc s (PSends outs)) true)
| pr_havePeers s b outs :
    ms_ppc s = PSends (PHavePeers b :: outs) ->
    peers_step s (Snd (MHavePeers b)) (with_ppc s (PSends outs))
| pr_receiveFlooded s b outs :
    ms_ppc s = PSends (PReceiveFlooded b :: outs) ->
    (length (receiveFloodedBlock (ms_manager s)) < receiveFloodedBlock_cap)%nat ->
    peers_step s Tau (with_ppc (with_manager s
      (with_received (ms_manager s) (receiveFloodedBlock (ms_manager s) ++ [b]))) (PSends outs))
| pr_toPeer s k req i outs :
    ms_ppc s = PSends (PSendBlock k req :: outs) -> ms_objs s !! k = Some i ->
    peers_step s (Snd (MPeerSendBlock i req)) (with_ppc s (PSends outs))
| pr_opToPeer s k req i outs :
    ms_ppc s = PSends (PSendOp k req :: outs) -> ms_objs s !! k = Some i ->
    peers_step s (Snd (MPeerSendOp i req)) (with_ppc s (PSends outs))
| pr_closeDone s k i outs :
    ms_ppc s = PSends (PDone k :: outs) -> ms_objs s !! k = Some i ->
    peers_step s Tau (with_ppc (with_threads s (alter close_done i (ms_threads s))) (PSends outs))
| pr_request s k hash rest i :
    ms_ppc s = PRequest k hash rest -> ms_objs s !! k = Some i ->
    peers_step s (Snd (MPeerRequest i hash)) (with_ppc s (PAwait hash rest))
| pr_downloaded s blocks hash rest :
    ms_ppc s = PAwait hash rest ->
    peers_step s (Rcv (MDownloaded blocks)) (with_ppc s (PForward blocks hash rest))
| pr_downloadErr s e hash rest :
    ms_ppc s = PAwait hash rest ->
    peers_step s (Rcv (MDownloadErr e)) (with_ppc s (next_download (ms_peers s) hash rest))
| pr_forward s blocks hash rest :
    ms_ppc s = PForward blocks hash rest ->
    peers_step s (Snd (MManagerBlocks blocks)) (with_ppc s (next_download (ms_peers s) hash rest)).

(** ** [Peer.run] *)

Definition run_msg (o : run_out) : msg :=
  match o with
  | RErr e => MPeerErr e
  | RDownloadErr e => MDownloadErr e
  | RDownloaded blocks => MDownloaded blocks
  end.

Definition set_thread (s : MinerServer) (i : nat) (t : PeerThread) : MinerServer :=
  with_threads s (<[i := t]> (ms_threads s)).

Definition run_case (t : PeerThread) (r : Z * list run_out) : PeerThread := at_pc t (RSends r.2) r.1.

(** A call over a closed connection fails. *)
Inductive peer_step : MinerServer -> act -> MinerServer -> Prop :=
| pe_sendBlock s i t req :
    ms_threads s !! i = Some t -> pt_pc t = RSends [] ->
    peer_step s (Rcv (MPeerSendBlock i req))
      (set_thread s i (at_pc t (RCall (CallFloodBlock req)) (pt_lastConnected t)))
| pe_sendOp s i t req :
    ms_threads s !! i = Some t -> pt_pc t = RSends [] ->
    peer_step s (Rcv (MPeerSendOp i req))
      (set_thread s i (at_pc t (RCall (CallFloodOperation req)) (pt_lastConnected t)))
| pe_request s i t hash :
    ms_threads s !! i = Some t -> pt_pc t = RSends [] ->
    peer_step s (Rcv (MPeerRequest i hash))
      (set_thread s i (at_pc t (RCall (CallGetBlocks hash)) (pt_lastConnected t)))
| pe_tick s i t now :
    ms_threads s !! i = Some t -> pt_pc t = RSends [] -> pt_lastConnected t + seconds 5 < now ->
    peer_step s Tau (set_thread s i (at_pc t (RCall (CallHeartbeat now)) (pt_lastConnected t)))
| pe_blockReturns s i t req err now :
    ms_threads s !! i = Some t -> pt_pc t = RCall (CallFloodBlock req) ->
    (pt_connClosed t = true -> is_Some err) ->
    peer_step s Tau (set_thread s i (run_case t (run_send (pt_peer t) (pt_lastConnected t) err now)))
| pe_opReturns s i t req err now :
    ms_threads s !! i = Some t -> pt_pc t = RCall (CallFloodOperation req) ->
    (pt_connClosed t = true -> is_Some err) ->
    peer_step s Tau (set_thread s i (run_case t (run_send (pt_peer t) (pt_lastConnected t) err now)))
| pe_getReturns s i t hash r now :
    ms_threads s !! i = Some t -> pt_pc t = RCall (CallGetBlocks hash) ->
    (pt_connClosed t = true -> exists err, r = inl err) ->
    peer_step s Tau (set_thread s i (run_case t (run_request (pt_lastConnected t) r now)))
| pe_beatReturns s i t now err later :
    ms_threads s !! i = Some t -> pt_pc t = RCall (CallHeartbeat now) ->
    (pt_connClosed t = true -> is_Some err) ->
    peer_step s Tau (set_thread s i (run_case t (Peers.run_tick (pt_peer t) (pt_lastConnected t) now err later)))
| pe_send s i t o outs :
    ms_threads s !! i = Some t -> pt_pc t = RSends (o :: outs) ->
    peer_step s (Snd (run_msg o)) (set_thread s i (at_pc t (RSends outs) (pt_lastConnected t)))
| pe_done s i t :
    ms_threads s !! i = Some t -> pt_pc t = RSends [] -> pt_done t = true ->
    peer_step s Tau (set_thread s i (close_conn (at_pc t RExit (pt_lastConnected t)))).

(** ** The threads of the client server *)

(** What the loop does with one pending operation of the given status: remember
    it for removal, answer its call, resubmit it. *)
Definition check_one (p : PendingOperation) (c : confirmation) (rest : list (string * PendingOperation))
    (removeOps : list PendingOperation) : check_pc * list (nat * bool) :=
  let removeOps := if confirmed c then removeOps ++ [p] else removeOps in
  (if negb (exists_ c) then KResend (operation p) rest removeOps else KLoop rest removeOps,
   if confirmed c then [(Ready p, negb (otherMiner c))] else []).

Definition count_ready (ch : nat) (answers : list (nat * bool)) : nat :=
  length (filter (fun a => a.1 = ch) answers).

Inductive check_step : MinerServer -> act -> MinerServer -> Prop :=
| ck_added s :
    ms_kpc s = KIdle -> check_step s (Rcv MNewBlockAdded) (with_kpc s KLock)
| ck_lock s rg :
    ms_kpc s = KLock -> holds_mux (ms_batch s) = false ->
    check_step s Tau (with_kpc s (KLoop (range rg (clientOps (ms_server s))) []))
| ck_one s k p rest removeOps m c :
    ms_kpc s = KLoop ((k, p) :: rest) removeOps ->
    ld_CheckOpConfirmed (ms_manager s) (operation p) = Ret (m, c) ->
    (confirmed c = true -> (count_ready (Ready p) (ms_answers s) < ready_cap)%nat) ->
    check_step s Tau (with_answers (with_kpc (with_manager s m) (check_one p c rest removeOps).1)
      (ms_answers s ++ (check_one p c rest removeOps).2))
| ck_resend s op rest removeOps :
    ms_kpc s = KResend op rest removeOps ->
    check_step s (Snd (MReceivedOp op)) (with_kpc s (KLoop rest removeOps))
| ck_unlock s removeOps :
    ms_kpc s = KLoop [] removeOps -> check_step s Tau (with_kpc s (KDelete removeOps))
| ck_delete s removeOps :
    ms_kpc s = KDelete removeOps -> mux_free s = true ->
    check_step s Tau (with_kpc (with_server s (with_clientOps (ms_server s)
      (fold_left (fun m op => delete (OperationID (operation op)) m) removeOps
         (clientOps (ms_server s))))) KNotify)
| ck_notify s :
    ms_kpc s = KNotify -> check_step s (Snd MUpdateCache) (with_kpc s KIdle).

Inductive update_step : MinerServer -> act -> MinerServer -> Prop :=
| up_wake s :
    ms_upc s = UIdle -> update_step s (Rcv MUpdateCache) (with_upc s UList)
| up_list s rg m files :
    ms_upc s = UList -> ld_ListFiles rg (ms_manager s) = Ret (m, files) ->
    update_step s Tau (with_upc (with_manager s m) (UStore files))
| up_store s files :
    ms_upc s = UStore files -> mux_free s = true ->
    update_step s Tau (with_upc (with_server s (with_confirmed (ms_server s) (name_set files ∅))) UIdle).

Inductive status_step : MinerServer -> act -> MinerServer -> Prop :=
| st_havePeers s b :
    status_step s (Rcv (MHavePeers b)) (with_server s (updateConnectedStatus (ms_server s) b)).

(** ** [buildPendingOperations] *)

Inductive batch_step : MinerServer -> act -> MinerServer -> Prop :=
| bt_receive s op :
    ms_bpc s = BSends [] ->
    batch_step s (Rcv (MReceivedOp op))
      (with_bpc s (match operations (ms_batch s) !! OperationID op with
                   | Some _ => BSends []
                   | None => BLock op
                   end))
| bt_refuse s op srv outs :
    ms_bpc s = BLock op -> mux_free s = true -> locked_section (ms_server s) op = inl (srv, outs) ->
    Forall (fun o => forall ch b, o = BReady ch b -> (count_ready ch (ms_answers s) < ready_cap)%nat) outs ->
    batch_step s Tau
      (with_answers (with_bpc (with_batch (with_server s srv)
         (mkBatch (operations (ms_batch s)) (C (ms_batch s)) true)) (BSends []))
         (ms_answers s ++ omap (fun o => match o with BReady ch b => Some (ch, b) | _ => None end) outs))
| bt_pass s op pend :
    ms_bpc s = BLock op -> mux_free s = true -> locked_section (ms_server s) op = inr pend ->
    batch_step s Tau (with_bpc s (BHash op pend))
| bt_hash s op pend m lastHash :
    ms_bpc s = BHash op pend -> ld_GetLastHash (ms_manager s) = Ret (m, lastHash) ->
    batch_step s Tau (with_bpc (with_manager s m) (BValidate op pend lastHash))
| bt_invalid s rg1 rg2 op pend lastHash m ops :
    ms_bpc s = BValidate op pend lastHash ->
    ld_ValidateOperations rg1 rg2 (ms_manager s) [op] lastHash = Ret (m, (ops, false)) ->
    batch_step s Tau (with_bpc (with_manager s m) (BSends []))
| bt_valid s rg1 rg2 rg3 op pend lastHash m ops :
    ms_bpc s = BValidate op pend lastHash ->
    ld_ValidateOperations rg1 rg2 (ms_manager s) [op] lastHash = Ret (m, (ops, true)) ->
    batch_step s Tau
      (with_bpc (with_batch (with_manager s m) (admit_valid (GenOpBlockTimeout (ms_config s)) rg3 (ms_batch s) op pend).1)
         (BSends (admit_valid (GenOpBlockTimeout (ms_config s)) rg3 (ms_batch s) op pend).2))
| bt_tick s rg b outs :
    ms_bpc s = BSends [] -> on_tick rg (ms_batch s) = Some (b, outs) ->
    batch_step s Tau (with_bpc (with_batch s b) (BSends outs))
| bt_flood s req outs :
    ms_bpc s = BSends (BFlood req :: outs) ->
    batch_step s (Snd (MFloodOperation req)) (with_bpc s (BSends outs))
| bt_final s ops outs :
    ms_bpc s = BSends (BFinalized ops :: outs) -> (length (ms_finalized s) < finalized_cap)%nat ->
    batch_step s Tau (with_finalized (with_bpc s (BSends outs)) (ms_finalized s ++ [ops]))
| bt_panic s outs :
    ms_bpc s = BSends (BPanic :: outs) -> batch_step s Tau (with_bpc s BDead)
| bt_stop s :
    ms_bpc s = BSends [] -> ms_stop s = true ->
    batch_step s Tau (with_closed (with_bpc s BStopped) true).

(** ** [startMining], its workers and their no-op miners *)

Inductive loop_step : MinerServer -> act -> MinerServer -> Prop :=
| lp_mine s l outs :
    ms_lpc s = LSelect -> ms_mine s = true -> on_mine (ms_loop s) = Ret (l, outs) ->
    loop_step s Tau (with_workers (with_mine (with_loop s l) false)
      (ms_workers s ++ omap (fun o => match o with LStartMining w => Some (w, WStart) | _ => None end) outs))
| lp_finished s blk :
    ms_lpc s = LSelect ->
    loop_step s (Rcv (MFinished blk))
      (with_lpc (with_loop s (on_finishedMining (ms_loop s) blk).1)
         match (on_finishedMining (ms_loop s) blk).2 with LAddBlock b :: _ => LSend b | _ => LSelect end)
| lp_add s b :
    ms_lpc s = LSend b -> (length (addBlock (ms_manager s)) < addBlock_cap)%nat ->
    loop_step s Tau (with_lpc (with_manager s
      (with_addBlock (ms_manager s) (addBlock (ms_manager s) ++ [b]))) LSelect)
| lp_stop s w w' :
    ms_lpc s = LSelect -> ms_stop s = true -> worker (ms_loop s) = Some w -> Stop w = Ret w' ->
    loop_step s Tau (with_wg (with_wstop (with_lpc s LStopped) true) (ms_wg s - 1)).

Definition set_worker (s : MinerServer) (i : nat) (w : Worker) (pc : worker_pc) : MinerServer :=
  with_workers s (<[i := (w, pc)]> (ms_workers s)).

Inductive worker_step : MinerServer -> act -> MinerServer -> Prop :=
| wk_start s i w m prev :
    ms_workers s !! i = Some (w, WStart) -> ld_GetLastHash (ms_manager s) = Ret (m, prev) ->
    worker_step s Tau (set_worker (with_noops (with_manager s m) (ms_noops s ++ [mkNoOp w prev false NMine]))
      i w (WSelect (length (ms_noops s))))
| wk_stopped s i w n :
    ms_workers s !! i = Some (w, WSelect n) -> ms_wstop s = true ->
    worker_step s Tau (set_worker (with_noops s (alter stop_noop n (ms_noops s))) i w WExit)
| wk_noOpDone s i w n no :
    ms_workers s !! i = Some (w, WSelect n) -> ms_noops s !! n = Some no -> no_pc no <> NMine ->
    worker_step s Tau (set_worker s i w WExit)
| wk_batch s i w n ops q srt :
    ms_workers s !! i = Some (w, WSelect n) -> ms_finalized s = ops :: q ->
    worker_step s Tau (set_worker (with_finalized s q) i w (WHash n (FilterInvalidOperations srt ops).2))
| wk_closed s i w n srt :
    ms_workers s !! i = Some (w, WSelect n) -> ms_finalized s = [] -> ms_closed s = true ->
    worker_step s Tau (set_worker s i w (WHash n (FilterInvalidOperations srt []).2))
| wk_hash s i w n ops m prev :
    ms_workers s !! i = Some (w, WHash n ops) -> ld_GetLastHash (ms_manager s) = Ret (m, prev) ->
    worker_step s Tau (set_worker (with_manager s m) i w (WBlocks n ops prev))
| wk_blocks s i w n ops prev m blocks :
    ms_workers s !! i = Some (w, WBlocks n ops prev) -> ld_GetLastBlocks (ms_manager s) = Ret (m, blocks) ->
    worker_step s Tau (set_worker (with_manager s m) i w (WLoop n ops blocks [] prev))
| wk_loop s rg1 rg2 i w n ops blk blocks best prev m valid ok :
    ms_workers s !! i = Some (w, WLoop n ops (blk :: blocks) best prev) ->
    ld_ValidateOperations rg1 rg2 (ms_manager s) ops prev = Ret (m, (valid, ok)) ->
    worker_step s Tau (set_worker (with_manager s m) i w
      (if decide (length best <= length valid)%nat then WLoop n ops blocks valid (Hash blk)
       else WLoop n ops blocks best prev))
| wk_chosen s i w n ops best prev :
    ms_workers s !! i = Some (w, WLoop n ops [] best prev) -> (0 < length best)%nat ->
    worker_step s Tau (set_worker (with_noops s (alter stop_noop n (ms_noops s))) i w (WMine best prev))
| wk_nothing s i w n ops prev :
    ms_workers s !! i = Some (w, WLoop n ops [] [] prev) ->
    worker_step s Tau (set_worker s i w WExit)
| wk_mined s i w best prev fuel now blk :
    ms_workers s !! i = Some (w, WMine best prev) ->
    NewBlock fuel best prev (w_MinerID w) (w_PowPerOpBlock w) (fun _ => false) now = Ret blk ->
    worker_step s Tau (set_worker s i w (WSend blk))
| wk_send s i w blk :
    ms_workers s !! i = Some (w, WSend blk) ->
    worker_step s (Snd (MFinished blk)) (set_worker s i w WExit).

(** A no-op miner polls its [stop] channel, which cannot have been seen closed
    if it is open now. *)
Inductive noop_step : MinerServer -> act -> MinerServer -> Prop :=
| no_mined s n no fuel stop now blk :
    ms_noops s !! n = Some no -> no_pc no = NMine -> (no_stop no = false -> forall z, stop z = false) ->
    mineNoOp fuel (no_worker no) stop (no_previousHash no) now = Ret blk ->
    noop_step s Tau (with_noops s (<[n := noop_at no (NSend blk)]> (ms_noops s)))
| no_send s n no blk :
    ms_noops s !! n = Some no -> no_pc no = NSend blk ->
    noop_step s (Snd (MFinished blk)) (with_noops s (<[n := noop_at no NExit]> (ms_noops s))).

(** ** Calls from peers and clients, and dialing *)

Definition spawn (s : MinerServer) (hs : list hact) : MinerServer :=
  with_handlers s (ms_handlers s ++ [hs]).

Definition set_handler (s : MinerServer) (i : nat) (hs : list hact) : MinerServer :=
  with_handlers s (<[i := hs]> (ms_handlers s)).

Inductive call_step : MinerServer -> act -> MinerServer -> Prop :=
| cl_FloodBlock s req :
    call_step s Tau (spawn s ((fun r => HSend (MReceivedBlock r)) <$> FloodBlock req))
| cl_FloodOperation s req :
    call_step s Tau (spawn s (((fun r => HSend (MFloodOperation r)) <$> (FloodOperation req).1) ++
      ((fun o => HSend (MReceivedOp o)) <$> (FloodOperation req).2)))
| cl_DialPeer s info addr now :
    call_step s Tau (spawn (with_threads s (ms_threads s ++ [NewPeer (np_MinerID info) addr now]))
      (HSend (MNewPeer (mkPeer (np_MinerID info) addr) (length (ms_threads s))) ::
       (if decide (1 < length (np_Blockchain info))%nat then [HSend (MSync (np_Blockchain info))] else [])))
| cl_startMinerRPC s response addr now :
    call_step s Tau (spawn (with_threads s (ms_threads s ++ [NewPeer (nr_MinerID response) addr now]))
      [HSend (MNewPeer (mkPeer (nr_MinerID response) addr) (length (ms_threads s)));
       HSend (MSync (nr_Blockchain response))])
| cl_CreateFile s rg filename now :
    holds_mux (ms_batch s) = false -> create_check rg (ms_server s) filename = None ->
    call_step s Tau (spawn s [HSubmit (NewOperation Create (minerID (ms_server s)) filename EmptyString now)])
| cl_AppendRecord s info now :
    holds_mux (ms_batch s) = false -> append_check (ms_server s) (ar_Fname info) = None ->
    let op := NewOperation Append (minerID (ms_server s)) (ar_Fname info) (ar_Data info) now in
    call_step s Tau (spawn s [HRoom op; HSubmit op])
| cl_read s fname m file ok :
    (* [TotalRecs], and a round of the loop of [ReadRecord] *)
    ld_GetFile (ms_manager s) fname = Ret (m, (file, ok)) -> call_step s Tau (with_manager s m)
| cl_room s i op hs m file ok :
    ms_handlers s !! i = Some (HRoom op :: hs) -> ld_GetFile (ms_manager s) (Filename op) = Ret (m, (file, ok)) ->
    full_file file ok = false ->
    call_step s Tau (set_handler (with_manager s m) i hs)
| cl_full s i op hs m file ok :
    ms_handlers s !! i = Some (HRoom op :: hs) -> ld_GetFile (ms_manager s) (Filename op) = Ret (m, (file, ok)) ->
    full_file file ok = true ->
    call_step s Tau (with_replies (set_handler (with_manager s m) i [])
      (ms_replies s ++ [(op, RAppended (inl (FileMaxLenReachedError (Filename op))))]))
| cl_submit s i op hs :
    ms_handlers s !! i = Some (HSubmit op :: hs) -> mux_free s = true ->
    call_step s Tau (set_handler (with_server s (submit (ms_server s) op).1) i
      [HSend (MReceivedOp op); HReply op (nextChan (ms_server s))])
| cl_send s i m hs :
    ms_handlers s !! i = Some (HSend m :: hs) -> call_step s (Snd m) (set_handler s i hs)
| cl_created s i op ch hs b :
    ms_handlers s !! i = Some (HReply op ch :: hs) -> first_answer ch (ms_answers s) = Some b ->
    Op op = Create ->
    call_step s Tau (with_replies (set_handler s i hs)
      (ms_replies s ++ [(op, RCreated (create_finish (Filename op) b))]))
| cl_appended s i op ch hs b m r :
    ms_handlers s !! i = Some (HReply op ch :: hs) -> first_answer ch (ms_answers s) = Some b ->
    Op op = Append -> append_finish (ms_manager s) op b = Ret (m, r) ->
    call_step s Tau (with_replies (set_handler (with_manager s m) i hs) (ms_replies s ++ [(op, RAppended r)])).

(** ** Shutdown: [close(ms.stop)], and the accept loop *)

Inductive stop_step : MinerServer -> act -> MinerServer -> Prop :=
| sp_close s : ms_stop s = false -> stop_step s Tau (with_stop s true)
| sp_listener s :
    ms_listening s = true -> ms_stop s = true ->
    stop_step s Tau (with_wg (with_listening s false) (ms_wg s - 1)).

(** ** The miner *)

Inductive thread_step (s : MinerServer) (a : act) (s' : MinerServer) : Prop :=
| by_manager : manager_step s a s' -> thread_step s a s'
| by_peers : peers_step s a s' -> thread_step s a s'
| by_peer : peer_step s a s' -> thread_step s a s'
| by_check : check_step s a s' -> thread_step s a s'
| by_update : update_step s a s' -> thread_step s a s'
| by_status : status_step s a s' -> thread_step s a s'
| by_batch : batch_step s a s' -> thread_step s a s'
| by_loop : loop_step s a s' -> thread_step s a s'
| by_worker : worker_step s a s' -> thread_step s a s'
| by_noop : noop_step s a s' -> thread_step s a s'
| by_call : call_step s a s' -> thread_step s a s'
| by_stop : stop_step s a s' -> thread_step s a s'.

(** One thread alone, or two that meet on a channel. *)
Inductive step (s s' : MinerServer) : Prop :=
| step_alone : thread_step s Tau s' -> step s s'
| step_meet m s1 : thread_step s (Snd m) s1 -> thread_step s1 (Rcv m) s' -> step s s'.

Definition steps : MinerServer -> MinerServer -> Prop := rtc step.

(** ** The miner at its start

    [NewMinerServer] makes the channels and starts the threads: each at the top
    of its loop, three of them counted in [wg]. *)
Definition new_miner (config : Settings) (m : ChainManager) (srv : Server) : MinerServer :=
  mkMiner config m (MSends []) (mkPeers (cfg_MinerID config) ∅ ∅) (PSends []) ∅ []
    srv [] [] KIdle UIdle new_batch (BSends []) [] false
    (new_loop config) LSelect false false [] [] [] true false 3.

(** The states in which all is started and nothing has happened yet. *)
Inductive started (config : Settings) : MinerServer -> Prop :=
| started_new h now h' bc resolve srv0 listen rg m srv :
    NewBlockchain h config now = (h', bc) -> NewRPCServer resolve config = Ok srv0 ->
    startListening None listen rg srv0 (NewChainManager h' bc config) = Ret (m, (srv, None)) ->
    started config (new_miner config m srv).

(** A chain of a peer was just taken over. *)
Definition adopting (s : MinerServer) : Prop :=
  exists outs, ms_mpc s = MSends outs /\ OutSyncDone ∈ outs.

(** Runs in which the miner validates every block it takes. *)
Definition own_step (s s' : MinerServer) : Prop := step s s' /\ ~ adopting s'.
Definition own_steps : MinerServer -> MinerServer -> Prop := rtc own_step.
End miner.
