(* ===== verification/MinerTheory.v ===== *)
(** The running miner: its chain is the chain of a manager at work, so it is safe
    under every interleaving of the threads; what every reachable state looks
    like; and what the clients are told is true. *)
From S2P Require Import Prelude GoLib Settings Operation Block Pow Blockchain ChainTheory.
From S2P Require Import Ledger LedgerTheory AddBlock QueryTheory RFSLedger Worker Resolver Manager.
From S2P Require Import Rfslib Server Peers Batch Dial Threads Miner.
Local Open Scope Z_scope.

(** The steps of all threads, one by one; a case of the manager with its result. *)
Ltac thread_cases Hs :=
  destruct Hs as [Hs|Hs|Hs|Hs|Hs|Hs|Hs|Hs|Hs|Hs|Hs|Hs]; destruct Hs;
  try match goal with
  | |- context [manager_case _ ?c] => destruct c as [[]| | |]
  | _ : context [manager_case _ ?c] |- _ => destruct c as [[]| | |]
  end.

(** ** Queries of the ledger only move [lastNode] *)

Definition query (m m' : ChainManager) : Prop :=
  m' = m \/ exists bc ls, getLastNodes (m_heap m) (blockchain m) = Ret (bc, ls) /\
    m' = with_chain m (m_heap m) bc.

Lemma query_intro {R} m (c : go (Blockchain * R)) m' r :
  (forall bc r, c = Ret (bc, r) -> exists ls, getLastNodes (m_heap m) (blockchain m) = Ret (bc, ls)) ->
  ('(bc, r) ← c; Ret (with_chain m (m_heap m) bc, r)) = Ret (m', r) -> query m m'.
Proof.
  intros Hc Hrun. destruct c as [[bc r']| | |] eqn:E; try discriminate. simpl in Hrun. simplify_eq.
  destruct (Hc bc r eq_refl) as [ls Hls]. right. by exists bc, ls.
Qed.

Lemma getLastConfirmedNode_query h bc n bc' r :
  getLastConfirmedNode h bc n = Ret (bc', r) -> exists ls, getLastNodes h bc = Ret (bc', ls).
Proof.
  unfold getLastConfirmedNode. intros Hrun. go_inv Hrun. destruct r0 as [bc1 ls]. exists ls.
  destruct ls; [by simplify_eq|]. go_inv Hrun. by simplify_eq.
Qed.

Lemma query_GetLastHash m m' r : ld_GetLastHash m = Ret (m', r) -> query m m'.
Proof.
  apply query_intro. intros bc r'. unfold GetLastHash. intros Hrun. go_inv Hrun. destruct r0 as [bc1 ls].
  go_inv Hrun. simplify_eq. eauto.
Qed.

Lemma query_GetLastBlocks m m' r : ld_GetLastBlocks m = Ret (m', r) -> query m m'.
Proof.
  apply query_intro. intros bc r'. unfold GetLastBlocks. intros Hrun. go_inv Hrun. destruct r0 as [bc1 ls].
  go_inv Hrun. simplify_eq. eauto.
Qed.

Lemma query_ValidateOperations rg1 rg2 m ops prev m' r :
  ld_ValidateOperations rg1 rg2 m ops prev = Ret (m', r) -> query m m'.
Proof. simpl. intros Hrun. go_inv Hrun. simplify_eq. by left. Qed.

Lemma query_ListFiles rg m m' r : ld_ListFiles rg m = Ret (m', r) -> query m m'.
Proof.
  apply query_intro. intros bc r'. unfold ListFiles. intros Hrun. go_inv Hrun. destruct r0 as [bc1 node].
  apply getLastConfirmedNode_query in Hrun0. destruct node; [go_inv Hrun|]; by simplify_eq.
Qed.

Lemma query_GetFile m f m' r : ld_GetFile m f = Ret (m', r) -> query m m'.
Proof.
  apply query_intro. intros bc r'. unfold GetFile. intros Hrun. go_inv Hrun. destruct r0 as [bc1 node].
  apply getLastConfirmedNode_query in Hrun0. destruct node; [go_inv Hrun|]; [|by simplify_eq].
  destruct r0 as [[??]?]. by simplify_eq.
Qed.

Lemma query_CheckOpConfirmed m op m' r : ld_CheckOpConfirmed m op = Ret (m', r) -> query m m'.
Proof.
  apply query_intro. intros bc r'. unfold CheckOpConfirmed. intros Hrun. go_inv Hrun. destruct r0 as [bc1 ls].
  go_inv Hrun. simplify_eq. eauto.
Qed.

Lemma query_append_finish m op b m' r : append_finish m op b = Ret (m', r) -> query m m'.
Proof.
  unfold append_finish. destruct b; simpl negb; cbv iota; [|intros; simplify_eq; by left].
  intros Hrun. go_inv Hrun. destruct r0 as [m1 [file ok]]. apply query_GetFile in Hrun0.
  destruct ok; simpl in Hrun; simplify_eq; done.
Qed.
#[export] Hint Resolve query_GetLastHash query_GetLastBlocks query_ValidateOperations query_ListFiles
  query_GetFile query_CheckOpConfirmed query_append_finish : miner.

Lemma query_mstep `{Gob (list Operation)} m m' : query m m' -> m' = m \/ mstep m m' [].
Proof. intros [->|(bc & ls & Hrun & ->)]; [by left|]. right. by eapply step_query. Qed.

Section miner.
Context `{Gob (list Operation)} `{Gob Operation}.

(** A run of one step, then others. *)
Lemma alone s s1 s' : thread_step s Tau s1 -> steps s1 s' -> steps s s'.
Proof using Type. intros Ht Hr. eapply rtc_l; [by apply step_alone|done]. Qed.

Lemma meet m s s1 s2 s' : thread_step s (Snd m) s1 -> thread_step s1 (Rcv m) s2 -> steps s2 s' -> steps s s'.
Proof using Type. intros Ht1 Ht2 Hr. eapply rtc_l; [by eapply step_meet|done]. Qed.

Lemma steps_trans s s1 s' : steps s s1 -> steps s1 s' -> steps s s'.
Proof using Type. unfold steps. intros H1 H2. by etransitivity. Qed.

(** ** The chain of the miner *)

(** What a step of a thread does to the manager. *)
Definition manager_moves (s s' : MinerServer) : Prop :=
  ms_manager s' = ms_manager s \/
  exists outs, mstep (ms_manager s) (ms_manager s') outs /\
    (OutSyncDone ∈ outs -> ms_mpc s' = MSends outs).

Lemma moves_query s s' : query (ms_manager s) (ms_manager s') -> manager_moves s s'.
Proof using Type.
  intros [Heq|Hstep]%query_mstep; [by left|]. right. exists []. split; [done|]. by intros ?%elem_of_nil.
Qed.

Lemma moves_case s c :
  (forall m outs, c = Ret (m, outs) -> mstep (ms_manager s) m outs) -> manager_moves s (manager_case s c).
Proof using Type.
  intros Hc. destruct c as [[m outs]| | |]; simpl; [|by left..]. right. exists outs. eauto.
Qed.

Lemma thread_moves s a s' : thread_step s a s' -> manager_moves s s'.
Proof using Type.
  intros [Hs|Hs|Hs|Hs|Hs|Hs|Hs|Hs|Hs|Hs|Hs|Hs]; destruct Hs; try (by left);
    try (apply moves_query; simpl; by eauto with miner).
  - apply moves_case. intros m outs. apply step_sync.
  - apply moves_case. intros m outs. by eapply step_flooded.
  - apply moves_case. intros m outs. apply step_downloaded.
  - apply moves_case. intros m outs. by eapply step_add.
  - right. exists []. split; [by apply step_receive|]. by intros ?%elem_of_nil.
  - right. exists []. split; [by apply step_mined|]. by intros ?%elem_of_nil.
Qed.

(** Adoption shows in the state in which it happens, also when the step is half
    of a meeting. *)
Lemma manager_moves_reach cfg s s' :
  manager_moves s s' -> ~ adopting s' -> manager_reach cfg (ms_manager s) -> manager_reach cfg (ms_manager s').
Proof using Type.
  intros [->|(outs & Hstep & Had)] Hno Hr; [done|]. eapply mreach_step; [done..|].
  intros Hin. apply Hno. exists outs. auto.
Qed.

(** The second half of a meeting cannot undo an adoption of the first. *)
Lemma send_not_adopting s m s' : thread_step s (Snd m) s' -> ms_manager s' = ms_manager s.
Proof using Type.
  intros [Hs|Hs|Hs|Hs|Hs|Hs|Hs|Hs|Hs|Hs|Hs|Hs]; inversion Hs; subst; reflexivity.
Qed.

Lemma step_reach cfg s s' :
  step s s' -> ~ adopting s' -> manager_reach cfg (ms_manager s) -> manager_reach cfg (ms_manager s').
Proof using Type.
  intros [Ht|m s1 Ht1 Ht2] Hno Hr.
  - eapply manager_moves_reach; [by eapply thread_moves|done..].
  - eapply manager_moves_reach; [by eapply thread_moves|done|]. by rewrite (send_not_adopting _ _ _ Ht1).
Qed.

Lemma started_reach cfg s : started cfg s -> manager_reach cfg (ms_manager s).
Proof using Type.
  intros [h now h' bc resolve srv0 listen rg m srv Hnew _ Hlist]. simpl.
  unfold startListening in Hlist. go_inv Hlist. destruct r as [m1 files]. simpl in Hlist. simplify_eq.
  pose proof (mreach_new cfg h now h' bc Hnew) as Hr.
  apply query_ListFiles, query_mstep in Hlist0 as [->|Hstep]; [done|].
  eapply mreach_step; [done..|by intros ?%elem_of_nil].
Qed.

Lemma own_steps_reach cfg s s' :
  own_steps s s' -> manager_reach cfg (ms_manager s) -> manager_reach cfg (ms_manager s').
Proof using Type. induction 1 as [|s1 s2 s3 [Hs Hno] _ IH]; [done|]. intros Hr. by apply IH, (step_reach cfg s1 s2). Qed.

Lemma own_steps_manager_ok cfg s0 s :
  settings_ok cfg -> started cfg s0 -> own_steps s0 s -> manager_ok cfg (ms_manager s).
Proof using Type.
  intros Hcfg Hst Hrun. apply manager_reach_ok; [done|]. eapply own_steps_reach; [done|]. by apply started_reach.
Qed.

(** C2: The running miner refines the chain manager, and keeps its chain safe: from
    its start, with all threads at work in any interleaving (floods, downloads,
    mining, clients, peers that come and go), its manager is in a state that a
    manager alone can reach, so no balance is negative, no operation occurs
    twice on a branch, and every block has its proof of work. *)
Theorem miner_refines_manager cfg s0 s
    (Hcfg : settings_ok cfg) (Hstart : started cfg s0) (Hrun : own_steps s0 s) :
  manager_reach cfg (ms_manager s) /\
  ledger_safe cfg (m_heap (ms_manager s)) (blockchain (ms_manager s)).
Proof using Type.
  split; [eapply own_steps_reach; [done|by apply started_reach]|].
  apply manager_ok_safe; [done|]. by eapply own_steps_manager_ok.
Qed.

(** ** The threads that [wg] counts *)

Definition live_peers (s : MinerServer) : Z := match ms_ppc s with PStopped => 0 | _ => 1 end.
Definition live_loop (s : MinerServer) : Z := match ms_lpc s with LStopped => 0 | _ => 1 end.
Definition live_listener (s : MinerServer) : Z := if ms_listening s then 1 else 0.

Definition wg_inv (s : MinerServer) : Prop := ms_wg s = live_peers s + live_loop s + live_listener s.

Lemma next_download_pc ps hash miners :
  (exists k rest, next_download ps hash miners = PRequest k hash rest /\ is_Some (peers ps !! k)) \/
  next_download ps hash miners = PSends [].
Proof using Type.
  induction miners as [|k miners IH]; simpl; [by right|]. destruct (peers ps !! k) eqn:E; [|done].
  left. exists k, miners. by rewrite E.
Qed.

Lemma wg_thread s a s' : wg_inv s -> thread_step s a s' -> wg_inv s'.
Proof using Type.
  intros Hw Hs. thread_cases Hs; unfold wg_inv, live_peers, live_loop, live_listener, download_start in *; simpl;
    try exact Hw;
    repeat match goal with
    | Hpc : ms_ppc _ = _ |- _ => rewrite Hpc in Hw
    | Hpc : ms_lpc _ = _ |- _ => rewrite Hpc in Hw
    | Hpc : ms_listening _ = _ |- _ => rewrite Hpc in Hw
    | |- context [next_download ?a ?b ?c] => destruct (next_download_pc a b c) as [(? & ? & -> & _)| ->]
    | |- context [match blocksToPeers ?a !! ?b with _ => _ end] => destruct (blocksToPeers a !! b)
    | |- context [match (on_finishedMining ?a ?b).2 with _ => _ end] => destruct (on_finishedMining a b).2 as [|[]]
    end; simpl in *; try done; lia.
Qed.

(** ** Buffers *)

Definition queues_inv (s : MinerServer) : Prop :=
  (length (addBlock (ms_manager s)) <= addBlock_cap)%nat /\
  (length (receiveFloodedBlock (ms_manager s)) <= receiveFloodedBlock_cap)%nat /\
  (length (ms_finalized s) <= finalized_cap)%nat.

(** What a step may do to the queues of the manager. *)
Definition queues_ok (m : ChainManager) : Prop :=
  (length (addBlock m) <= addBlock_cap)%nat /\
  (length (receiveFloodedBlock m) <= receiveFloodedBlock_cap)%nat.

Lemma queues_query m m' : query m m' -> queues_ok m -> queues_ok m'.
Proof using Type. by intros [->|(bc & ls & _ & ->)]. Qed.

Lemma send_cap {A} cap (q : list A) x q' : send cap q x = Ret q' -> (length q' <= cap)%nat.
Proof using Type.
  unfold send. case_decide; [|done]. intros [= <-]. rewrite length_app. simpl. lia.
Qed.

Lemma send_all_cap blocks : forall q q',
  (length q <= receiveFloodedBlock_cap)%nat -> send_all blocks q = Ret q' ->
  (length q' <= receiveFloodedBlock_cap)%nat.
Proof using Type.
  induction blocks as [|b blocks IH]; simpl; intros q q' Hq Hrun; [by simplify_eq|].
  go_inv Hrun. eapply IH; [|done]. by eapply send_cap.
Qed.

Lemma on_flooded_queues m b m' outs : queues_ok m -> on_flooded m b = Ret (m', outs) -> queues_ok m'.
Proof using Type.
  intros [Ha Hr] Hrun. unfold on_flooded in Hrun. cbv zeta in Hrun. repeat case_match; go_inv Hrun; simplify_eq;
    (split; simpl; [|]); try done; by eapply send_cap.
Qed.

Lemma on_add_queues rg1 rg2 m b m' outs : queues_ok m -> on_add rg1 rg2 m b = Ret (m', outs) -> queues_ok m'.
Proof using Type.
  intros Hq Hrun. unfold on_add in Hrun. go_inv Hrun. destruct r as [[h bc] err].
  destruct err; [by simplify_eq|]. go_inv Hrun. destruct r. by simplify_eq.
Qed.

Lemma queues_mstep m m' outs : queues_ok m -> mstep m m' outs -> queues_ok m'.
Proof using Type.
  intros Hq Hstep. destruct Hstep as [|rg m bs m' outs Hrun|m b q m' outs Hq' Hrun|
    m bs m' outs Hrun|rg1 rg2 m b q m' outs Hq' Hrun| | |m bc ls Hrun]; try done.
  - unfold on_sync in Hrun. go_inv Hrun. destruct r as [h [bc|e]]; by simplify_eq.
  - eapply on_flooded_queues; [|done]. destruct Hq as [Ha Hr]. rewrite Hq' in Hr. split; simpl in *; [done|lia].
  - unfold on_downloaded in Hrun. go_inv Hrun. simplify_eq. destruct Hq. split; [done|]. simpl. by eapply send_all_cap.
  - eapply on_add_queues; [|done]. destruct Hq as [Ha Hr]. rewrite Hq' in Ha. split; simpl in *; [lia|done].
  - destruct Hq. split; [done|]. simpl. rewrite length_app. simpl. lia.
  - destruct Hq. split; [|done]. simpl. rewrite length_app. simpl. lia.
Qed.

Lemma finalized_thread s a s' : thread_step s a s' ->
  (length (ms_finalized s) <= finalized_cap)%nat -> (length (ms_finalized s') <= finalized_cap)%nat.
Proof using Type.
  intros Hs Hq. thread_cases Hs; try done; simpl.
  - rewrite length_app. simpl. lia.
  - rewrite H2 in Hq. simpl in Hq. lia.
Qed.

Lemma queues_thread s a s' : queues_inv s -> thread_step s a s' -> queues_inv s'.
Proof using Type.
  intros (Ha & Hr & Hf) Hs. pose proof (finalized_thread _ _ _ Hs Hf). unfold queues_inv.
  destruct (thread_moves _ _ _ Hs) as [-> |(outs & Hm & _)]; [done|].
  by destruct (queues_mstep _ _ _ (conj Ha Hr) Hm).
Qed.

(** ** The mining threads work for this miner, at its difficulties *)

Definition own_worker (cfg : Settings) : Worker :=
  NewWorker (cfg_MinerID cfg) (PowPerNoOpBlock cfg) (PowPerOpBlock cfg).

Definition mining_inv (s : MinerServer) : Prop :=
  let w := own_worker (ms_config s) in
  worker (ms_loop s) = Some w /\ Forall (fun x => x.1 = w) (ms_workers s) /\
  Forall (fun n => no_worker n = w) (ms_noops s).

Lemma config_thread s a s' : thread_step s a s' -> ms_config s' = ms_config s.
Proof using Type.
  intros Hs. by thread_cases Hs.
Qed.

Lemma Forall_alter_fn {A} (P : A -> Prop) f i l :
  Forall P l -> (forall x, P x -> P (f x)) -> Forall P (alter f i l).
Proof using Type.
  intros Hl Hf. apply Forall_forall. intros x Hx. rewrite Forall_forall in Hl.
  apply list_elem_of_lookup in Hx as [j Hj]. rewrite list_lookup_alter in Hj. case_decide; subst.
  - apply fmap_Some in Hj as (y & Hy & ->). by eapply Hf, Hl, list_elem_of_lookup_2.
  - by eapply Hl, list_elem_of_lookup_2.
Qed.

Lemma mining_thread s a s' : mining_inv s -> thread_step s a s' -> mining_inv s'.
Proof using Type.
  intros (Hw & Hws & Hns) Hs. unfold mining_inv. rewrite (config_thread _ _ _ Hs).
  set (w0 := own_worker (ms_config s)) in *.
  assert (forall i w pc, ms_workers s !! i = Some (w, pc) -> w = w0) as Hwk.
  { intros i w pc Hi. by apply (Forall_lookup_1 _ _ _ _ Hws) in Hi. }
  assert (forall i w pc pc', ms_workers s !! i = Some (w, pc) ->
    Forall (fun x : Worker * worker_pc => x.1 = w0) (<[i := (w, pc')]> (ms_workers s))) as Hset.
  { intros i w pc pc' Hi. apply Forall_insert; [done|]. by eapply Hwk. }
  assert (forall n, Forall (fun x => no_worker x = w0) (alter stop_noop n (ms_noops s))) as Hstop.
  { intros n. by apply Forall_alter_fn. }
  thread_cases Hs; simpl in *; eauto.
  - unfold on_mine in *. rewrite Hw in *. destruct (isMining (ms_loop s)); simplify_eq; simpl; rewrite ?app_nil_r.
    + auto.
    + split_and!; [done| |done]. apply Forall_app. split; [done|]. by apply Forall_singleton.
  - unfold on_finishedMining. case_decide; auto.
  - split_and!; eauto. apply Forall_app. split; [done|]. apply Forall_singleton. simpl. by eapply Hwk.
  - split_and!; [done..|]. apply Forall_insert; [done|]. simpl. by apply (Forall_lookup_1 _ _ _ _ Hns) in H1.
  - split_and!; [done..|]. apply Forall_insert; [done|]. simpl. by apply (Forall_lookup_1 _ _ _ _ Hns) in H1.
Qed.

(** ** Batches *)

Definition batch_pc_op (pc : batch_pc) : option Operation :=
  match pc with
  | BLock op | BHash op _ | BValidate op _ _ => Some op
  | _ => None
  end.
Definition batch_pc_outs (pc : batch_pc) : list batch_out :=
  match pc with BSends outs => outs | _ => [] end.

(** The batch is in order, the operation in hand is not in it, and whatever is on
    its way to the worker is a good batch. *)
Definition batch_inv (s : MinerServer) : Prop :=
  batch_ok (GenOpBlockTimeout (ms_config s)) (ms_batch s) /\
  (forall op, batch_pc_op (ms_bpc s) = Some op -> operations (ms_batch s) !! OperationID op = None) /\
  Forall good_batch (finals (batch_pc_outs (ms_bpc s))) /\ Forall good_batch (ms_finalized s).

Lemma admit_valid_ok timeout rg b op pend : batch_ok timeout b -> operations b !! OperationID op = None ->
  batch_ok timeout (admit_valid timeout rg b op pend).1 /\
  Forall good_batch (finals (admit_valid timeout rg b op pend).2).
Proof using Type.
  intros [Hk Hs Ht] Hn. unfold admit_valid. set (fl := if pend then _ else _).
  assert (finals fl = []) as Hfl by (by destruct pend).
  pose proof (keyed_insert _ op Hk) as Hk'.
  assert (size (<[OperationID op := op]> (operations b)) = S (size (operations b))) as Hsz by (by apply map_size_insert_None).
  case_decide as Hpanic.
  { simpl. unfold finals in *. rewrite omap_app, Hfl. split; [|constructor].
    split; simpl; [done|unfold MAX_BLOCK_SIZE; lia|lia]. }
  case_decide as Hmax; simpl.
  - split; [apply batch_ok_empty|]. unfold finals in *. rewrite omap_app, Hfl. simpl.
    apply Forall_singleton, finalized_good; [done|lia].
  - rewrite Hfl. split; [|constructor]. split; simpl; [done|unfold MAX_BLOCK_SIZE in *; lia|].
    intros Hpos _. case_decide; [done|]. apply Ht; [done|]. intros He.
    assert (size (operations b) = 0%nat) by (rewrite He; apply map_size_empty). lia.
Qed.

Lemma on_tick_ok timeout rg b b' outs : batch_ok timeout b -> on_tick rg b = Some (b', outs) ->
  batch_ok timeout b' /\ Forall good_batch (finals outs).
Proof using Type.
  intros Hb. unfold on_tick. destruct (C b); simpl; intros; simplify_eq; (split; [apply batch_ok_empty|]);
    apply Forall_singleton, finalized_good; [apply Hb|apply Nat.lt_le_incl, Hb|apply Hb|apply Nat.lt_le_incl, Hb].
Qed.

Lemma batch_thread s a s' : batch_inv s -> thread_step s a s' -> batch_inv s'.
Proof using Type.
  intros (Hb & Hop & Hpc & Hf) Hs.
  thread_cases Hs; try done; unfold batch_inv in *; simpl in *;
    repeat match goal with Hx : ms_bpc _ = _ |- _ => rewrite Hx in Hop, Hpc; simpl in Hop, Hpc; clear Hx end;
    try (by split_and!).
  - destruct (operations _ !! _) eqn:E; split_and!; try done. simpl. by intros ? [= <-].
  - split_and!; try done. destruct Hb. by split.
  - destruct (admit_valid_ok _ rg3 (ms_batch s) op pend Hb) as [Hb' Hf']; [by apply Hop|]. by split_and!.
  - destruct (on_tick_ok _ _ _ _ _ Hb H2) as [Hb' Hf']. by split_and!.
  - split_and!; try done; [by apply Forall_cons in Hpc as []|]. apply Forall_app. split; [done|].
    apply Forall_singleton. by apply Forall_cons in Hpc as [].
  - split_and!; try done. rewrite H2 in Hf. by apply Forall_cons in Hf as [].
Qed.

(** ** Peers and their objects *)

Definition thread_is (s : MinerServer) (i : nat) (p : Peer) : Prop :=
  exists t, ms_threads s !! i = Some t /\ pt_peer t = p.

(** The peers that [managePeers] is about to use. *)
Definition out_peer (o : peers_out) : option string :=
  match o with
  | PSendBlock k _ | PSendOp k _ | PDone k => Some k
  | _ => None
  end.
Definition pc_peers (pc : peers_pc) : list string :=
  match pc with
  | PSends outs => omap out_peer outs
  | PRequest k _ _ => [k]
  | _ => []
  end.

(** Peers are filed under their identifier, each with an object that has a
    thread; so has every peer in use, and every peer about to be added. *)
Record peers_inv (s : MinerServer) : Prop := {
  pi_own : own_MinerID (ms_peers s) = cfg_MinerID (ms_config s);
  pi_ok : peers_ok (ms_peers s);
  pi_objs : forall k p, peers (ms_peers s) !! k = Some p -> exists i, ms_objs s !! k = Some i /\ thread_is s i p;
  pi_used : forall k, k ∈ pc_peers (ms_ppc s) -> is_Some (ms_objs s !! k);
  pi_new : forall hs p i, hs ∈ ms_handlers s -> HSend (MNewPeer p i) ∈ hs -> thread_is s i p
}.

(** What the receiver of a message may rely on. *)
Definition msg_ok (s : MinerServer) (m : msg) : Prop :=
  match m with MNewPeer p i => thread_is s i p | _ => True end.

Lemma thread_is_insert s i j t t' p :
  ms_threads s !! j = Some t -> pt_peer t' = pt_peer t -> thread_is s i p ->
  thread_is (set_thread s j t') i p.
Proof using Type.
  intros Hj Hp (u & Hi & Hu). unfold thread_is. simpl. rewrite list_lookup_insert.
  case_decide as Hd; [|eauto]. destruct Hd as [-> _]. exists t'. split; [done|]. congruence.
Qed.

Lemma thread_is_alter f (ts : list PeerThread) i j p :
  (forall t, pt_peer (f t) = pt_peer t) ->
  (exists t, ts !! i = Some t /\ pt_peer t = p) -> exists t, alter f j ts !! i = Some t /\ pt_peer t = p.
Proof using Type.
  intros Hf (u & Hi & Hu). rewrite list_lookup_alter. case_decide; subst; rewrite Hi; simpl; eauto.
Qed.

Lemma close_conns_is objs outs : forall (ts : list PeerThread) i p,
  (exists t, ts !! i = Some t /\ pt_peer t = p) ->
  exists t, close_conns objs outs ts !! i = Some t /\ pt_peer t = p.
Proof using Type.
  unfold close_conns. induction outs as [|o outs IH]; intros ts i p Ht; simpl; [done|]. apply IH.
  destruct o; try done. destruct (objs !! _); [|done]. by apply thread_is_alter.
Qed.

Lemma thread_is_step s a s' i p : thread_step s a s' -> thread_is s i p -> thread_is s' i p.
Proof using Type.
  intros Hs Ht. thread_cases Hs; try exact Ht; try (by eapply thread_is_insert; eauto).
  - by apply close_conns_is.
  - by apply thread_is_alter.
  - destruct Ht as (t & Hi & Hp). exists t. split; [by apply lookup_app_l_Some|done].
  - destruct Ht as (t & Hi & Hp). exists t. split; [by apply lookup_app_l_Some|done].
Qed.

Lemma sendBlock_names rg ps blk k :
  k ∈ omap out_peer (on_sendBlock rg ps blk) -> is_Some (peers ps !! k).
Proof using Type.
  destruct (on_sendBlock_eq rg ps blk) as (ks & _ & -> & Hin).
  intros (o & (k' & -> & Hk')%list_elem_of_fmap & Hk)%list_elem_of_omap. simpl in Hk. simplify_eq. by apply Hin.
Qed.

Lemma floodOperation_names rg1 rg2 rg3 ps op k :
  peers_ok ps -> k ∈ omap out_peer (on_floodOperation rg1 rg2 rg3 ps op) -> is_Some (peers ps !! k).
Proof using Type.
  intros Hok (o & Ho & Hk)%list_elem_of_omap.
  destruct (on_floodOperation_eq rg1 rg2 rg3 ps op Hok) as (ign & _ & _ & _ & Hin).
  apply Hin in Ho as (k' & Hp & _ & ->). simpl in Hk. by simplify_eq.
Qed.

Lemma pi_objs_some s k : peers_inv s -> is_Some (peers (ms_peers s) !! k) -> is_Some (ms_objs s !! k).
Proof using Type. intros P [p Hp]. destruct (pi_objs _ P k p Hp) as (i & Hi & _). eauto. Qed.

Lemma next_download_used s hash miners k :
  peers_inv s -> k ∈ pc_peers (next_download (ms_peers s) hash miners) -> is_Some (ms_objs s !! k).
Proof using Type.
  intros P Hk. destruct (next_download_pc (ms_peers s) hash miners) as [(k' & rest & Heq & Hp)|Heq]; rewrite Heq in Hk.
  - apply list_elem_of_singleton in Hk as ->. by apply pi_objs_some.
  - by apply elem_of_nil in Hk.
Qed.

(** A call that goes on does less than before. *)
Lemma set_handler_elem s i h hs hs' :
  hs ∈ ms_handlers (set_handler s i hs') -> h ∈ hs -> (hs = hs') \/ hs ∈ ms_handlers s.
Proof using Type.
  simpl. intros [j Hj]%list_elem_of_lookup _. rewrite list_lookup_insert in Hj. case_decide; [left; by simplify_eq|].
  right. by eapply list_elem_of_lookup_2.
Qed.

Lemma handlers_new s a s' : peers_inv s -> thread_step s a s' ->
  forall hs p i, hs ∈ ms_handlers s' -> HSend (MNewPeer p i) ∈ hs -> thread_is s' i p.
Proof using Type.
  intros P Hs hs p i Hhs Hin.
  assert (hs ∈ ms_handlers s -> thread_is s' i p) as Hold.
  { intros Hold. eapply thread_is_step; [done|]. by eapply (pi_new _ P). }
  assert (forall j x hs', ms_handlers s !! j = Some (x :: hs') -> HSend (MNewPeer p i) ∈ hs' -> thread_is s' i p) as Htail.
  { intros j x hs' Hj Hx. eapply thread_is_step; [done|]. eapply (pi_new _ P); [by eapply list_elem_of_lookup_2|by right]. }
  thread_cases Hs; try (by apply Hold); simpl in Hhs.
  all: try (apply elem_of_app in Hhs as [Hhs|Hhs%list_elem_of_singleton]; [by apply Hold|subst hs]).
  all: try (destruct (set_handler_elem _ _ _ _ _ Hhs Hin) as [->|Hhs']; [|by apply Hold]).
  all: try (by eapply Htail).
  all: try (simpl in Hin; rewrite ?elem_of_cons, ?elem_of_nil in Hin; by intuition discriminate).
  - apply elem_of_cons in Hin as [[= -> ->]|Hin].
    + eexists. split; [apply list_lookup_middle; reflexivity|done].
    + case_decide; [apply list_elem_of_singleton in Hin; done|by apply elem_of_nil in Hin].
  - apply elem_of_cons in Hin as [[= -> ->]|Hin%list_elem_of_singleton]; [|done].
    eexists. split; [apply list_lookup_middle; reflexivity|done].
Qed.

(** Steps that leave the peers alone, up to what is about to be used. *)
Lemma peers_frame s a s' : peers_inv s -> thread_step s a s' ->
  ms_peers s' = ms_peers s -> ms_objs s' = ms_objs s ->
  (forall k, k ∈ pc_peers (ms_ppc s') -> is_Some (ms_objs s !! k)) -> peers_inv s'.
Proof using Type.
  intros P Hs Hp Ho Hpc. split; rewrite ?Hp, ?Ho, ?(config_thread _ _ _ Hs); try apply P.
  - intros k p Hk. destruct (pi_objs _ P k p Hk) as (i & Hi & Ht). exists i. split; [done|]. by eapply thread_is_step.
  - done.
  - by eapply handlers_new.
Qed.

Lemma peers_thread s a s' :
  peers_inv s -> (forall m, a = Rcv m -> msg_ok s m) -> thread_step s a s' -> peers_inv s'.
Proof using Type.
  intros P Hmsg Hs. pose proof (peers_frame s a s' P Hs) as F. pose proof (handlers_new s a s' P Hs) as N.
  pose proof (fun i p => thread_is_step s a s' i p Hs) as T.
  thread_cases Hs; simpl in *; try (by apply F; try done; apply P).
  all: try (apply F; [done..|]; intros x Hu; by eapply next_download_used).
  all: try (apply F; [done..|]; intros x Hu; apply (pi_used _ P);
    match goal with Hx : ms_ppc _ = _ |- _ => rewrite Hx end; simpl; by (exact Hu || right)).
  all: try (apply F; [done..|]; by intros x ?%elem_of_nil).
  - specialize (Hmsg _ eq_refl). simpl in Hmsg. split; simpl; try done; [apply P|apply peers_ok_new, P| |].
    + intros k q. rewrite !lookup_insert. case_decide; [|intros Hq].
      * intros [= <-]. eauto.
      * destruct (pi_objs _ P k q Hq) as (j & ? & ?). eauto.
    + by intros k ?%elem_of_nil.
  - apply F; [done..|]. unfold on_continueMining. intros k. destruct (have_peers _); simpl; by intros ?%elem_of_nil.
  - split; simpl; try done; [apply P|apply P|apply P|by intros k ?%elem_of_nil].
  - apply F; [done..|]. intros k. unfold download_start. case_match; [by apply next_download_used|by intros ?%elem_of_nil].
  - apply F; [done..|]. intros k Hk%sendBlock_names. by apply pi_objs_some.
  - apply F; [done..|]. intros k Hk%floodOperation_names; [|apply P]. by apply pi_objs_some.
  - unfold on_peerErr in *. destruct (peers (ms_peers s) !! pe_minerID e) as [q|] eqn:Hq; simpl in *.
    2: { split; simpl; try done; [apply P..|by intros k ?%elem_of_nil]. }
    split; simpl; try done; [apply P| | |].
    + pose proof (peers_ok_err (ms_peers s) e (pi_ok _ P)) as Hok. unfold on_peerErr in Hok. by rewrite Hq in Hok.
    + intros k r. rewrite lookup_delete. case_decide; [done|]. apply P.
    + intros k ->%list_elem_of_singleton. apply pi_objs_some; [done|eauto].
Qed.

(** ** The client server *)

Definition check_entries (pc : check_pc) : list (string * PendingOperation) :=
  match pc with KLoop rest _ | KResend _ rest _ => rest | _ => [] end.

(** Every call has a channel of its own, which it waits on until it is answered;
    the loop over the pending operations sees what is pending. *)
Record server_inv (s : MinerServer) : Prop := {
  si_id : minerID (ms_server s) = cfg_MinerID (ms_config s);
  si_ok : server_ok (ms_server s);
  si_chan : forall i p, clientOps (ms_server s) !! i = Some p -> (Ready p < nextChan (ms_server s))%nat;
  si_inj : forall i j p q, clientOps (ms_server s) !! i = Some p -> clientOps (ms_server s) !! j = Some q ->
    Ready p = Ready q -> i = j;
  si_answers : forall a, a ∈ ms_answers s -> (a.1 < nextChan (ms_server s))%nat;
  si_reply : forall hs op ch, hs ∈ ms_handlers s -> HReply op ch ∈ hs ->
    (ch < nextChan (ms_server s))%nat /\
    forall i p, clientOps (ms_server s) !! i = Some p -> Ready p = ch -> operation p = op;
  si_check : forall kp, kp ∈ check_entries (ms_kpc s) -> clientOps (ms_server s) !! kp.1 = Some kp.2
}.

(** New waiting calls come from submissions only. *)
Lemma handlers_reply s a s' hs op ch :
  thread_step s a s' -> hs ∈ ms_handlers s' -> HReply op ch ∈ hs ->
  (exists hs0, hs0 ∈ ms_handlers s /\ HReply op ch ∈ hs0) \/
  (ch = nextChan (ms_server s) /\ mux_free s = true /\ ms_server s' = (submit (ms_server s) op).1 /\
   ms_answers s' = ms_answers s /\ ms_kpc s' = ms_kpc s).
Proof using Type.
  intros Hs Hhs Hin.
  assert (forall j x hs', ms_handlers s !! j = Some (x :: hs') -> HReply op ch ∈ hs' ->
    exists hs0, hs0 ∈ ms_handlers s /\ HReply op ch ∈ hs0) as Htail.
  { intros j x hs' Hj Hx. exists (x :: hs'). split; [by eapply list_elem_of_lookup_2|by right]. }
  thread_cases Hs; try (left; by exists hs); simpl in Hhs.
  all: try (apply elem_of_app in Hhs as [Hhs|Hhs%list_elem_of_singleton]; [left; by exists hs|subst hs]).
  all: try (destruct (set_handler_elem _ _ _ _ _ Hhs Hin) as [->|Hhs']; [|left; by exists hs]).
  all: try (left; by eapply Htail).
  all: try (simpl in Hin; rewrite ?elem_of_cons, ?elem_of_nil in Hin; by intuition discriminate).
  - apply elem_of_cons in Hin as [[=]|Hin]. case_decide; [apply list_elem_of_singleton in Hin; done|by apply elem_of_nil in Hin].
  - apply elem_of_cons in Hin as [[=]|Hin%list_elem_of_singleton]. simplify_eq. right. by split_and!.
Qed.

(** Steps that leave the pending operations alone. *)
Lemma server_frame s a s' : server_inv s -> thread_step s a s' ->
  clientOps (ms_server s') = clientOps (ms_server s) -> nextChan (ms_server s') = nextChan (ms_server s) ->
  minerID (ms_server s') = minerID (ms_server s) ->
  (forall x, x ∈ ms_answers s' -> x ∈ ms_answers s \/ exists i p, clientOps (ms_server s) !! i = Some p /\ x.1 = Ready p) ->
  (forall kp, kp ∈ check_entries (ms_kpc s') -> clientOps (ms_server s) !! kp.1 = Some kp.2) -> server_inv s'.
Proof using Type.
  intros S Hs Hc Hn Hid Ha Hk.
  split; unfold server_ok; rewrite ?Hc, ?Hn, ?Hid, ?(config_thread _ _ _ Hs); try apply S; [| |done].
  - intros x [Hx|(i & p & Hp & ->)]%Ha; [by apply S|by eapply (si_chan _ S)].
  - intros hs op ch Hhs Hin. destruct (handlers_reply _ _ _ _ _ _ Hs Hhs Hin) as [(hs0 & Hhs0 & Hin0)|(_ & _ & Hsub & _)].
    + by eapply (si_reply _ S).
    + rewrite Hsub in Hn. simpl in Hn. lia.
Qed.

(** Fewer pending operations, while nobody reads them. *)
Lemma server_delete s a s' ops : server_inv s -> thread_step s a s' ->
  ms_server s' = with_clientOps (ms_server s) ops -> ops ⊆ clientOps (ms_server s) ->
  (forall x, x ∈ ms_answers s' -> x ∈ ms_answers s \/ exists i p, clientOps (ms_server s) !! i = Some p /\ x.1 = Ready p) ->
  check_entries (ms_kpc s') = [] -> server_inv s'.
Proof using Type.
  intros S Hs Heq Hsub Ha Hk.
  assert (forall i p, ops !! i = Some p -> clientOps (ms_server s) !! i = Some p) as Hin
    by (intros i p Hp; by eapply lookup_weaken).
  split; unfold server_ok; rewrite ?Heq, ?Hk, ?(config_thread _ _ _ Hs); simpl; try (by intros ? ?%elem_of_nil).
  - apply S.
  - intros i p Hp%Hin. by apply S.
  - intros i p Hp%Hin. by eapply (si_chan _ S).
  - intros i j p q Hp%Hin Hq%Hin. by apply S.
  - intros x [Hx|(i & p & Hp & ->)]%Ha; [by apply S|by eapply (si_chan _ S)].
  - intros hs op ch Hhs Hr. destruct (handlers_reply _ _ _ _ _ _ Hs Hhs Hr) as [(hs0 & Hhs0 & Hr0)|(_ & _ & Hsb & _)].
    + destruct (si_reply _ S _ _ _ Hhs0 Hr0) as [Hlt Hop]. split; [done|]. intros i p Hp%Hin. by eapply Hop.
    + rewrite Heq in Hsb. apply (f_equal nextChan) in Hsb. simpl in Hsb. lia.
Qed.

Lemma server_submit s a s' op0 i0 hs0 : server_inv s -> thread_step s a s' ->
  s' = set_handler (with_server s (submit (ms_server s) op0).1) i0
    [HSend (MReceivedOp op0); HReply op0 (nextChan (ms_server s))] ->
  ms_handlers s !! i0 = Some (HSubmit op0 :: hs0) ->
  reading (ms_kpc s) = false -> server_inv s'.
Proof using Type.
  intros S Hs -> Hi0 Hrd. split; simpl.
  - apply S.
  - apply (server_ok_submit _ op0), S.
  - intros i p. rewrite lookup_insert. case_decide; [intros [= <-]; simpl; lia|].
    intros Hp%(si_chan _ S). lia.
  - intros i j p q. rewrite !lookup_insert. repeat case_decide; subst; try done.
    + intros [= <-] Hq Hr. apply (si_chan _ S) in Hq. simpl in Hr. lia.
    + intros Hp [= <-] Hr. apply (si_chan _ S) in Hp. simpl in Hr. lia.
    + apply S.
  - intros x Hx%(si_answers _ S). lia.
  - intros hs op ch Hhs Hin. destruct (set_handler_elem _ _ _ _ _ Hhs Hin) as [->|Hhs0].
    + rewrite !elem_of_cons, elem_of_nil in Hin. destruct Hin as [[=]|[[= -> ->]|[]]]. split; [lia|].
      intros i p. rewrite lookup_insert. case_decide; [by intros [= <-]|]. intros Hp%(si_chan _ S) Hr. lia.
    + destruct (si_reply _ S _ _ _ Hhs0 Hin) as [Hlt Hop]. split; [lia|].
      intros i p. rewrite lookup_insert. case_decide; [|by eapply Hop]. intros [= <-] Hr. simpl in Hr. lia.
  - intros kp Hkp. destruct (ms_kpc s); simpl in *; try done; by apply elem_of_nil in Hkp.
Qed.

Lemma locked_inl srv op srv' outs : locked_section srv op = inl (srv', outs) ->
  exists p, clientOps srv !! OperationID op = Some p /\
    srv' = with_clientOps srv (delete (OperationID op) (clientOps srv)) /\ outs = [BReady (Ready p) false] /\
    (is_Some (confirmedFiles srv !! Filename op) /\ Op op = Create \/
     confirmedFiles srv !! Filename op = None /\ Op op = Append).
Proof using Type.
  unfold locked_section. intros Hl. destruct (_ || _) eqn:Hb; [|done].
  destruct (clientOps srv !! OperationID op) as [p|] eqn:Hp; [|done]. injection Hl as <- <-. exists p.
  split_and!; [done..|]. apply orb_true_iff in Hb as [[H1 H2]%andb_true_iff|[H1 H2]%andb_true_iff].
  - left. split; by eapply bool_decide_eq_true_1.
  - right. apply negb_true_iff, bool_decide_eq_false_1, eq_None_not_Some in H1.
    split; [done|by eapply bool_decide_eq_true_1].
Qed.

Lemma mux_free_not_reading s : mux_free s = true -> reading (ms_kpc s) = false.
Proof using Type. unfold mux_free. intros [_ ?%negb_true_iff]%andb_true_iff. done. Qed.

Lemma entries_not_reading pc : reading pc = false -> check_entries pc = [].
Proof using Type. by destruct pc. Qed.

Lemma fold_delete_subseteq (removed : list PendingOperation) (m : gmap string PendingOperation) :
  fold_left (fun m op => delete (OperationID (operation op)) m) removed m ⊆ m.
Proof using Type.
  apply map_subseteq_spec. intros i p. rewrite fold_delete_ops. by case_decide.
Qed.

Lemma server_thread s a s' : server_inv s -> thread_step s a s' -> server_inv s'.
Proof using Type.
  intros S Hs. pose proof (server_frame s a s' S Hs) as F. pose proof (server_delete s a s') as D.
  pose proof Hs as Hs0. pose proof (si_check _ S) as K.
  thread_cases Hs; simpl in *; try (by apply F; auto);
    repeat match goal with Hx : ms_kpc _ = _ |- _ => rewrite Hx in K; simpl in K; clear Hx end;
    try (by apply F; auto; intros ? ?%elem_of_nil).
  - apply F; auto. intros [k p] Hkp. by apply elem_of_range in Hkp.
  - unfold check_one in *. simpl in *. apply F; auto.
    + intros x [Hx|Hx]%elem_of_app; [by left|]. destruct (confirmed c); [|by apply elem_of_nil in Hx].
      apply list_elem_of_singleton in Hx as ->. right. exists k, p. split; [|done]. apply (K (k, p)). by left.
    + intros kp Hkp. apply K. right. by destruct (exists_ c).
  - eapply D; [done|done|reflexivity|apply fold_delete_subseteq|by left|done].
  - destruct (locked_inl _ _ _ _ H3) as (p & Hp & -> & -> & _).
    eapply D; [done|done|reflexivity|apply delete_subseteq| |].
    + intros x [Hx|Hx%list_elem_of_singleton]%elem_of_app; [by left|]. right. eexists _, p. by subst.
    + by apply entries_not_reading, mux_free_not_reading.
  - eapply server_submit; [done|done|reflexivity|done|by apply mux_free_not_reading].
Qed.

(** ** All together *)

Record miner_ok (s : MinerServer) : Prop := {
  mo_wg : wg_inv s;
  mo_queues : queues_inv s;
  mo_mining : mining_inv s;
  mo_batch : batch_inv s;
  mo_peers : peers_inv s;
  mo_server : server_inv s
}.

Lemma thread_ok s a s' :
  miner_ok s -> (forall m, a = Rcv m -> msg_ok s m) -> thread_step s a s' -> miner_ok s'.
Proof using Type.
  intros [] Hm Hs. split; [by eapply wg_thread|by eapply queues_thread|by eapply mining_thread|by eapply batch_thread|
    by eapply peers_thread|by eapply server_thread].
Qed.

Lemma send_msg_ok s m s' : peers_inv s -> thread_step s (Snd m) s' -> msg_ok s' m.
Proof using Type.
  intros P Hs. destruct m; try done. simpl. eapply thread_is_step; [exact Hs|].
  destruct Hs as [Hs|Hs|Hs|Hs|Hs|Hs|Hs|Hs|Hs|Hs|Hs|Hs]; inversion Hs; subst.
  - by destruct o.
  - by destruct o.
  - eapply (pi_new _ P); [by eapply list_elem_of_lookup_2|by left].
Qed.

Lemma step_ok s s' : miner_ok s -> step s s' -> miner_ok s'.
Proof using Type.
  intros Hok [Ht|m s1 Ht1 Ht2]; [refine (thread_ok _ _ _ Hok _ Ht); by intros ?|].
  assert (miner_ok s1) as Hok1 by (refine (thread_ok _ _ _ Hok _ Ht1); by intros ?).
  refine (thread_ok _ _ _ Hok1 _ Ht2). intros m' [= <-]. eapply send_msg_ok; [|exact Ht1]. apply Hok.
Qed.

Lemma steps_ok s s' : miner_ok s -> steps s s' -> miner_ok s'.
Proof using Type. intros Hok Hrun. induction Hrun; eauto using step_ok. Qed.

Lemma own_steps_steps s s' : own_steps s s' -> steps s s'.
Proof using Type. induction 1 as [|s1 s2 s3 [Hs _] _ IH]; [apply rtc_refl|by eapply rtc_l]. Qed.

Lemma started_ok cfg s : started cfg s -> miner_ok s.
Proof using Type.
  intros [h now h' bc resolve srv0 listen rg m srv _ Hsrv Hlist].
  unfold NewRPCServer in Hsrv. destruct (resolve _); [|done]. injection Hsrv as <-.
  unfold startListening in Hlist. go_inv Hlist. destruct r as [m1 files]. simpl in Hlist. simplify_eq.
  apply query_ListFiles in Hlist0. split.
  - done.
  - destruct (queues_query _ _ Hlist0) as [Ha Hr]; [split; simpl; lia|].
    split; [exact Ha|split; [exact Hr|]]. unfold finalized_cap. simpl. lia.
  - split; [done|split; constructor].
  - split; [apply batch_ok_empty|]. split; [done|split; constructor].
  - split; simpl; try done; try (by intros ? ?%elem_of_nil); try (by intros ? ? ? ?%elem_of_nil).
  - split; simpl; try done; try (by intros ? ?%elem_of_nil); by intros ? ? ? ?%elem_of_nil.
Qed.

(** C7: Every state a miner can reach is in order, whatever its threads, peers and
    clients do: the counted threads are those running; the buffers hold no more
    than their capacity; workers mine for this miner at its difficulties; the
    batches on their way are good; every peer is filed under its identifier and
    has a thread; pending operations are filed under their identifier, each
    with a channel of its own that belongs to its call. *)
Theorem miner_state_ok cfg s0 s (Hstart : started cfg s0) (Hrun : steps s0 s) :
  wg_inv s /\ queues_inv s /\ mining_inv s /\ batch_inv s /\ peers_inv s /\ server_inv s.
Proof using Type.
  destruct (steps_ok _ _ (started_ok _ _ Hstart) Hrun). done.
Qed.

(** ** What the clients are told *)

(** Why an operation is answered with [b]. *)
Definition answer_reason (s : MinerServer) (p : PendingOperation) (b : bool) : Prop :=
  (exists m c, ld_CheckOpConfirmed (ms_manager s) (operation p) = Ret (m, c) /\ confirmed c = true /\
     b = negb (otherMiner c)) \/
  (b = false /\ exists op, OperationID op = OperationID (operation p) /\
     (is_Some (confirmedFiles (ms_server s) !! Filename op) /\ Op op = Create \/
      confirmedFiles (ms_server s) !! Filename op = None /\ Op op = Append)).

Lemma meet_quiet s a s' : thread_step s a s' -> a <> Tau ->
  ms_answers s' = ms_answers s /\ ms_replies s' = ms_replies s.
Proof using Type. intros Hs Ha. by thread_cases Hs. Qed.

Lemma step_answers s s' x : server_inv s -> step s s' -> x ∈ ms_answers s' ->
  x ∈ ms_answers s \/
  exists i p, clientOps (ms_server s) !! i = Some p /\ x.1 = Ready p /\ answer_reason s p x.2.
Proof using Type.
  intros S [Hs|m s1 Ht1 Ht2] Hx.
  2: { left. destruct (meet_quiet _ _ _ Ht1), (meet_quiet _ _ _ Ht2); congruence. }
  pose proof (si_check _ S) as K. pose proof (si_ok _ S) as O.
  thread_cases Hs; simpl in *; try (by left); apply elem_of_app in Hx as [Hx|Hx]; try (by left); right.
  - rewrite H1 in K. simpl in K, Hx. destruct (confirmed c) eqn:Hc; [|by apply elem_of_nil in Hx].
    apply list_elem_of_singleton in Hx as ->. exists k, p. split; [apply (K (k, p)); by left|]. split; [done|].
    left. by exists m, c.
  - destruct (locked_inl _ _ _ _ H3) as (p & Hp & -> & -> & Hwhy). apply list_elem_of_singleton in Hx as ->.
    exists (OperationID op), p. split_and!; [done..|]. right. split; [done|]. exists op. split; [|done].
    by rewrite (O _ _ Hp).
Qed.

(** A reply that tells of success. *)
Definition success (r : reply) : bool :=
  match r with RCreated (inr b) => b | RAppended (inr _) => true | _ => false end.

Lemma first_answer_elem ch l b : first_answer ch l = Some b -> (ch, b) ∈ l.
Proof using Type.
  unfold first_answer. intros (x & Hx & ->)%fmap_Some. destruct (filter _ l) as [|y l'] eqn:E; [done|].
  injection Hx as ->. assert (x ∈ filter (fun a => a.1 = ch) l) as Hin by (rewrite E; by left).
  apply list_elem_of_filter in Hin as [<- Hin]. by destruct x.
Qed.

(** New replies answer waiting calls. *)
Lemma step_replies s s' op r : step s s' -> (op, r) ∈ ms_replies s' -> success r = true ->
  (op, r) ∈ ms_replies s \/
  exists hs ch, hs ∈ ms_handlers s /\ HReply op ch ∈ hs /\ (ch, true) ∈ ms_answers s.
Proof using Type.
  intros [Hs|m s1 Ht1 Ht2] Hx Hsucc.
  2: { left. destruct (meet_quiet _ _ _ Ht1), (meet_quiet _ _ _ Ht2); congruence. }
  thread_cases Hs; simpl in *; try (by left);
    apply elem_of_app in Hx as [Hx|[= -> ->]%list_elem_of_singleton]; try (by left); try done.
  - right. exists (HReply op0 ch :: hs), ch. split_and!; [by eapply list_elem_of_lookup_2|by left|].
    destruct b; [by apply first_answer_elem|done].
  - right. exists (HReply op0 ch :: hs), ch. split_and!; [by eapply list_elem_of_lookup_2|by left|].
    destruct b; [by apply first_answer_elem|]. unfold append_finish in H4. simpl in H4. by simplify_eq.
Qed.

(** In the run from [s0] to [s] there was a state in which the operation was
    confirmed on the longest chain, its file not used by another miner. *)
Definition was_confirmed (cfg : Settings) (s0 s : MinerServer) (op : Operation) : Prop :=
  exists s1, own_steps s0 s1 /\ own_steps s1 s /\
    let c := status_of cfg (l_longest (ms_manager s1)) op in confirmed c = true /\ otherMiner c = false.

Definition told_inv (cfg : Settings) (s0 s : MinerServer) : Prop :=
  (forall hs op ch, hs ∈ ms_handlers s -> HReply op ch ∈ hs -> (ch, true) ∈ ms_answers s ->
     was_confirmed cfg s0 s op) /\
  (forall op r, (op, r) ∈ ms_replies s -> success r = true -> was_confirmed cfg s0 s op).

Lemma was_confirmed_step cfg s0 s s' op :
  own_step s s' -> was_confirmed cfg s0 s op -> was_confirmed cfg s0 s' op.
Proof using Type. intros Hs (s1 & H1 & H2 & Hc). exists s1. split_and!; [done|by eapply rtc_r|apply Hc..]. Qed.

Lemma step_handlers_reply s s' hs op ch : server_inv s -> step s s' ->
  hs ∈ ms_handlers s' -> HReply op ch ∈ hs -> (ch, true) ∈ ms_answers s' ->
  exists hs0, hs0 ∈ ms_handlers s /\ HReply op ch ∈ hs0.
Proof using Type.
  intros S Hs Hhs Hin Ha. destruct Hs as [Ht|m s1 Ht1 Ht2].
  - destruct (handlers_reply _ _ _ _ _ _ Ht Hhs Hin) as [Hold|(-> & _ & _ & Hans & _)]; [done|].
    rewrite Hans in Ha. apply (si_answers _ S) in Ha. simpl in Ha. lia.
  - assert (server_inv s1) as S1 by (by eapply server_thread).
    destruct (meet_quiet _ _ _ Ht1) as [A1 _]; [done|]. destruct (meet_quiet _ _ _ Ht2) as [A2 _]; [done|].
    destruct (handlers_reply _ _ _ _ _ _ Ht2 Hhs Hin) as [(hs1 & Hhs1 & Hin1)|(-> & _ & _ & Hans & _)].
    2: { rewrite A2 in Ha. apply (si_answers _ S1) in Ha. simpl in Ha. lia. }
    destruct (handlers_reply _ _ _ _ _ _ Ht1 Hhs1 Hin1) as [Hold|(-> & _ & _ & Hans & _)]; [done|].
    rewrite A2, A1 in Ha. apply (si_answers _ S) in Ha. simpl in Ha. lia.
Qed.

Lemma told_step cfg s0 s s' :
  own_steps s0 s -> miner_ok s -> manager_ok cfg (ms_manager s) -> settings_ok cfg ->
  told_inv cfg s0 s -> own_step s s' -> told_inv cfg s0 s'.
Proof using Type.
  intros Hrun Hok Hm Hcfg [T1 T2] Hs. pose proof (mo_server _ Hok) as S. split.
  - intros hs op ch Hhs Hin Ha.
    destruct (step_handlers_reply _ _ _ _ _ S (proj1 Hs) Hhs Hin Ha) as (hs0 & Hhs0 & Hin0).
    apply (was_confirmed_step _ _ s); [done|].
    destruct (step_answers _ _ _ S (proj1 Hs) Ha) as [Hold|(i & p & Hp & Hch & Hwhy)]; [by eapply T1|].
    simpl in Hch. destruct (si_reply _ S _ _ _ Hhs0 Hin0) as [_ Hop].
    rewrite <- (Hop i p Hp (eq_sym Hch)).
    destruct Hwhy as [(m & c & Hrunc & Hc & Hb)|[? _]]; [|done]. simpl in Hb.
    assert (l_ok (ms_manager s)) as Hl by (destruct Hm as (I & Hc' & _); split; [apply I|simpl; by rewrite Hc']).
    destruct (law_CheckOpConfirmed (ms_manager s) (operation p) Hl) as (m' & Hrun' & _).
    rewrite Hrunc in Hrun'. injection Hrun' as _ Heq.
    assert (status_of cfg (l_longest (ms_manager s)) (operation p) = c) as Hst
      by (rewrite Heq; destruct Hm as (_ & <- & _); reflexivity).
    exists s. split; [done|]. split; [apply rtc_refl|]. rewrite Hst. split; [done|by destruct (otherMiner c)].
  - intros op r Hin Hr. apply (was_confirmed_step _ _ s); [done|].
    destruct (step_replies _ _ _ _ (proj1 Hs) Hin Hr) as [Hold|(hs & ch & Hhs & Hrep & Ha)]; [by eapply T2|by eapply T1].
Qed.

Lemma told_holds cfg s0 s :
  settings_ok cfg -> started cfg s0 -> own_steps s0 s -> told_inv cfg s0 s.
Proof using Type.
  intros Hcfg Hst Hrun. revert s Hrun. apply rtc_ind_r.
  - destruct Hst. split; simpl; [by intros ? ? ? ?%elem_of_nil|by intros ? ? ?%elem_of_nil].
  - intros s s' Hrun Hs IH. eapply told_step; [done| | |done..].
    + eapply steps_ok; [by eapply started_ok|by apply own_steps_steps].
    + by eapply own_steps_manager_ok.
Qed.

(** C3: A client is told the truth: when its call to create a file or to append a
    record returns a success, then at some moment of the run before, the
    operation was on the longest chain of the miner, with more blocks after it
    than the settings ask for, and if it created a file, no operation of another
    miner on that file was in these later blocks. (What came before the
    operation is not looked at.) *)
Theorem replies_sound cfg s0 s op r
    (Hcfg : settings_ok cfg) (Hstart : started cfg s0) (Hrun : own_steps s0 s)
    (Hreply : (op, r) ∈ ms_replies s) (Hsucc : success r = true) :
  exists s1, own_steps s0 s1 /\ own_steps s1 s /\ confirmed_at cfg (l_longest (ms_manager s1)) op.
Proof using Type.
  destruct (told_holds cfg s0 s Hcfg Hstart Hrun) as [_ T]. destruct (T op r Hreply Hsucc) as (s1 & H1 & H2 & Hc & Ho).
  exists s1. split_and!; [done..|]. by apply status_confirmed_at.
Qed.
End miner.
