(* ===== verification/Deadlock.v ===== *)
(** Threads of a running miner that wait for each other for ever. Each theorem
    has a run into such a state and shows that no step of the miner, whatever
    its peers and clients do, leads out of it. *)
From S2P Require Import Prelude GoLib Settings Operation Block Pow Blockchain ChainTheory.
From S2P Require Import Ledger LedgerTheory AddBlock QueryTheory RFSLedger Worker Resolver Manager.
From S2P Require Import Rfslib Server Peers Batch Dial Threads Miner MinerTheory.
Local Open Scope Z_scope.

Section deadlock.
Context `{Gob (list Operation)} `{Gob Operation}.

(** [P] holds from now on. *)
Definition always (P : MinerServer -> Prop) (s : MinerServer) : Prop := forall s', steps s s' -> P s'.

Lemma always_inv (P : MinerServer -> Prop) s :
  (forall s s', P s -> step s s' -> P s') -> P s -> always P s.
Proof using Type. intros Hinv Hs s' Hrun. induction Hrun; eauto. Qed.

(** ** Resubmission

    [checkConfirmedOperations] resubmits operations under the read lock, and
    [buildPendingOperations] takes the lock for each operation it receives. *)

Definition resubmission_stuck (op op' : Operation) rest rem (s : MinerServer) : Prop :=
  ms_kpc s = KResend op rest rem /\ ms_bpc s = BLock op'.

Lemma resubmission_half op op' rest rem s a s' :
  resubmission_stuck op op' rest rem s -> thread_step s a s' ->
  ms_bpc s' = BLock op' /\ (ms_kpc s' = KResend op rest rem \/ a = Snd (MReceivedOp op)) /\
  clientOps (ms_server s') = clientOps (ms_server s) /\
  confirmedFiles (ms_server s') = confirmedFiles (ms_server s) /\ ms_answers s' = ms_answers s.
Proof using Type.
  intros [Hk Hb] Hs. assert (mux_free s = false) as Hm.
  { unfold mux_free. rewrite Hk. simpl. apply andb_false_r. }
  thread_cases Hs; simpl in *; try congruence; try (by auto).
  assert (op0 = op) as -> by congruence. by auto.
Qed.

Lemma received_by_batch s op s' : thread_step s (Rcv (MReceivedOp op)) s' -> ms_bpc s = BSends [].
Proof using Type.
  intros [Hs|Hs|Hs|Hs|Hs|Hs|Hs|Hs|Hs|Hs|Hs|Hs]; by inversion Hs.
Qed.

Lemma resubmission_step op op' rest rem s s' :
  resubmission_stuck op op' rest rem s -> step s s' ->
  resubmission_stuck op op' rest rem s' /\ clientOps (ms_server s') = clientOps (ms_server s) /\
  confirmedFiles (ms_server s') = confirmedFiles (ms_server s) /\ ms_answers s' = ms_answers s.
Proof using Type.
  intros P [Ht|m s1 Ht1 Ht2].
  - destruct (resubmission_half _ _ _ _ _ _ _ P Ht) as (Hb & [Hk|?] & ? & ? & ?); [|done]. by split_and!.
  - destruct (resubmission_half _ _ _ _ _ _ _ P Ht1) as (Hb1 & [Hk1|[= ->]] & C1 & F1 & A1).
    2: { apply received_by_batch in Ht2. congruence. }
    destruct (resubmission_half _ _ _ _ _ _ _ (conj Hk1 Hb1) Ht2) as (Hb2 & [Hk2|?] & C2 & F2 & A2); [|done].
    split; [done|]. by rewrite C2, F2, A2.
Qed.

Lemma not_exists_not_confirmed cfg bs op :
  exists_ (status_of cfg bs op) = false -> confirmed (status_of cfg bs op) = false.
Proof using Type.
  unfold status_of. intros He. pose proof (check_blocks_spec op (confirms_of cfg op) bs 0 false) as (Hex & Hc & _).
  destruct (confirmed _); [|done]. destruct (proj1 Hc eq_refl) as [Hin _]. apply Hex in Hin. congruence.
Qed.

(** The state in which the two threads wait for each other. *)
Definition check_status (s : MinerServer) (p : PendingOperation) : confirmation :=
  status_of (l_config (ms_manager s)) (l_longest (ms_manager s)) (operation p).

(** One round of the loop over a pending operation that is not on the chain. *)
Lemma check_missing s k p rest rem :
  ms_kpc s = KLoop ((k, p) :: rest) rem -> l_ok (ms_manager s) -> exists_ (check_status s p) = false ->
  exists m, thread_step s Tau (with_answers (with_kpc (with_manager s m) (KResend (operation p) rest rem)) (ms_answers s)) /\
    same_view (ms_manager s) m.
Proof using Type.
  intros Hk Hl He. destruct (law_CheckOpConfirmed (ms_manager s) (operation p) Hl) as (m & Hrun & V).
  exists m. split; [|done]. pose proof (not_exists_not_confirmed _ _ _ He) as Hc.
  pose proof (ck_one s k p rest rem m _ Hk Hrun) as Hstep. unfold check_one in Hstep.
  unfold check_status in He. rewrite Hc, He in Hstep. simpl in Hstep. rewrite app_nil_r in Hstep.
  apply by_check, Hstep. done.
Qed.

(** C22: When a block was added and the first two pending operations that the loop
    looks at are on no block of the longest chain, and not in the batch, the
    miner can block: [checkConfirmedOperations] holds the read lock and waits to
    resubmit the second operation, [buildPendingOperations] has received the
    first and waits for the lock. From then on, in every continuation, both
    wait, no call of a client is answered, no operation is accepted and the
    cache of files never changes. *)
Theorem resubmission_deadlock s k1 p1 k2 p2 rest rem
    (Hloop : ms_kpc s = KLoop ((k1, p1) :: (k2, p2) :: rest) rem) (Hidle : ms_bpc s = BSends [])
    (Hl : l_ok (ms_manager s))
    (Hmiss1 : exists_ (check_status s p1) = false) (Hmiss2 : exists_ (check_status s p2) = false)
    (Hnew : operations (ms_batch s) !! OperationID (operation p1) = None) :
  exists s', steps s s' /\ always (fun s'' =>
    ms_kpc s'' = KResend (operation p2) rest rem /\ ms_bpc s'' = BLock (operation p1) /\
    clientOps (ms_server s'') = clientOps (ms_server s) /\
    confirmedFiles (ms_server s'') = confirmedFiles (ms_server s) /\ ms_answers s'' = ms_answers s) s'.
Proof using Type.
  destruct (check_missing _ _ _ _ _ Hloop Hl Hmiss1) as (m1 & Hs1 & V1).
  set (s1 := with_answers _ _) in Hs1.
  assert (thread_step s1 (Snd (MReceivedOp (operation p1))) (with_kpc s1 (KLoop ((k2, p2) :: rest) rem))) as Hs2
    by (by apply by_check, ck_resend).
  set (s2 := with_kpc s1 _) in Hs2.
  pose proof (bt_receive s2 (operation p1) Hidle) as Hs3. simpl in Hs3. rewrite Hnew in Hs3.
  set (s3 := with_bpc s2 _) in Hs3.
  destruct (check_missing s3 k2 p2 rest rem) as (m2 & Hs4 & _); [done|by apply (sv_ok _ _ V1)| |].
  { unfold check_status. simpl. rewrite <- Hmiss2. unfold check_status.
    f_equal. by rewrite <- (sv_config _ _ V1), <- (sv_longest _ _ V1). }
  eexists. split; [eapply alone; [exact Hs1|]; eapply meet; [exact Hs2|apply by_batch; exact Hs3|];
    eapply alone; [exact Hs4|apply rtc_refl]|].
  apply always_inv; [|done]. intros u u' (Hk & Hb & Hc & Hf & Ha) Hstep.
  destruct (resubmission_step _ _ _ _ _ _ (conj Hk Hb) Hstep) as ([Hk' Hb'] & -> & -> & ->). done.
Qed.

(** ** Downloads

    [managePeers] waits for the manager to take downloaded blocks, while the
    manager waits for [managePeers] to take a block it added. *)

Definition same_blocks (m m' : ChainManager) : Prop :=
  m_heap m' = m_heap m /\ bc_m (blockchain m') = bc_m (blockchain m).

Lemma query_same_blocks m m' : query m m' -> same_blocks m m'.
Proof using Type.
  intros [->|(bc & ls & Hrun & ->)]; [done|]. split; [done|]. unfold getLastNodes, getLastNodes_fuel in Hrun.
  go_inv Hrun. by simplify_eq.
Qed.

(** While the manager sends, its chain stays as it is. *)
Lemma sending_same_blocks s a s' o outs :
  ms_mpc s = MSends (o :: outs) -> thread_step s a s' -> same_blocks (ms_manager s) (ms_manager s').
Proof using Type.
  intros Hm Hs. thread_cases Hs; try congruence; try done; simpl;
    apply query_same_blocks; eauto with miner.
Qed.

(** What the manager sends to [managePeers]. *)
Definition to_peers (o : output) : bool :=
  match o with OutSendBlock _ | OutContinueMining | OutDownloadBlock _ => true | _ => false end.

Lemma received_by_peers s o m s' :
  to_peers o = true -> manager_msg o = Some m -> thread_step s (Rcv m) s' -> ms_ppc s = PSends [].
Proof using Type.
  intros Ho Hm Hs. destruct o; try done; injection Hm as <-;
    destruct Hs as [Hs|Hs|Hs|Hs|Hs|Hs|Hs|Hs|Hs|Hs|Hs|Hs]; by inversion Hs.
Qed.

Lemma received_by_manager s blocks s' :
  thread_step s (Rcv (MManagerBlocks blocks)) s' -> ms_mpc s = MSends [].
Proof using Type. intros [Hs|Hs|Hs|Hs|Hs|Hs|Hs|Hs|Hs|Hs|Hs|Hs]; by inversion Hs. Qed.

Definition download_stuck (o : output) (outs : list output) blocks hash rest (s : MinerServer) : Prop :=
  ms_mpc s = MSends (o :: outs) /\ ms_ppc s = PForward blocks hash rest.

Lemma download_half o outs blocks hash rest s a s' :
  download_stuck o outs blocks hash rest s -> to_peers o = true -> thread_step s a s' ->
  (ms_mpc s' = MSends (o :: outs) \/ exists m, manager_msg o = Some m /\ a = Snd m) /\
  (ms_ppc s' = PForward blocks hash rest \/ a = Snd (MManagerBlocks blocks)).
Proof using Type.
  intros [Hm Hp] Ho Hs. thread_cases Hs; simpl in *; try congruence; try (by auto).
  - split; [right; exists m; split; [congruence|done]|by left].
  - assert (o = OutSyncDone) as -> by congruence. done.
  - split; [by left|right]. congruence.
Qed.

Lemma download_step o outs blocks hash rest s s' :
  download_stuck o outs blocks hash rest s -> to_peers o = true -> step s s' ->
  download_stuck o outs blocks hash rest s' /\ same_blocks (ms_manager s) (ms_manager s').
Proof using Type.
  intros P Ho [Ht|m s1 Ht1 Ht2].
  - destruct (download_half _ _ _ _ _ _ _ _ P Ho Ht) as [[Hm|(? & _ & ?)] [Hp|?]]; try done.
    split; [done|]. by eapply sending_same_blocks; [apply P|].
  - destruct (download_half _ _ _ _ _ _ _ _ P Ho Ht1) as [Hm1 Hp1].
    assert (ms_ppc s1 = PForward blocks hash rest) as Hp.
    { destruct Hp1 as [?|[= ->]]; [done|]. apply received_by_manager in Ht2.
      destruct Hm1 as [?|(m & Hm & [= <-])]; [congruence|]. by destruct o. }
    assert (ms_mpc s1 = MSends (o :: outs)) as Hm.
    { destruct Hm1 as [?|(m' & Hm & [= <-])]; [done|]. apply (received_by_peers _ o) in Ht2; [|done..]. congruence. }
    destruct (download_half _ _ _ _ _ _ _ _ (conj Hm Hp) Ho Ht2) as [[Hm2|(? & _ & ?)] [Hp2|?]]; try done.
    split; [done|]. destruct (sending_same_blocks _ _ _ _ _ (proj1 P) Ht1) as [A1 A2],
      (sending_same_blocks _ _ _ _ _ Hm Ht2) as [B1 B2]. split; congruence.
Qed.

(** C23: A flooded block whose parent is missing and a block that can be added block
    the miner: the manager asks for a download and, while a peer is asked, adds
    the second block and waits for [managePeers] to flood it; [managePeers] gets
    the blocks and waits for the manager to take them. From then on, in every
    continuation, both wait and the chain never changes. *)
Theorem download_deadlock rg1 rg2 s b q m1 c q' m2 k p ks i t blocks
    (Hidle : ms_mpc s = MSends []) (Hrecv : receiveFloodedBlock (ms_manager s) = b :: q)
    (Hflood : on_flooded (with_received (ms_manager s) q) b = Ret (m1, [OutDownloadBlock b]))
    (Hadd : addBlock m1 = c :: q')
    (Hadded : on_add rg1 rg2 (with_addBlock m1 q') c = Ret (m2, announce c))
    (Hpeers : ms_ppc s = PSends []) (Hcheck : ms_kpc s = KIdle)
    (Hfrom : blocksToPeers (ms_peers s) !! Hash b = Some (k :: ks))
    (Hpeer : peers (ms_peers s) !! k = Some p) (Hobj : ms_objs s !! k = Some i)
    (Hthread : ms_threads s !! i = Some t) (Hselect : pt_pc t = RSends []) (Hopen : pt_connClosed t = false) :
  exists s', steps s s' /\ always (fun s'' =>
    ms_mpc s'' = MSends [OutSendBlock c; OutContinueMining] /\
    ms_ppc s'' = PForward blocks (PreviousHash b) ks /\
    m_heap (ms_manager s'') = m_heap m2 /\ bc_m (blockchain (ms_manager s'')) = bc_m (blockchain m2)) s'.
Proof using Type.
  pose proof (mg_flooded s b q Hidle Hrecv) as S1. rewrite Hflood in S1. simpl in S1. set (s1 := with_mpc _ _) in S1.
  pose proof (mg_send s1 _ [] _ eq_refl eq_refl : manager_step s1 (Snd (MDownloadPrev b)) _) as S2. set (s2 := with_mpc _ _) in S2.
  pose proof (pr_downloadPrev s2 b Hpeers) as S3. unfold download_start in S3. simpl in S3. rewrite Hfrom in S3.
  simpl in S3. rewrite Hpeer in S3. set (s3 := with_ppc _ _) in S3.
  pose proof (pr_request s3 k (PreviousHash b) ks i eq_refl Hobj) as S4. set (s4 := with_ppc _ _) in S4.
  pose proof (pe_request s4 i t (PreviousHash b) Hthread Hselect) as S5. set (s5 := set_thread _ _ _) in S5.
  assert (ms_threads s5 !! i = Some (at_pc t (RCall (CallGetBlocks (PreviousHash b))) (pt_lastConnected t))) as T5.
  { apply list_lookup_insert_eq. by eapply lookup_lt_Some. }
  pose proof (pe_getReturns s5 i _ _ (inr blocks) 0 T5 eq_refl) as S6. simpl in S6.
  specialize (S6 ltac:(congruence)). set (s6 := set_thread s5 _ _) in S6.
  assert (ms_threads s6 !! i = Some (at_pc t (RSends [RDownloaded blocks]) 0)) as T6.
  { apply list_lookup_insert_eq. by eapply lookup_lt_Some. }
  pose proof (pe_send s6 i _ _ _ T6 eq_refl : peer_step s6 (Snd (MDownloaded blocks)) _) as S7. set (s7 := set_thread s6 _ _) in S7.
  pose proof (pr_downloaded s7 blocks _ _ eq_refl) as S8. set (s8 := with_ppc s7 _) in S8.
  pose proof (mg_add s8 rg1 rg2 c q' eq_refl Hadd) as S9. simpl in S9. rewrite Hadded in S9. simpl in S9. set (s9 := with_mpc _ _) in S9.
  pose proof (mg_send s9 _ _ _ eq_refl eq_refl : manager_step s9 (Snd MNewBlockAdded) _) as S10. set (s10 := with_mpc _ _) in S10.
  pose proof (ck_added s10 Hcheck) as S11. set (s11 := with_kpc _ _) in S11.
  exists s11. split.
  - eapply alone; [by apply by_manager, S1|]. eapply meet; [by apply by_manager, S2|by apply by_peers, S3|].
    eapply meet; [by apply by_peers, S4|by apply by_peer, S5|]. eapply alone; [by apply by_peer, S6|].
    eapply meet; [by apply by_peer, S7|by apply by_peers, S8|]. eapply alone; [by apply by_manager, S9|].
    eapply meet; [by apply by_manager, S10|by apply by_check, S11|]. apply rtc_refl.
  - apply always_inv; [|done]. intros u u' (Hm & Hp & Hh & Hb) Hstep.
    destruct (download_step _ _ _ _ _ _ _ (conj Hm Hp) eq_refl Hstep) as ([Hm' Hp'] & Hh' & Hb').
    by rewrite Hh', Hb'.
Qed.

(** ** A peer that fails

    A peer's thread waits to report an error to [managePeers], while
    [managePeers] waits to hand the thread another message. *)

Definition thread_pc (s : MinerServer) (i : nat) : option run_pc := pt_pc <$> ms_threads s !! i.

(** The message that [managePeers] sends for an output to peer object [i]. *)
Definition peer_msg (i : nat) (o : peers_out) : option msg :=
  match o with
  | PSendBlock _ req => Some (MPeerSendBlock i req)
  | PSendOp _ req => Some (MPeerSendOp i req)
  | _ => None
  end.

Record peer_stuck (o : peers_out) (outs : list peers_out) (k : string) (i : nat) (e : PeerError)
    (s : MinerServer) : Prop := {
  ps_peers : ms_ppc s = PSends (o :: outs);
  ps_obj : ms_objs s !! k = Some i;
  ps_thread : thread_pc s i = Some (RSends [RErr e])
}.

Lemma thread_pc_insert s i j t : thread_pc (set_thread s j t) i =
  if decide (i = j /\ (j < length (ms_threads s))%nat) then Some (pt_pc t) else thread_pc s i.
Proof using Type. unfold thread_pc. simpl. rewrite list_lookup_insert. repeat case_decide; naive_solver. Qed.

Lemma thread_pc_some s i t pc : ms_threads s !! i = Some t -> thread_pc s i = Some pc -> pt_pc t = pc.
Proof using Type. unfold thread_pc. intros ->. by intros [= <-]. Qed.

Lemma thread_pc_app s i ts pc hs :
  thread_pc s i = Some pc -> thread_pc (spawn (with_threads s (ms_threads s ++ ts)) hs) i = Some pc.
Proof using Type.
  unfold thread_pc. simpl. intros (t & Ht & ->)%fmap_Some. by rewrite (lookup_app_l_Some _ _ _ _ Ht).
Qed.

Lemma peer_half o outs k i e s a s' m :
  peer_stuck o outs k i e s -> out_peer o = Some k -> peer_msg i o = Some m -> thread_step s a s' ->
  (peer_stuck o outs k i e s' \/ a = Snd (MPeerErr e) /\ ms_ppc s' = PSends (o :: outs)) \/
  a = Snd m /\ thread_pc s' i = Some (RSends [RErr e]).
Proof using Type.
  intros [Hp Ho Ht] Hk Hm Hs.
  assert (forall i' t, ms_threads s !! i' = Some t -> i' = i -> pt_pc t = RSends [RErr e]) as Hpc.
  { intros i' t Hi' ->. by eapply thread_pc_some. }
  assert (forall i' t t', ms_threads s !! i' = Some t -> pt_pc t <> RSends [RErr e] ->
    thread_pc (set_thread s i' t') i = Some (RSends [RErr e])) as Hother.
  { intros i' t t' Hi' Hne. rewrite thread_pc_insert, decide_False; [done|]. intros [<- _]. by eapply Hne, Hpc. }
  thread_cases Hs; try congruence; simpl in *;
    try (left; left; split; [done|done|eapply Hother; [eassumption|congruence]]);
    try (left; left; split; [done|done|by first [exact Ht|apply thread_pc_app]]).
  all: try match goal with Hx : ms_ppc _ = PSends (?o0 :: _) |- _ =>
    assert (o = o0) by congruence; subst o; simpl in *; first [done|right; split; [congruence|done]] end.
  - destruct (decide (i0 = i)) as [->|Hne].
    + assert (o0 = RErr e) as -> by (rewrite (Hpc _ _ H1 eq_refl) in H2; congruence). left. right. done.
    + left. left. split; [done|done|]. rewrite thread_pc_insert, decide_False; [done|]. by intros [-> _].
Qed.

(** Who receives what: nobody, as long as both wait. *)
Lemma peer_received o i e s s' m :
  peer_msg i o = Some m -> thread_step s (Rcv m) s' -> thread_pc s i = Some (RSends [RErr e]) -> False.
Proof using Type.
  intros Hm Hs Ht. destruct o; try done; simpl in Hm; injection Hm as <-;
    destruct Hs as [Hs|Hs|Hs|Hs|Hs|Hs|Hs|Hs|Hs|Hs|Hs|Hs]; inversion Hs; subst;
    match goal with Hx : ms_threads s !! i = Some _ |- _ => apply (thread_pc_some _ _ _ _ Hx) in Ht; congruence end.
Qed.

Lemma err_received s e s' : thread_step s (Rcv (MPeerErr e)) s' -> ms_ppc s = PSends [].
Proof using Type. intros [Hs|Hs|Hs|Hs|Hs|Hs|Hs|Hs|Hs|Hs|Hs|Hs]; by inversion Hs. Qed.

Lemma peer_stuck_step o outs k i e m s s' :
  out_peer o = Some k -> peer_msg i o = Some m -> peer_stuck o outs k i e s -> step s s' ->
  peer_stuck o outs k i e s'.
Proof using Type.
  intros Hk Hm P [Ht|m' s1 Ht1 Ht2].
  - destruct (peer_half _ _ _ _ _ _ _ _ _ P Hk Hm Ht) as [[?|[? _]]|[? _]]; done.
  - destruct (peer_half _ _ _ _ _ _ _ _ _ P Hk Hm Ht1) as [[P1|[[= ->] Hp]]|[[= ->] Hpc]].
    + destruct (peer_half _ _ _ _ _ _ _ _ _ P1 Hk Hm Ht2) as [[?|[? _]]|[? _]]; done.
    + apply err_received in Ht2. congruence.
    + by destruct (peer_received o i e _ _ _ Hm Ht2 Hpc).
Qed.

(** C24: A peer that does not answer any more can block the miner: its thread was
    handed a block, the call fails, and before the error is reported another
    message is to be flooded. From then on, in every continuation, the thread
    waits to report the error and [managePeers] to hand it the message: no peer
    is sent or added or removed any more. *)
Theorem dead_peer_deadlock rg1 rg2 rg3 s k req i t j op hs req' outs err
    (Hblock : ms_ppc s = PSends [PSendBlock k req]) (Hobj : ms_objs s !! k = Some i)
    (Hthread : ms_threads s !! i = Some t) (Hselect : pt_pc t = RSends [])
    (Hcall : ms_handlers s !! j = Some (HSend (MFloodOperation op) :: hs))
    (Hflood : on_floodOperation rg1 rg2 rg3 (ms_peers s) op = PSendOp k req' :: outs) :
  exists s', steps s s' /\ always (fun s'' =>
    ms_ppc s'' = PSends (PSendOp k req' :: outs) /\ ms_objs s'' !! k = Some i /\
    thread_pc s'' i = Some (RSends [RErr (mkPeerError (p_MinerID (pt_peer t)) err)])) s'.
Proof using Type.
  pose proof (pr_toPeer s k req i [] Hblock Hobj) as S1. set (s1 := with_ppc _ _) in S1.
  pose proof (pe_sendBlock s1 i t req Hthread Hselect) as S2. set (s2 := set_thread _ _ _) in S2.
  assert (ms_threads s2 !! i = Some (at_pc t (RCall (CallFloodBlock req)) (pt_lastConnected t))) as T2.
  { apply list_lookup_insert_eq. by eapply lookup_lt_Some. }
  pose proof (pe_blockReturns s2 i _ req (Some err) 0 T2 eq_refl ltac:(eauto)) as S3.
  set (s3 := set_thread s2 _ _) in S3.
  pose proof (cl_send s3 j _ hs Hcall) as S4. set (s4 := set_handler _ _ _) in S4.
  pose proof (pr_floodOperation s4 rg1 rg2 rg3 op eq_refl) as S5. simpl in S5. rewrite Hflood in S5.
  set (s5 := with_ppc _ _) in S5. exists s5. split.
  - eapply meet; [by apply by_peers, S1|by apply by_peer, S2|]. eapply alone; [by apply by_peer, S3|].
    eapply meet; [by apply by_call, S4|by apply by_peers, S5|]. apply rtc_refl.
  - apply always_inv.
    + intros u u' (Hp & Ho & Ht) Hstep.
      destruct (peer_stuck_step (PSendOp k req') outs k i _ (MPeerSendOp i req') u u' eq_refl eq_refl
        (Build_peer_stuck _ _ _ _ _ _ Hp Ho Ht) Hstep) as [? ? ?]. done.
    + split_and!; [done|done|]. unfold thread_pc. simpl. rewrite list_lookup_insert_eq; [done|].
      rewrite length_insert. by eapply lookup_lt_Some.
Qed.
End deadlock.
