(* ===== verification/Rounds.v ===== *)
(** The threads of a miner working together: the loops of the client server run
    as their iterations do in one piece, and a new block makes its round through
    the chain, the clients and the peers. *)
From S2P Require Import Prelude GoLib Settings Operation Block Pow Blockchain ChainTheory.
From S2P Require Import Ledger LedgerTheory AddBlock QueryTheory RFSLedger Worker Resolver Manager.
From S2P Require Import Rfslib Server Peers Batch Dial Threads Miner MinerTheory.
Local Open Scope Z_scope.

Section rounds.
Context `{Gob (list Operation)} `{Gob Operation}.

(** ** The loop over the pending operations *)

(** Nobody keeps the iteration waiting. *)
Definition all_serve : Others := mkOthers true (fun _ => true) (fun _ => true) true true.

(** The answers among the messages of [checkConfirmedOperations]. *)
Definition readies (outs : list server_out) : list (nat * bool) :=
  omap (fun o => match o with SReady ch b => Some (ch, b) | _ => None end) outs.

Lemma with_checked_self s pc :
  ms_kpc s = pc -> s = with_answers (with_kpc (with_manager s (ms_manager s)) pc) (ms_answers s ++ []).
Proof using Type. intros <-. rewrite app_nil_r. by destruct s. Qed.

Lemma count_ready_app ch l1 l2 : count_ready ch (l1 ++ l2) = (count_ready ch l1 + count_ready ch l2)%nat.
Proof using Type. unfold count_ready. by rewrite filter_app, length_app. Qed.

(** The messages for one operation, as [check_one] has them. *)
Lemma check_one_out p c rest rem :
  exists_ c = true ->
  check_one p c rest rem = (KLoop rest (rem ++ (if confirmed c then [p] else [])),
    if confirmed c then [(Ready p, negb (otherMiner c))] else []).
Proof using Type. intros He. unfold check_one. rewrite He. destruct (confirmed c); by rewrite ?app_nil_r. Qed.

Lemma check_run ops : forall s m removed outs rem,
  ms_kpc s = KLoop ops rem -> check_pending all_serve ops (ms_manager s) = Ret (m, (removed, outs)) ->
  (forall op, SReceivedOp op ∉ outs) -> NoDup (Ready <$> ops.*2) ->
  (forall p, p ∈ ops.*2 -> (count_ready (Ready p) (ms_answers s) < ready_cap)%nat) ->
  steps s (with_answers (with_kpc (with_manager s m) (KLoop [] (rem ++ removed))) (ms_answers s ++ readies outs)).
Proof using Type.
  induction ops as [|[k p] ops IH]; intros s m removed outs rem Hk Hrun Hno Hnd Hcap; cbn [check_pending] in Hrun.
  { simplify_eq. rewrite app_nil_r. change (readies []) with (@nil (nat * bool)).
    rewrite <- (with_checked_self s _ Hk). apply rtc_refl. }
  go_inv Hrun. destruct r as [m1 c]. cbv beta iota in Hrun.
  destruct (check_one_pending all_serve p c) as [E1 E2]; [done..|]. rewrite E1, E2 in Hrun.
  cbn [mbind go_bind] in Hrun. go_inv Hrun. destruct r as [m2 [rem2 outs2]]. injection Hrun as <- <- <-.
  assert (exists_ c = true) as He.
  { destruct (exists_ c) eqn:He; [done|]. destruct (Hno (operation p)). rewrite !elem_of_app. right. left. by left. }
  rewrite He in Hno |- *. simpl in Hno |- *.
  assert ((if decide (confirmed c = true) then [p] else []) = (if confirmed c then [p] else [])) as ->
    by (by destruct (confirmed c)).
  apply NoDup_cons in Hnd as [Hp Hnd].
  eapply alone.
  { apply by_check. eapply (ck_one s k p ops rem m1 c); [done|done|]. intros _. apply Hcap. by left. }
  rewrite (check_one_out p c ops rem He). simpl.
  set (s1 := with_answers _ _).
  pose proof (IH s1 m2 rem2 outs2 _ eq_refl Hrun1) as Hrest. simpl in Hrest. rewrite <- !app_assoc in Hrest.
  unfold readies at 1. rewrite omap_app. fold (readies outs2).
  replace (omap _ (if confirmed c then _ else _)) with (if confirmed c then [(Ready p, negb (otherMiner c))] else [])
    by (by destruct (confirmed c)).
  apply Hrest; [|done|].
  - intros op Hop. apply (Hno op). rewrite elem_of_app. by right.
  - intros q Hq. rewrite count_ready_app. pose proof (Hcap q) as Hcq.
    assert (count_ready (Ready q) (if confirmed c then [(Ready p, negb (otherMiner c))] else []) = 0%nat) as ->.
    { destruct (confirmed c); [|done]. unfold count_ready. rewrite filter_cons. simpl. rewrite decide_False; [done|].
      intros Heq. apply Hp. apply list_elem_of_fmap. by exists q. }
    rewrite Nat.add_0_r. apply Hcq. by right.
Qed.

(** A whole iteration of [checkConfirmedOperations], when nothing has to be
    submitted again. *)
Lemma check_round rg s m srv outs :
  ms_kpc s = KLock -> mux_free s = true ->
  checkConfirmedOperations rg all_serve (ms_server s) (ms_manager s) = Ret (m, (srv, outs)) ->
  (forall op, SReceivedOp op ∉ outs) ->
  (forall i j p q, clientOps (ms_server s) !! i = Some p -> clientOps (ms_server s) !! j = Some q ->
     Ready p = Ready q -> i = j) ->
  (forall i p, clientOps (ms_server s) !! i = Some p -> (count_ready (Ready p) (ms_answers s) < ready_cap)%nat) ->
  steps s (with_server (with_answers (with_kpc (with_manager s m) KNotify) (ms_answers s ++ readies outs)) srv).
Proof using Type.
  intros Hk Hmux Hrun Hno Hinj Hcap. unfold mux_free in Hmux. apply andb_true_iff in Hmux as [Hb _].
  unfold checkConfirmedOperations in Hrun. cbn [await all_serve grant_RLock grant_Lock receives_update mbind go_bind] in Hrun.
  go_inv Hrun. destruct r as [m1 [rem outs1]]. cbv beta iota zeta in Hrun.
  injection Hrun as <- <- <-.
  eapply alone; [apply by_check, (ck_lock s rg Hk); by apply negb_true_iff|]. set (s1 := with_kpc s _).
  assert (readies (outs1 ++ [SUpdateFileCache]) = readies outs1) as ->.
  { unfold readies. rewrite omap_app. apply app_nil_r. }
  eapply steps_trans; [apply (check_run (range rg (clientOps (ms_server s))) s1 m1 rem outs1 []); [done|done| | |]|].
  - intros op Hop. apply (Hno op). apply elem_of_app. by left.
  - rewrite <- list_fmap_compose. apply NoDup_fmap_2_strong; [|apply NoDup_range].
    intros [i p] [j q] Hp%elem_of_range Hq%elem_of_range Heq. simpl in Heq.
    assert (i = j) as -> by eauto. by simplify_eq.
  - intros p ([i q] & -> & Hq%elem_of_range)%list_elem_of_fmap. by eapply Hcap.
  - eapply alone; [by apply by_check, ck_unlock|].
    eapply alone; [apply by_check; eapply ck_delete; [reflexivity|]; unfold mux_free; simpl; by rewrite Hb|].
    apply rtc_refl.
Qed.

(** A whole iteration of [updateConfirmedFiles]. *)
Lemma update_round rg s m srv :
  ms_upc s = UList -> mux_free s = true ->
  updateConfirmedFiles rg (ms_server s) (ms_manager s) = Ret (m, srv) ->
  steps s (with_server (with_upc (with_manager s m) UIdle) srv).
Proof using Type.
  intros Hu Hmux Hrun. unfold updateConfirmedFiles in Hrun. go_inv Hrun. destruct r as [m1 files]. simplify_eq.
  eapply alone; [by apply by_update, (up_list s rg m files)|].
  eapply alone; [apply by_update; eapply up_store; [reflexivity|exact Hmux]|]. apply rtc_refl.
Qed.

(** ** Flooding a block *)

(** Every one of the peers gets the block. *)
Lemma flood_run req ks : forall s, ms_ppc s = PSends ((fun k => PSendBlock k req) <$> ks) ->
  NoDup ks -> (forall j k i, j ∈ ks -> k ∈ ks -> ms_objs s !! j = Some i -> ms_objs s !! k = Some i -> j = k) ->
  (forall k, k ∈ ks -> exists i t, ms_objs s !! k = Some i /\ ms_threads s !! i = Some t /\ pt_pc t = RSends []) ->
  exists ts, steps s (with_ppc (with_threads s ts) (PSends [])) /\ length ts = length (ms_threads s) /\
    (forall k i, k ∈ ks -> ms_objs s !! k = Some i -> exists t, ts !! i = Some t /\ pt_pc t = RCall (CallFloodBlock req)) /\
    (forall i, (forall k, k ∈ ks -> ms_objs s !! k <> Some i) -> ts !! i = ms_threads s !! i).
Proof using Type.
  induction ks as [|k ks IH]; intros s Hp Hnd Hinj Hidle.
  { exists (ms_threads s). simpl in Hp. split_and!; [|done|by intros ? ? ?%elem_of_nil|done].
    assert (with_ppc (with_threads s (ms_threads s)) (PSends []) = s) as -> by (destruct s; simpl in *; by subst).
    apply rtc_refl. }
  apply NoDup_cons in Hnd as [Hk Hnd]. destruct (Hidle k) as (i & t & Hi & Ht & Hpc); [by left|].
  pose proof (pr_toPeer s k req i _ Hp Hi) as S1. set (s1 := with_ppc s _) in S1.
  pose proof (pe_sendBlock s1 i t req Ht Hpc) as S2. set (t2 := at_pc _ _ _) in S2. set (s2 := set_thread _ _ _) in S2.
  assert (forall j, j ∈ ks -> ms_objs s !! j <> Some i) as Hne.
  { intros j Hj Hji. apply Hk. rewrite (Hinj k j i); [done|by left|by right|done|done]. }
  destruct (IH s2) as (ts & Hrun & Hlen & Hsent & Hrest).
  - done.
  - done.
  - intros j j' i' Hj Hj'. apply Hinj; by right.
  - intros j Hj. destruct (Hidle j) as (i' & t' & Hi' & Ht' & Hpc'); [by right|].
    exists i', t'. split_and!; [done| |done]. simpl. rewrite list_lookup_insert_ne; [done|].
    intros ->. by apply (Hne j).
  - exists ts. split_and!.
    + eapply meet; [by apply by_peers, S1|by apply by_peer, S2|]. exact Hrun.
    + rewrite Hlen. simpl. apply length_insert.
    + intros j i' [->|Hj]%elem_of_cons Hi'.
      * assert (i' = i) as -> by congruence. exists t2. split; [|done]. rewrite Hrest by done. simpl.
        apply list_lookup_insert_eq. by eapply lookup_lt_Some.
      * by eapply Hsent.
    + intros i' Hi'. rewrite Hrest by (intros j Hj; apply Hi'; by right). simpl.
      apply list_lookup_insert_ne. intros ->. by apply (Hi' k); [left|].
Qed.

(** ** The round of a block *)

(** Every thread is at the top of its loop, the lock of the server is free, and
    no call has more answers than its channel holds. *)
Record calm (s : MinerServer) : Prop := {
  cm_manager : ms_mpc s = MSends [];
  cm_peers : ms_ppc s = PSends [];
  cm_threads : forall k i t, ms_objs s !! k = Some i -> ms_threads s !! i = Some t -> pt_pc t = RSends [];
  cm_check : ms_kpc s = KIdle;
  cm_update : ms_upc s = UIdle;
  cm_lock : holds_mux (ms_batch s) = false;
  cm_mine : ms_mine s = false;
  cm_ready : forall i p, clientOps (ms_server s) !! i = Some p ->
    (count_ready (Ready p) (ms_answers s) < ready_cap)%nat
}.

Lemma objs_inj s j k i :
  peers_inv s -> is_Some (peers (ms_peers s) !! j) -> is_Some (peers (ms_peers s) !! k) ->
  ms_objs s !! j = Some i -> ms_objs s !! k = Some i -> j = k.
Proof using Type.
  intros P [pj Hj] [pk Hk] Hij Hik.
  destruct (pi_objs _ P _ _ Hj) as (i1 & ? & t1 & ? & <-), (pi_objs _ P _ _ Hk) as (i2 & ? & t2 & ? & <-). simplify_eq.
  by rewrite <- (pi_ok _ P _ _ Hj), <- (pi_ok _ P _ _ Hk).
Qed.

(** The manager adds the block and everybody hears of it: it is with the check
    of the clients' operations, with the peers, and mining goes on. *)
Lemma announce_run rg1 rg2 s b q m1 :
  calm s -> peers_inv s -> addBlock (ms_manager s) = b :: q ->
  on_add rg1 rg2 (with_addBlock (ms_manager s) q) b = Ret (m1, announce b) ->
  exists ts, steps s (with_mine (with_ppc (with_threads (with_kpc (with_mpc (with_manager s m1) (MSends [])) KLock) ts)
      (PSends [])) (have_peers (ms_peers s))) /\
    forall k, is_Some (peers (ms_peers s) !! k) -> k ∉ default [] (blocksToPeers (ms_peers s) !! Hash b) ->
      exists i t, ms_objs s !! k = Some i /\ ts !! i = Some t /\
        pt_pc t = RCall (CallFloodBlock (mkFloodBlock b (own_MinerID (ms_peers s)))).
Proof using Type.
  intros Cm P Hq Hadd. pose proof Cm as [Hm Hp Hts Hk _ _ Hmine _].
  pose proof (mg_add s rg1 rg2 b q Hm Hq) as S1. rewrite Hadd in S1. simpl in S1. set (s1 := with_mpc _ _) in S1.
  pose proof (mg_send s1 _ _ _ eq_refl eq_refl : manager_step s1 (Snd MNewBlockAdded) _) as S2. set (s2 := with_mpc s1 _) in S2.
  pose proof (ck_added s2 Hk) as S3. set (s3 := with_kpc _ _) in S3.
  pose proof (mg_send s3 _ _ _ eq_refl eq_refl : manager_step s3 (Snd (MSendBlock b)) _) as S4. set (s4 := with_mpc s3 _) in S4.
  pose proof (pr_sendBlock s4 range_fwd b Hp) as S5. simpl in S5.
  destruct (on_sendBlock_eq range_fwd (ms_peers s) b) as (ks & Hnd & Hks & Hin). rewrite Hks in S5. set (s5 := with_ppc s4 _) in S5.
  destruct (flood_run (mkFloodBlock b (own_MinerID (ms_peers s))) ks s5) as (ts & Hrun & _ & Hsent & _); [done|done| | |].
  { intros j k i [Hj _]%Hin [Hk' _]%Hin Hij Hik. exact (objs_inj s j k i P Hj Hk' Hij Hik). }
  { intros k [[p Hpk] _]%Hin. destruct (pi_objs _ P _ _ Hpk) as (i & Hi & t & Ht & _). exists i, t. eauto. }
  set (s6 := with_ppc (with_threads s5 ts) (PSends [])) in Hrun.
  pose proof (mg_send s6 _ _ _ eq_refl eq_refl : manager_step s6 (Snd MContinueMining) _) as S7. set (s7 := with_mpc s6 _) in S7.
  pose proof (pr_continueMining s7 eq_refl) as S8. simpl in S8. set (s8 := with_ppc s7 _) in S8.
  exists ts. split.
  - eapply alone; [by apply by_manager, S1|]. eapply meet; [by apply by_manager, S2|by apply by_check, S3|].
    eapply meet; [by apply by_manager, S4|by apply by_peers, S5|]. eapply steps_trans; [exact Hrun|].
    eapply meet; [by apply by_manager, S7|by apply by_peers, S8|]. unfold on_continueMining in s8.
    destruct (have_peers (ms_peers s)).
    + eapply alone; [by apply by_peers, (pr_mine s8 [] eq_refl)|]. apply rtc_refl.
    + unfold s8, s7, s6. simpl. rewrite <- Hmine. apply rtc_refl.
  - intros k Hpk Hn. assert (k ∈ ks) as Hkk by (by apply Hin).
    destruct Hpk as [p Hpk]. destruct (pi_objs _ P _ _ Hpk) as (i & Hi & _). destruct (Hsent k i Hkk Hi) as (t & ? & ?).
    exists i, t. done.
Qed.

(** C6: A new block makes its round. From a calm state of a miner in order, with a
    block at hand that the chain takes, and every pending operation on the
    chain, the threads can work it off completely: the block is added; the
    confirmed operations of clients are answered and forgotten, the others stay
    pending; the cache holds exactly the files of the ledger; the block is on
    its way to every peer that has not sent it; and if there are peers, mining
    is requested. *)
Theorem block_round rg1 rg2 s b q m1
    (Hcalm : calm s) (Hok : miner_ok s) (Hq : addBlock (ms_manager s) = b :: q)
    (Hadd : on_add rg1 rg2 (with_addBlock (ms_manager s) q) b = Ret (m1, announce b)) (Hl : l_ok m1)
    (Hknown : forall i p, clientOps (ms_server s) !! i = Some p ->
       exists_ (status_of (l_config m1) (l_longest m1) (operation p)) = true) :
  let status p := status_of (l_config m1) (l_longest m1) (operation p) in
  exists s', steps s s' /\
    ms_mpc s' = MSends [] /\ ms_ppc s' = PSends [] /\ ms_kpc s' = KIdle /\ ms_upc s' = UIdle /\
    same_view m1 (ms_manager s') /\
    (forall i, clientOps (ms_server s') !! i = match clientOps (ms_server s) !! i with
       | Some p => if confirmed (status p) then None else Some p
       | None => None
       end) /\
    (forall i p, clientOps (ms_server s) !! i = Some p -> confirmed (status p) = true ->
       (Ready p, negb (otherMiner (status p))) ∈ ms_answers s') /\
    (forall f, is_Some (confirmedFiles (ms_server s') !! f) <-> listed (l_config m1) (l_longest m1) f) /\
    (forall k, is_Some (peers (ms_peers s) !! k) -> k ∉ default [] (blocksToPeers (ms_peers s) !! Hash b) ->
       exists i t, ms_objs s' !! k = Some i /\ ms_threads s' !! i = Some t /\
         pt_pc t = RCall (CallFloodBlock (mkFloodBlock b (own_MinerID (ms_peers s))))) /\
    ms_mine s' = have_peers (ms_peers s).
Proof using Type.
  intros status. pose proof (mo_server _ Hok) as S.
  destruct (announce_run rg1 rg2 s b q m1 Hcalm (mo_peers _ Hok) Hq Hadd) as (ts & Hrun1 & Hflood).
  set (s1 := with_mine _ _) in Hrun1.
  destruct (checkConfirmedOperations_run range_fwd all_serve (ms_server s) m1 (si_ok _ S) Hl)
    as (m2 & srv2 & outs & Hcheck & V2 & _ & Hops & Hready & Hresend & _); [by split|].
  assert (mux_free s1 = true) as Hmux by (unfold mux_free, s1; simpl; by rewrite (cm_lock _ Hcalm)).
  pose proof (check_round range_fwd s1 m2 srv2 outs eq_refl Hmux Hcheck) as Hrun2.
  set (s2 := with_server _ _) in Hrun2.
  pose proof (ck_notify s2 eq_refl) as S3. set (s3 := with_kpc s2 _) in S3.
  pose proof (up_wake s3 (cm_update _ Hcalm)) as S4. set (s4 := with_upc s3 _) in S4.
  destruct (law_ListFiles range_fwd m2 (sv_ok _ _ V2 Hl)) as (m3 & files & Hlist & V3 & _ & Hfiles).
  assert (updateConfirmedFiles range_fwd srv2 m2 = Ret (m3, with_confirmed srv2 (name_set files ∅))) as Hupd
    by (unfold updateConfirmedFiles; by rewrite Hlist).
  assert (mux_free s4 = true) as Hmux4 by (unfold mux_free, s4; simpl; by rewrite (cm_lock _ Hcalm)).
  pose proof (update_round range_fwd s4 m3 _ eq_refl Hmux4 Hupd) as Hrun5. set (s5 := with_server _ _) in Hrun5.
  exists s5. split; [|split_and!; try done].
  - eapply steps_trans; [exact Hrun1|]. eapply steps_trans; [apply Hrun2|].
    + intros op Hop%Hresend. destruct Hop as (p & (i & Hi) & _ & He). apply Hknown in Hi. congruence.
    + apply S.
    + apply Hcalm.
    + eapply meet; [by apply by_check, S3|by apply by_update, S4|]. exact Hrun5.
  - by transitivity m2.
  - intros i p Hp Hc. simpl. apply elem_of_app. right. apply list_elem_of_omap.
    exists (SReady (Ready p) (negb (otherMiner (status p)))). split; [|done]. apply Hready. eauto 6.
  - intros f. simpl. rewrite name_set_lookup, lookup_empty, (Hfiles f), (sv_config _ _ V2), (sv_longest _ _ V2).
    split; [intros [?|[? ?]]; done|by left].
Qed.
End rounds.
