(* ===== verification/Startup.v ===== *)
(** [miner.go] and the life of a [MinerServer]: the start of all threads in
    [NewMinerServer], which goes on to dial the configured peers while they run,
    and [shutdown]. *)
From S2P Require Import Prelude GoLib Settings Operation Block Pow Blockchain ChainTheory.
From S2P Require Import Ledger AddBlock Rebuild RFSLedger Worker Resolver Manager.
From S2P Require Import Rfslib Server Peers Batch Dial Threads Miner MinerTheory.
Local Open Scope Z_scope.

(** ** [NewMinerServer] *)

(** What the start needs of [net] and [net/rpc]: the resolution of addresses, and
    the errors of registering the handlers and of opening ports, if any. *)
Record Net : Type := {
  net_resolve : string -> result string;
  net_registerClients : option string;
  net_registerMiners : option string;
  net_listen : string -> option string
}.

(** The errors of [MinerServer.startListening]. *)
Definition miner_startListening (nt : Net) (config : Settings) : option string :=
  match net_registerMiners nt with
  | Some err => Some err
  | None => net_listen nt (IncomingMinersAddr config)
  end.

(** Up to the dialing of peers. On an error the threads started before it are
    left running. *)
Definition boot (nt : Net) (rg : RangeOrder) (h : heap) (config : Settings) (now : Z)
    : go (result MinerServer) :=
  let '(h, bc) := NewBlockchain h config now in
  let manager := NewChainManager h bc config in
  match NewRPCServer (net_resolve nt) config with
  | Err e => Ret (Err e)
  | Ok s =>
      '(manager, (s, err)) ← startListening (net_registerClients nt) (net_listen nt) rg s manager;
      match err with
      | Some e => Ret (Err e)
      | None =>
          match miner_startListening nt config with
          | Some e => Ret (Err e)
          | None => Ret (Ok (new_miner config manager s))
          end
      end
  end.

(** ** Dialing while the threads run *)

Section dialing.
Context `{Gob (list Operation)} `{Gob Operation}.

(** [startMinerRPC] in its loops, with the addresses left in this round and the
    map [dialedPeers]; about to send the new peer, object [j], to [managePeers],
    and then the request to synchronize, as the sends that [cl_startMinerRPC] of
    [Miner] leaves to handler [i]; waiting for the manager to close [done]; for
    ever in its [select], since the manager answered on neither channel;
    returned. *)
Inductive dial_pc : Type :=
| DLoop (rest : list string) (dialedPeers : gset string)
| DNewPeer (i j : nat) (newPeer : Peer) (rest : list string) (dialedPeers : gset string)
| DSync (i j : nat) (newPeer : Peer) (rest : list string) (dialedPeers : gset string)
| DSelect (newPeer : Peer) (rest : list string) (dialedPeers : gset string)
| DBlocked
| DReturned (dialedPeers : gset string).

(** [NewPeer] for a peer that answered, and the two sends. *)
Definition start_peer (s : MinerServer) (response : NewPeerResponse) (addr : string) (now : Z) : MinerServer :=
  spawn (with_threads s (ms_threads s ++ [NewPeer (nr_MinerID response) addr now]))
    [HSend (MNewPeer (mkPeer (nr_MinerID response) addr) (length (ms_threads s)));
     HSend (MSync (nr_Blockchain response))].

(** The manager has taken over the chain of a request and will close [done]. *)
Definition synced (s : MinerServer) : bool :=
  match ms_mpc s with MSends (OutSyncDone :: _) => true | _ => false end.

(** A step of the other threads: none of the sends of the dialing thread, and
    not the close of the channel it waits for. *)
Definition by_others (d : dial_pc) (s s' : MinerServer) : Prop :=
  match d with
  | DNewPeer i _ _ _ _ | DSync i _ _ _ _ => ms_handlers s' !! i = ms_handlers s !! i
  | DSelect _ _ _ => ms_mpc s' = ms_mpc s
  | _ => True
  end.

(** The dialing thread among the others, which move freely. [dl_fails]: there is
    no connection, or the call [DialPeer] over it fails. *)
Inductive dial_step (addrs : list string) : dial_pc * MinerServer -> dial_pc * MinerServer -> Prop :=
| dl_others d s s' :
    step s s' -> by_others d s s' -> dial_step addrs (d, s) (d, s')
| dl_round dialed s :
    (size dialed < length addrs)%nat -> dial_step addrs (DLoop [] dialed, s) (DLoop addrs dialed, s)
| dl_return dialed s :
    (length addrs <= size dialed)%nat -> dial_step addrs (DLoop [] dialed, s) (DReturned dialed, s)
| dl_known addr rest dialed s :
    addr ∈ dialed -> dial_step addrs (DLoop (addr :: rest) dialed, s) (DLoop rest dialed, s)
| dl_fails addr rest dialed s :
    addr ∉ dialed -> dial_step addrs (DLoop (addr :: rest) dialed, s) (DLoop rest dialed, s)
| dl_answers addr rest dialed s response now :
    addr ∉ dialed ->
    dial_step addrs (DLoop (addr :: rest) dialed, s)
      (DNewPeer (length (ms_handlers s)) (length (ms_threads s)) (mkPeer (nr_MinerID response) addr) rest dialed,
       start_peer s response addr now)
| dl_newPeer i j p rest dialed s hs s' :
    ms_handlers s !! i = Some (HSend (MNewPeer p j) :: hs) ->
    peers_step (set_handler s i hs) (Rcv (MNewPeer p j)) s' ->
    dial_step addrs (DNewPeer i j p rest dialed, s) (DSync i j p rest dialed, s')
| dl_sync i j p rest dialed s blocks hs s' :
    ms_handlers s !! i = Some (HSend (MSync blocks) :: hs) ->
    manager_step (set_handler s i hs) (Rcv (MSync blocks)) s' ->
    dial_step addrs (DSync i j p rest dialed, s) (if synced s' then DSelect p rest dialed else DBlocked, s')
| dl_done p rest dialed s outs :
    ms_mpc s = MSends (OutSyncDone :: outs) ->
    dial_step addrs (DSelect p rest dialed, s)
      (DLoop rest ({[p_Address p]} ∪ dialed), with_mpc s (MSends outs)).

Definition dial_steps (addrs : list string) : dial_pc * MinerServer -> dial_pc * MinerServer -> Prop :=
  rtc (dial_step addrs).

(** It returns an error, or a server once every peer is dialed. *)
Inductive NewMinerServer (nt : Net) (rg : RangeOrder) (h : heap) (config : Settings) (now : Z)
    : result MinerServer -> Prop :=
| new_fails e :
    boot nt rg h config now = Ret (Err e) -> NewMinerServer nt rg h config now (Err e)
| new_dialed s0 dialed s :
    boot nt rg h config now = Ret (Ok s0) ->
    dial_steps (PeerMinersAddrs config) (DLoop [] ∅, s0) (DReturned dialed, s) ->
    NewMinerServer nt rg h config now (Ok s).

(** ** [main] *)

(** The process ends with a message, or waits on a channel that nobody uses while
    the threads of the server run on. *)
Inductive main_result : Type :=
| Fatal (msg : string)
| Waiting (ms : MinerServer).

(** [readFile] and [json_Unmarshal]: see [LoadSettings]. *)
Inductive main (readFile : string -> result string)
    (json_Unmarshal : string -> Settings -> Settings * option string)
    (nt : Net) (rg : RangeOrder) (h : heap) (now : Z) (args : list string) : main_result -> Prop :=
| main_usage :
    length args <> 1%nat ->
    main readFile json_Unmarshal nt rg h now args (Fatal "Expect: go run miner.go [settings].")
| main_settings fname e :
    args = [fname] -> LoadSettings json_Unmarshal (readFile fname) = Err e ->
    main readFile json_Unmarshal nt rg h now args (Fatal e)
| main_fails fname config e :
    args = [fname] -> LoadSettings json_Unmarshal (readFile fname) = Ok config ->
    NewMinerServer nt rg h config now (Err e) ->
    main readFile json_Unmarshal nt rg h now args (Fatal e)
| main_waits fname config s s' :
    args = [fname] -> LoadSettings json_Unmarshal (readFile fname) = Ok config ->
    NewMinerServer nt rg h config now (Ok s) -> steps s s' ->
    main readFile json_Unmarshal nt rg h now args (Waiting s').
End dialing.

(** ** A peer that joins while nothing else happens *)

(** A request to mine, taken by the mining loop. *)
Definition take_mine (s : MinerServer) : MinerServer :=
  match on_mine (ms_loop s) with
  | Ret (l, outs) =>
      with_workers (with_mine (with_loop s l) false)
        (ms_workers s ++ omap (fun o => match o with LStartMining w => Some (w, WStart) | _ => None end) outs)
  | _ => s
  end.

(** A dialed peer: its thread is started, [managePeers] adds it, asks for mining
    and tells the client server. *)
Definition join (now : Z) (s : MinerServer) (p : Peer) : MinerServer :=
  let ps := (on_newPeer (ms_peers s) p).1 in
  let s := with_handlers s (ms_handlers s ++ [[]]) in
  let s := with_objs (with_threads s (ms_threads s ++ [NewPeer (p_MinerID p) (p_Address p) now]))
             (<[p_MinerID p := length (ms_threads s)]> (ms_objs s)) in
  take_mine (with_server (with_peers s ps) (updateConnectedStatus (ms_server s) (have_peers ps))).

(** ** Every start *)

Section startup.
Context `{Gob (list Operation)} `{Gob Operation}.

Lemma boot_started nt rg h config now s : boot nt rg h config now = Ret (Ok s) -> started config s.
Proof using Type.
  unfold boot. destruct (NewBlockchain h config now) as [h' bc] eqn:Hnew.
  destruct (NewRPCServer _ _) as [srv0|e] eqn:Hsrv; [|done]. intros Hrun. go_inv Hrun. destruct r as [m [srv err]].
  destruct err; [done|]. destruct (miner_startListening nt config); [done|]. injection Hrun as <-.
  unfold startListening in Hrun0. go_inv Hrun0. destruct r as [m1 files].
  eapply (started_new config h now h' bc _ srv0 (net_listen nt) rg); [done|done|].
  unfold startListening. rewrite Hrun1. simpl. by destruct (net_registerClients nt).
Qed.

(** The peer at [addr] was dialed: it has a thread, [managePeers] took it, and
    then the manager took its chain. *)
Definition met (s0 s : MinerServer) (addr : string) : Prop :=
  exists id j u1 u2, thread_is s j (mkPeer id addr) /\
    steps s0 u1 /\ peers (ms_peers u1) !! id = Some (mkPeer id addr) /\
    steps u1 u2 /\ adopting u2 /\ steps u2 s.

Lemma thread_is_steps s s' i p : steps s s' -> thread_is s i p -> thread_is s' i p.
Proof using Type.
  induction 1 as [|s s1 s' Hs _ IH]; [done|]. intros Ht. apply IH.
  destruct Hs; eauto using thread_is_step.
Qed.

Lemma met_steps s0 s s' addr : steps s s' -> met s0 s addr -> met s0 s' addr.
Proof using Type.
  intros Hs (id & j & u1 & u2 & Ht & H1 & Hp & H2 & Ha & H3). exists id, j, u1, u2.
  split_and!; [by eapply thread_is_steps|done..|by eapply steps_trans].
Qed.

(** What is known of the dialed addresses and the state. *)
Record rounds_ok (addrs : list string) (s0 s : MinerServer) (rest : list string) (dialed : gset string) : Prop := {
  ro_run : steps s0 s;
  ro_rest : rest ⊆ addrs;
  ro_dialed : dialed ⊆ list_to_set addrs;
  ro_met a : a ∈ dialed -> met s0 s a
}.

Definition dial_ok (addrs : list string) (s0 : MinerServer) (x : dial_pc * MinerServer) : Prop :=
  let s := x.2 in
  match x.1 with
  | DLoop rest dialed => rounds_ok addrs s0 s rest dialed
  | DNewPeer _ j p rest dialed => rounds_ok addrs s0 s rest dialed /\ p_Address p ∈ addrs /\ thread_is s j p
  | DSync _ j p rest dialed => rounds_ok addrs s0 s rest dialed /\ p_Address p ∈ addrs /\ thread_is s j p /\
      exists u1, steps s0 u1 /\ peers (ms_peers u1) !! p_MinerID p = Some p /\ steps u1 s
  | DSelect p rest dialed => rounds_ok addrs s0 s rest dialed /\ p_Address p ∈ addrs /\ met s0 s (p_Address p)
  | DBlocked => steps s0 s
  | DReturned dialed => rounds_ok addrs s0 s [] dialed /\ (length addrs <= size dialed)%nat
  end.

Lemma rounds_ok_steps addrs s0 s s' rest dialed :
  steps s s' -> rounds_ok addrs s0 s rest dialed -> rounds_ok addrs s0 s' rest dialed.
Proof using Type.
  intros Hs [H1 H2 H3 H4]. split; [by eapply steps_trans|done|done|]. intros a Ha. eapply met_steps; eauto.
Qed.

Lemma dial_ok_others addrs s0 d s s' : steps s s' -> dial_ok addrs s0 (d, s) -> dial_ok addrs s0 (d, s').
Proof using Type.
  intros Hs. destruct d; unfold dial_ok; cbn [fst snd];
    naive_solver eauto using rounds_ok_steps, thread_is_steps, met_steps, steps_trans.
Qed.

Lemma rounds_ok_rest addrs s0 s rest rest' dialed :
  rest' ⊆ addrs -> rounds_ok addrs s0 s rest dialed -> rounds_ok addrs s0 s rest' dialed.
Proof using Type. intros Hr []. by split. Qed.

Lemma synced_adopting s : synced s = true -> adopting s.
Proof using Type.
  unfold synced. destruct (ms_mpc s) as [[|[] outs]|] eqn:E; try done. intros _. eexists. split; [exact E|]. by left.
Qed.

Lemma dial_step_ok addrs s0 x x' : dial_step addrs x x' -> dial_ok addrs s0 x -> dial_ok addrs s0 x'.
Proof using Type.
  intros Hstep. destruct Hstep as [d s s' Hs _|dialed s _|dialed s Hlen|addr rest dialed s _|addr rest dialed s _
    |addr rest dialed s response now _|i j p rest dialed s hs s' Hi Hp|i j p rest dialed s blocks hs s' Hi Hm
    |p rest dialed s outs Hm]; unfold dial_ok; cbn [fst snd].
  - apply dial_ok_others. by apply rtc_once.
  - by apply rounds_ok_rest.
  - done.
  - intros R. eapply rounds_ok_rest; [|done]. pose proof (ro_rest _ _ _ _ _ R). set_solver.
  - intros R. eapply rounds_ok_rest; [|done]. pose proof (ro_rest _ _ _ _ _ R). set_solver.
  - intros R. pose proof (ro_rest _ _ _ _ _ R) as Hr. split_and!; [|set_solver|].
    + eapply rounds_ok_rest; [|eapply rounds_ok_steps; [|done]]; [set_solver|].
      apply rtc_once, step_alone, by_call, cl_startMinerRPC.
    + eexists. split; [by apply list_lookup_middle|done].
  - intros (R & Ha & Ht). assert (step s s') as Hs.
    { eapply step_meet; [by apply by_call, cl_send|by apply by_peers]. }
    apply rtc_once in Hs. split_and!; [by eapply rounds_ok_steps|done|by eapply thread_is_steps|].
    exists s'. split_and!; [eapply steps_trans; [apply R|done]| |apply rtc_refl].
    inversion Hp; subst. by apply lookup_insert_eq.
  - intros (R & Ha & Ht & u1 & H1 & Hu & H2). assert (step s s') as Hs.
    { eapply step_meet; [by apply by_call, cl_send|by apply by_manager]. }
    apply rtc_once in Hs. destruct (synced s') eqn:Hd; [|eapply steps_trans; [apply R|done]].
    split_and!; [by eapply rounds_ok_steps|done|]. destruct p as [id addr]. exists id, j, u1, s'.
    split_and!; [by eapply thread_is_steps|done|done|by eapply steps_trans|by apply synced_adopting|apply rtc_refl].
  - intros (R & Ha & Hmet). assert (steps s (with_mpc s (MSends outs))) as Hs.
    { by apply rtc_once, step_alone, by_manager, mg_close_done. }
    destruct (rounds_ok_steps _ _ _ _ _ _ Hs R) as [H1 H2 H3 H4]. split; [done|done|set_solver|].
    intros a [->%elem_of_singleton|?]%elem_of_union; [eapply met_steps; [exact Hs|exact Hmet]|auto].
Qed.

Lemma dial_steps_ok addrs s0 x x' : dial_steps addrs x x' -> dial_ok addrs s0 x -> dial_ok addrs s0 x'.
Proof using Type. induction 1; eauto using dial_step_ok. Qed.

(** As many dialed as configured: all of them, and no address twice. *)
Lemma all_dialed (dialed : gset string) addrs :
  dialed ⊆ list_to_set addrs -> (length addrs <= size dialed)%nat ->
  NoDup addrs /\ forall a, a ∈ addrs -> a ∈ dialed.
Proof using Type.
  intros Hsub Hlen. pose proof (subseteq_size _ _ Hsub) as Hsz. split.
  - destruct (decide (NoDup addrs)) as [|Hdup]; [done|]. pose proof (size_repeated _ Hdup). lia.
  - intros a Ha. apply (set_subseteq_size_equiv dialed (list_to_set addrs)); [done| |by apply elem_of_list_to_set].
    pose proof (size_list_le addrs). lia.
Qed.

Lemma NewMinerServer_all nt rg h config now s :
  NewMinerServer nt rg h config now (Ok s) ->
  exists s0, started config s0 /\ steps s0 s /\ NoDup (PeerMinersAddrs config) /\
    forall addr, addr ∈ PeerMinersAddrs config -> met s0 s addr.
Proof using Type.
  intros Hnew. inversion Hnew as [|s0 dialed s1 Hboot Hrun]; subst. exists s0. split; [by eapply boot_started|].
  destruct (dial_steps_ok _ s0 _ _ Hrun) as [R Hlen].
  { split; [apply rtc_refl|set_solver|set_solver|set_solver]. }
  cbn [fst snd] in R. destruct (all_dialed _ _ (ro_dialed _ _ _ _ _ R) Hlen) as [Hnd Hall].
  split_and!; [apply R|done|]. intros addr Ha. by apply R, Hall.
Qed.

(** ** A start without incident *)

(** The threads that a joining peer meets are at the top of their loops. *)
Record ready_to_join (s : MinerServer) : Prop := {
  rj_manager : ms_mpc s = MSends [];
  rj_peers : ms_ppc s = PSends [];
  rj_loop : ms_lpc s = LSelect;
  rj_mine : ms_mine s = false;
  rj_worker : is_Some (worker (ms_loop s))
}.

Lemma take_mine_eq s w : worker (ms_loop s) = Some w ->
  take_mine s = with_workers (with_mine (with_loop s (mkLoop true (Some w))) false)
    (ms_workers s ++ (if isMining (ms_loop s) then [] else [(w, WStart)])).
Proof using Type.
  intros Hw. unfold take_mine, on_mine. rewrite Hw. destruct (ms_loop s) as [[] ?] eqn:E; simpl in *; by subst.
Qed.

Lemma take_mine_run s : ms_lpc s = LSelect -> ms_mine s = true -> is_Some (worker (ms_loop s)) ->
  steps s (take_mine s).
Proof using Type.
  intros Hl Hm [w Hw]. unfold take_mine. destruct (on_mine (ms_loop s)) as [[l outs]| | |] eqn:E;
    try (unfold on_mine in E; rewrite Hw in E; by destruct (isMining (ms_loop s))).
  eapply alone; [by apply by_loop, lp_mine|apply rtc_refl].
Qed.

Lemma ready_take_mine s :
  ms_mpc s = MSends [] -> ms_ppc s = PSends [] -> ms_lpc s = LSelect -> is_Some (worker (ms_loop s)) ->
  ready_to_join (take_mine s).
Proof using Type.
  intros Hm Hp Hl [w Hw]. unfold take_mine, on_mine. rewrite Hw.
  destruct (isMining (ms_loop s)); split; simpl; eauto.
Qed.

Lemma synchronize_case rg s blocks m : synchronize rg (ms_manager s) blocks = Ret m ->
  manager_case s (on_sync rg (ms_manager s) blocks) = with_mpc (with_manager s m) (MSends [OutSyncDone]).
Proof using Type.
  unfold synchronize, on_sync. intros Hrun. go_inv Hrun. destruct r as [m1 outs]. go_inv Hrun0.
  destruct r as [h [bc|e]]; simplify_eq. by rewrite Hrun1.
Qed.

Lemma insert_last {A} (l : list A) x y : <[length l := y]> (l ++ [x]) = l ++ [y].
Proof using Type. induction l as [|z l IH]; [done|]. simpl. by rewrite IH. Qed.

Lemma others_alone addrs d s s1 x :
  thread_step s Tau s1 -> by_others d s s1 -> dial_steps addrs (d, s1) x -> dial_steps addrs (d, s) x.
Proof using Type. intros Ht Ho Hr. eapply rtc_l; [apply dl_others; [by apply step_alone|done]|done]. Qed.

Lemma others_meet addrs d m s s1 s2 x :
  thread_step s (Snd m) s1 -> thread_step s1 (Rcv m) s2 -> by_others d s s2 ->
  dial_steps addrs (d, s2) x -> dial_steps addrs (d, s) x.
Proof using Type. intros Ht1 Ht2 Ho Hr. eapply rtc_l; [apply dl_others; [by eapply step_meet|done]|done]. Qed.

Lemma others_loop addrs rest dialed s s' :
  steps s s' -> dial_steps addrs (DLoop rest dialed, s) (DLoop rest dialed, s').
Proof using Type. induction 1; [apply rtc_refl|]. eapply rtc_l; [by apply dl_others|done]. Qed.

(** Dialing one peer. *)
Lemma join_run addrs rest dialed rg now s resp addr m :
  addr ∉ dialed -> ready_to_join s -> synchronize rg (ms_manager s) (nr_Blockchain resp) = Ret m ->
  let s' := with_manager (join now s (mkPeer (nr_MinerID resp) addr)) m in
  dial_steps addrs (DLoop (addr :: rest) dialed, s) (DLoop rest ({[addr]} ∪ dialed), s') /\ ready_to_join s'.
Proof using Type.
  intros Hnew [Hm Hp Hl Hmine Hw] Hsync. cbv zeta. set (p := mkPeer (nr_MinerID resp) addr).
  set (i := length (ms_handlers s)). set (j := length (ms_threads s)).
  set (s1 := start_peer s resp addr now).
  set (s2 := set_handler s1 i [HSend (MSync (nr_Blockchain resp))]).
  pose proof (pr_newPeer s2 p j Hp) as S3. set (s3 := with_objs _ _) in S3.
  pose proof (pr_mine s3 _ eq_refl Hmine) as S4. set (s4 := with_mine _ _) in S4.
  pose proof (pr_havePeers s4 _ _ eq_refl) as S5. set (s5 := with_ppc s4 _) in S5.
  pose proof (st_havePeers s5 (have_peers (on_newPeer (ms_peers s) p).1)) as S6. set (s6 := with_server _ _) in S6.
  set (s7 := set_handler s6 i []).
  pose proof (mg_sync s7 rg (nr_Blockchain resp) Hm) as S8. rewrite (synchronize_case rg s7 _ m Hsync) in S8.
  set (s8 := with_mpc _ _) in S8. set (s9 := with_mpc s8 (MSends [])).
  assert (ms_handlers s9 = ms_handlers s ++ [[]]) as Hh.
  { simpl. unfold i. by rewrite !insert_last. }
  assert (with_manager (join now s p) m = take_mine s9) as ->.
  { destruct Hw as [w Hw]. unfold join. rewrite !(take_mine_eq _ w) by done.
    unfold with_workers at 2. unfold with_mine, with_loop. cbn [ms_handlers]. rewrite Hh.
    cbn. by rewrite Hm, Hp. }
  split; [|by apply ready_take_mine].
  eapply rtc_l; [by apply (dl_answers addrs addr rest dialed s resp now)|].
  eapply rtc_l; [eapply (dl_newPeer addrs i j p); [by apply list_lookup_middle|exact S3]|].
  eapply others_alone; [by apply by_peers, S4|done|]. eapply others_meet; [by apply by_peers, S5|by apply by_status, S6|done|].
  eapply rtc_l; [eapply (dl_sync addrs i j p); [|exact S8]|].
  { simpl. unfold i. rewrite insert_last. by apply list_lookup_middle. }
  eapply rtc_l; [by apply (dl_done addrs p rest dialed s8 [])|]. by apply others_loop, take_mine_run.
Qed.

Lemma join_manager now s p m : join now (with_manager s m) p = with_manager (join now s p) m.
Proof using Type.
  unfold join, take_mine. cbn [ms_loop with_server with_peers with_objs with_threads with_handlers with_manager].
  by destruct (on_mine (ms_loop s)) as [[]| | |].
Qed.

(** The state after the peers [new] have joined [s0], with manager [m]. *)
Definition joined (now : Z) (s0 : MinerServer) (new : list Peer) (m : ChainManager) : MinerServer :=
  with_manager (fold_left (join now) new s0) m.

Lemma fold_left_snoc {A B} (f : A -> B -> A) (l : list B) x a : fold_left f (l ++ [x]) a = f (fold_left f l a) x.
Proof using Type. by rewrite fold_left_app. Qed.

Lemma fold_left_cons {A B} (f : A -> B -> A) (l : list B) x a : fold_left f (x :: l) a = fold_left f l (f a x).
Proof using Type. done. Qed.

Lemma with_manager_twice s m m' : with_manager (with_manager s m) m' = with_manager s m'.
Proof using Type. done. Qed.

Lemma joined_snoc now s0 new p m m' :
  joined now s0 (new ++ [p]) m' = with_manager (join now (joined now s0 new m) p) m'.
Proof using Type.
  unfold joined. rewrite fold_left_snoc, join_manager. symmetry. apply with_manager_twice.
Qed.

(** A state of the dialing: the miner is ready, and the dialed addresses are
    those of its new peers. *)
Record dialing_ok (addrs : list string) (now : Z) (s0 : MinerServer) (rest : list string) (dialed : gset string)
    (m : ChainManager) (new : list Peer) : Prop := {
  do_run : dial_steps addrs (DLoop [] ∅, s0) (DLoop rest dialed, joined now s0 new m);
  do_ready : ready_to_join (joined now s0 new m);
  do_nodup : NoDup (p_Address <$> new);
  do_dialed : forall addr, addr ∈ dialed <-> addr ∈ p_Address <$> new
}.

(** A step of the loop that leaves the miner alone. *)
Lemma dialing_ok_loop addrs now s0 rest rest' dialed m new :
  (forall s, dial_step addrs (DLoop rest dialed, s) (DLoop rest' dialed, s)) ->
  dialing_ok addrs now s0 rest dialed m new -> dialing_ok addrs now s0 rest' dialed m new.
Proof using Type. intros Hs [Hr ???]. split; [|done..]. eapply rtc_r; [exact Hr|apply Hs]. Qed.

Lemma dial_round_run addrs attempt rg now s0 n rest : forall dialed m new dialed' m' new',
  dial_round attempt rg n rest dialed m new = Ret (dialed', m', new') ->
  dialing_ok addrs now s0 rest dialed m new -> dialing_ok addrs now s0 [] dialed' m' new'.
Proof using Type.
  induction rest as [|addr rest IH]; intros dialed m new dialed' m' new' Hrun Hok; simpl in Hrun; [by simplify_eq|].
  case_decide as Hin; [eapply IH; [done|]; eapply dialing_ok_loop; [|done]; intros s; by constructor|].
  destruct (attempt n addr) as [[resp|e]|];
    [|eapply IH; [done|]; eapply dialing_ok_loop; [|done]; intros s; by apply dl_fails..].
  go_inv Hrun. eapply IH; [done|]. destruct Hok as [Hs Hr Hn Hd].
  destruct (join_run addrs rest dialed rg now (joined now s0 new m) resp addr r Hin Hr Hrun0) as [Hs' Hr'].
  rewrite <- joined_snoc in Hs', Hr'. split; [by etransitivity|done| |].
  - rewrite fmap_app. apply NoDup_app. split_and!; [done| |by apply NoDup_singleton].
    intros a Ha ->%list_elem_of_singleton. by apply Hin, Hd.
  - intros a. rewrite fmap_app, elem_of_app, elem_of_union, Hd. set_solver.
Qed.

Lemma dial_rounds_run attempt rg now s0 config fuel : forall n dialed m new m' new',
  let addrs := PeerMinersAddrs config in
  dialed ⊆ (list_to_set addrs : gset string) ->
  dial_rounds attempt rg fuel n addrs dialed m new = Ret (m', new') ->
  dialing_ok addrs now s0 [] dialed m new ->
  exists dialed', dialing_ok addrs now s0 [] dialed' m' new' /\ dialed' ⊆ (list_to_set addrs : gset string) /\
    (length addrs <= size dialed')%nat.
Proof using Type.
  induction fuel as [|fuel IH]; intros n dialed m new m' new' addrs Hsub Hrun Hok; simpl in Hrun; fold addrs in Hrun;
    case_decide; try done.
  - simplify_eq. exists dialed. split_and!; [done|done|lia].
  - go_inv Hrun. destruct r as [[dialed1 m1] new1]. eapply IH; [|done|eapply dial_round_run; [done|]].
    + by eapply dial_round_subset.
    + eapply dialing_ok_loop; [|done]. intros s. by apply dl_round.
  - simplify_eq. exists dialed. split_and!; [done|done|lia].
Qed.

Lemma have_peers_new ps p : have_peers (on_newPeer ps p).1 = true.
Proof using Type.
  apply bool_decide_true. cbn. apply Nat.neq_0_lt_0, map_size_ne_0_lookup. exists (p_MinerID p).
  rewrite lookup_insert. by case_decide.
Qed.

Lemma join_effect now s p : is_Some (worker (ms_loop s)) ->
  let s' := join now s p in
  is_Some (worker (ms_loop s')) /\ isMining (ms_loop s') = true /\ isConnected (ms_server s') = true /\
  ms_threads s' = ms_threads s ++ [NewPeer (p_MinerID p) (p_Address p) now].
Proof using Type.
  intros [w Hw]. cbv zeta. unfold join. rewrite (take_mine_eq _ w) by done.
  split_and!; [by exists w|done| |done]. apply (have_peers_new (ms_peers s) p).
Qed.

(** The new peers have threads; with one, the miner counts as connected and mines. *)
Lemma fold_join now new : forall s, is_Some (worker (ms_loop s)) ->
  ms_threads (fold_left (join now) new s) =
    ms_threads s ++ ((fun p => NewPeer (p_MinerID p) (p_Address p) now) <$> new) /\
  (new <> [] -> isConnected (ms_server (fold_left (join now) new s)) = true /\
     isMining (ms_loop (fold_left (join now) new s)) = true).
Proof using Type.
  induction new as [|p new IH]; intros s Hw; [by rewrite app_nil_r|].
  destruct (join_effect now s p Hw) as (Hw1 & Hm1 & Hc1 & Ht1). rewrite fold_left_cons.
  generalize dependent (join now s p). intros s1 Hw1 Hm1 Hc1 Ht1.
  destruct (IH s1 Hw1) as [Ht Hc]. rewrite Ht, Ht1, <- app_assoc. split; [done|]. intros _.
  destruct new; [done|]. by apply Hc.
Qed.

Lemma NewMinerServer_some nt attempt rg rg' fuel h config now s0 m new :
  boot nt rg h config now = Ret (Ok s0) ->
  startMinerRPC attempt rg' fuel config (ms_manager s0) = Ret (m, new) ->
  exists s, NewMinerServer nt rg h config now (Ok s) /\
    (fun t => p_Address (pt_peer t)) <$> ms_threads s ≡ₚ PeerMinersAddrs config /\
    (PeerMinersAddrs config <> [] -> isConnected (ms_server s) = true /\ isMining (ms_loop s) = true).
Proof using Type.
  intros Hboot Hrun. pose proof (boot_started _ _ _ _ _ _ Hboot) as Hst.
  assert (ready_to_join s0 /\ ms_threads s0 = []) as [Hr Ht0] by (by destruct Hst).
  destruct (dial_rounds_run attempt rg' now s0 config fuel 0 ∅ (ms_manager s0) [] m new)
    as (dialed & [Hs _ Hnd Hd] & Hsub & Hlen); [set_solver|done| |].
  { split; [by destruct s0; apply rtc_refl|by destruct s0|constructor|set_solver]. }
  exists (joined now s0 new m). split; [|].
  { eapply (new_dialed _ _ _ _ _ s0 dialed); [done|]. eapply rtc_r; [exact Hs|]. by apply dl_return. }
  destruct (all_dialed _ _ Hsub Hlen) as [Hnd' Hall].
  assert (p_Address <$> new ≡ₚ PeerMinersAddrs config) as Hperm.
  { apply NoDup_Permutation; [done..|]. intros a. rewrite <- Hd. split; [|apply Hall].
    intros Ha. apply (elem_of_list_to_set (C := gset string)). by apply Hsub. }
  destruct (fold_join now new s0 (rj_worker _ Hr)) as [Ht Hc].
  unfold joined. cbn [ms_threads ms_server ms_loop with_manager]. rewrite Ht, Ht0. split.
  - rewrite <- Hperm, app_nil_l, <- list_fmap_compose. done.
  - intros Hne. apply Hc. intros ->. by apply Permutation_nil_l in Hperm.
Qed.

(** C17: The start of the program, in every interleaving with the threads it
    starts and the calls that come in meanwhile. When [main] waits, it was given
    the settings of one file; no address is configured twice; and every address
    configured there was dialed: it has a peer with a thread of its own, which
    [managePeers] took, and then the manager took over its chain. Conversely, if
    booting succeeds and the peers answer such that dialing them one after the
    other ends, [main] can come to wait, with exactly one thread per configured
    address, and, if there is one, counting as connected and mining. *)
Theorem main_run readFile json_Unmarshal nt rg h now args :
  (forall s, main readFile json_Unmarshal nt rg h now args (Waiting s) ->
   exists fname config s0, args = [fname] /\ LoadSettings json_Unmarshal (readFile fname) = Ok config /\
     started config s0 /\ steps s0 s /\ NoDup (PeerMinersAddrs config) /\
     forall addr, addr ∈ PeerMinersAddrs config -> met s0 s addr) /\
  (forall fname config s0 attempt rg' fuel m new,
   args = [fname] -> LoadSettings json_Unmarshal (readFile fname) = Ok config ->
   boot nt rg h config now = Ret (Ok s0) ->
   startMinerRPC attempt rg' fuel config (ms_manager s0) = Ret (m, new) ->
   exists s, main readFile json_Unmarshal nt rg h now args (Waiting s) /\
     (fun t => p_Address (pt_peer t)) <$> ms_threads s ≡ₚ PeerMinersAddrs config /\
     (PeerMinersAddrs config <> [] -> isConnected (ms_server s) = true /\ isMining (ms_loop s) = true)).
Proof using Type.
  split.
  - intros s Hrun. inversion Hrun as [| | |fname config s1 s' Hargs Hset Hnew Hs]; subst.
    destruct (NewMinerServer_all _ _ _ _ _ _ Hnew) as (s0 & Hst & Hs0 & Hnd & Hall). exists fname, config, s0.
    split_and!; [done..|by eapply steps_trans|done|]. intros addr Ha. eapply met_steps; eauto.
  - intros fname config s0 attempt rg' fuel m new Hargs Hset Hboot Hdial.
    destruct (NewMinerServer_some _ _ _ _ _ _ _ _ _ _ _ Hboot Hdial) as (s & Hnew & Ht & Hc). exists s.
    split_and!; [|done|done]. eapply main_waits; [done..|apply rtc_refl].
Qed.

(** ** Shutdown *)

Lemma close_conns_keeps objs outs : forall ts i t,
  ts !! i = Some t -> exists t', close_conns objs outs ts !! i = Some t' /\ pt_peer t' = pt_peer t /\
    (pt_connClosed t = true -> pt_connClosed t' = true).
Proof using Type.
  induction outs as [|o outs IH]; intros ts i t Hi; [by exists t|]. unfold close_conns. rewrite fold_left_cons.
  assert (exists t1, match o with
    | PCloseConn k => match objs !! k with Some j => alter close_conn j ts | None => ts end
    | _ => ts end !! i = Some t1 /\ pt_peer t1 = pt_peer t /\ (pt_connClosed t = true -> pt_connClosed t1 = true))
    as (t1 & H1 & Hp1 & Hc1).
  { destruct o as [| | | | | | | |k]; try by exists t. destruct (objs !! k) as [j|]; [|by exists t].
    destruct (decide (j = i)) as [->|Hne].
    - exists (close_conn t). rewrite list_lookup_alter, Hi. by case_decide.
    - exists t. rewrite list_lookup_alter. by case_decide. }
  destruct (IH _ i t1 H1) as (t' & H' & Hp' & Hc'). exists t'. split_and!; [done|congruence|auto].
Qed.

Lemma close_conns_closes objs outs k i t : forall ts,
  PCloseConn k ∈ outs -> objs !! k = Some i -> ts !! i = Some t ->
  exists t', close_conns objs outs ts !! i = Some t' /\ pt_peer t' = pt_peer t /\ pt_connClosed t' = true.
Proof using Type.
  intros ts (l1 & l2 & ->)%list_elem_of_split Hk Hi. destruct (close_conns_keeps objs l1 ts i t Hi) as (t1 & H1 & Hp1 & _).
  assert (close_conns objs (l1 ++ PCloseConn k :: l2) ts =
    close_conns objs l2 (alter close_conn i (close_conns objs l1 ts))) as ->.
  { unfold close_conns. by rewrite fold_left_app, fold_left_cons, Hk. }
  destruct (close_conns_keeps objs l2 (alter close_conn i (close_conns objs l1 ts)) i (close_conn t1)) as (t' & H' & Hp' & Hc').
  { rewrite list_lookup_alter, H1. by case_decide. }
  exists t'. split_and!; [done|by rewrite Hp'|by apply Hc'].
Qed.

(** Told to stop while it waits, every thread that [wg] counts returns. *)
Lemma stop_run rg s w w' :
  ms_stop s = true -> ms_ppc s = PSends [] -> ms_lpc s = LSelect -> worker (ms_loop s) = Some w -> Stop w = Ret w' ->
  exists s', steps s s' /\ ms_ppc s' = PStopped /\ ms_lpc s' = LStopped /\ ms_listening s' = false /\
    ms_wstop s' = true /\ ms_threads s' = close_conns (ms_objs s) (on_stop rg (ms_peers s)) (ms_threads s).
Proof using Type.
  intros Hstop Hp Hl Hw Hw'. pose proof (pr_stop s rg Hp Hstop) as S1. set (s1 := with_wg _ _) in S1.
  pose proof (lp_stop s1 w w' Hl Hstop Hw Hw') as S2. set (s2 := with_wg _ _) in S2.
  destruct (ms_listening s) eqn:Hlis.
  - pose proof (sp_listener s2 Hlis Hstop) as S3. set (s3 := with_wg _ _) in S3. exists s3. split; [|done].
    eapply alone; [by apply by_peers, S1|]. eapply alone; [by apply by_loop, S2|].
    eapply alone; [by apply by_stop, S3|]. apply rtc_refl.
  - exists s2. split; [|done]. eapply alone; [by apply by_peers, S1|]. eapply alone; [by apply by_loop, S2|]. apply rtc_refl.
Qed.

Lemma wg_zero s : wg_inv s ->
  0 <= ms_wg s <= 3 /\ (ms_wg s = 0 <-> ms_ppc s = PStopped /\ ms_lpc s = LStopped /\ ms_listening s = false).
Proof using Type.
  unfold wg_inv, live_peers, live_loop, live_listener. intros ->.
  destruct (ms_ppc s), (ms_lpc s), (ms_listening s); (split; [lia|]); (split; [|by intros (? & ? & ?)]);
    intros; try done; exfalso; lia.
Qed.

(** C18: [wg.Wait] returns when the accept loop, [managePeers] and [startMining] have
    returned, and only then; and if a miner is told to shut down while the last
    two are waiting for an event, they can all return: then the worker is stopped
    and the connections to all peers are closed. *)
Theorem shutdown_completes cfg s0 s (Hstart : started cfg s0) (Hrun : steps s0 s) :
  0 <= ms_wg s <= 3 /\
  (ms_wg s = 0 <-> ms_ppc s = PStopped /\ ms_lpc s = LStopped /\ ms_listening s = false) /\
  (ms_stop s = false -> ms_ppc s = PSends [] -> ms_lpc s = LSelect ->
   exists s', steps s s' /\ ms_wg s' = 0 /\ ms_wstop s' = true /\
     forall k p, peers (ms_peers s) !! k = Some p ->
       exists i t, ms_objs s !! k = Some i /\ ms_threads s' !! i = Some t /\ pt_peer t = p /\ pt_connClosed t = true).
Proof using Type.
  pose proof (steps_ok _ _ (started_ok _ _ Hstart) Hrun) as Hok. destruct (wg_zero s (mo_wg _ Hok)) as [Hb Hz].
  split_and!; [lia..|exact Hz|]. intros Hstop Hp Hl. destruct (mo_mining _ Hok) as (Hw & _).
  destruct (stop_run range_fwd (with_stop s true) _ _ eq_refl Hp Hl Hw eq_refl) as (s' & Hs & Hp' & Hl' & Hlis & Hws & Hts).
  assert (steps s s') as Hs'. { eapply alone; [by apply by_stop, sp_close|done]. }
  exists s'. split_and!; [done| |done|].
  - by apply (wg_zero s' (mo_wg _ (steps_ok _ _ Hok Hs'))).
  - intros k p Hk. destruct (mo_peers _ Hok) as [_ Hids Hobjs _ _]. destruct (Hobjs k p Hk) as (i & Hi & t & Ht & Hpt).
    destruct (close_conns_closes (ms_objs s) (on_stop range_fwd (ms_peers s)) k i t (ms_threads s))
      as (t' & Ht' & Hpt' & Hc); [|done..|].
    + unfold on_stop. apply list_elem_of_fmap. exists (k, p). cbn [snd]. rewrite (Hids k p Hk). split; [done|].
      by apply (elem_of_range range_fwd).
    + exists i, t'. rewrite Hts. split_and!; [done|done|congruence|done].
Qed.
End startup.
