(* ===== verification/Examples.v ===== *)
(** A small block chain, built by mining and adding blocks, at which the
    theorems of the development are applied. *)
From S2P Require Import Prelude GoLib Settings Operation Block Pow Blockchain ChainTheory.
From S2P Require Import Ledger LedgerTheory AddBlock QueryTheory Rebuild RFSLedger Worker.
Local Open Scope Z_scope.
Local Open Scope string_scope.

#[local] Existing Instance gob_Operations.
#[local] Existing Instance gob_Blocks.

(** ** A chain of four blocks *)

Definition ex_config : Settings :=
  {| MinedCoinsPerOpBlock := 8; MinedCoinsPerNoOpBlock := 4;
     NumCoinsPerFileCreate := 4; GenOpBlockTimeout := 5;
     GenesisBlockHash := "root"; PowPerOpBlock := 1; PowPerNoOpBlock := 1;
     ConfirmsPerFileCreate := 1; ConfirmsPerFileAppend := 1;
     cfg_MinerID := "A"; PeerMinersAddrs := [];
     IncomingMinersAddr := ""; OutgoingMinersIP := ""; IncomingClientsAddr := "" |}.

Definition op_create : Operation := mkOperation Create "" "f" "A" "1" 10.
Definition op_append : Operation := mkOperation Append "x" "f" "A" "2" 20.

(** [mine ops prev]: a block of miner A over [prev] ([zero_Block] if the search
    fails). *)
Definition mine (ops : list Operation) (prev : string) : Block :=
  match NewBlock 200 ops prev "A" 1 (fun _ => false) 7 with
  | Ret b => b
  | _ => zero_Block
  end.

Definition ex_b1 : Block := Eval vm_compute in mine [] "root".
Definition ex_b2 : Block := Eval vm_compute in mine [op_create] (Hash ex_b1).
Definition ex_b3 : Block := Eval vm_compute in mine [op_append] (Hash ex_b2).
Definition ex_b4 : Block := Eval vm_compute in mine [] (Hash ex_b3).
Definition ex_b5 : Block := Eval vm_compute in mine [] (Hash ex_b4).

(** [AddBlock] on every block of a list. *)
Fixpoint add_blocks (bs : list Block) (h : heap) (bc : Blockchain) : go (heap * Blockchain) :=
  match bs with
  | [] => Ret (h, bc)
  | b :: bs => '(h, bc, _) ← AddBlock range_fwd range_bwd h bc b; add_blocks bs h bc
  end.

Definition ex_genesis : heap * Blockchain := NewBlockchain [] ex_config 0.
Definition ex_build (bs : list Block) : heap * Blockchain :=
  match add_blocks bs ex_genesis.1 ex_genesis.2 with Ret r => r | _ => ex_genesis end.
Definition ex_chain : heap * Blockchain := Eval vm_compute in ex_build [ex_b1; ex_b2; ex_b3; ex_b4].
(** The same chain with one more block. *)
Definition ex_chain' : heap * Blockchain := Eval vm_compute in
  ex_build [ex_b1; ex_b2; ex_b3; ex_b4; ex_b5].

Lemma ex_config_ok : settings_ok ex_config.
Proof. split; unfold is_uint8; simpl; lia. Qed.

Lemma add_blocks_reachable cfg bs h bc h' bc' :
  reachable cfg h bc -> add_blocks bs h bc = Ret (h', bc') -> reachable cfg h' bc'.
Proof.
  revert h bc. induction bs as [|b bs IH]; simpl; intros h bc Hr Hb; [by simplify_eq|].
  go_inv Hb. destruct r as [[h1 bc1] e]. by eapply IH; [eapply reach_add|].
Qed.

Lemma ex_build_reachable bs : reachable ex_config (ex_build bs).1 (ex_build bs).2.
Proof.
  unfold ex_build. assert (reachable ex_config ex_genesis.1 ex_genesis.2) as Hg.
  { by apply (reach_new _ [] 0). }
  destruct (add_blocks bs ex_genesis.1 ex_genesis.2) as [[h bc]| | |] eqn:Hb; try done.
  by eapply add_blocks_reachable.
Qed.

Lemma reachable_wf s : reachable ex_config s.1 s.2 -> wf s.1 s.2.
Proof. intros Hr. apply (ci_wf _ _ (proj1 (reachable_inv _ _ _ ex_config_ok Hr))). Qed.

Lemma ex_chain_reachable : reachable ex_config ex_chain.1 ex_chain.2.
Proof.
  assert (ex_chain = ex_build [ex_b1; ex_b2; ex_b3; ex_b4]) as -> by (vm_compute; reflexivity).
  apply ex_build_reachable.
Qed.

Lemma ex_chain_reachable' : reachable ex_config ex_chain'.1 ex_chain'.2.
Proof.
  assert (ex_chain' = ex_build [ex_b1; ex_b2; ex_b3; ex_b4; ex_b5]) as -> by (vm_compute; reflexivity).
  apply ex_build_reachable.
Qed.

Lemma ex_wf : wf ex_chain.1 ex_chain.2.
Proof. apply reachable_wf, ex_chain_reachable. Qed.
Lemma ex_wf' : wf ex_chain'.1 ex_chain'.2.
Proof. apply reachable_wf, ex_chain_reachable'. Qed.

Lemma ex_chain_config : bc_config ex_chain.2 = ex_config.
Proof. reflexivity. Qed.
Lemma ex_chain_config' : bc_config ex_chain'.2 = ex_config.
Proof. reflexivity. Qed.

#[local] Opaque ex_build ex_chain ex_chain' AddBlock ValidateOperations getLastNodes GetFile NumRecs ListFiles
  CheckOpConfirmed GetPreviousBlocks Marshall UnmarshallBlocks UnmarshallBlockchain.

(** ** Applications *)
Local Abbreviation h4 := (ex_chain.1).
Local Abbreviation bc4 := (ex_chain.2).

Lemma reachable_ledger_safe_witness :
  wf h4 bc4 /\ (0 <= balance ex_config "A" (branch h4 4))%Z.
Proof.
  destruct (reachable_ledger_safe ex_config h4 bc4 ex_config_ok ex_chain_reachable) as [W Hl].
  split; [exact W|]. assert (in_chain bc4 4) as Hin by (exists (Hash ex_b4); vm_compute; reflexivity).
  exact (proj1 (Hl 4%nat Hin) "A").
Defined.

Lemma AddBlock_spec_witness :
  exists h' bc' err, AddBlock range_fwd range_fwd h4 bc4 ex_b5 = Ret (h', bc', err) /\
    err = None /\ wf h' bc'.
Proof.
  assert (settings_ok (bc_config bc4)) as Hcfg by (rewrite ex_chain_config; apply ex_config_ok).
  destruct (AddBlock_spec range_fwd range_fwd h4 bc4 ex_b5 ex_wf Hcfg)
    as (h' & bc' & err & Hadd & _ & _ & Hok).
  exists h', bc', err. assert (err = None) as Herr.
  { transitivity (match AddBlock range_fwd range_fwd h4 bc4 ex_b5 with Ret (_, _, e) => e | _ => None end).
    - by rewrite Hadd.
    - vm_compute. reflexivity. }
  split_and!; [exact Hadd|exact Herr|exact (proj1 (Hok Herr))].
Defined.

Definition op_append2 : Operation := mkOperation Append "y" "f" "A" "3" 30.

Lemma ValidateOperations_spec_witness :
  admissible ex_config (branch h4 4) [op_append2].
Proof.
  assert (settings_ok (bc_config bc4)) as Hcfg by (rewrite ex_chain_config; apply ex_config_ok).
  destruct (ValidateOperations_spec range_fwd range_bwd h4 bc4 [op_append2] (Hash ex_b4) 4
    ex_wf Hcfg) as (valid & ok & Hrun & Hiff & _).
  { vm_compute. reflexivity. }
  rewrite ex_chain_config in Hiff. apply Hiff.
  transitivity (match ValidateOperations range_fwd range_bwd h4 bc4 [op_append2] (Hash ex_b4) with
                Ret (_, ok) => ok | _ => false end).
  - by rewrite Hrun.
  - vm_compute. reflexivity.
Defined.

Lemma getLastNodes_spec_witness :
  exists l0 ls, getLastNodes h4 bc4 = Ret (set_lastNode bc4 l0, l0 :: ls).
Proof. destruct (getLastNodes_spec h4 bc4 ex_wf) as (l0 & ls & H & _).
  exists l0, ls. exact H.
 Defined.

Lemma GetFile_spec_witness :
  exists bc', GetFile h4 bc4 "f" = Ret (bc', (mkFileOps "f" [op_append] false, true)).
Proof.
  destruct (GetFile_spec h4 bc4 "f" ex_wf) as [bc' Hf]. exists bc'. rewrite Hf. vm_compute. reflexivity.
Defined.

Lemma NumRecs_GetFile_witness :
  exists bc1 bc2 n file ok,
    NumRecs h4 bc4 "f" = Ret (bc1, (n, ok)) /\ GetFile h4 bc4 "f" = Ret (bc2, (file, ok)).
Proof.
  destruct (NumRecs_GetFile h4 bc4 "f" ex_wf) as (bc1 & bc2 & n & f & ok & H1 & H2 & _).
  exists bc1, bc2, n, f, ok. exact (conj H1 H2).
Defined.

Local Abbreviation h5 := (ex_chain'.1).
Local Abbreviation bc5 := (ex_chain'.2).

Lemma GetFile_append_only_witness :
  exists bc2 f', GetFile h5 bc5 "f" = Ret (bc2, (f', true)) /\ [op_append] `prefix_of` file_Operations f'.
Proof.
  eapply (GetFile_append_only h4 bc4 h5 bc5 "f" _ (mkFileOps "f" [op_append] false)
    ex_wf ex_wf').
  - by rewrite ex_chain_config, ex_chain_config'.
  - exists [ex_b5]. vm_compute. reflexivity.
  - vm_compute. reflexivity.
Defined.

Lemma ListFiles_spec_witness :
  exists bc' res, ListFiles range_fwd h4 bc4 = Ret (bc', res) /\ "f" ∈ res.
Proof.
  destruct (ListFiles_spec range_fwd h4 bc4 ex_wf) as (bc' & res & Hrun & _ & Hin).
  exists bc', res. split; [exact Hrun|]. apply Hin.
  exists [ex_b3; ex_b2; ex_b1; NewGenesisBlock "root" 0], op_append.
  split_and!; [vm_compute; reflexivity|by left|reflexivity].
Defined.

Lemma CheckOpConfirmed_spec_witness :
  exists bc' r, CheckOpConfirmed h5 bc5 op_append = Ret (bc', r) /\
    (confirmed r = true <->
       OperationID op_append ∈ OperationID <$> chain_ops (longest h5 bc5) /\
       OperationID op_append ∉ OperationID <$> chain_ops
         (take (Z.to_nat (confirms_of (bc_config bc5) op_append + 1)) (longest h5 bc5))).
Proof.
  destruct (CheckOpConfirmed_spec h5 bc5 op_append ex_wf') as (bc' & r & Hrun & _ & Hc & _).
  exists bc', r. exact (conj Hrun Hc).
Defined.

Lemma confirmed_append_readable_witness :
  exists bc2 f, GetFile h5 bc5 "f" = Ret (bc2, (f, true)) /\ op_append ∈ file_Operations f.
Proof.
  eapply (confirmed_append_readable h5 bc5 op_append _ (mkConf true true false) ex_wf').
  - reflexivity.
  - rewrite ex_chain_config'. simpl. lia.
  - intros c Hc. assert (chain_ops (longest h5 bc5) = [op_append; op_create]) as Heq by (vm_compute; reflexivity).
    rewrite Heq in Hc. apply elem_of_cons in Hc as [->|Hc]; [done|].
    apply list_elem_of_singleton in Hc as ->. discriminate.
  - vm_compute. reflexivity.
  - reflexivity.
Defined.

Lemma GetPreviousBlocks_spec_witness :
  GetPreviousBlocks h4 bc4 (Hash ex_b3) 2 = Ret [ex_b3; ex_b3; ex_b2].
Proof.
  rewrite (GetPreviousBlocks_spec h4 bc4 (Hash ex_b3) 2 ex_wf ltac:(lia)).
  vm_compute. reflexivity.
Defined.

#[local] Instance ex_gob_laws : GobLaws (list Block) := gob_countable_laws [].

Lemma Marshall_Unmarshall_roundtrip_witness :
  exists data blocks h2 bc2,
    Marshall range_fwd h4 bc4 = Ret (data, None) /\
    UnmarshallBlocks data = (blocks, None) /\
    UnmarshallBlockchain range_bwd [] blocks = Ret (h2, Ok bc2) /\
    wf h2 bc2 /\ same_chain h4 bc4 h2 bc2.
Proof.
  eapply (Marshall_Unmarshall_roundtrip range_fwd range_bwd h4 bc4 []
    (mkNode (NewGenesisBlock "root" 0) None [1%nat]) ex_wf).
  all: vm_compute; reflexivity.
Defined.

(** ** The worker *)

Definition ex_worker : Worker := NewWorker "A" 1 1.
Definition ex_orders (n : nat) : RangeOrder * RangeOrder := (range_fwd, range_bwd).

Definition ex_mining (s : heap * Blockchain) : go (mining (heap * Blockchain)) :=
  StartMining (fun _ s => s) ex_orders 200 sort_insertion ex_worker s (CaseBatch [op_append2]) 8.

Definition ex_mined (s : heap * Blockchain) : Block :=
  match ex_mining s with Ret m => default zero_Block (mn_minedBlock m) | _ => zero_Block end.
Definition ex_op_block : Block := Eval vm_compute in ex_mined ex_chain.

(** The example chain has one longest branch. *)
Lemma unique_longest_check h bc :
  bool_decide (map_Forall (fun _ l => length (branch h l) = length (longest h bc) ->
    branch h l = longest h bc) (bc_m bc)) = true -> unique_longest (h, bc).
Proof.
  intros Hall%bool_decide_eq_true_1 k bs (l & Hk & ->)%fmap_Some Hlen. exact (Hall k l Hk Hlen).
Qed.

Lemma ex_unique_longest : unique_longest (h4, bc4).
Proof. apply unique_longest_check. vm_compute. reflexivity. Qed.

Lemma mined_batch_accepted_witness :
  Operations ex_op_block <> [] /\ (forall o, o ∈ Operations ex_op_block -> o ∈ [op_append2]) /\
  exists h' bc', AddBlock range_fwd range_fwd h4 bc4 ex_op_block = Ret (h', bc', None) /\
    longest h' bc' = ex_op_block :: longest h4 bc4.
Proof.
  eapply (mined_batch_accepted ex_orders 200 sort_insertion ex_worker h4 bc4 [op_append2] 8 _
    ex_op_block range_fwd range_fwd ex_wf).
  - rewrite ex_chain_config. apply ex_config_ok.
  - apply ex_unique_longest.
  - vm_compute. reflexivity.
  - vm_compute. reflexivity.
  - vm_compute. reflexivity.
  - vm_compute. discriminate.
  - vm_compute. reflexivity.
Defined.

Definition ex_noop_block : Block := Eval vm_compute in
  match mineNoOp 200 ex_worker (fun _ => false) (Hash ex_b4) 8 with Ret b => b | _ => zero_Block end.

Lemma mined_noop_accepted_witness :
  exists h' bc', AddBlock range_fwd range_fwd h4 bc4 ex_noop_block = Ret (h', bc', None) /\
    longest h' bc' = ex_noop_block :: longest h4 bc4.
Proof.
  eapply (mined_noop_accepted 200 ex_worker h4 bc4 (fun _ => false) 8 _ (Hash ex_b4)
    ex_noop_block range_fwd range_fwd ex_wf).
  - rewrite ex_chain_config. apply ex_config_ok.
  - vm_compute. reflexivity.
  - vm_compute. reflexivity.
  - vm_compute. reflexivity.
  - assert (Nonce ex_noop_block = 5) as -> by (vm_compute; reflexivity). unfold maxNonce, MaxInt64. lia.
  - vm_compute. reflexivity.
Defined.

(** ** A fork

    Two blocks on the genesis block: first one of miner B, then [ex_b1] of
    miner A, who has coins on its own branch only. *)
Definition ex_c1 : Block := Eval vm_compute in
  match NewBlock 200 [] "root" "B" 1 (fun _ => false) 7 with Ret b => b | _ => zero_Block end.
Definition ex_fork : heap * Blockchain := Eval vm_compute in ex_build [ex_c1; ex_b1].

Lemma ex_fork_wf : wf ex_fork.1 ex_fork.2.
Proof.
  assert (ex_fork = ex_build [ex_c1; ex_b1]) as -> by (vm_compute; reflexivity).
  apply reachable_wf, ex_build_reachable.
Qed.

#[local] Opaque ex_fork.

(** The batch is admissible exactly where the validation accepts it. *)
Lemma ex_fork_admissible k l :
  bc_m ex_fork.2 !! k = Some l ->
  admissible (bc_config ex_fork.2) (branch ex_fork.1 l) [op_append2] <->
  ld_ValidateOperations range_fwd range_fwd ex_fork [op_append2] k = Ret (ex_fork, ([op_append2], true)).
Proof.
  intros Hk. destruct (law_ValidateOperations range_fwd range_fwd ex_fork [op_append2] k)
    as (s' & valid & ok & Hrun & _ & Hres); [split; [apply ex_fork_wf|apply ex_config_ok]|].
  simpl in Hres. rewrite Hk in Hres. simpl in Hres. destruct Hres as ([H1 H2] & Hp & _). split.
  - intros Hadm. assert (ok = true) as -> by auto. rewrite Hrun.
    pose proof (proj1 (Permutation_singleton_r _ _) (Hp eq_refl)) as ->. simpl in Hrun. go_inv Hrun. by simplify_eq.
  - intros Heq. rewrite Hrun in Heq. simplify_eq. auto.
Qed.

(** Miner A can pay its operation after [ex_b1] only, the first of the two last
    blocks. *)
Lemma fork_batch_rejected_witness :
  exists m blk err, ex_mining ex_fork = Ret m /\ mn_minedBlock m = Some blk /\
    PreviousHash blk = Hash ex_c1 /\ Operations blk ≡ₚ [op_append2] /\
    AddBlock range_fwd range_bwd ex_fork.1 ex_fork.2 blk = Ret (ex_fork.1, ex_fork.2, Some err).
Proof.
  assert (exists m, ex_mining ex_fork = Ret m) as [m E] by (eexists; vm_compute; reflexivity).
  exists m.
  destruct (fork_batch_rejected ex_orders 200 sort_insertion ex_worker ex_fork.1 ex_fork.2
    (set_lastNode ex_fork.2 2) ex_b1 ex_c1 2 1 [op_append2] 8 m range_fwd range_bwd ex_fork_wf)
    as (blk & err & Hm & Hp & Ho & Ha).
  - apply ex_config_ok.
  - vm_compute. reflexivity.
  - vm_compute. reflexivity.
  - vm_compute. reflexivity.
  - apply (ex_fork_admissible (Hash ex_b1)); vm_compute; reflexivity.
  - change (~ admissible (bc_config ex_fork.2) (branch ex_fork.1 1) [op_append2]).
    rewrite (ex_fork_admissible (Hash ex_c1)) by (vm_compute; reflexivity). vm_compute. discriminate.
  - exact E.
  - assert ((FilterInvalidOperations sort_insertion [op_append2]).2 = [op_append2]) as Hf
      by (vm_compute; reflexivity).
    rewrite Hf in Ho. exists blk, err. exact (conj E (conj Hm (conj Hp (conj Ho Ha)))).
Defined.
