(* ===== verification/Scenarios.v ===== *)
(** The example chain in the hands of the network: managers, servers, batches
    and peers at which the theorems about them are applied. *)
From S2P Require Import Prelude GoLib Settings Operation Block Pow Blockchain ChainTheory.
From S2P Require Import Ledger LedgerTheory AddBlock QueryTheory Rebuild RFSLedger Worker Resolver Manager.
From S2P Require Import Rfslib Server Client Peers Batch Dial Examples.
Local Open Scope Z_scope.
Local Open Scope string_scope.

#[local] Existing Instance gob_Operation.
#[local] Existing Instance gob_Operations.
#[local] Existing Instance gob_Blocks.

(** ** The manager *)

Definition manager_of (s : heap * Blockchain) : ChainManager := NewChainManager s.1 s.2 ex_config.

Lemma manager_chain_safe_witness :
  ledger_safe ex_config (m_heap (manager_of ex_genesis)) (blockchain (manager_of ex_genesis)).
Proof.
  apply (manager_chain_safe ex_config (manager_of ex_genesis) ex_config_ok).
  apply (mreach_new ex_config [] 0). reflexivity.
Defined.

(** A miner that has only [ex_b1] is flooded [ex_b4]. *)
Definition ex_behind : heap * Blockchain := Eval vm_compute in ex_build [ex_b1].

Lemma ex_behind_reachable : reachable ex_config ex_behind.1 ex_behind.2.
Proof.
  assert (ex_behind = ex_build [ex_b1]) as -> by (vm_compute; reflexivity). apply ex_build_reachable.
Qed.

Lemma ex_behind_ok : l_ok ex_behind.
Proof. split; [apply reachable_wf, ex_behind_reachable|exact ex_config_ok]. Qed.

Lemma ex_ok : l_ok ex_chain.
Proof. split; [apply ex_wf|exact ex_config_ok]. Qed.
Lemma ex_ok' : l_ok ex_chain'.
Proof. split; [apply ex_wf'|exact ex_config_ok]. Qed.

Lemma peer_download_catches_up_witness :
  exists m1 blocks m2 m3 l,
    on_flooded (manager_of ex_behind) ex_b4 = Ret (m1, [OutDownloadBlock ex_b4]) /\
    GetPreviousBlocks_oldest_first (manager_of ex_chain') (PreviousHash ex_b4) 500 = Ret blocks /\
    on_downloaded m1 blocks = Ret (m2, []) /\
    drain range_fwd range_bwd 3000 m2 = Ret (m3, (([ex_b2; ex_b3] ++ [ex_b4])%list ≫= announce)) /\
    in_chain (blockchain m3) l /\ branch (m_heap m3) l = branch ex_chain'.1 4.
Proof.
  apply (peer_download_catches_up range_fwd range_bwd 3000 (manager_of ex_behind) (manager_of ex_chain')
    ex_b4 1 4 [ex_b2; ex_b3]).
  - exact ex_behind_ok.
  - exact (proj1 (reachable_inv _ _ _ ex_config_ok ex_chain_reachable')).
  - reflexivity.
  - vm_compute. reflexivity.
  - exists (Hash ex_b1). vm_compute. reflexivity.
  - vm_compute. reflexivity.
  - discriminate.
  - simpl. lia.
  - intros x Hx. rewrite elem_of_app, !elem_of_cons, elem_of_nil in Hx.
    destruct Hx as [[->|[->|[]]]|[->|[]]]; vm_compute; reflexivity.
  - reflexivity.
  - reflexivity.
  - reflexivity.
  - apply not_elem_of_empty.
  - simpl. lia.
Defined.

Definition ex_waiting : ChainManager := with_replay (manager_of ex_behind) [ex_b4] ∅.

Lemma second_download_panics_witness :
  exists m', on_downloaded ex_waiting [ex_b3] = Ret (m', []) /\ on_downloaded m' [ex_b3] = Panic.
Proof.
  eexists. split; [reflexivity|]. eapply (second_download_panics ex_waiting [ex_b3] _ [] [ex_b3]). reflexivity.
Defined.

(** ** The server *)

(** A connected server that knows the file and waits for the two operations. *)
Definition ex_server : Server :=
  mkServer "" "A" {["f" := tt]} {["1" := mkPending op_create 0; "2" := mkPending op_append 1]} true 2.

Lemma ex_server_ok : server_ok ex_server.
Proof. intros i p. simpl. rewrite lookup_insert, lookup_singleton. repeat case_decide; naive_solver. Qed.

(** On the chain of five blocks both are confirmed. *)
Definition ex_others (received : bool) : Others := mkOthers true (fun _ => true) (fun _ => received) true true.

Lemma checkConfirmedOperations_spec_witness :
  (exists l' s' outs, checkConfirmedOperations range_fwd (ex_others true) ex_server ex_chain' = Ret (l', (s', outs)) /\
    clientOps s' !! "2" = None /\ SReady 1 true ∈ outs) /\
  checkConfirmedOperations range_fwd (ex_others false) ex_server ex_genesis = Stuck.
Proof.
  split.
  - destruct (checkConfirmedOperations_spec range_fwd (ex_others true) ex_server ex_chain' ex_server_ok ex_ok')
      as [Hrun _].
    destruct Hrun as (l' & s' & outs & Hrun & _ & _ & Hops & Hready & _); [by split|].
    exists l', s', outs. split; [exact Hrun|]. split.
    + rewrite Hops. vm_compute. reflexivity.
    + apply Hready. exists (mkPending op_append 1). split; [by exists "2"|]. vm_compute. done.
  - apply (checkConfirmedOperations_spec range_fwd (ex_others false) ex_server ex_genesis ex_server_ok).
    + split; [|exact ex_config_ok]. apply reachable_wf. apply (ex_build_reachable []).
    + right. left. exists "1", (mkPending op_create 0). split; [reflexivity|].
      intros [_ Hr]. assert (false = true) by (apply Hr; vm_compute; reflexivity). discriminate.
Defined.

Lemma listing_is_ledger_witness :
  exists l' s' fnames, updateConfirmedFiles range_fwd ex_server ex_chain = Ret (l', s') /\
    server_ListFiles range_bwd s' = inr fnames /\ "f" ∈ fnames.
Proof.
  destruct (listing_is_ledger range_fwd range_bwd ex_server ex_chain ex_ok eq_refl)
    as (l' & s' & fnames & Hrun & _ & Hlist & _ & Hin).
  exists l', s', fnames. split; [exact Hrun|]. split; [exact Hlist|]. apply Hin.
  exists [ex_b3; ex_b2; ex_b1; NewGenesisBlock "root" 0], op_append.
  split; [vm_compute; reflexivity|]. split; [by left|reflexivity].
Defined.

(** Calls that meet the ledger [l]. *)
Definition ex_meets (l : heap * Blockchain) : Meets (heap * Blockchain) :=
  {| at_order := range_fwd; at_time := 30; at_ledger := l; at_wait _ := None; at_polls := [l] |}.

Lemma client_TotalRecs_bound_witness :
  exists n, rfs_TotalRecs (connected_to ex_server (ex_meets ex_chain)) "f" = Ret (inr n) /\ n = 1.
Proof.
  destruct (client_TotalRecs_bound ex_server (ex_meets ex_chain) "f" (mkFileOps "f" [op_append] false) ex_ok eq_refl)
    as (n & Hrun & _ & _ & Hn).
  - exists tt. reflexivity.
  - vm_compute. reflexivity.
  - exists n. split; [exact Hrun|]. apply Hn. unfold MaxUint16. simpl. lia.
Defined.

(** Appending a record to the file. *)
Definition ex_new_op : Operation := Eval vm_compute in NewOperation Append "A" "f" "y" 30.
Definition ex_r5 : Block := Eval vm_compute in mine [ex_new_op] (Hash ex_b4).
Definition ex_r6 : Block := Eval vm_compute in mine [] (Hash ex_r5).
Definition ex_r7 : Block := Eval vm_compute in mine [] (Hash ex_r6).
Definition ex_grown : heap * Blockchain := Eval vm_compute in
  ex_build [ex_b1; ex_b2; ex_b3; ex_b4; ex_r5; ex_r6; ex_r7].
Definition ex_info : AppendRecordInfo := {| ar_Data := "y"; ar_Fname := "f" |}.

Lemma ex_grown_ok : l_ok ex_grown.
Proof.
  split; [|exact ex_config_ok]. apply reachable_wf.
  assert (ex_grown = ex_build [ex_b1; ex_b2; ex_b3; ex_b4; ex_r5; ex_r6; ex_r7]) as -> by (vm_compute; reflexivity).
  apply ex_build_reachable.
Qed.

Lemma ex_new_op_once c :
  c ∈ chain_ops (l_longest ex_grown) -> OperationID c = OperationID (NewOperation Append "A" "f" "y" 30) ->
  c = NewOperation Append "A" "f" "y" 30.
Proof.
  assert (chain_ops (l_longest ex_grown) = [ex_new_op; op_append; op_create]) as -> by (vm_compute; reflexivity).
  assert (NewOperation Append "A" "f" "y" 30 = ex_new_op) as -> by (vm_compute; reflexivity).
  rewrite !elem_of_cons, elem_of_nil. intros [->|[->|[->|[]]]] Hid; [reflexivity|exfalso; discriminate Hid..].
Qed.

Lemma append_then_read_witness :
  exists s' i, AppendRecord ex_server ex_chain ex_info 30 (fun _ => Some (true, ex_grown))
      = Ret (s', [SReceivedOp (NewOperation Append "A" "f" "y" 30)], inr i) /\
    ReadRecord ex_server [ex_grown] {| rr_RecNum := i; rr_Fname := "f" |} = Ret (inr (copy_record "y")).
Proof.
  destruct (append_then_read ex_server ex_chain ex_grown ex_grown "f" "y" 30 (fun _ => Some (true, ex_grown))
    ex_ok ex_grown_ok ex_grown_ok eq_refl) as (s' & i & Happ & _ & Hread & _).
  - exists tt. reflexivity.
  - vm_compute. discriminate.
  - reflexivity.
  - vm_compute. reflexivity.
  - exact ex_new_op_once.
  - reflexivity.
  - done.
  - exists s', i. split; [exact Happ|]. apply Hread; [reflexivity|]. exists tt. reflexivity.
Defined.

Definition ex_confirmed : Meets (heap * Blockchain) :=
  {| at_order := range_fwd; at_time := 30; at_ledger := ex_chain; at_wait _ := Some (true, ex_grown); at_polls := [] |}.

Lemma client_append_then_read_witness :
  exists n, rfs_AppendRec (connected_to ex_server ex_confirmed) "f" "y" = Ret (inr n) /\
    rfs_ReadRec (connected_to ex_server (ex_meets ex_grown)) "f" n = Ret (inr (copy_record "y")).
Proof.
  destruct (client_append_then_read ex_server ex_server ex_confirmed (ex_meets ex_grown) ex_grown ex_grown [] "f" "y"
    ex_ok ex_grown_ok ex_grown_ok eq_refl eq_refl) as (n & Happ & Hread & _).
  - exists tt. reflexivity.
  - reflexivity.
  - exists tt. reflexivity.
  - vm_compute. discriminate.
  - vm_compute. discriminate.
  - reflexivity.
  - vm_compute. reflexivity.
  - exact ex_new_op_once.
  - reflexivity.
  - done.
  - exists n. exact (conj Happ Hread).
Defined.

Lemma ex_confirmed_ok : meets_ok ex_confirmed.
Proof.
  split; [exact ex_ok|apply Forall_nil_2|]. intros op b l Hw. simpl in Hw. injection Hw as _ <-. exact ex_grown_ok.
Qed.

(** An append to an unknown file is refused; on a lost connection the client
    cannot even count the records of a file that exists. *)
Lemma client_errors_witness :
  rfs_AppendRec (client_over None ex_server ex_confirmed) "g" "y"
    = Ret (inl (ServerError (Error (FileDoesNotExistError "g")))) /\
  rfs_TotalRecs (client_over (Some "connection is shut down") ex_server ex_confirmed) "f"
    = Ret (inl (RpcError "connection is shut down")).
Proof.
  split.
  - destruct (client_errors None ex_server ex_confirmed ex_confirmed_ok) as (_ & _ & _ & _ & Happ).
    apply (Happ "g" "y"). exists (FileDoesNotExistError "g"). split; [|reflexivity]. apply append_unknown; reflexivity.
  - destruct (client_errors (Some "connection is shut down") ex_server ex_confirmed ex_confirmed_ok) as (_ & _ & Htot & _).
    exact (Htot "f").
Defined.

(** ** Batches and the mining loop *)

Definition ex_op3 : Operation := mkOperation Append "z" "f" "A" "3" 40.

Lemma batches_sound_witness :
  exists l' b outs, on_receivedOp 5 range_fwd range_fwd range_fwd new_batch ex_server ex_chain ex_op3
      = Ret (l', ex_server, b, outs) /\
    C b = CRunning /\ exists b' outs', on_tick range_fwd b = Some (b', outs') /\ finals outs' = [[ex_op3]].
Proof.
  set (b := mkBatch {["3" := ex_op3]} CRunning false).
  set (l' := (ex_chain.1, set_lastNode ex_chain.2 4)).
  assert (on_receivedOp 5 range_fwd range_fwd range_fwd new_batch ex_server ex_chain ex_op3
    = Ret (l', ex_server, b, [])) as Hop by (vm_compute; reflexivity).
  exists l', b, []. split; [exact Hop|].
  destruct (batches_sound (L := heap * Blockchain) 5 b [] [(ex_chain, ex_op3)]) as (_ & _ & Htick & _).
  - exact (run_op 5 _ _ _ _ _ _ _ _ _ _ _ [] [] (run_start 5) ex_ok Hop).
  - destruct Htick as [Hc Ht]; [lia|discriminate|]. split; [exact Hc|].
    destruct (Ht range_fwd) as (b' & outs' & Hrun & _ & Hfin). exists b', outs'. split; [exact Hrun|].
    rewrite Hfin. vm_compute. reflexivity.
Defined.

(** The client of [ex_server] asks to create the file that exists. *)
Lemma refusal_blocks_witness :
  exists s' b', on_receivedOp 5 range_fwd range_fwd range_fwd new_batch ex_server ex_chain op_create
      = Ret (ex_chain, s', b', [BReady 0 false]) /\
    on_receivedOp 5 range_fwd range_fwd range_fwd b' ex_server ex_chain ex_op3 = Stuck.
Proof.
  apply (refusal_blocks 5 range_fwd range_fwd range_fwd new_batch ex_server ex_chain op_create
    (mkPending op_create 0) ex_op3 ex_chain ex_server).
  - reflexivity.
  - reflexivity.
  - reflexivity.
  - exists tt. reflexivity.
  - reflexivity.
  - reflexivity.
Defined.

Lemma zero_nonce_block_dropped_witness :
  exists blk, NewBlock 1 [] "root" "A" 0 (fun _ => false) 7 = Ret blk /\
    on_finishedMining (mkLoop true None) blk = (mkLoop true None, []).
Proof.
  eexists. split; [vm_compute; reflexivity|].
  eapply (zero_nonce_block_dropped 0 (mkLoop true None) [] "root" "A" (fun _ => false) 7).
  - reflexivity.
  - reflexivity.
  - vm_compute. reflexivity.
Defined.

(** ** Joining *)

Definition ex_resolve (addr : string) : result string := Ok addr.
Definition ex_dial (addr : string) : option string := None.

Lemma DialPeer_adopts_witness :
  exists blocks m' blocks', GetBlocks range_fwd ex_chain.1 ex_chain.2 = Ret blocks /\
    DialPeer ex_resolve ex_dial range_bwd range_fwd ex_config (manager_of ex_genesis) (mkPeerInfo "x:1" "B" blocks)
    = Ret (m', [mkPeer "B" "x:1"], Ok (mkPeerResponse "A" blocks')) /\
    same_chain ex_chain.1 ex_chain.2 (m_heap m') (blockchain m').
Proof.
  set (blocks := match GetBlocks range_fwd ex_chain.1 ex_chain.2 with Ret bs => bs | _ => [] end).
  assert (GetBlocks range_fwd ex_chain.1 ex_chain.2 = Ret blocks) as Hb by (vm_compute; reflexivity).
  destruct (DialPeer_adopts ex_resolve ex_dial range_fwd range_bwd range_fwd ex_config (manager_of ex_genesis) "x:1"
    ex_chain.1 ex_chain.2 (mkNode (NewGenesisBlock "root" 0) None [1%nat]) "x:1" "B" blocks ex_wf)
    as (m' & blocks' & Hrun & _ & Hsame & _).
  - vm_compute. reflexivity.
  - reflexivity.
  - vm_compute. reflexivity.
  - exact Hb.
  - vm_compute. lia.
  - reflexivity.
  - reflexivity.
  - exists blocks, m', blocks'. exact (conj Hb (conj Hrun Hsame)).
Defined.

Lemma DialPeer_blocks_witness :
  DialPeer ex_resolve ex_dial range_fwd range_fwd ex_config (manager_of ex_genesis)
    (mkPeerInfo "x:1" "B" [ex_b2; ex_b3]) = Stuck.
Proof.
  eapply (DialPeer_blocks ex_resolve ex_dial range_fwd range_fwd ex_config (manager_of ex_genesis) "x:1").
  - reflexivity.
  - reflexivity.
  - simpl. lia.
  - vm_compute. reflexivity.
Defined.

Definition ex_repeated : Settings :=
  {| MinedCoinsPerOpBlock := 8; MinedCoinsPerNoOpBlock := 4;
     NumCoinsPerFileCreate := 4; GenOpBlockTimeout := 5;
     GenesisBlockHash := "root"; PowPerOpBlock := 1; PowPerNoOpBlock := 1;
     ConfirmsPerFileCreate := 1; ConfirmsPerFileAppend := 1;
     cfg_MinerID := "A"; PeerMinersAddrs := ["x:1"; "x:1"];
     IncomingMinersAddr := ""; OutgoingMinersIP := ""; IncomingClientsAddr := "" |}.

Lemma startMinerRPC_repeated_witness :
  startMinerRPC (fun _ _ => None) range_fwd 10 ex_repeated (manager_of ex_genesis)
  <> Ret (manager_of ex_genesis, []).
Proof.
  apply (startMinerRPC_repeated (fun _ _ => None) range_fwd 10 ex_repeated).
  intros Hnd. simpl in Hnd. apply NoDup_cons in Hnd as [Hn _]. apply Hn. by left.
Defined.
