(* ===== verification/MinerScenarios.v ===== *)
(** Runs of a whole miner, from its start, at which the theorems about the
    threads are applied: a peer dials, clients call, blocks are flooded. *)
From S2P Require Import Prelude GoLib Settings Operation Block Pow Blockchain ChainTheory.
From S2P Require Import Ledger LedgerTheory AddBlock Rebuild RFSLedger Worker Resolver Manager.
From S2P Require Import Rfslib Server Peers Batch Dial Threads Miner MinerTheory Deadlock Rounds Startup.
From S2P Require Import Examples Scenarios.
Local Open Scope Z_scope.
Local Open Scope string_scope.

#[local] Existing Instance gob_Operation.
#[local] Existing Instance gob_Operations.

(** A run is given by its states; each was computed. *)
Definition adoptingb (s : MinerServer) : bool :=
  match ms_mpc s with
  | MSends outs => existsb (fun o => match o with OutSyncDone => true | _ => false end) outs
  | MDead => false
  end.

Lemma not_adopting s : adoptingb s = false -> ~ adopting s.
Proof.
  intros Hb (outs & Hm & Hin). unfold adoptingb in Hb. rewrite Hm in Hb. apply not_true_iff_false in Hb. apply Hb.
  apply existsb_exists. exists OutSyncDone. split; [by apply list_elem_of_In|done].
Qed.

Lemma run_alone s' s s1 s2 :
  thread_step s Tau s1 -> s1 = s2 -> adoptingb s2 = false -> own_steps s2 s' -> own_steps s s'.
Proof. intros Hs <- Ha Hr. eapply rtc_l; [split; [by apply step_alone|by apply not_adopting]|done]. Qed.

Lemma run_meet s' s m s1 s2 s3 :
  thread_step s (Snd m) s1 -> thread_step s1 (Rcv m) s2 -> s2 = s3 -> adoptingb s3 = false -> own_steps s3 s' ->
  own_steps s s'.
Proof. intros Hs1 Hs2 <- Ha Hr. eapply rtc_l; [split; [by eapply step_meet|by apply not_adopting]|done]. Qed.

Lemma own_trans s1 s2 s3 : own_steps s1 s2 -> own_steps s2 s3 -> own_steps s1 s3.
Proof. unfold own_steps. intros H12 H23. by etrans. Qed.

Ltac evaluated := intros; first [vm_compute; reflexivity | vm_compute; lia].

(** The next state of a run is computed from a step [c], or two halves. *)
Ltac next_by c := refine c; evaluated.
Tactic Notation "alone" uconstr(c) := eapply run_alone; [next_by c|evaluated|evaluated|].
Tactic Notation "meet" uconstr(c) "and" uconstr(d) :=
  eapply run_meet; [next_by c|next_by d|evaluated|evaluated|].

(** ** The start *)

(** Files are free and confirmed by the block they are in. *)
Definition free_config : Settings :=
  {| MinedCoinsPerOpBlock := 8; MinedCoinsPerNoOpBlock := 4;
     NumCoinsPerFileCreate := 0; GenOpBlockTimeout := 5;
     GenesisBlockHash := "root"; PowPerOpBlock := 1; PowPerNoOpBlock := 1;
     ConfirmsPerFileCreate := 0; ConfirmsPerFileAppend := 0;
     cfg_MinerID := "A"; PeerMinersAddrs := [];
     IncomingMinersAddr := ":1"; OutgoingMinersIP := ""; IncomingClientsAddr := ":2" |}.

Lemma free_config_ok : settings_ok free_config.
Proof. split; unfold is_uint8; simpl; lia. Qed.

Definition ex_net : Net :=
  {| net_resolve a := Ok a; net_registerClients := None; net_registerMiners := None; net_listen _ := None |}.

Definition run_0 : MinerServer := Eval vm_compute in
  match boot ex_net range_fwd [] free_config 0 with
  | Ret (Ok s) => s
  | _ => new_miner free_config (manager_of ex_genesis) ex_server
  end.

Lemma run_0_started : started free_config run_0.
Proof. apply (boot_started ex_net range_fwd [] free_config 0). vm_compute. reflexivity. Qed.

(** ** A peer joins *)

Definition B : Peer := mkPeer "B" "x:1".
Definition joined_0 : MinerServer := Eval vm_compute in
  let ps := (on_newPeer (ms_peers run_0) B).1 in
  take_mine (with_server (with_handlers (with_peers (with_objs (with_threads run_0 [NewPeer "B" "x:1" 0])
    {["B" := 0%nat]}) ps) [[]]) (updateConnectedStatus (ms_server run_0) true)).

Lemma run_joined : own_steps run_0 joined_0.
Proof.
  alone (by_call _ _ _ (cl_DialPeer run_0 (mkPeerInfo "x:1" "B" []) "x:1" 0)).
  meet (by_call _ _ _ (cl_send _ 0 _ _ _)) and (by_peers _ _ _ (pr_newPeer _ B 0 _)).
  alone (by_peers _ _ _ (pr_mine _ _ _ _)).
  alone (by_loop _ _ _ (lp_mine _ _ _ _ _ _)).
  meet (by_peers _ _ _ (pr_havePeers _ _ _ _)) and (by_status _ _ _ (st_havePeers _ _)).
  apply rtc_refl.
Qed.

(** ** A block is flooded *)

(** What the call leads to. *)
Definition deliver (s : MinerServer) (req : FloodBlockReq) : MinerServer :=
  with_ppc (with_manager (with_peers (spawn s []) (on_receivedBlock (ms_peers s) req).1)
    (with_received (ms_manager s) (receiveFloodedBlock (ms_manager s) ++ [fb_Block req])%list)) (PSends []).

Lemma deliver_run s req s' :
  ms_ppc s = PSends [] -> adoptingb s = false ->
  (length (receiveFloodedBlock (ms_manager s)) < receiveFloodedBlock_cap)%nat -> deliver s req = s' ->
  own_steps s s'.
Proof.
  intros Hp Ha Hcap <-. set (s1 := spawn s [HSend (MReceivedBlock req)]).
  assert (ms_handlers s1 !! length (ms_handlers s) = Some [HSend (MReceivedBlock req)]) as Hh by (by apply list_lookup_middle).
  set (s2 := set_handler s1 (length (ms_handlers s)) []).
  eapply (run_alone _ _ _ s1); [apply by_call, (cl_FloodBlock s req)|done|done|].
  eapply (run_meet _ _ _ s2 _ (peers_case s2 (on_receivedBlock (ms_peers s) req)));
    [by apply by_call, (cl_send s1)|by apply by_peers, (pr_receivedBlock s2)|done|done|].
  eapply (run_alone _ _ _ (deliver s req)); [by apply by_peers, (pr_receiveFlooded (peers_case s2 _) (fb_Block req) [])| |done|apply rtc_refl].
  unfold deliver, with_ppc, with_manager, with_peers. cbn. by rewrite insert_last.
Qed.

(** The manager takes a flooded block, then adds it. *)
Definition pull (s : MinerServer) : MinerServer :=
  match receiveFloodedBlock (ms_manager s) with
  | b :: q => manager_case s (on_flooded (with_received (ms_manager s) q) b)
  | [] => s
  end.

Definition add (s : MinerServer) : MinerServer :=
  match addBlock (ms_manager s) with
  | b :: q => manager_case s (on_add range_fwd range_fwd (with_addBlock (ms_manager s) q) b)
  | [] => s
  end.

Lemma pull_run s s' : ms_mpc s = MSends [] -> pull s = s' -> adoptingb s' = false -> own_steps s s'.
Proof.
  intros Hm <- Ha. destruct (receiveFloodedBlock (ms_manager s)) as [|b q] eqn:Hq.
  - unfold pull. rewrite Hq. apply rtc_refl.
  - eapply (run_alone _ _ _ (pull s)); [by apply by_manager, mg_flooded| |done|apply rtc_refl]. unfold pull. by rewrite Hq.
Qed.

Lemma add_run s s' : ms_mpc s = MSends [] -> add s = s' -> adoptingb s' = false -> own_steps s s'.
Proof.
  intros Hm <- Ha. destruct (addBlock (ms_manager s)) as [|b q] eqn:Hq.
  - unfold add. rewrite Hq. apply rtc_refl.
  - eapply (run_alone _ _ _ (add s)); [by apply by_manager, (mg_add s range_fwd range_fwd)| |done|apply rtc_refl]. unfold add. by rewrite Hq.
Qed.

(** ** A client creates a file *)

Definition op_f : Operation := Eval vm_compute in NewOperation Create "A" "f" "" 10.
Definition blk_f : Block := Eval vm_compute in mine [op_f] "root".
Definition blk_2 : Block := Eval vm_compute in mine [] (Hash blk_f).

(** The call has submitted its operation. *)
Definition submitted : MinerServer := Eval vm_compute in
  with_server (spawn joined_0 [HSend (MReceivedOp op_f); HReply op_f 0]) (submit (ms_server joined_0) op_f).1.
(** The peer has flooded a block with the operation; the manager has it at hand. *)
Definition flooded : MinerServer := Eval vm_compute in deliver submitted (mkFloodBlock blk_f "B").
Definition at_hand : MinerServer := Eval vm_compute in pull flooded.

Lemma run_submitted : own_steps run_0 submitted.
Proof.
  eapply own_trans; [exact run_joined|].
  alone (by_call _ _ _ (cl_CreateFile _ range_fwd "f" 10 _ _)).
  alone (by_call _ _ _ (cl_submit _ 1 op_f [] _ _)). apply rtc_refl.
Qed.

Lemma run_at_hand : own_steps run_0 at_hand.
Proof.
  eapply own_trans; [exact run_submitted|].
  eapply (own_trans _ flooded); [apply (deliver_run submitted (mkFloodBlock blk_f "B")); evaluated|].
  apply pull_run; evaluated.
Qed.

(** Of the three messages about an added block, the first wakes the check, the
    others go to [managePeers], which has nobody to send the block to. *)
Ltac announced :=
  meet (by_manager _ _ _ (mg_send _ _ _ _ _ _)) and (by_check _ _ _ (ck_added _ _));
  meet (by_manager _ _ _ (mg_send _ _ _ _ _ _)) and (by_peers _ _ _ (pr_sendBlock _ range_fwd _ _));
  meet (by_manager _ _ _ (mg_send _ _ _ _ _ _)) and (by_peers _ _ _ (pr_continueMining _ _)).

(** The next block confirms the operation, and the call returns. *)
Lemma run_answered : exists s, own_steps run_0 s /\ ms_replies s = [(op_f, RCreated (inr true))].
Proof.
  eexists. split.
  - eapply own_trans; [exact run_at_hand|].
    eapply own_trans; [apply add_run; [evaluated|evaluated|evaluated]|].
    announced. alone (by_peers _ _ _ (pr_mine _ _ _ _)).
    alone (by_check _ _ _ (ck_lock _ range_fwd _ _)).
    alone (by_check _ _ _ (ck_one _ _ (mkPending op_f 0) _ _ _ _ _ _ _)).
    alone (by_check _ _ _ (ck_unlock _ _ _)).
    alone (by_check _ _ _ (ck_delete _ _ _ _)).
    meet (by_check _ _ _ (ck_notify _ _)) and (by_update _ _ _ (up_wake _ _)).
    eapply own_trans; [apply (deliver_run _ (mkFloodBlock blk_2 "B")); evaluated|].
    eapply own_trans; [apply pull_run; [evaluated|evaluated|evaluated]|].
    eapply own_trans; [apply add_run; [evaluated|evaluated|evaluated]|].
    meet (by_manager _ _ _ (mg_send _ _ _ _ _ _)) and (by_check _ _ _ (ck_added _ _)).
    alone (by_check _ _ _ (ck_lock _ range_fwd _ _)).
    alone (by_check _ _ _ (ck_one _ _ (mkPending op_f 0) _ _ _ _ _ _ _)).
    meet (by_call _ _ _ (cl_send _ 1 _ _ _)) and (by_batch _ _ _ (bt_receive _ op_f _)).
    alone (by_call _ _ _ (cl_created _ 1 op_f 0 [] true _ _ _)). apply rtc_refl.
  - reflexivity.
Qed.

(** ** Applications *)

Lemma miner_refines_manager_witness :
  ledger_safe free_config (m_heap (ms_manager at_hand)) (blockchain (ms_manager at_hand)).
Proof. exact (proj2 (miner_refines_manager free_config run_0 at_hand free_config_ok run_0_started run_at_hand)). Defined.

Lemma miner_state_ok_witness : wg_inv at_hand /\ server_inv at_hand.
Proof.
  destruct (miner_state_ok free_config run_0 at_hand run_0_started (own_steps_steps _ _ run_at_hand))
    as (Hw & _ & _ & _ & _ & Hs). exact (conj Hw Hs).
Defined.

Lemma replies_sound_witness :
  exists s s1, own_steps run_0 s1 /\ own_steps s1 s /\ ms_replies s = [(op_f, RCreated (inr true))] /\
    confirmed_at free_config (l_longest (ms_manager s1)) op_f.
Proof.
  destruct run_answered as (s & Hrun & Hr).
  destruct (replies_sound free_config run_0 s op_f (RCreated (inr true)) free_config_ok run_0_started Hrun)
    as (s1 & H1 & H2 & Hc).
  - rewrite Hr. by left.
  - reflexivity.
  - exists s, s1. exact (conj H1 (conj H2 (conj Hr Hc))).
Defined.

(** ** The round of the block *)

Definition block_added : MinerServer := Eval vm_compute in add at_hand.

Lemma run_block_added : own_steps run_0 block_added.
Proof. eapply own_trans; [exact run_at_hand|]. apply add_run; evaluated. Qed.

Lemma run_l_ok s : own_steps run_0 s -> l_ok (ms_manager s).
Proof.
  intros Hrun. destruct (own_steps_manager_ok free_config run_0 s free_config_ok run_0_started Hrun) as (I & Hc & _).
  split; [apply I|]. simpl. rewrite Hc. exact free_config_ok.
Qed.

Lemma at_hand_calm : calm at_hand.
Proof.
  split; try reflexivity.
  - intros k [|i] t _ Ht; simpl in Ht; [by injection Ht as <-|by rewrite lookup_nil in Ht].
  - intros i p _. vm_compute. lia.
Qed.

Lemma block_round_witness :
  exists s', steps at_hand s' /\ ms_kpc s' = KIdle /\ ms_mine s' = true /\
    is_Some (clientOps (ms_server s') !! OperationID op_f).
Proof.
  destruct (block_round range_fwd range_fwd at_hand blk_f [] (ms_manager block_added) at_hand_calm)
    as (s' & Hrun & _ & _ & Hk & _ & _ & Hops & _ & _ & _ & Hm).
  - apply (steps_ok run_0); [by eapply started_ok, run_0_started|apply own_steps_steps, run_at_hand].
  - reflexivity.
  - vm_compute. reflexivity.
  - exact (run_l_ok _ run_block_added).
  - intros i p Hp.
    assert (clientOps (ms_server at_hand) = {[OperationID op_f := mkPending op_f 0]}) as Heq by (vm_compute; reflexivity).
    rewrite Heq in Hp. apply lookup_singleton_Some in Hp as [_ <-]. vm_compute. reflexivity.
  - exists s'. split; [exact Hrun|]. split; [exact Hk|]. split; [rewrite Hm; reflexivity|].
    rewrite Hops. exists (mkPending op_f 0). vm_compute. reflexivity.
Defined.
