(* ===== verification/DeadlockScenarios.v ===== *)
(** Runs of a miner from its start into its deadlocks, the start of the whole
    program, and its end. *)
From S2P Require Import Prelude GoLib Settings Operation Block Pow Blockchain ChainTheory.
From S2P Require Import Ledger LedgerTheory AddBlock Rebuild RFSLedger Worker Resolver Manager.
From S2P Require Import Rfslib Server Peers Batch Dial Threads Miner MinerTheory Deadlock Rounds Startup.
From S2P Require Import Examples Scenarios MinerScenarios.
Local Open Scope Z_scope.
Local Open Scope string_scope.

#[local] Existing Instance gob_Operation.
#[local] Existing Instance gob_Operations.

(** ** Deadlocks *)

Definition blk_n : Block := Eval vm_compute in mine [] "root".
Definition op_g : Operation := Eval vm_compute in NewOperation Create "A" "g" "" 11.

(** Two calls have submitted their operations, and a block without them is added. *)
Definition both_submitted : MinerServer := Eval vm_compute in
  with_server (spawn submitted [HSend (MReceivedOp op_g); HReply op_g 1]) (submit (ms_server submitted) op_g).1.
Definition both_added : MinerServer := Eval vm_compute in add (pull (deliver both_submitted (mkFloodBlock blk_n "B"))).
Definition both_checked : MinerServer := Eval vm_compute in
  with_kpc (with_mpc both_added (MSends [OutSendBlock blk_n; OutContinueMining]))
    (KLoop (range range_fwd (clientOps (ms_server both_added))) []).

Lemma run_both_checked : own_steps run_0 both_checked.
Proof.
  eapply own_trans; [exact run_submitted|].
  alone (by_call _ _ _ (cl_CreateFile _ range_fwd "g" 11 _ _)).
  alone (by_call _ _ _ (cl_submit _ 2 op_g [] _ _)).
  eapply own_trans; [apply (deliver_run _ (mkFloodBlock blk_n "B")); evaluated|].
  eapply own_trans; [apply pull_run; [evaluated|evaluated|evaluated]|].
  eapply (own_trans _ both_added); [apply add_run; evaluated|].
  meet (by_manager _ _ _ (mg_send _ _ _ _ _ _)) and (by_check _ _ _ (ck_added _ _)).
  alone (by_check _ _ _ (ck_lock _ range_fwd _ _)). apply rtc_refl.
Qed.

Lemma resubmission_deadlock_witness :
  exists s s' op1 op2, own_steps run_0 s /\ steps s s' /\
    always (fun u => ms_kpc u = KResend op2 [] [] /\ ms_bpc u = BLock op1) s'.
Proof.
  destruct (resubmission_deadlock both_checked (OperationID op_g) (mkPending op_g 1) (OperationID op_f) (mkPending op_f 0) [] [])
    as (s' & Hrun & Hdead).
  all: try (vm_compute; reflexivity).
  - exact (run_l_ok _ run_both_checked).
  - do 4 eexists. split; [exact run_both_checked|]. split; [exact Hrun|].
    intros u Hu. destruct (Hdead u Hu) as (Hk & Hb & _). exact (conj Hk Hb).
Defined.

(** A block is at hand, and one without its parent has been received. *)
Definition orphan_received : MinerServer := Eval vm_compute in
  pull (deliver (deliver joined_0 (mkFloodBlock blk_f "B")) (mkFloodBlock ex_b3 "B")).
Definition orphan_asked : ChainManager := Eval vm_compute in
  match on_flooded (with_received (ms_manager orphan_received) []) ex_b3 with
  | Ret (m, _) => m
  | _ => ms_manager orphan_received
  end.
Definition orphan_added : ChainManager := Eval vm_compute in
  match on_add range_fwd range_fwd (with_addBlock orphan_asked []) blk_f with
  | Ret (m, _) => m
  | _ => orphan_asked
  end.

Lemma run_orphan_received : own_steps run_0 orphan_received.
Proof.
  eapply own_trans; [exact run_joined|].
  eapply own_trans; [apply (deliver_run _ (mkFloodBlock blk_f "B")); evaluated|].
  eapply own_trans; [apply (deliver_run _ (mkFloodBlock ex_b3 "B")); evaluated|].
  apply pull_run; evaluated.
Qed.

Lemma download_deadlock_witness :
  exists s s', own_steps run_0 s /\ steps s s' /\
    always (fun u => ms_mpc u = MSends [OutSendBlock blk_f; OutContinueMining] /\
      ms_ppc u = PForward [ex_b2] (Hash ex_b2) []) s'.
Proof.
  destruct (download_deadlock range_fwd range_fwd orphan_received ex_b3 [] orphan_asked blk_f [] orphan_added
    "B" B [] 0 (NewPeer "B" "x:1" 0) [ex_b2]) as (s' & Hrun & Hdead).
  all: try (vm_compute; reflexivity).
  exists orphan_received, s'. split; [exact run_orphan_received|]. split; [exact Hrun|].
  intros u Hu. destruct (Hdead u Hu) as (Hm & Hp & _). exact (conj Hm Hp).
Defined.

(** A block of another miner is about to be sent to the peer, and a call to flood
    an operation comes in. *)
Definition to_send : MinerServer := Eval vm_compute in
  let s := add (pull (deliver joined_0 (mkFloodBlock blk_n "C"))) in
  spawn (with_ppc (with_mpc (with_kpc s KLock) (MSends [OutContinueMining])) (PSends [PSendBlock "B" (mkFloodBlock blk_n "A")]))
    [HSend (MFloodOperation (mkFloodOp op_f [])); HSend (MReceivedOp op_f)].

Lemma run_to_send : own_steps run_0 to_send.
Proof.
  eapply own_trans; [exact run_joined|].
  eapply own_trans; [apply (deliver_run _ (mkFloodBlock blk_n "C")); evaluated|].
  eapply own_trans; [apply pull_run; [evaluated|evaluated|evaluated]|].
  eapply own_trans; [apply add_run; [evaluated|evaluated|evaluated]|].
  meet (by_manager _ _ _ (mg_send _ _ _ _ _ _)) and (by_check _ _ _ (ck_added _ _)).
  meet (by_manager _ _ _ (mg_send _ _ _ _ _ _)) and (by_peers _ _ _ (pr_sendBlock _ range_fwd _ _)).
  alone (by_call _ _ _ (cl_FloodOperation _ (mkFloodOp op_f []))). apply rtc_refl.
Qed.

Lemma dead_peer_deadlock_witness :
  exists s s', own_steps run_0 s /\ steps s s' /\
    always (fun u => exists req, ms_ppc u = PSends [PSendOp "B" req]) s'.
Proof.
  destruct (dead_peer_deadlock range_fwd range_fwd range_fwd to_send "B" (mkFloodBlock blk_n "A") 0
    (NewPeer "B" "x:1" 0) 2 (mkFloodOp op_f []) [HSend (MReceivedOp op_f)] (mkFloodOp op_f ["A"; "B"]) [] "timeout")
    as (s' & Hrun & Hdead).
  all: try (vm_compute; reflexivity).
  exists to_send, s'. split; [exact run_to_send|]. split; [exact Hrun|].
  intros u Hu. destruct (Hdead u Hu) as (Hp & _). eexists. exact Hp.
Defined.

(** ** The start and the end *)

Definition peer_config : Settings :=
  {| MinedCoinsPerOpBlock := 8; MinedCoinsPerNoOpBlock := 4;
     NumCoinsPerFileCreate := 4; GenOpBlockTimeout := 5;
     GenesisBlockHash := "root"; PowPerOpBlock := 1; PowPerNoOpBlock := 1;
     ConfirmsPerFileCreate := 1; ConfirmsPerFileAppend := 1;
     cfg_MinerID := "A"; PeerMinersAddrs := ["x:1"; "y:1"];
     IncomingMinersAddr := ":1"; OutgoingMinersIP := ""; IncomingClientsAddr := ":2" |}.

(** Two peers with the example chain; the second answers in the second round. *)
Definition ex_attempt (n : nat) (addr : string) : option (result NewPeerResponse) :=
  match GetBlocks range_fwd ex_chain.1 ex_chain.2 with
  | Ret blocks =>
      if decide (addr = "x:1") then Some (Ok (mkPeerResponse "B" blocks))
      else if decide (n = 0%nat) then None else Some (Ok (mkPeerResponse "C" blocks))
  | _ => None
  end.

Definition ex_booted : MinerServer := Eval vm_compute in
  match boot ex_net range_fwd [] peer_config 0 with Ret (Ok s) => s | _ => run_0 end.
Definition ex_dialed : ChainManager * list Peer := Eval vm_compute in
  match startMinerRPC ex_attempt range_fwd 2 peer_config (ms_manager ex_booted) with
  | Ret r => r
  | _ => (ms_manager ex_booted, [])
  end.

(** The program comes to wait, and its second peer was dialed. *)
Lemma main_run_witness :
  exists s s0, main (fun _ => Ok "{...}") (fun _ _ => (peer_config, None)) ex_net range_fwd [] 0 ["config"] (Waiting s) /\
    isMining (ms_loop s) = true /\ started peer_config s0 /\ steps s0 s /\ met s0 s "y:1".
Proof.
  destruct (main_run (fun _ => Ok "{...}") (fun _ _ => (peer_config, None)) ex_net range_fwd [] 0 ["config"]) as [Hall Hsome].
  destruct (Hsome "config" peer_config ex_booted ex_attempt range_fwd 2%nat ex_dialed.1 ex_dialed.2) as (s & Hmain & _ & Hc).
  - reflexivity.
  - reflexivity.
  - vm_compute. reflexivity.
  - vm_compute. reflexivity.
  - destruct (Hall s Hmain) as (fname & config & s0 & _ & Hload & Hst & Hrun & _ & Hmet). injection Hload as <-.
    exists s, s0. split; [exact Hmain|]. split; [apply Hc; discriminate|]. split; [exact Hst|]. split; [exact Hrun|].
    apply Hmet. right. left.
Defined.

Lemma shutdown_completes_witness :
  ms_wg at_hand = 3 /\ exists s', steps at_hand s' /\ ms_wg s' = 0.
Proof.
  destruct (shutdown_completes free_config run_0 at_hand run_0_started (own_steps_steps _ _ run_at_hand))
    as (_ & _ & Hstop). split; [reflexivity|].
  destruct Hstop as (s' & Hrun & Hwg & _); [reflexivity..|]. exists s'. exact (conj Hrun Hwg).
Defined.
